(** * Ferminator: spreadsheet-to-Guesstimate transpiler

    A shallow embedding of [src/lib/sheetToGuesstimate.ts] and the properties
    of its grid builder, formula translator, address normaliser, graph
    builder and dependency-diagram extractor.

    Conventions of the embedding.
    - A JavaScript string is a [string]: a sequence of code units, here the
      8-bit ones.  Case conversion is embedded for ASCII text: [inlineSum],
      which upper-cases the formula, and [Pattern.compile], whose patterns
      fold case, are [NotModelled] on a text with a code unit from 128 on.
      The pattern literals of the source are ASCII, and for them the
      case-insensitive flag is exact on every text.
    - Integers that the program obtains with [parseInt] or [Number] from digit
      strings are [Z] below 2^53, where a double holds them exactly.  From
      2^53 on the value is rounded and a counting loop need not end:
      [deRange] and [inlineSum] are [NotModelled] there.
    - The numbers of the percentage passes are IEEE-754 doubles, modelled by
      exact rational arithmetic with round-to-nearest-even ([Num.number]),
      and printed as Number::toString prints them.
    - A regular expression is a syntax tree ([RegExp.regex]) run by a
      backtracking matcher that follows the matcher of the language
      definition (greedy quantifiers, leftmost alternative first, empty
      iterations refused).  The pattern literals of the source are written
      as trees; the pattern built from a sheet name is parsed
      ([Pattern.compile]).
    - Code that can throw returns an [outcome].  There are no resource
      limits: a string or an array can have any length.
    - The spreadsheet reader is an input: a document is the list of its
      sheets, a sheet the list of its rows, a row the list of its cells, as
      [eachSheet], [eachRow] and [eachCell] of the reader iterate them. *)

From Stdlib Require Import String Ascii List ZArith Bool Lia Arith DecimalString DecimalPos DecimalN Sorted.
Import ListNotations.
Local Open Scope string_scope.
Local Open Scope bool_scope.

(** ** Strings *)

Module Str.

Definition ch (c : ascii) : string := String c EmptyString.

Fixpoint rev_app (s acc : string) : string :=
  match s with
  | EmptyString => acc
  | String c s' => rev_app s' (String c acc)
  end.

Definition rev (s : string) : string := rev_app s EmptyString.

Fixpoint take (n : nat) (s : string) : string :=
  match n, s with
  | S n', String c s' => String c (take n' s')
  | _, _ => EmptyString
  end.

Fixpoint drop (n : nat) (s : string) : string :=
  match n, s with
  | S n', String _ s' => drop n' s'
  | _, _ => s
  end.

Fixpoint startsWith (p s : string) : bool :=
  match p, s with
  | EmptyString, _ => true
  | String a p', String b s' => Ascii.eqb b a && startsWith p' s'
  | String _ _, EmptyString => false
  end.

Fixpoint includes (s sub : string) : bool :=
  startsWith sub s ||
  match s with
  | EmptyString => false
  | String _ s' => includes s' sub
  end.

Fixpoint concat (l : list string) : string :=
  match l with
  | [] => EmptyString
  | x :: l' => x ++ concat l'
  end.

(** [Array.prototype.join] *)
Fixpoint join (sep : string) (l : list string) : string :=
  match l with
  | [] => EmptyString
  | [x] => x
  | x :: l' => x ++ sep ++ join sep l'
  end.

Definition isEmpty (s : string) : bool :=
  match s with EmptyString => true | _ => false end.

Definition code (c : ascii) : nat := nat_of_ascii c.

Definition inRange (lo hi c : ascii) : bool :=
  (code lo <=? code c)%nat && (code c <=? code hi)%nat.

Definition isDigit (c : ascii) : bool := inRange "0" "9" c.
Definition isUpper (c : ascii) : bool := inRange "A" "Z" c.
Definition isLower (c : ascii) : bool := inRange "a" "z" c.
Definition isWordChar (c : ascii) : bool :=
  isUpper c || isLower c || isDigit c || Ascii.eqb c "_".

(** WhiteSpace and LineTerminator code units below 256. *)
Definition isSpace (c : ascii) : bool :=
  let n := code c in
  ((9 <=? n) && (n <=? 13) || (n =? 32) || (n =? 160))%nat.

Definition upperChar (c : ascii) : ascii :=
  if isLower c then ascii_of_nat (code c - 32) else c.

Definition lowerChar (c : ascii) : ascii :=
  if isUpper c then ascii_of_nat (code c + 32) else c.

(** [s.toUpperCase()] for an ASCII text [s]. *)
Fixpoint toUpperCase (s : string) : string :=
  match s with
  | EmptyString => EmptyString
  | String c s' => String (upperChar c) (toUpperCase s')
  end.

Definition asciiChar (c : ascii) : bool := (code c <? 128)%nat.

Fixpoint isAscii (s : string) : bool :=
  match s with
  | EmptyString => true
  | String c s' => asciiChar c && isAscii s'
  end.

Fixpoint trimStart (s : string) : string :=
  match s with
  | String c s' => if isSpace c then trimStart s' else s
  | EmptyString => EmptyString
  end.

Definition trim (s : string) : string :=
  rev (trimStart (rev (trimStart s))).

(** [s.slice(a)] and [s.slice(a, -b)] for non-negative [a], [b]. *)
Definition sliceFrom (a : nat) (s : string) : string := drop a s.
Definition sliceBetween (a b : nat) (s : string) : string :=
  take (String.length s - b - a) (drop a s).

(** [s.split(sep)] for a one-character separator. *)
Fixpoint splitOn (sep : ascii) (cur_rev : string) (s : string) : list string :=
  match s with
  | EmptyString => [rev cur_rev]
  | String c s' =>
      if Ascii.eqb c sep then rev cur_rev :: splitOn sep EmptyString s'
      else splitOn sep (String c cur_rev) s'
  end.

Definition split (sep : ascii) (s : string) : list string :=
  splitOn sep EmptyString s.

Fixpoint count (c : ascii) (s : string) : nat :=
  match s with
  | EmptyString => 0
  | String a s' => (if Ascii.eqb a c then 1 else 0) + count c s'
  end.

End Str.

(** ** Outcomes of code that can throw *)

Inductive outcome (A : Type) : Type :=
| Returns (a : A)
| Throws                (* an exception leaves the function *)
| NotModelled.          (* input outside the fragment the embedding covers *)
Arguments Returns {A} a.
Arguments Throws {A}.
Arguments NotModelled {A}.

Definition bind {A B} (o : outcome A) (f : A -> outcome B) : outcome B :=
  match o with
  | Returns a => f a
  | Throws => Throws
  | NotModelled => NotModelled
  end.

Notation "x <- o ;; f" := (bind o (fun x => f))
  (at level 61, o at next level, right associativity).

(** Did the code return. *)
Definition returned {A} (o : outcome A) : bool :=
  match o with
  | Returns _ => true
  | _ => false
  end.

(** ** Regular expressions *)

Module RegExp.

(** The syntax trees of the patterns the program uses.  Groups carry their
    number; [RNotAfter c] is the lookbehind [(?<!c)] for one character. *)
Inductive regex : Type :=
| REmpty
| RChar (c : ascii)
| RAny
| RClass (neg : bool) (ranges : list (ascii * ascii))
| RSeq (r1 r2 : regex)
| RAlt (r1 r2 : regex)
| RRep (min : nat) (max : option nat) (r : regex)
| RGroup (n : nat) (r : regex)
| RNotAfter (c : ascii)
| RBol
| REol.

Definition RStar := RRep 0 None.
Definition RPlus := RRep 1 None.
Definition ROpt := RRep 0 (Some 1).

Fixpoint RLit (s : string) : regex :=
  match s with
  | EmptyString => REmpty
  | String c s' => RSeq (RChar c) (RLit s')
  end.

Fixpoint RSeqs (l : list regex) : regex :=
  match l with
  | [] => REmpty
  | [r] => r
  | r :: l' => RSeq r (RSeqs l')
  end.

(** Character classes of the source patterns. *)
Definition cls_AZ := RClass false [("A", "Z")]%char.
Definition cls_09 := RClass false [("0", "9")]%char.
Definition cls_d := cls_09.
Definition cls_s :=
  RClass false [("009", "013"); (" ", " "); ("160", "160")]%char.
Definition cls_W :=
  RClass true [("A", "Z"); ("a", "z"); ("0", "9"); ("_", "_")]%char.

(** ** The matcher state: the input split at the current index (the part
    already passed is kept reversed) and the captures so far. *)
Record mstate : Type := MState {
  before : string;
  after : string;
  caps : list (nat * string)
}.

Definition advance (c : ascii) (rest : string) (x : mstate) : mstate :=
  MState (String c (before x)) rest (caps x).

(** Canonicalize of the [i] flag. *)
Definition canon (ic : bool) (c : ascii) : ascii :=
  if ic then Str.upperChar c else c.

Definition charEq (ic : bool) (a b : ascii) : bool :=
  Ascii.eqb (canon ic a) (canon ic b).

Definition inRanges (ranges : list (ascii * ascii)) (c : ascii) : bool :=
  existsb (fun r => Str.inRange (fst r) (snd r) c) ranges.

(** A class contains [c] under [i] when it has a member with the same
    canonical form: [c] itself, its upper-case or its lower-case form. *)
Definition classHas (ic : bool) (ranges : list (ascii * ascii)) (c : ascii) : bool :=
  inRanges ranges c ||
  (ic && (inRanges ranges (Str.upperChar c) || inRanges ranges (Str.lowerChar c))).

Definition isLineTerminator (c : ascii) : bool :=
  Ascii.eqb c "010" || Ascii.eqb c "013".

Definition consumed (x y : mstate) : string :=
  Str.take (String.length (after x) - String.length (after y)) (after x).

Definition setCap (n : nat) (s : string) (y : mstate) : mstate :=
  MState (before y) (after y) ((n, s) :: caps y).

(** RepeatMatcher of the language definition, for a greedy quantifier
    [{min,max}] over the matcher [m]: an iteration that is not required and
    consumes nothing is refused.  Every round lowers [min] or consumes a
    character, so [min] plus the length of the rest of the input, plus one,
    is fuel enough. *)
Fixpoint RepeatMatcher (m : (mstate -> option mstate) -> mstate -> option mstate)
    (k : mstate -> option mstate) (fuel min : nat) (max : option nat)
    (x : mstate) {struct fuel} : option mstate :=
  match fuel with
  | O => None
  | S fuel' =>
      match max with
      | Some O => k x
      | _ =>
          let d := fun y =>
            if (min =? 0)%nat &&
               (String.length (after y) =? String.length (after x))%nat
            then None
            else RepeatMatcher m k fuel' (Nat.pred min) (option_map Nat.pred max) y in
          if (min =? 0)%nat then
            match m d x with
            | Some z => Some z
            | None => k x
            end
          else m d x
      end
  end.

(** The backtracking matcher, in continuation-passing style as in the
    language definition: [rmatch ic r k x] matches [r] at [x] and hands the
    end state to [k]; the first success in priority order wins. *)
Fixpoint rmatch (ic : bool) (r : regex) (k : mstate -> option mstate)
    (x : mstate) {struct r} : option mstate :=
  match r with
  | REmpty => k x
  | RChar c =>
      match after x with
      | String a rest => if charEq ic a c then k (advance a rest x) else None
      | EmptyString => None
      end
  | RAny =>
      match after x with
      | String a rest => if isLineTerminator a then None else k (advance a rest x)
      | EmptyString => None
      end
  | RClass neg ranges =>
      match after x with
      | String a rest =>
          if xorb neg (classHas ic ranges a) then k (advance a rest x) else None
      | EmptyString => None
      end
  | RSeq r1 r2 => rmatch ic r1 (fun y => rmatch ic r2 k y) x
  | RAlt r1 r2 =>
      match rmatch ic r1 k x with
      | Some z => Some z
      | None => rmatch ic r2 k x
      end
  | RRep min max r' =>
      RepeatMatcher (rmatch ic r') k (S (min + String.length (after x))) min max x
  | RGroup n r' => rmatch ic r' (fun y => k (setCap n (consumed x y) y)) x
  | RNotAfter c =>
      match before x with
      | String a _ => if Ascii.eqb a c then None else k x
      | EmptyString => k x
      end
  | RBol => match before x with EmptyString => k x | _ => None end
  | REol => match after x with EmptyString => k x | _ => None end
  end.

(** One attempt at the current index, with no captures yet. *)
Definition matchHere (ic : bool) (r : regex) (bef aft : string) : option mstate :=
  rmatch ic r (fun y => Some y) (MState bef aft []).

(** A successful match: the text before it, the match, the text after it
    and the captures. *)
Record jsmatch : Type := JSMatch {
  m_before : string;      (* reversed *)
  m_text : string;
  m_after : string;
  m_caps : list (nat * string)
}.

Fixpoint lookupCap (n : nat) (l : list (nat * string)) : option string :=
  match l with
  | [] => None
  | (m, s) :: l' => if (m =? n)%nat then Some s else lookupCap n l'
  end.

(** [match[n]] for a group that took part in the match; [undefined] is
    the empty string wherever the program uses it. *)
Definition group (n : nat) (m : jsmatch) : string :=
  match lookupCap n (m_caps m) with Some s => s | None => "" end.

(** A global scan of the input: the characters outside matches and the
    matches, in order.  After an empty match the index moves on by one. *)
Inductive piece : Type :=
| Lit (c : ascii)
| Hit (m : jsmatch).

Fixpoint scan (fuel : nat) (ic : bool) (r : regex) (bef aft : string)
    : list piece :=
  match fuel with
  | O => []
  | S fuel' =>
      match matchHere ic r bef aft with
      | Some y =>
          let txt := Str.take (String.length aft - String.length (after y)) aft in
          let hit := Hit (JSMatch bef txt (after y) (caps y)) in
          match txt with
          | EmptyString =>
              match aft with
              | EmptyString => [hit]
              | String c rest => hit :: Lit c :: scan fuel' ic r (String c bef) rest
              end
          | _ => hit :: scan fuel' ic r (before y) (after y)
          end
      | None =>
          match aft with
          | EmptyString => []
          | String c rest => Lit c :: scan fuel' ic r (String c bef) rest
          end
      end
  end.

Definition scanAll (ic : bool) (r : regex) (s : string) : list piece :=
  scan (S (String.length s)) ic r "" s.

Fixpoint hits (l : list piece) : list jsmatch :=
  match l with
  | [] => []
  | Lit _ :: l' => hits l'
  | Hit m :: l' => m :: hits l'
  end.

(** [s.matchAll(r)] for a global [r], as the list of its matches. *)
Definition matchAll (ic : bool) (r : regex) (s : string) : list jsmatch :=
  hits (scanAll ic r s).

(** [r.test(s)] for a pattern without the global flag: is there a match at
    some index. *)
Fixpoint testFrom (fuel : nat) (ic : bool) (r : regex) (bef aft : string) : bool :=
  match fuel with
  | O => false
  | S fuel' =>
      match matchHere ic r bef aft with
      | Some _ => true
      | None =>
          match aft with
          | EmptyString => false
          | String c rest => testFrom fuel' ic r (String c bef) rest
          end
      end
  end.

Definition test (ic : bool) (r : regex) (s : string) : bool :=
  testFrom (S (String.length s)) ic r "" s.

(** GetSubstitution: the replacement text for one match, with the dollar
    patterns of a replacement string.  [ngroups] is the number of capturing
    groups of the pattern. *)
Definition digitVal (c : ascii) : nat := Str.code c - 48.

Definition capOr (ngroups idx : nat) (m : jsmatch) (lit : string) : string :=
  if (1 <=? idx)%nat && (idx <=? ngroups)%nat then group idx m else lit.

Fixpoint getSubstitution (ngroups : nat) (m : jsmatch) (tmpl : string) : string :=
  match tmpl with
  | EmptyString => EmptyString
  | String c rest =>
      if negb (Ascii.eqb c "$") then String c (getSubstitution ngroups m rest)
      else
        match rest with
        | EmptyString => String "$" EmptyString
        | String d1 rest' =>
            if Ascii.eqb d1 "$" then String "$" (getSubstitution ngroups m rest')
            else if Ascii.eqb d1 "&" then m_text m ++ getSubstitution ngroups m rest'
            else if Ascii.eqb d1 "`"
            then Str.rev (m_before m) ++ getSubstitution ngroups m rest'
            else if Ascii.eqb d1 "'" then m_after m ++ getSubstitution ngroups m rest'
            else if Str.isDigit d1 then
              let one :=
                capOr ngroups (digitVal d1) m (String "$" (Str.ch d1))
                  ++ getSubstitution ngroups m rest' in
              match rest' with
              | String d2 rest'' =>
                  if Str.isDigit d2 then
                    let idx := (10 * digitVal d1 + digitVal d2)%nat in
                    if (ngroups <? idx)%nat then one
                    else capOr ngroups idx m (String "$" (String d1 (Str.ch d2)))
                           ++ getSubstitution ngroups m rest''
                  else one
              | EmptyString => one
              end
            else String "$" (getSubstitution ngroups m rest)
        end
  end.

Fixpoint render (ngroups : nat) (tmpl : string) (l : list piece) : string :=
  match l with
  | [] => EmptyString
  | Lit c :: l' => String c (render ngroups tmpl l')
  | Hit m :: l' => getSubstitution ngroups m tmpl ++ render ngroups tmpl l'
  end.

(** [s.replaceAll(r, tmpl)] for a global pattern [r]. *)
Definition replaceAll (ic : bool) (r : regex) (ngroups : nat) (tmpl s : string)
    : string :=
  render ngroups tmpl (scanAll ic r s).

(** [s.replaceAll(pat, tmpl)] for a string [pat]: every occurrence, found
    from the left without overlap. *)
Definition replaceAllStr (s pat tmpl : string) : string :=
  replaceAll false (RLit pat) 0 tmpl s.

(** [s.replace(pat, tmpl)] for a string [pat]: the first occurrence only. *)
Fixpoint renderFirst (tmpl : string) (l : list piece) : string :=
  match l with
  | [] => EmptyString
  | Lit c :: l' => String c (renderFirst tmpl l')
  | Hit m :: _ => getSubstitution 0 m tmpl ++ m_after m
  end.

Definition replaceFirstStr (s pat tmpl : string) : string :=
  renderFirst tmpl (scanAll false (RLit pat) s).

End RegExp.

(** ** Numbers *)

Module Num.
Local Open Scope Z_scope.

(** An IEEE-754 double: not-a-number, an infinity, or the finite value
    [(-1)^neg * m * 2^e] with [0 <= m < 2^53] and [-1074 <= e <= 971]. *)
Inductive number : Type :=
| NaN
| Inf (neg : bool)
| Fin (neg : bool) (m e : Z).

(** [n/d / 2^e] as a fraction. *)
Definition scale (n d e : Z) : Z * Z :=
  if 0 <=? e then (n, d * 2 ^ e) else (n * 2 ^ (- e), d).

(** The integer nearest to [n/d], ties to even. *)
Definition roundQ (n d : Z) : Z :=
  let q := n / d in
  let r := n mod d in
  if 2 * r <? d then q
  else if d <? 2 * r then q + 1
  else if Z.even q then q else q + 1.

(** The double nearest to the non-negative fraction [n/d]. *)
Definition ofQ (neg : bool) (n d : Z) : number :=
  if n =? 0 then Fin neg 0 0 else
  let l := Z.log2 n - Z.log2 d in
  let '(n1, d1) := scale n d l in
  let fl := if d1 <=? n1 then l else l - 1 in
  let e := Z.max (fl - 52) (-1074) in
  let '(n2, d2) := scale n d e in
  let m := roundQ n2 d2 in
  let '(m', e') := if m =? 2 ^ 53 then (2 ^ 52, e + 1) else (m, e) in
  if 971 <? e' then Inf neg else Fin neg m' e'.

(** The fraction of a finite double. *)
Definition toQ (m e : Z) : Z * Z := scale m 1 (- e).

Definition ofInt (z : Z) : number := ofQ (z <? 0) (Z.abs z) 1.

(** [x / 100] *)
Definition div100 (x : number) : number :=
  match x with
  | NaN => NaN
  | Inf neg => Inf neg
  | Fin neg m e => let '(n, d) := toQ m e in ofQ neg n (d * 100)
  end.

Definition sameDouble (x : number) (neg : bool) (m e : Z) : bool :=
  match x, ofQ neg (fst (toQ m e)) (snd (toQ m e)) with
  | Fin n1 m1 e1, Fin n2 m2 e2 => Bool.eqb n1 n2 && (m1 =? m2) && (e1 =? e2)
  | _, _ => false
  end.

(** Decimal digits of a non-negative integer. *)
Definition digitsOfZ (z : Z) : string :=
  DecimalString.NilZero.string_of_uint (N.to_uint (Z.to_N z)).

(** [`${z}`] for an integer [z]. *)
Definition intToString (z : Z) : string :=
  if z <? 0 then String "-" (digitsOfZ (- z)) else digitsOfZ z.

Fixpoint zeros (n : nat) : string :=
  match n with O => EmptyString | S n' => String "0" (zeros n') end.

(** Is [n/d < 10^k]. *)
Definition ltPow10 (n d k : Z) : bool :=
  if 0 <=? k then n <? d * 10 ^ k else n * 10 ^ (- k) <? d.

(** The [n] of Number::toString: [10^(n-1) <= x < 10^n]. *)
Fixpoint decExponent (fuel : nat) (xn xd n : Z) : Z :=
  match fuel with
  | O => n
  | S fuel' =>
      if ltPow10 xn xd n then
        if ltPow10 xn xd (n - 1) then decExponent fuel' xn xd (n - 1) else n
      else decExponent fuel' xn xd (n + 1)
  end.

(** [s * 10^(n-k)] as a fraction. *)
Definition decQ (s n k : Z) : Z * Z :=
  if 0 <=? n - k then (s * 10 ^ (n - k), 1) else (s, 10 ^ (k - n)).

Definition roundTrips (neg : bool) (m e s n k : Z) : bool :=
  let '(a, b) := decQ s n k in sameDouble (ofQ neg a b) neg m e.

(** The shortest digit string that reads back as the double: the least
    [k] and the [s], [n] with [s * 10^(n-k)] nearest to the value. *)
Fixpoint shortest (fuel : nat) (neg : bool) (m e xn xd n k : Z) : Z * Z * Z :=
  match fuel with
  | O => (0, n, k)
  | S fuel' =>
      (* t = x / 10^(n-k) *)
      let '(tn, td) :=
        if 0 <=? n - k then (xn, xd * 10 ^ (n - k)) else (xn * 10 ^ (k - n), xd) in
      let lo := tn / td in
      let hi := lo + 1 in
      let okLo := roundTrips neg m e lo n k in
      let '(hs, hn) := if hi =? 10 ^ k then (10 ^ (k - 1), n + 1) else (hi, n) in
      let okHi := roundTrips neg m e hs hn k in
      let r := tn mod td in
      let loCloser := (2 * r <? td) || ((2 * r =? td) && Z.even lo) in
      if okLo && (negb okHi || loCloser) then (lo, n, k)
      else if okHi then (hs, hn, k)
      else shortest fuel' neg m e xn xd n (k + 1)
  end.

(** Number::toString, radix 10. *)
Definition toString (x : number) : string :=
  match x with
  | NaN => "NaN"
  | Inf neg => if neg then "-Infinity" else "Infinity"
  | Fin neg m e =>
      if m =? 0 then "0" else
      let '(xn, xd) := toQ m e in
      let n0 := decExponent 800 xn xd 0 in
      let '(s, n, k) := shortest 17 neg m e xn xd n0 1 in
      let ds := digitsOfZ s in
      let body :=
        if (k <=? n) && (n <=? 21) then ds ++ zeros (Z.to_nat (n - k))
        else if (0 <? n) && (n <=? 21) then
          Str.take (Z.to_nat n) ds ++ "." ++ Str.drop (Z.to_nat n) ds
        else if (-6 <? n) && (n <=? 0) then
          "0." ++ zeros (Z.to_nat (- n)) ++ ds
        else
          let ex := n - 1 in
          let sg := if ex <? 0 then "-" else "+" in
          let mant := if k =? 1 then ds
                      else Str.take 1 ds ++ "." ++ Str.drop 1 ds in
          mant ++ "e" ++ sg ++ digitsOfZ (Z.abs ex) in
      if neg then String "-" body else body
  end.

(** Leading decimal digits of a string: their value, their number and the
    rest. *)
Fixpoint readDigits (s : string) (acc : Z) (cnt : nat) : Z * nat * string :=
  match s with
  | String c s' =>
      if Str.isDigit c
      then readDigits s' (10 * acc + Z.of_nat (Str.code c - 48)) (S cnt)
      else (acc, cnt, s)
  | EmptyString => (acc, cnt, s)
  end.

(** [parseFloat(s)] for the texts the program passes to it, which are made
    of a sign, blanks, digits, dots and a percent sign: the longest prefix
    [digits], [digits.digits] or [.digits] after leading blanks and a
    sign. *)
Definition parseFloat (s : string) : number :=
  let s0 := Str.trimStart s in
  let '(neg, s1) :=
    match s0 with
    | String "-" r => (true, r)
    | String "+" r => (false, r)
    | _ => (false, s0)
    end in
  let '(i, ci, s2) := readDigits s1 0 0%nat in
  match s2 with
  | String "." s3 =>
      let '(f, cf, _) := readDigits s3 0 0%nat in
      if ((ci =? 0) && (cf =? 0))%nat then NaN
      else ofQ neg (i * 10 ^ Z.of_nat cf + f) (10 ^ Z.of_nat cf)
  | _ => if (ci =? 0)%nat then NaN else ofQ neg i 1
  end.

(** [parseInt(s, 10)]; [None] is NaN. *)
Definition parseInt (s : string) : option Z :=
  let s0 := Str.trimStart s in
  let '(neg, s1) :=
    match s0 with
    | String "-" r => (true, r)
    | String "+" r => (false, r)
    | _ => (false, s0)
    end in
  let '(i, ci, _) := readDigits s1 0 0%nat in
  if (ci =? 0)%nat then None else Some (if neg then - i else i).

(** StringToNumber is NaN unless the trimmed text is empty or a
    StrNumericLiteral: a signed decimal literal, [Infinity], or an unsigned
    hexadecimal, octal or binary integer literal. *)
Fixpoint allChars (p : ascii -> bool) (s : string) : bool :=
  match s with
  | EmptyString => true
  | String c s' => p c && allChars p s'
  end.

Definition isExponentOrEnd (s : string) : bool :=
  match s with
  | EmptyString => true
  | String c r =>
      (Ascii.eqb c "e" || Ascii.eqb c "E") &&
      let r' := match r with
                | String "+" t => t
                | String "-" t => t
                | _ => r
                end in
      negb (Str.isEmpty r') && allChars Str.isDigit r'
  end.

Definition isDecimalLiteral (s : string) : bool :=
  let '(_, ci, s2) := readDigits s 0 0%nat in
  match s2 with
  | String "." s3 =>
      let '(_, cf, s4) := readDigits s3 0 0%nat in
      negb ((ci =? 0) && (cf =? 0))%nat && isExponentOrEnd s4
  | _ => negb (ci =? 0)%nat && isExponentOrEnd s2
  end.

Definition isHexDigit (c : ascii) : bool :=
  Str.isDigit c || Str.inRange "a" "f" c || Str.inRange "A" "F" c.

Definition isNonDecimalLiteral (s : string) : bool :=
  match s with
  | String "0" (String x r) =>
      negb (Str.isEmpty r) &&
      (if Ascii.eqb x "x" || Ascii.eqb x "X" then allChars isHexDigit r
       else if Ascii.eqb x "o" || Ascii.eqb x "O" then allChars (Str.inRange "0" "7") r
       else if Ascii.eqb x "b" || Ascii.eqb x "B" then allChars (Str.inRange "0" "1") r
       else false)
  | _ => false
  end.

(** [isNaN(s)] for a string [s]. *)
Definition isNaN (s : string) : bool :=
  let t := Str.trim s in
  let u := match t with
           | String "+" r => r
           | String "-" r => r
           | _ => t
           end in
  negb (Str.isEmpty t
        || String.eqb u "Infinity"
        || isDecimalLiteral u
        || isNonDecimalLiteral t).

End Num.

(** ** FormulaTranslator *)

Import RegExp.

Definition charAt0 (s : string) : option ascii :=
  match s with
  | String c _ => Some c
  | EmptyString => None
  end.

Definition optAsciiEqb (a b : option ascii) : bool :=
  match a, b with
  | Some x, Some y => Ascii.eqb x y
  | None, None => true
  | _, _ => false
  end.

Fixpoint numbersFrom (n : nat) (z : Z) : list Z :=
  match n with
  | O => []
  | S n' => z :: numbersFrom n' (z + 1)%Z
  end.

(** An integer that a double holds exactly, so that counting from it goes
    one by one. *)
Definition isSafeInteger (z : Z) : bool := (Z.abs z <? 2 ^ 53)%Z.

(** The values of [for (number = a; number <= b; number++)]; a NaN bound
    gives no iteration.  With a bound from 2^53 on the counter can stall. *)
Definition numberRange (a b : option Z) : outcome (list Z) :=
  match a, b with
  | Some x, Some y =>
      if isSafeInteger x && isSafeInteger y
      then Returns (numbersFrom (Z.to_nat (y - x + 1)) x)
      else NotModelled
  | _, _ => Returns []
  end.

(** The values of [for (letter = a; letter <= b; letter = nextLetter(letter))];
    an [undefined] bound gives no iteration. *)
Definition letterRange (a b : option ascii) : list ascii :=
  match a, b with
  | Some x, Some y =>
      map ascii_of_nat (seq (Str.code x) (Str.code y + 1 - Str.code x))
  | _, _ => []
  end.

Definition deRange (start end_ : string) : outcome (list string) :=
  let letterStart := charAt0 start in
  let letterEnd := charAt0 end_ in
  let numberStart := Num.parseInt (Str.sliceFrom 1 start) in
  let numberEnd := Num.parseInt (Str.sliceFrom 1 end_) in
  numbers <- numberRange numberStart numberEnd ;;
  Returns
    (flat_map
       (fun letter =>
          map (fun number => String letter (Num.intToString number)) numbers)
       (letterRange letterStart letterEnd)).

(** [[A-Z][0-9]+] *)
Definition re_address : regex := RSeq cls_AZ (RPlus cls_09).

(** [/([0-9.]+)%/g] *)
Definition re_percentage : regex :=
  RSeq (RGroup 1 (RPlus (RClass false [("0", "9"); (".", ".")]%char))) (RChar "%").

Definition evalPercentage (formula : string) : string :=
  let matches := matchAll false re_percentage formula in
  fold_left
    (fun formula m =>
       replaceAllStr formula (m_text m)
         (Num.toString (Num.div100 (Num.parseFloat (group 1 m)))))
    matches formula.

(** [/SUMPRODUCT\(([A-Z][0-9]+):([A-Z][0-9]+),([A-Z][0-9]+):([A-Z][0-9]+)\)/gi] *)
Definition re_SUMPRODUCT : regex :=
  RSeqs [RLit "SUMPRODUCT("; RGroup 1 re_address; RChar ":"; RGroup 2 re_address;
         RChar ","; RGroup 3 re_address; RChar ":"; RGroup 4 re_address; RChar ")"].

Fixpoint inlineSUMPRODUCT_loop (matches : list jsmatch) (formula : string)
    : outcome string :=
  match matches with
  | [] => Returns formula
  | m :: rest =>
      sumRange <- deRange (group 1 m) (group 2 m) ;;
      prodRange <- deRange (group 3 m) (group 4 m) ;;
      if (List.length sumRange =? 0)%nat
         || negb (List.length sumRange =? List.length prodRange)%nat
      then Returns formula
      else
        let inlinedSumProd :=
          Str.concat (map (fun sp => "+" ++ fst sp ++ "*" ++ snd sp)
                          (combine sumRange prodRange)) in
        inlineSUMPRODUCT_loop rest
          (replaceAllStr formula (m_text m) ("(" ++ inlinedSumProd ++ ")"))
  end.

Definition inlineSUMPRODUCT (formula : string) : outcome string :=
  inlineSUMPRODUCT_loop (matchAll true re_SUMPRODUCT formula) formula.

(** [/AVERAGE\(([^()]+)\)/gi] *)
Definition re_AVERAGE : regex :=
  RSeqs [RLit "AVERAGE(";
         RGroup 1 (RPlus (RClass true [("(", "("); (")", ")")]%char));
         RChar ")"].

(** [flatMap] with a callback that need not return. *)
Fixpoint flatMap {A B} (f : A -> outcome (list B)) (l : list A) : outcome (list B) :=
  match l with
  | [] => Returns []
  | a :: l' =>
      bs <- f a ;;
      rest <- flatMap f l' ;;
      Returns (bs ++ rest)%list
  end.

Definition averageArgs (inner : string) : outcome (list string) :=
  flatMap
    (fun arg =>
       if Str.includes arg ":"
       then deRange (nth 0 (Str.split ":" arg) "") (nth 1 (Str.split ":" arg) "")
       else Returns [arg])
    (Str.split "," inner).

Fixpoint inlineAverage_loop (matches : list jsmatch) (formula : string)
    : outcome string :=
  match matches with
  | [] => Returns formula
  | m :: rest =>
      args <- averageArgs (group 1 m) ;;
      inlineAverage_loop rest
        (replaceAllStr formula (m_text m)
           ("((" ++ Str.join "+" args ++ ")/"
              ++ Num.intToString (Z.of_nat (List.length args)) ++ ")"))
  end.

Definition inlineAverage (formula : string) : outcome string :=
  inlineAverage_loop (matchAll true re_AVERAGE formula) formula.

(** [/SUM/g], [/_SUM\(([A-Z][0-9]+,?)+\)/g] and
    [/_SUM\([A-Z][0-9]+:[A-Z][0-9]+\)/g] *)
Definition re_SUM : regex := RLit "SUM".

Definition re_commaSum : regex :=
  RSeqs [RLit "_SUM(";
         RPlus (RGroup 1 (RSeqs [cls_AZ; RPlus cls_09; ROpt (RChar ",")]));
         RChar ")"].

Definition re_rangeSum : regex :=
  RSeqs [RLit "_SUM("; cls_AZ; RPlus cls_09; RChar ":"; cls_AZ; RPlus cls_09;
         RChar ")"].

(** [s.match(r)] for a global [r]: [None] is [null]. *)
Definition matchG (r : regex) (s : string) : option (list string) :=
  match matchAll false r s with
  | [] => None
  | l => Some (map m_text l)
  end.

(** [Number(s)] where the pattern has let only digits through.  From
    2^53 on the value is rounded, and the loop that counts up to it can
    stall. *)
Definition NumberOfDigits (s : string) : outcome Z :=
  if Num.allChars Str.isDigit s
  then
    let z := fst (fst (Num.readDigits s 0 0)) in
    if isSafeInteger z then Returns z else NotModelled
  else NotModelled.

Definition letterText (c : option ascii) : string :=
  match c with
  | Some a => Str.ch a
  | None => "undefined"
  end.

Fixpoint inlineSum_loop (sums : list string) (formula : string) : outcome string :=
  match sums with
  | [] => Returns formula
  | sum :: rest =>
      let contents := Str.sliceBetween 5 1 sum in
      match Str.split ":" contents with
      | start :: end_ :: _ =>
          if negb (optAsciiEqb (charAt0 start) (charAt0 end_)) then Returns formula
          else
            let letter := letterText (charAt0 start) in
            startNumber <- NumberOfDigits (Str.sliceFrom 1 start) ;;
            endNumber <- NumberOfDigits (Str.sliceFrom 1 end_) ;;
            let newSum :=
              letter ++ Num.intToString startNumber ++
              Str.concat
                (map (fun n => "+" ++ letter ++ Num.intToString n)
                     (numbersFrom (Z.to_nat (endNumber - startNumber))
                                  (startNumber + 1)%Z)) in
            inlineSum_loop rest (replaceAllStr formula sum ("(" ++ newSum ++ ")"))
      | _ => Throws       (* end is undefined: end[0] *)
      end
  end.

(** The upper-casing of [inlineSum] is embedded for ASCII formulas; beyond
    ASCII [toUpperCase] can change the length of a text. *)
Definition inlineSum (formula : string) : outcome string :=
  if negb (Str.isAscii formula) then NotModelled
  else if negb (Str.includes (Str.toUpperCase formula) "SUM") then Returns formula
  else
    let formula := replaceAllStr (Str.toUpperCase formula) "SUM" "_SUM" in
    match matchG re_SUM formula with
    | None => Throws      (* null.length *)
    | Some allSums =>
        let sumsNumber := List.length allSums in
        let commaSums :=
          match matchG re_commaSum formula with Some l => l | None => [] end in
        if (List.length commaSums =? sumsNumber)%nat
        then Returns (replaceAllStr formula "_SUM" "sum")
        else
          match matchG re_rangeSum formula with
          | None => Returns formula
          | Some sums =>
              if negb (List.length sums =? sumsNumber)%nat then Returns formula
              else inlineSum_loop sums formula
          end
    end.

(** [/LN\(([^()]+)\)/gi] *)
Definition re_LN : regex :=
  RSeqs [RLit "LN(";
         RGroup 1 (RPlus (RClass true [("(", "("); (")", ")")]%char));
         RChar ")"].

Definition replaceLN (formula : string) : string :=
  replaceAll true re_LN 1 "(1 / log10(2.71828) * log10($1))" formula.

(** [/PV\(([^,]+),([^,]+),([^,]+)(?:,,1)?\)/gi] *)
Definition notComma : regex := RClass true [(",", ",")]%char.

Definition re_PV : regex :=
  RSeqs [RLit "PV("; RGroup 1 (RPlus notComma); RChar ",";
         RGroup 2 (RPlus notComma); RChar ","; RGroup 3 (RPlus notComma);
         ROpt (RLit ",,1"); RChar ")"].

Definition replacePV (formula : string) : string :=
  replaceAll true re_PV 3 "(-($3)*(1-(1+($1))^(-($2)))/($1))" formula.

(** The pipeline of section 4.2, in the order [getCellData] applies it. *)
Definition translate (formula : string) : outcome string :=
  let formula := evalPercentage formula in
  formula <- inlineSUMPRODUCT formula ;;
  formula <- inlineAverage formula ;;
  formula <- inlineSum formula ;;
  let formula := replaceLN formula in
  Returns (replacePV formula).

(** ** Patterns built at run time

    [new RegExp(src, flags)] for the pattern [sheetName + "!"].  The parser
    covers pattern characters, [.], [|], groups, [+], [^] and [$]; a source
    with one of the characters [\ * ? [ ] { }] (none of which a spreadsheet
    allows in a sheet name, braces apart) or with a code unit from 128 on
    (whose case the [i] flag would fold) is outside the embedding.  A
    SyntaxError of the constructor is [Throws]. *)

Module Pattern.

Record frame : Type := Frame {
  f_alts : list regex;     (* finished alternatives, last first *)
  f_seq : list regex;      (* terms of the current alternative, last first *)
  f_group : nat            (* number of the group this frame is the body of *)
}.

Definition closeFrame (f : frame) : regex :=
  fold_left (fun acc a => RAlt a acc) (f_alts f) (RSeqs (rev (f_seq f))).

Definition pushTerm (r : regex) (f : frame) : frame :=
  Frame (f_alts f) (r :: f_seq f) (f_group f).

Definition isUnsupported (c : ascii) : bool :=
  existsb (Ascii.eqb c) ["\"; "*"; "?"; "["; "]"; "{"; "}"]%char
  || negb (Str.asciiChar c).

Fixpoint parse (src : string) (stack : list frame) (cur : frame)
    (quantifiable : bool) (ngroups : nat) : outcome (regex * nat) :=
  match src with
  | EmptyString =>
      match stack with
      | [] => Returns (closeFrame cur, ngroups)
      | _ :: _ => Throws                          (* unterminated group *)
      end
  | String c rest =>
      if isUnsupported c then NotModelled
      else if Ascii.eqb c "(" then
        parse rest (cur :: stack) (Frame [] [] (S ngroups)) false (S ngroups)
      else if Ascii.eqb c ")" then
        match stack with
        | [] => Throws                            (* unmatched ')' *)
        | parent :: stack' =>
            parse rest stack'
              (pushTerm (RGroup (f_group cur) (closeFrame cur)) parent)
              true ngroups
        end
      else if Ascii.eqb c "|" then
        parse rest stack
          (Frame (RSeqs (rev (f_seq cur)) :: f_alts cur) [] (f_group cur))
          false ngroups
      else if Ascii.eqb c "+" then
        match quantifiable, f_seq cur with
        | true, t :: ts =>
            parse rest stack (Frame (f_alts cur) (RPlus t :: ts) (f_group cur))
              false ngroups
        | _, _ => Throws                          (* nothing to repeat *)
        end
      else if Ascii.eqb c "." then parse rest stack (pushTerm RAny cur) true ngroups
      else if Ascii.eqb c "^" then parse rest stack (pushTerm RBol cur) false ngroups
      else if Ascii.eqb c "$" then parse rest stack (pushTerm REol cur) false ngroups
      else parse rest stack (pushTerm (RChar c) cur) true ngroups
  end.

Definition compile (src : string) : outcome (regex * nat) :=
  parse src [] (Frame [] [] 0) false 0.

End Pattern.

(** ** The spreadsheet document, as the reader library presents it *)

Module ExcelJS.

(** [cell.text]: the getter can throw, give a string, or give a rich text
    whose runs are concatenated. *)
Inductive CellText : Type :=
| TextThrows
| TextString (s : string)
| TextRich (runs : list string).

(** [cell.value], as far as the program looks at it: is it a number. *)
Inductive CellValue : Type :=
| ValueNumber (n : Num.number)
| ValueOther.

Record Cell : Type := {
  fullAddress_sheetName : string;
  fullAddress_address : string;
  text : CellText;
  value : CellValue;
  formula : string              (* empty when the cell has none *)
}.

(** A row is its cells with their 1-based column numbers, a sheet its rows
    with their 1-based row numbers, in iteration order. *)
Definition Row : Type := list (Z * Cell).

Record Worksheet : Type := {
  name : string;
  rows : list (Z * Row)
}.

Definition Workbook : Type := list Worksheet.

End ExcelJS.

(** ** Data model *)

Record CellData : Type := {
  address : string;
  value : string;
  description : string;
  formula : string;
  rowNum : Z;
  colNum : Z
}.

(** [cells] is the object used as a map, with its keys in insertion
    order (addresses start with a letter, so none is an array index). *)
Record Grid : Type := {
  cells : list (string * CellData);
  sheetNames : list string
}.

Fixpoint cells_set (k : string) (v : CellData) (l : list (string * CellData))
    : list (string * CellData) :=
  match l with
  | [] => [(k, v)]
  | (k', v') :: l' =>
      if String.eqb k' k then (k, v) :: l' else (k', v') :: cells_set k v l'
  end.

Fixpoint cells_delete (k : string) (l : list (string * CellData))
    : list (string * CellData) :=
  match l with
  | [] => []
  | (k', v') :: l' =>
      if String.eqb k' k then cells_delete k l' else (k', v') :: cells_delete k l'
  end.

Fixpoint cells_get (k : string) (l : list (string * CellData)) : option CellData :=
  match l with
  | [] => None
  | (k', v') :: l' => if String.eqb k' k then Some v' else cells_get k l'
  end.

(** ** AddressNormalizer and getCellData *)

(** [/^-?\s?\d+\.?\d*%$/] *)
Definition re_percentText : regex :=
  RSeqs [RBol; ROpt (RChar "-"); ROpt cls_s; RPlus cls_d; ROpt (RChar ".");
         RStar cls_d; RChar "%"; REol].

(** [sheetName.replace(/\W/g, "") + "!"] *)
Definition makePrefix (sheetName : string) : string :=
  replaceAll false cls_W 0 "" sheetName ++ "!".

(** [/(?<!!)([A-Z][0-9]+)/g] *)
Definition re_unprefixed : regex := RSeq (RNotAfter "!") (RGroup 1 re_address).

(** [new RegExp(`(${newSheetPrefix}[A-Z][0-9]+)`, "g")]: the prefix is made
    of word characters and [!], which stand for themselves. *)
Definition re_prefixed (newSheetPrefix : string) : regex :=
  RGroup 1 (RSeq (RLit newSheetPrefix) re_address).

Definition quoteSheetName (sheetName : string) : string :=
  if Str.includes sheetName " "
  then "'" ++ replaceFirstStr sheetName "'" "''" ++ "'"
  else sheetName.

(** One round of the loop over the sheet names. *)
Definition normalizeSheet (formula sheetName : string) : outcome string :=
  let sheetName := quoteSheetName sheetName in
  let newSheetPrefix := makePrefix sheetName in
  r <- Pattern.compile (sheetName ++ "!") ;;
  let formula := replaceAll true (fst r) (snd r) newSheetPrefix formula in
  Returns (replaceAll false (re_prefixed newSheetPrefix) 1 "${metric:$1}" formula).

Fixpoint normalizeSheets (sheetNames : list string) (formula : string)
    : outcome string :=
  match sheetNames with
  | [] => Returns formula
  | sheetName :: rest =>
      formula <- normalizeSheet formula sheetName ;;
      normalizeSheets rest formula
  end.

(** The text of a cell after extraction, trimming, percentage conversion
    and decimal-comma normalisation. *)
Definition cellText (cell : ExcelJS.Cell) : string :=
  let text :=
    match ExcelJS.text cell with
    | ExcelJS.TextThrows => ""
    | ExcelJS.TextString s => s
    | ExcelJS.TextRich runs => Str.concat runs
    end in
  let text :=
    match ExcelJS.value cell with
    | ExcelJS.ValueNumber n => Num.toString n
    | ExcelJS.ValueOther => text
    end in
  let text := Str.trim text in
  let text :=
    if test false re_percentText text
    then Num.toString (Num.div100 (Num.parseFloat text))
    else text in
  if negb (Num.isNaN (replaceAllStr text "," "."))
  then replaceAllStr text "," "."
  else text.

(** The formula before translation: [=] put in front, a leading HYPERLINK
    call dropped, dollar signs removed. *)
Definition rawFormula (cell : ExcelJS.Cell) : string :=
  let formula :=
    if Str.isEmpty (ExcelJS.formula cell) then ""
    else "=" ++ ExcelJS.formula cell in
  let formula := if Str.startsWith "=HYPERLINK" formula then "" else formula in
  replaceAllStr formula "$" "".

Definition getCellData (cell : ExcelJS.Cell) (sheetNames : list string)
    (rowNum colNum : Z) : outcome CellData :=
  let address := ExcelJS.fullAddress_address cell in
  let text := cellText cell in
  let description := if Num.isNaN text then text else "" in
  let value := if Num.isNaN text then "" else text in
  formula <- translate (rawFormula cell) ;;
  if (1 <? List.length sheetNames)%nat then
    let prefix := makePrefix (ExcelJS.fullAddress_sheetName cell) in
    let address := prefix ++ address in
    let formula := replaceAll false re_unprefixed 1 (prefix ++ "$1") formula in
    formula <- normalizeSheets sheetNames formula ;;
    Returns {| address := address; value := value; description := description;
               formula := formula; rowNum := rowNum; colNum := colNum |}
  else
    let formula :=
      replaceAll false (RGroup 1 re_address) 1 "${metric:$1}" formula in
    Returns {| address := address; value := value; description := description;
               formula := formula; rowNum := rowNum; colNum := colNum |}.

(** ** GridBuilder *)

(** The condition of the label-merge heuristic. *)
Definition isLabelFor (previousCell : option CellData) (cellData : CellData) : bool :=
  (negb (Str.isEmpty (value cellData)) || negb (Str.isEmpty (formula cellData)))
  && match previousCell with
     | Some p =>
         (colNum p =? colNum cellData - 1)%Z
         && Str.isEmpty (formula p)
         && negb (Str.isEmpty (description p))
         && Str.isEmpty (value p)
     | None => false
     end.

Definition withDescription (d : string) (c : CellData) : CellData :=
  {| address := address c; value := value c; description := d;
     formula := formula c; rowNum := rowNum c; colNum := colNum c |}.

(** What the loops of [makeGrid] carry: [maxColumn], [grid.cells] and,
    within a row, [previousCell]. *)
Record BuildState : Type := {
  maxColumn : Z;
  gridCells : list (string * CellData);
  previousCell : option CellData
}.

(** The callback of [row.eachCell]. *)
Definition visitCell (names : list string) (rowNum startColumn : Z)
    (st : BuildState) (entry : Z * ExcelJS.Cell) : outcome BuildState :=
  let colNum := (fst entry + startColumn)%Z in
  let maxColumn := Z.max (maxColumn st) colNum in
  cellData <- getCellData (snd entry) names rowNum colNum ;;
  match previousCell st with
  | Some p =>
      if isLabelFor (Some p) cellData then
        let cellData := withDescription (description p) cellData in
        Returns {| maxColumn := maxColumn;
                   gridCells := cells_set (address cellData) cellData
                                  (cells_delete (address p) (gridCells st));
                   previousCell := Some cellData |}
      else
        Returns {| maxColumn := maxColumn;
                   gridCells := cells_set (address cellData) cellData (gridCells st);
                   previousCell := Some cellData |}
  | None =>
      Returns {| maxColumn := maxColumn;
                 gridCells := cells_set (address cellData) cellData (gridCells st);
                 previousCell := Some cellData |}
  end.

Fixpoint eachCell (names : list string) (rowNum startColumn : Z)
    (row : ExcelJS.Row) (st : BuildState) : outcome BuildState :=
  match row with
  | [] => Returns st
  | entry :: rest =>
      st' <- visitCell names rowNum startColumn st entry ;;
      eachCell names rowNum startColumn rest st'
  end.

(** The callback of [sheet.eachRow]: [previousCell] starts undefined. *)
Definition visitRow (names : list string) (startColumn : Z)
    (st : BuildState) (entry : Z * ExcelJS.Row) : outcome BuildState :=
  eachCell names (fst entry) startColumn (snd entry)
    {| maxColumn := maxColumn st; gridCells := gridCells st;
       previousCell := None |}.

Fixpoint eachRow (names : list string) (startColumn : Z)
    (rows : list (Z * ExcelJS.Row)) (st : BuildState) : outcome BuildState :=
  match rows with
  | [] => Returns st
  | entry :: rest =>
      st' <- visitRow names startColumn st entry ;;
      eachRow names startColumn rest st'
  end.

(** The callback of [workbook.eachSheet]. *)
Definition visitSheet (names : list string) (st : BuildState)
    (sheet : ExcelJS.Worksheet) : outcome BuildState :=
  let startColumn := (maxColumn st + 1)%Z in
  eachRow names startColumn (ExcelJS.rows sheet) st.

Fixpoint eachSheet (names : list string) (sheets : list ExcelJS.Worksheet)
    (st : BuildState) : outcome BuildState :=
  match sheets with
  | [] => Returns st
  | sheet :: rest =>
      st' <- visitSheet names st sheet ;;
      eachSheet names rest st'
  end.

Definition makeGrid (workbook : ExcelJS.Workbook) : outcome Grid :=
  let names := map ExcelJS.name workbook in
  st <- eachSheet names workbook
          {| maxColumn := 0; gridCells := []; previousCell := None |} ;;
  Returns {| cells := gridCells st; sheetNames := names |}.

(** ** GraphBuilder *)

Inductive GuesstimateType : Type := FUNCTION | POINT.

Record Metric : Type := {
  id : string;
  readableId : string;
  name : string;
  location_row : Z;
  location_column : Z
}.

Record Guesstimate : Type := {
  metric : string;
  expression : string;
  guesstimateType : GuesstimateType;
  guesstimate_description : string
}.

Record Graph : Type := {
  metrics : list Metric;
  guesstimates : list Guesstimate
}.

(** One round of the loop of [makeGraph]. *)
Definition cellName (cell : CellData) : string :=
  let name := description cell in
  if (20 <? String.length name)%nat && negb (String.eqb (value cell) "")
  then Str.take 17 name ++ "..."
  else name.

Definition cellDescription (cell : CellData) : string :=
  let name := description cell in
  if (20 <? String.length name)%nat && negb (String.eqb (value cell) "")
  then name
  else "".

Definition cellMetric (cell : CellData) : Metric :=
  {| id := address cell;
     readableId := address cell;
     name := cellName cell;
     location_row := (rowNum cell - 1)%Z;
     location_column := (colNum cell - 1)%Z |}.

Definition cellGuesstimate (cell : CellData) : Guesstimate :=
  {| metric := address cell;
     expression := if Str.isEmpty (formula cell) then value cell else formula cell;
     guesstimateType := if Str.isEmpty (formula cell) then POINT else FUNCTION;
     guesstimate_description := cellDescription cell |}.

Definition makeGraph (grid : Grid) : Graph :=
  {| metrics := map (fun kv => cellMetric (snd kv)) (cells grid);
     guesstimates := map (fun kv => cellGuesstimate (snd kv)) (cells grid) |}.

(** ** DependencyGraphExtractor *)

(** [/[^ a-zA-Z0-9,.\-$%]/g] *)
Definition re_unsafe : regex :=
  RClass true [(" ", " "); ("a", "z"); ("A", "Z"); ("0", "9"); (",", ",");
               (".", "."); ("-", "-"); ("$", "$"); ("%", "%")]%char.

Definition nodeText (cell : CellData) : string :=
  let description := description cell in
  let description :=
    if (40 <? String.length description)%nat
    then Str.take 37 description ++ "..."
    else description in
  if Str.isEmpty description then ""
  else address cell ++ "[" ++ replaceAll false re_unsafe 0 "_" description ++ "]".

Definition edgeLine (from to : string) : string := from ++ " --> " ++ to.

(** [new RegExp(escapeRegExp(address) + "}")]: escaping makes every
    character of the address stand for itself. *)
Definition re_reference (address : string) : regex := RLit (address ++ "}").

Definition seenHas (seen : list string) (a : string) : bool :=
  existsb (String.eqb a) seen.

(** The body of the inner loop, for one matched address; the cell looked
    up is [grid.cells[address]]. *)
Definition visitReference (all : list (string * CellData)) (cell : CellData)
    (st : list string * list string) (a : string) : list string * list string :=
  let '(seen, lines) := st in
  let lines :=
    if negb (seenHas seen a)
    then (lines ++ [match cells_get a all with
                    | Some c => nodeText c
                    | None => ""
                    end])%list
    else lines in
  let lines :=
    if negb (seenHas seen (address cell)) then (lines ++ [nodeText cell])%list
    else lines in
  (address cell :: a :: seen, (lines ++ [edgeLine a (address cell)])%list).

Definition visitFormulaCell (all : list (string * CellData))
    (st : list string * list string) (cell : CellData)
    : list string * list string :=
  if Str.isEmpty (formula cell) then st
  else
    let matchedAddresses :=
      filter (fun a => test false (re_reference a) (formula cell)) (map fst all) in
    fold_left (visitReference all cell) matchedAddresses st.

(** The [lines] array at the end of [gridToMermaidGraph]. *)
Definition mermaidLines (grid : Grid) : list string :=
  snd (fold_left (visitFormulaCell (cells grid)) (map snd (cells grid)) ([], [])).

Definition newline : string := Str.ch "010".

Definition gridToMermaidGraph (grid : Grid) : string :=
  "graph LR" ++ newline ++ "  " ++ Str.join newline (mermaidLines grid).

(** * Vocabulary of the statements *)

(** ** Texts *)


(** Characters other than a separator, other than the dollar sign, and the
    characters Number::toString produces. *)
Definition isNot (sep : ascii) (c : ascii) : bool := negb (Ascii.eqb c sep).

Definition notDollar (c : ascii) : bool := negb (Ascii.eqb c "$").

Definition numberChar (c : ascii) : bool :=
  Str.isDigit c ||
  existsb (Ascii.eqb c) ["."; "e"; "+"; "-"; "N"; "a"; "I"; "n"; "f"; "i"; "t"; "y"]%char.

(** The characters of a text that satisfy [p]. *)
Fixpoint keep (p : ascii -> bool) (s : string) : string :=
  match s with
  | EmptyString => EmptyString
  | String c s' => if p c then String c (keep p s') else keep p s'
  end.

(** ** Example documents *)

Definition mkCell (sheet addr : string) (t : ExcelJS.CellText)
    (v : ExcelJS.CellValue) (f : string) : ExcelJS.Cell :=
  {| ExcelJS.fullAddress_sheetName := sheet;
     ExcelJS.fullAddress_address := addr;
     ExcelJS.text := t; ExcelJS.value := v; ExcelJS.formula := f |}.

Definition textCell (sheet addr txt : string) : ExcelJS.Cell :=
  mkCell sheet addr (ExcelJS.TextString txt) ExcelJS.ValueOther "".

Definition numberCell (sheet addr : string) (z : Z) : ExcelJS.Cell :=
  mkCell sheet addr (ExcelJS.TextString (Num.intToString z))
    (ExcelJS.ValueNumber (Num.ofInt z)) "".

Definition formulaCell (sheet addr txt f : string) : ExcelJS.Cell :=
  mkCell sheet addr (ExcelJS.TextString txt) ExcelJS.ValueOther f.

(** A sheet whose only cell is a label of 26 characters. *)
Definition wb_longLabel : ExcelJS.Workbook :=
  [ {| ExcelJS.name := "Sheet1";
       ExcelJS.rows :=
         [(1%Z, [(1%Z, textCell "Sheet1" "A1" "Total revenue for the year")])] |} ].

(** One sheet, [A1] holding the number 100. *)
Definition wb_A1 : ExcelJS.Workbook :=
  [ {| ExcelJS.name := "Sheet1";
       ExcelJS.rows := [(1%Z, [(1%Z, numberCell "Sheet1" "A1" 100)])] |} ].

(** Two sheets, the name of the second a suffix of the name of the first;
    a cell of [Data] refers to a cell of [MyData]. *)
Definition wb_suffix : ExcelJS.Workbook :=
  [ {| ExcelJS.name := "MyData";
       ExcelJS.rows := [(1%Z, [(2%Z, numberCell "MyData" "B2" 5)])] |};
    {| ExcelJS.name := "Data";
       ExcelJS.rows :=
         [(1%Z, [(1%Z, formulaCell "Data" "A1" "6" "MyData!B2+1")])] |} ].

(** Two sheets, one of them named [C++]. *)
Definition wb_cpp : ExcelJS.Workbook :=
  [ {| ExcelJS.name := "Sheet1";
       ExcelJS.rows := [(1%Z, [(1%Z, numberCell "Sheet1" "A1" 1)])] |};
    {| ExcelJS.name := "C++"; ExcelJS.rows := [] |} ].

(** A label, and right of it a formula that refers to its own cell. *)
Definition wb_selfref : ExcelJS.Workbook :=
  [ {| ExcelJS.name := "Sheet1";
       ExcelJS.rows :=
         [(1%Z, [(1%Z, textCell "Sheet1" "A1" "Total");
                 (2%Z, formulaCell "Sheet1" "B1" "0" "B1+1")])] |} ].

(** The example of the specification: [A1] holds the text Revenue and
    [B1] the number 100. *)
Definition wb_revenue : ExcelJS.Workbook :=
  [ {| ExcelJS.name := "Sheet1";
       ExcelJS.rows :=
         [(1%Z, [(1%Z, textCell "Sheet1" "A1" "Revenue");
                 (2%Z, numberCell "Sheet1" "B1" 100)])] |} ].

Definition revenue_label : CellData :=
  {| address := "A1"; value := ""; description := "Revenue"; formula := "";
     rowNum := 1; colNum := 2 |}.

Definition revenue_data : CellData :=
  {| address := "B1"; value := "100"; description := ""; formula := "";
     rowNum := 1; colNum := 3 |}.

(** Two sheets: a label and a number in [Costs], and in [Totals] a formula
    that refers to the number. *)
Definition wb_budget : ExcelJS.Workbook :=
  [ {| ExcelJS.name := "Costs";
       ExcelJS.rows :=
         [(1%Z, [(1%Z, textCell "Costs" "A1" "Rent");
                 (2%Z, numberCell "Costs" "B1" 1200)])] |};
    {| ExcelJS.name := "Totals";
       ExcelJS.rows :=
         [(2%Z, [(1%Z, formulaCell "Totals" "A2" "14400" "Costs!B1*12")])] |} ].

(** The Grid of that document, and the Grid of the Revenue example. *)
Definition budget_rent : CellData :=
  {| address := "Costs!B1"; value := "1200"; description := "Rent"; formula := "";
     rowNum := 1; colNum := 3 |}.

Definition budget_total : CellData :=
  {| address := "Totals!A2"; value := "14400"; description := "";
     formula := "=${metric:Costs!B1}*12"; rowNum := 2; colNum := 5 |}.

Definition grid_budget : Grid :=
  {| cells := [("Costs!B1", budget_rent); ("Totals!A2", budget_total)];
     sheetNames := ["Costs"; "Totals"] |}.

Definition revenue_labelled : CellData :=
  {| address := "B1"; value := "100"; description := "Revenue"; formula := "";
     rowNum := 1; colNum := 3 |}.

Definition grid_revenue : Grid :=
  {| cells := [("B1", revenue_labelled)]; sheetNames := ["Sheet1"] |}.

(** ** Sheet names as patterns *)

(** No sheet-name pattern matches the empty text. *)
Definition noEmptyMatch (names : list string) : Prop :=
  forall nm r n,
    In nm names ->
    Pattern.compile (quoteSheetName nm ++ "!") = Returns (r, n) ->
    matchHere true r "" "" = None.

(** Every sheet name gives a pattern. *)
Definition patternsCompile (names : list string) : Prop :=
  forall nm, In nm names ->
    exists r n, Pattern.compile (quoteSheetName nm ++ "!") = Returns (r, n).


(** ** The SUM pass *)

(** The formula as the pass marks it: upper-cased, SUM renamed to _SUM. *)
Definition markSums (formula : string) : string :=
  replaceAllStr (Str.toUpperCase formula) "SUM" "_SUM".

(** The number of matches of [/SUM/g]. *)
Definition sumsNumber (marked : string) : nat :=
  List.length (matchAll false re_SUM marked).

(** Does a range-style call span two column letters. *)
Definition crossesColumns (sum : string) : bool :=
  match Str.split ":" (Str.sliceBetween 5 1 sum) with
  | start :: end_ :: _ => negb (optAsciiEqb (charAt0 start) (charAt0 end_))
  | _ => false
  end.

(** The calls are not all comma lists, and either they are not all single
    ranges or the first range spans two column letters. *)
Definition unresolvedSums (marked : string) : bool :=
  negb (List.length (matchAll false re_commaSum marked) =? sumsNumber marked)%nat
  && match matchAll false re_rangeSum marked with
     | [] => true
     | m :: ms =>
         negb (S (List.length ms) =? sumsNumber marked)%nat
         || crossesColumns (m_text m)
     end.

(** ** Formulas without function names *)

Definition noMatch (ic : bool) (r : regex) (s : string) : bool :=
  match matchAll ic r s with
  | [] => true
  | _ :: _ => false
  end.

(** No pass after the percentage pass finds a function name. *)
Definition noFunctionName (formula : string) : bool :=
  noMatch true re_SUMPRODUCT formula
  && noMatch true re_AVERAGE formula
  && negb (Str.includes (Str.toUpperCase formula) "SUM")
  && noMatch true re_LN formula
  && noMatch true re_PV formula.

(** ** The traversal of a document *)

(** The CellData a visit stores: the description of the label replaces
    the cell's own when the heuristic applies. *)
Definition storedCell (previous : option CellData) (cellData : CellData) : CellData :=
  match previous with
  | Some p =>
      if isLabelFor (Some p) cellData
      then withDescription (description p) cellData
      else cellData
  | None => cellData
  end.

(** [grid.cells] after a visit. *)
Definition cellsAfterVisit (previous : option CellData) (cellData : CellData)
    (l : list (string * CellData)) : list (string * CellData) :=
  match previous with
  | Some p =>
      if isLabelFor (Some p) cellData
      then cells_set (address cellData) (storedCell previous cellData)
             (cells_delete (address p) l)
      else cells_set (address cellData) cellData l
  | None => cells_set (address cellData) cellData l
  end.

(** [maxColumn] after a row, after the rows of a sheet, after a sheet and
    after a run of sheets, as functions of the document. *)
Definition rowMax (sc m : Z) (row : ExcelJS.Row) : Z :=
  fold_left (fun m e => Z.max m (fst e + sc)) row m.

Definition rowsMax (sc m : Z) (rows : list (Z * ExcelJS.Row)) : Z :=
  fold_left (fun m r => rowMax sc m (snd r)) rows m.

Definition sheetMax (m : Z) (sheet : ExcelJS.Worksheet) : Z :=
  rowsMax (m + 1) m (ExcelJS.rows sheet).

Definition maxColumnAfter (sheets : list ExcelJS.Worksheet) (m : Z) : Z :=
  fold_left sheetMax sheets m.

(** [startColumn] of the sheet that follows [sheets]. *)
Definition startColumnAfter (sheets : list ExcelJS.Worksheet) : Z :=
  (maxColumnAfter sheets 0 + 1)%Z.

(** The state at the start of a row and at the start of [makeGrid]. *)
Definition resetRow (st : BuildState) : BuildState :=
  {| maxColumn := maxColumn st; gridCells := gridCells st; previousCell := None |}.

Definition initialState : BuildState :=
  {| maxColumn := 0; gridCells := []; previousCell := None |}.

(** Every entry of the map whose CellData sits at row [R], column [X]
    satisfies [Q]. *)
Definition at_position (R X : Z) (Q : string -> CellData -> Prop)
    (l : list (string * CellData)) : Prop :=
  forall k v, In (k, v) l -> rowNum v = R -> colNum v = X -> Q k v.

(** A CellData that sits somewhere else. *)
Definition elsewhere (R X : Z) (cd : CellData) : Prop :=
  ~ (rowNum cd = R /\ colNum cd = X).

(** The address [getCellData] gives a cell, and the addresses of the cells
    of a row, of rows and of a document, in the order of the traversal. *)
Definition cellAddress (names : list string) (cell : ExcelJS.Cell) : string :=
  if (1 <? List.length names)%nat
  then (makePrefix (ExcelJS.fullAddress_sheetName cell)
          ++ ExcelJS.fullAddress_address cell)%string
  else ExcelJS.fullAddress_address cell.

Definition rowAddresses (names : list string) (row : ExcelJS.Row) : list string :=
  map (fun e => cellAddress names (snd e)) row.

Definition rowsAddresses (names : list string) (rows : list (Z * ExcelJS.Row))
    : list string :=
  flat_map (fun r => rowAddresses names (snd r)) rows.

Definition addresses (names : list string) (wb : ExcelJS.Workbook) : list string :=
  flat_map (fun sh => rowsAddresses names (ExcelJS.rows sh)) wb.

(** A CellData with another address. *)
Definition otherAddress (a : string) (cd : CellData) : Prop := address cd <> a.

(** A document as the reader presents it: column numbers are 1-based and
    increase along a row; row numbers increase down a sheet. *)
Definition wellFormedRow (row : ExcelJS.Row) : Prop :=
  StronglySorted Z.lt (map fst row) /\ Forall (fun e => (1 <= fst e)%Z) row.

Definition wellFormedSheet (sheet : ExcelJS.Worksheet) : Prop :=
  StronglySorted Z.lt (map fst (ExcelJS.rows sheet)) /\
  Forall (fun r => wellFormedRow (snd r)) (ExcelJS.rows sheet).

Definition wellFormed (wb : ExcelJS.Workbook) : Prop := Forall wellFormedSheet wb.

(** The invariant of a traversal: [I] holds of the map, and a label that
    may still be deleted is [Good]. *)
Definition Inv (I : list (string * CellData) -> Prop) (Good : CellData -> Prop)
    (st : BuildState) : Prop :=
  I (gridCells st) /\
  forall p, previousCell st = Some p -> value p = "" -> formula p = "" -> Good p.

(** The CellData of a cell, of every cell of a row, is [Good]. *)
Definition goodEntry (names : list string) (Good : CellData -> Prop)
    (rn col : Z) (cell : ExcelJS.Cell) : Prop :=
  forall cd, getCellData cell names rn col = Returns cd -> Good cd.

Definition goodRow (names : list string) (Good : CellData -> Prop)
    (sc : Z) (r : Z * ExcelJS.Row) : Prop :=
  forall e, In e (snd r) -> goodEntry names Good (fst r) (fst e + sc) (snd e).

(** ** Built grids *)

(** The keys of the map are distinct and every CellData is stored under
    its own address. *)
Definition keyedByAddress (l : list (string * CellData)) : Prop :=
  NoDup (map fst l) /\ forall k v, In (k, v) l -> k = address v.

(** A CellData that differs from another in its description at most. *)
Definition sameButDescription (cd cd0 : CellData) : Prop :=
  address cd = address cd0 /\ value cd = value cd0 /\ formula cd = formula cd0 /\
  rowNum cd = rowNum cd0 /\ colNum cd = colNum cd0.

(** [cd] is the CellData of a cell of sheet number [i] of the document,
    but for the description, which a label may have replaced when the
    cell has a value or a formula. *)
Definition fromSheet (names : list string) (wb : ExcelJS.Workbook) (i : nat)
    (cd : CellData) : Prop :=
  exists pre sh post r e cd0,
    wb = (pre ++ sh :: post)%list /\ List.length pre = i /\
    In r (ExcelJS.rows sh) /\ In e (snd r) /\
    getCellData (snd e) names (fst r) (fst e + startColumnAfter pre) = Returns cd0 /\
    sameButDescription cd cd0 /\
    (description cd = description cd0 \/
     (description cd <> "" /\ (value cd <> "" \/ formula cd <> ""))).

(** [cd0] is the CellData that [getCellData] gives a cell of the document,
    at the row of the cell and at its column plus the start column of its
    sheet. *)
Definition fromCell (names : list string) (wb : ExcelJS.Workbook) (cd0 : CellData)
    : Prop :=
  exists pre sh post r e,
    wb = (pre ++ sh :: post)%list /\
    In r (ExcelJS.rows sh) /\ In e (snd r) /\
    getCellData (snd e) names (fst r) (fst e + startColumnAfter pre) = Returns cd0.

(** [p0] is a label for [cd]: the CellData of a cell of the document with
    a description, no value and no formula, in the row of [cd] and in the
    column before it. *)
Definition labelOf (names : list string) (wb : ExcelJS.Workbook) (p0 cd : CellData)
    : Prop :=
  fromCell names wb p0 /\
  value p0 = "" /\ formula p0 = "" /\ description p0 <> "" /\
  rowNum p0 = rowNum cd /\ colNum p0 = (colNum cd - 1)%Z.

(** [cd] is the CellData of a cell of the document, but for the
    description: when the cell has a value or a formula, it can be the
    description of its label. *)
Definition fromDocument (names : list string) (wb : ExcelJS.Workbook) (cd : CellData)
    : Prop :=
  exists cd0,
    fromCell names wb cd0 /\ sameButDescription cd cd0 /\
    (description cd = description cd0 \/
     ((value cd <> "" \/ formula cd <> "") /\
      exists p0, labelOf names wb p0 cd /\ description cd = description p0)).

(** Row numbers are 1-based. *)
Definition rowsFromOne (wb : ExcelJS.Workbook) : Prop :=
  Forall (fun sh => Forall (fun r => (1 <= fst r)%Z) (ExcelJS.rows sh)) wb.

(** ** The lines of the diagram *)

(** [s] with every character that satisfies [p] replaced by [c]. *)
Fixpoint mask (p : ascii -> bool) (c : ascii) (s : string) : string :=
  match s with
  | EmptyString => EmptyString
  | String a s' => String (if p a then c else a) (mask p c s')
  end.

(** The characters a node label is made of. *)
Definition labelChar (c : ascii) : bool :=
  Str.isLower c || Str.isUpper c || Str.isDigit c ||
  existsb (Ascii.eqb c) [" "; ","; "."; "-"; "$"; "%"; "_"]%char.

(** A line of the diagram that declares the node of a cell of the grid, and
    a line that draws the edge of a reference: the formula of [cell] holds
    the key [a] followed by a closing brace. *)
Definition isNodeLine (g : Grid) (line : string) : Prop :=
  exists k cell, In (k, cell) (cells g) /\ line = nodeText cell.

Definition isReference (g : Grid) (a : string) (cell : CellData) : Prop :=
  (exists k, In (k, cell) (cells g)) /\ formula cell <> "" /\
  In a (map fst (cells g)) /\ Str.includes (formula cell) (a ++ "}")%string = true.

(** ** Digits and numbers *)

(** The value of a sequence of decimal digits read after [acc]. *)
Fixpoint valueOfDigits (d : Decimal.uint) (acc : Z) : Z :=
  match d with
  | Decimal.Nil => acc
  | Decimal.D0 l => valueOfDigits l (10 * acc)
  | Decimal.D1 l => valueOfDigits l (10 * acc + 1)
  | Decimal.D2 l => valueOfDigits l (10 * acc + 2)
  | Decimal.D3 l => valueOfDigits l (10 * acc + 3)
  | Decimal.D4 l => valueOfDigits l (10 * acc + 4)
  | Decimal.D5 l => valueOfDigits l (10 * acc + 5)
  | Decimal.D6 l => valueOfDigits l (10 * acc + 6)
  | Decimal.D7 l => valueOfDigits l (10 * acc + 7)
  | Decimal.D8 l => valueOfDigits l (10 * acc + 8)
  | Decimal.D9 l => valueOfDigits l (10 * acc + 9)
  end.

(** Does a text start with something other than a digit. *)
Definition noLeadingDigit (s : string) : bool :=
  match s with
  | String c _ => negb (Str.isDigit c)
  | EmptyString => true
  end.

(** The address of the cell in column [l], row [n]. *)
Definition cellRef (l : ascii) (n : Z) : string := String l (Num.digitsOfZ n).


(** Characters other than white space. *)
Definition notSpace (c : ascii) : bool := negb (Str.isSpace c).

(** ** Matchers and their continuations *)

(** [t] is what is left of [s] after some prefix. *)
Definition isSuffix (t s : string) : Prop := exists w, s = (w ++ t)%string.

(** A matcher hands to its continuation a state further on in the input. *)
Definition passesOn (m : (mstate -> option mstate) -> mstate -> option mstate) : Prop :=
  forall k x z, m k x = Some z ->
                exists y, k y = Some z /\ isSuffix (after y) (after x).

(** ** Matchers on a given text *)

(** Is [w] the literal [p], up to case under the [i] flag. *)
Fixpoint sameText (ic : bool) (p w : string) : bool :=
  match p, w with
  | EmptyString, EmptyString => true
  | String c p', String a w' => charEq ic a c && sameText ic p' w'
  | _, _ => false
  end.

(** The state after the text [w] has been matched. *)
Definition stateAfter (w : string) (b rest : string) (cs : list (nat * string)) : mstate :=
  MState (Str.rev_app w b) rest cs.

(** A pattern without lookbehind and line-start assertions: what it matches
    does not depend on the text before the index. *)
Fixpoint contextFree (r : regex) : bool :=
  match r with
  | RSeq r1 r2 | RAlt r1 r2 => contextFree r1 && contextFree r2
  | RRep _ _ r' | RGroup _ r' => contextFree r'
  | RNotAfter _ | RBol => false
  | _ => true
  end.

(** Two states, two results, two matches that differ in the text before
    the index at most. *)
Definition sameAhead (x x' : mstate) : Prop :=
  after x = after x' /\ caps x = caps x'.

Definition sameResult (o o' : option mstate) : Prop :=
  match o, o' with
  | Some y, Some y' => sameAhead y y'
  | None, None => True
  | _, _ => False
  end.

Definition sameMatch (m m' : jsmatch) : Prop :=
  m_text m = m_text m' /\ m_after m = m_after m' /\ m_caps m = m_caps m'.

Definition samePiece (p p' : piece) : Prop :=
  match p, p' with
  | Lit c, Lit c' => c = c'
  | Hit m, Hit m' => sameMatch m m'
  | _, _ => False
  end.

(** The characters of a text as pieces of a scan. *)
Fixpoint lits (s : string) : list piece :=
  match s with
  | EmptyString => []
  | String c s' => Lit c :: lits s'
  end.

(** Does a text start with something outside the class. *)
Definition stopsAt (p : ascii -> bool) (s : string) : bool :=
  match s with
  | String c _ => negb (p c)
  | EmptyString => true
  end.

(** ** Replacement texts *)

(** A replacement text that does not look at the text before the match. *)
Definition forgetsBefore (n : nat) (tmpl : string) : Prop :=
  forall m m', sameMatch m m' -> getSubstitution n m tmpl = getSubstitution n m' tmpl.

(** Characters other than parentheses, other than a comma. *)
Definition noParen (c : ascii) : bool := negb (Ascii.eqb c "(" || Ascii.eqb c ")").

Definition noComma (c : ascii) : bool := negb (Ascii.eqb c ",").

(** ** Arguments of a call *)

(** An argument of a call that is taken as it is: no separator, no
    parenthesis, no dollar sign. *)
Definition plainArg (x : string) : bool :=
  Num.allChars
    (fun c => negb (existsb (Ascii.eqb c) [","; ":"; "("; ")"; "$"]%char)) x.

(** A character of a percentage literal: a digit or a dot. *)
Definition percentChar (c : ascii) : bool := Str.isDigit c || Ascii.eqb c ".".


(** The longest prefix of a text whose characters are all in a class, and
    what follows it. *)
Fixpoint spanOf (p : ascii -> bool) (s : string) : string * string :=
  match s with
  | String c s' =>
      if p c then (String c (fst (spanOf p s')), snd (spanOf p s')) else ("", s)
  | EmptyString => ("", "")
  end.


(** No occurrence of [sub] starts in [s] when [t] follows. *)
Definition notStartedIn (sub s t : string) : Prop :=
  forall p1 c p2, s = (p1 ++ String c p2)%string ->
                  Str.startsWith sub (String c p2 ++ t)%string = false.

(** The display text of a whole percentage: an optional minus sign, an
    optional blank, the digits of [n] and a percent sign. *)
Definition percentText (neg gap : bool) (n : Z) : string :=
  (if neg then "-" else "") ++ (if gap then " " else "") ++ Num.digitsOfZ n ++ "%".

(** The CellData of the cell B2 of the sheet, in column 3 of the grid,
    when it holds a text. *)
Definition discount_data (value description : string) : CellData :=
  {| address := "B2"; value := value; description := description;
     formula := ""; rowNum := 2; colNum := 3 |}.

(** The placeholders of a workbook with one sheet: what [getCellData] does
    to the translated formula in its [else] branch. *)
Definition metricReferences (formula : string) : string :=
  replaceAll false (RGroup 1 re_address) 1 "${metric:$1}" formula.

(** A capital letter followed by digits. *)
Definition isAddress (s : string) : bool :=
  match s with
  | String L ds => Str.isUpper L && negb (Str.isEmpty ds) && Num.allChars Str.isDigit ds
  | EmptyString => false
  end.

(** A text in which no capital letter is followed by a digit. *)
Fixpoint addressFree (s : string) : bool :=
  match s with
  | String c s' =>
      negb (Str.isUpper c && negb (stopsAt Str.isDigit s')) && addressFree s'
  | EmptyString => true
  end.

(** The cell B2 of a sheet, showing a text. *)
Definition shownAs (txt : string) : ExcelJS.Cell := textCell "Sheet1" "B2" txt.

(** An ASCII sheet name without the characters that make the pattern
    [sheetName + "!"] fail or leave the supported patterns: parentheses,
    quantifiers, brackets, braces and the backslash. *)
Definition plainChar (c : ascii) : bool :=
  negb (existsb (Ascii.eqb c) ["\"; "*"; "?"; "["; "]"; "{"; "}"; "("; ")"; "+"]%char)
  && Str.asciiChar c.

Definition plainName (nm : string) : bool := Num.allChars plainChar nm.

(** The cells of a workbook, and the workbooks on whose formulas the
    translator passes return. *)
Definition workbookCells (wb : ExcelJS.Workbook) : list ExcelJS.Cell :=
  flat_map (fun sh => flat_map (fun r => map snd (snd r)) (ExcelJS.rows sh)) wb.

Definition translates (cell : ExcelJS.Cell) : bool :=
  returned (translate (rawFormula cell)).

(** A sheet name made of word characters. *)
Definition wordName (nm : string) : bool :=
  negb (Str.isEmpty nm) && Num.allChars Str.isWordChar nm.

(** Does the text [N] end with [S], up to case. *)
Fixpoint endsWithCI (S N : string) : bool :=
  sameText true S N ||
  match N with
  | String _ N' => endsWithCI S N'
  | EmptyString => false
  end.

(** The text in front of a reference and the text after it, in a formula
    that holds no other reference: no capital letter followed by a digit,
    no exclamation mark, no word character right before the reference and
    no digit right after it. *)
Definition quietBefore (pre : string) : bool :=
  addressFree pre && (Str.count "!" pre =? 0)%nat
  && stopsAt Str.isWordChar (Str.rev pre).

Definition quietAfter (post : string) : bool :=
  addressFree post && (Str.count "!" post =? 0)%nat && stopsAt Str.isDigit post.

(** The pattern that [new RegExp] builds from a text of ordinary
    characters: one term for each. *)
Fixpoint charTerms (s : string) : list regex :=
  match s with
  | String c s' => RChar c :: charTerms s'
  | EmptyString => []
  end.

(** * Evaluations of the source examples *)

Example replaceAllStr_ex : RegExp.replaceAllStr "=$A$1+$B2" "$" "" = "=A1+B2".
Proof. reflexivity. Qed.
Example replaceAll_ex :
  RegExp.replaceAll false (RegExp.RGroup 1 (RegExp.RSeq RegExp.cls_AZ (RegExp.RPlus RegExp.cls_09))) 1 "${metric:$1}" "=A1+B22*c3" = "=${metric:A1}+${metric:B22}*c3".
Proof. vm_compute. reflexivity. Qed.
Example replaceAll_empty : RegExp.replaceAllStr "ab" "" "x" = "xaxbx".
Proof. vm_compute. reflexivity. Qed.

Example toString_ex1 : Num.toString (Num.div100 (Num.parseFloat "50")) = "0.5".
Proof. vm_compute. reflexivity. Qed.
Example toString_ex2 : Num.toString (Num.div100 (Num.parseFloat "1.1")) = "0.011000000000000001".
Proof. vm_compute. reflexivity. Qed.
Example toString_ex3 : Num.toString (Num.div100 (Num.parseFloat "0.05")) = "0.0005".
Proof. vm_compute. reflexivity. Qed.
Example toString_ex4 : Num.toString (Num.ofInt 100) = "100".
Proof. vm_compute. reflexivity. Qed.
Example toString_ex5 : Num.toString (Num.div100 (Num.parseFloat "0.00001")) = "1.0000000000000001e-7".
Proof. vm_compute. reflexivity. Qed.
Example toString_ex6 : Num.toString (Num.parseFloat "123456789012345678901234567890") = "1.2345678901234568e+29".
Proof. vm_compute. reflexivity. Qed.
Example toString_ex7 : Num.toString (Num.div100 (Num.parseFloat "7")) = "0.07".
Proof. vm_compute. reflexivity. Qed.
Example toString_ex8 : Num.toString (Num.div100 (Num.parseFloat "33.3")) = "0.33299999999999996".
Proof. vm_compute. reflexivity. Qed.

Example translate_ex1 : translate "=SUM(A1:A3)" = Returns "=(A1+A2+A3)".
Proof. vm_compute. reflexivity. Qed.
Example translate_ex2 : translate "=SUM(A1,B2)" = Returns "=sum(A1,B2)".
Proof. vm_compute. reflexivity. Qed.
Example translate_ex3 : translate "=AVERAGE(A1:A2,B1)" = Returns "=((A1+A2+B1)/3)".
Proof. vm_compute. reflexivity. Qed.
Example translate_ex4 : translate "=LN(5)" = Returns "=(1 / log10(2.71828) * log10(5))".
Proof. vm_compute. reflexivity. Qed.
Example translate_ex5 : translate "=PV(0.1,10,100)" = Returns "=(-(100)*(1-(1+(0.1))^(-(10)))/(0.1))".
Proof. vm_compute. reflexivity. Qed.
Example translate_ex6 : translate "=SUMPRODUCT(A1:A2,B1:B2)" = Returns "=(+A1*B1+A2*B2)".
Proof. vm_compute. reflexivity. Qed.
Example translate_ex7 : translate "=50%+150%" = Returns "=0.5+10.5".
Proof. vm_compute. reflexivity. Qed.
Example translate_ex8 : translate "=sum(a1:b2)+x" = Returns "=_SUM(A1:B2)+X".
Proof. vm_compute. reflexivity. Qed.
Example translate_ex9 : translate "=5%%" = Returns "=0.05%".
Proof. vm_compute. reflexivity. Qed.

(** The edges of the embedding: row numbers up to 2^53 - 1 and ASCII
    formulas are covered, what lies beyond is not. *)
Example translate_safe_rows :
  translate "=SUM(A9007199254740990:A9007199254740991)"
  = Returns "=(A9007199254740990+A9007199254740991)".
Proof. vm_compute. reflexivity. Qed.
Example translate_beyond_safe_rows :
  translate "=SUM(A9007199254740992:A9007199254740993)" = NotModelled.
Proof. vm_compute. reflexivity. Qed.
Example deRange_beyond_safe_rows :
  deRange "A9007199254740992" "A9007199254740993" = NotModelled.
Proof. vm_compute. reflexivity. Qed.
Example inlineSum_beyond_ascii :
  inlineSum ("=Erl" ++ String (ascii_of_nat 246) "se") = NotModelled.
Proof. vm_compute. reflexivity. Qed.

(** * Properties of the string and pattern primitives *)

Section StringFacts.

Lemma str_length_app (a b : string) :
  String.length (a ++ b) = String.length a + String.length b.
Proof. induction a as [|c a IH]; simpl; [reflexivity | now rewrite IH]. Qed.

Lemma str_app_empty_r (a : string) : a ++ "" = a.
Proof. induction a as [|c a IH]; simpl; [reflexivity | now rewrite IH]. Qed.

Lemma str_app_assoc (a b c : string) : (a ++ b) ++ c = a ++ b ++ c.
Proof. induction a as [|x a IH]; simpl; [reflexivity | now rewrite IH]. Qed.

Lemma str_app_nonempty_l (a b : string) : a <> "" -> a ++ b <> "".
Proof. destruct a; simpl; [congruence | discriminate]. Qed.

Lemma str_app_nonempty_r (a b : string) : b <> "" -> a ++ b <> "".
Proof. destruct a; simpl; [trivial | discriminate]. Qed.

Lemma isEmpty_true (s : string) : Str.isEmpty s = true <-> s = "".
Proof. destruct s; simpl; split; congruence. Qed.

Lemma isEmpty_false (s : string) : Str.isEmpty s = false <-> s <> "".
Proof. destruct s; simpl; split; congruence. Qed.

Lemma length_toUpperCase (s : string) :
  String.length (Str.toUpperCase s) = String.length s.
Proof. induction s as [|c s IH]; simpl; [reflexivity | now rewrite IH]. Qed.

Lemma take_length (n : nat) (s : string) :
  String.length (Str.take n s) = Nat.min n (String.length s).
Proof.
  revert s; induction n as [|n IH]; intros [|c s]; simpl; try reflexivity.
  now rewrite IH.
Qed.

Lemma allChars_app (p : ascii -> bool) (a b : string) :
  Num.allChars p (a ++ b) = Num.allChars p a && Num.allChars p b.
Proof.
  induction a as [|c a IH]; simpl; [reflexivity|].
  rewrite IH. now rewrite andb_assoc.
Qed.

Lemma allChars_take (p : ascii -> bool) (n : nat) (s : string) :
  Num.allChars p s = true -> Num.allChars p (Str.take n s) = true.
Proof.
  revert s; induction n as [|n IH]; intros [|c s]; simpl; trivial.
  intros H. apply andb_true_iff in H as [Hc Hs]. now rewrite Hc, IH.
Qed.

Lemma allChars_drop (p : ascii -> bool) (n : nat) (s : string) :
  Num.allChars p s = true -> Num.allChars p (Str.drop n s) = true.
Proof.
  revert s; induction n as [|n IH]; intros [|c s]; simpl; trivial.
  intros H. apply andb_true_iff in H as [Hc Hs]. now apply IH.
Qed.

Lemma allChars_weaken (p q : ascii -> bool) (s : string) :
  (forall c, p c = true -> q c = true) ->
  Num.allChars p s = true -> Num.allChars q s = true.
Proof.
  intros Hpq. induction s as [|c s IH]; simpl; trivial.
  intros H. apply andb_true_iff in H as [Hc Hs]. now rewrite (Hpq _ Hc), IH.
Qed.

End StringFacts.

Section ScanFacts.

Variables (ic : bool) (r : regex).

(** A scan without a match leaves the text as it is. *)
Lemma render_no_hits (n : nat) (tmpl : string) (fuel : nat) :
  forall bef aft,
    String.length aft < fuel ->
    hits (scan fuel ic r bef aft) = [] ->
    render n tmpl (scan fuel ic r bef aft) = aft.
Proof.
  induction fuel as [|fuel IH]; intros bef aft Hlen Hh; [lia|].
  simpl in *. destruct (matchHere ic r bef aft) as [y|].
  - destruct (Str.take _ aft); [destruct aft|]; discriminate.
  - destruct aft as [|c rest]; [reflexivity|].
    simpl in *. f_equal. apply IH; [lia | assumption].
Qed.

Lemma replaceAll_no_match (n : nat) (tmpl s : string) :
  matchAll ic r s = [] -> replaceAll ic r n tmpl s = s.
Proof.
  unfold matchAll, replaceAll, scanAll. intros H.
  apply render_no_hits; [lia | assumption].
Qed.

(** Replacing by texts that are never empty keeps a text non-empty. *)
Lemma replaceAll_nonempty (n : nat) (tmpl s : string) :
  (forall m, getSubstitution n m tmpl <> "") ->
  s <> "" -> replaceAll ic r n tmpl s <> "".
Proof.
  intros Ht Hs. unfold replaceAll, scanAll. simpl.
  destruct (matchHere ic r "" s) as [y|].
  - destruct (Str.take _ s); [destruct s|]; simpl;
      try (apply str_app_nonempty_l; apply Ht); congruence.
  - destruct s; [congruence | simpl; discriminate].
Qed.

End ScanFacts.

Lemma Returns_inj {A} (a b : A) : Returns a = Returns b -> a = b.
Proof. intros E. injection E as E. exact E. Qed.

Lemma startsWith_app (p s : string) :
  Str.startsWith p s = true -> exists t, s = p ++ t.
Proof.
  revert s; induction p as [|a p IH]; intros s H; simpl in *.
  - now exists s.
  - destruct s as [|b s]; [discriminate|].
    apply andb_true_iff in H as [Hab Hp].
    apply Ascii.eqb_eq in Hab. subst b.
    destruct (IH _ Hp) as [t ->]. now exists t.
Qed.

(** * What a successful match consumed *)

Section MatcherFacts.

Variable ic : bool.

Lemma rmatch_RChar_inv (c : ascii) (k : mstate -> option mstate) (x z : mstate) :
  rmatch ic (RChar c) k x = Some z ->
  exists a rest,
    after x = String a rest /\ charEq ic a c = true /\
    k (advance a rest x) = Some z.
Proof.
  cbn [rmatch]. destruct (after x) as [|a rest]; [discriminate|].
  destruct (charEq ic a c) eqn:E; [|discriminate].
  intros H. now exists a, rest.
Qed.

Lemma rmatch_RClass_inv (neg : bool) (rs : list (ascii * ascii))
    (k : mstate -> option mstate) (x z : mstate) :
  rmatch ic (RClass neg rs) k x = Some z ->
  exists a rest,
    after x = String a rest /\ xorb neg (classHas ic rs a) = true /\
    k (advance a rest x) = Some z.
Proof.
  cbn [rmatch]. destruct (after x) as [|a rest]; [discriminate|].
  destruct (xorb neg (classHas ic rs a)) eqn:E; [|discriminate].
  intros H. now exists a, rest.
Qed.

(** A literal matches exactly itself (case-sensitively). *)
Lemma rmatch_RLit (p : string) (k : mstate -> option mstate) :
  forall x,
    rmatch false (RLit p) k x =
    if Str.startsWith p (after x)
    then k (MState (Str.rev_app p (before x))
                   (Str.drop (String.length p) (after x)) (caps x))
    else None.
Proof.
  induction p as [|c p IH]; intros x; cbn [RLit rmatch Str.startsWith].
  - destruct x; reflexivity.
  - destruct (after x) as [|a rest] eqn:Ea; [reflexivity|].
    unfold charEq, canon. destruct (Ascii.eqb a c) eqn:E; [|reflexivity].
    apply Ascii.eqb_eq in E. subst a.
    rewrite IH. reflexivity.
Qed.

(** A starred or plussed class consumes a run of characters of the class,
    at least [min] of them. *)
Lemma RepeatMatcher_class_inv (neg : bool) (rs : list (ascii * ascii))
    (k : mstate -> option mstate) (fuel : nat) :
  forall min x z,
    RepeatMatcher (rmatch ic (RClass neg rs)) k fuel min None x = Some z ->
    exists w rest,
      after x = w ++ rest /\
      Num.allChars (fun a => xorb neg (classHas ic rs a)) w = true /\
      min <= String.length w /\
      k (MState (Str.rev_app w (before x)) rest (caps x)) = Some z.
Proof.
  induction fuel as [|fuel IH]; intros min x z H; [discriminate|].
  cbn [RepeatMatcher option_map] in H.
  assert (Step : forall z',
    rmatch ic (RClass neg rs)
      (fun y =>
         if (min =? 0)%nat && (String.length (after y) =? String.length (after x))%nat
         then None
         else RepeatMatcher (rmatch ic (RClass neg rs)) k fuel (Nat.pred min) None y)
      x = Some z' ->
    exists w rest,
      after x = w ++ rest /\
      Num.allChars (fun a => xorb neg (classHas ic rs a)) w = true /\
      min <= String.length w /\
      k (MState (Str.rev_app w (before x)) rest (caps x)) = Some z').
  { intros z' Hm. apply rmatch_RClass_inv in Hm as (a & rest & Ea & Hc & Hd).
    destruct (_ && _); [discriminate|].
    apply IH in Hd as (w & rest' & Ew & Hw & Hmin & Hk).
    cbn [advance after before caps] in *.
    exists (String a w), rest'. subst rest.
    repeat split; trivial.
    - cbn [Num.allChars]. now rewrite Hc, Hw.
    - cbn [String.length]. lia. }
  destruct (min =? 0)%nat eqn:Emin.
  - destruct (rmatch ic (RClass neg rs) _ x) as [z'|] eqn:Hm.
    + injection H as ->. now apply Step.
    + exists "", (after x). apply Nat.eqb_eq in Emin.
      repeat split; trivial; [simpl; lia|]. destruct x; exact H.
  - now apply Step.
Qed.

End MatcherFacts.

Section ScanSound.

Variables (ic : bool) (r : regex).



End ScanSound.

Lemma take_app_exact (w t : string) :
  Str.take (String.length (w ++ t) - String.length t) (w ++ t) = w.
Proof.
  rewrite str_length_app. replace (String.length w + String.length t - String.length t)
    with (String.length w) by lia.
  induction w as [|c w IH]; cbn [append String.length Str.take].
  - destruct t; reflexivity.
  - now rewrite IH.
Qed.

Lemma take_app_length (w t : string) : Str.take (String.length w) (w ++ t) = w.
Proof.
  induction w as [|c w IH]; cbn [append String.length Str.take].
  - destruct t; reflexivity.
  - now rewrite IH.
Qed.

(** ** Sequences and character classes *)

Lemma rmatch_RSeq (ic : bool) (r1 r2 : regex) (k : mstate -> option mstate) (x : mstate) :
  rmatch ic (RSeq r1 r2) k x = rmatch ic r1 (fun y => rmatch ic r2 k y) x.
Proof. reflexivity. Qed.

Lemma rmatch_RPlus (ic : bool) (r : regex) (k : mstate -> option mstate) (x : mstate) :
  rmatch ic (RPlus r) k x =
  RepeatMatcher (rmatch ic r) k (S (1 + String.length (after x))) 1 None x.
Proof. reflexivity. Qed.

Lemma class_09_digit (a : ascii) :
  xorb false (classHas false [("0", "9")]%char a) = true -> Str.isDigit a = true.
Proof.
  unfold classHas, inRanges. cbn [existsb fst snd xorb andb].
  rewrite !orb_false_r. trivial.
Qed.

Lemma class_AZ_upper (a : ascii) :
  xorb false (classHas false [("A", "Z")]%char a) = true -> Str.isUpper a = true.
Proof.
  unfold classHas, inRanges. cbn [existsb fst snd xorb andb].
  rewrite !orb_false_r. trivial.
Qed.

(** ** The text of a range-style call *)



(** ** Splitting *)

Lemma rev_app_rev_app (w a b : string) :
  Str.rev_app (Str.rev_app w a) b = Str.rev_app a (w ++ b).
Proof.
  revert a b; induction w as [|c w IH]; intros a b; cbn [Str.rev_app append].
  - reflexivity.
  - rewrite IH. reflexivity.
Qed.

Lemma rev_rev_app (w : string) : Str.rev (Str.rev_app w "") = w.
Proof.
  unfold Str.rev. rewrite rev_app_rev_app. cbn [Str.rev_app]. apply str_app_empty_r.
Qed.

Lemma splitOn_nosep (sep : ascii) (w : string) :
  Num.allChars (isNot sep) w = true ->
  forall cur t,
    Str.splitOn sep cur (w ++ t) = Str.splitOn sep (Str.rev_app w cur) t.
Proof.
  induction w as [|c w IH]; intros Hw cur t; [reflexivity|].
  cbn [Num.allChars] in Hw. apply andb_true_iff in Hw as [Hc Hw].
  cbn [append Str.splitOn Str.rev_app]. unfold isNot in Hc.
  apply negb_true_iff in Hc. rewrite Hc. now apply IH.
Qed.




(** ** The marks of the SUM pass *)


Lemma includes_hits (p : string) (fuel : nat) :
  forall bef s,
    String.length s < fuel ->
    Str.includes s p = true ->
    hits (scan fuel false (RLit p) bef s) <> [].
Proof.
  induction fuel as [|fuel IH]; intros bef s Hlen Hinc; [lia|].
  cbn [scan]. unfold matchHere. rewrite rmatch_RLit. cbn [after].
  destruct (Str.startsWith p s) eqn:Hp.
  - destruct (Str.take _ s); [destruct s|]; discriminate.
  - destruct s as [|c rest]; cbn [Str.includes] in Hinc; rewrite Hp in Hinc.
    + discriminate.
    + cbn [hits]. apply IH; [cbn [String.length] in Hlen; lia | exact Hinc].
Qed.

Lemma render_mark_includes (l : list piece) :
  hits l <> [] -> Str.includes (render 0 "_SUM" l) "SUM" = true.
Proof.
  induction l as [|[c|m] l IH]; intros H.
  - now contradiction H.
  - cbn [render Str.includes]. rewrite IH by exact H. apply orb_true_r.
  - reflexivity.
Qed.

Lemma marked_has_SUM (f : string) :
  Str.includes (Str.toUpperCase f) "SUM" = true ->
  matchAll false re_SUM (replaceAllStr (Str.toUpperCase f) "SUM" "_SUM") <> [].
Proof.
  intros H. unfold matchAll, scanAll, re_SUM. apply includes_hits; [lia|].
  unfold replaceAllStr, replaceAll, scanAll. apply render_mark_includes.
  apply includes_hits; [lia | exact H].
Qed.


(** ** The passes raise no exception *)














(** * Replacement texts *)

Lemma getSubstitution_plain (n : nat) (m : jsmatch) (t : string) :
  Num.allChars notDollar t = true -> getSubstitution n m t = t.
Proof.
  induction t as [|c t IH]; intros H; [reflexivity|].
  cbn [Num.allChars] in H. apply andb_true_iff in H as [Hc Ht].
  cbn [getSubstitution]. unfold notDollar in Hc. rewrite Hc.
  now rewrite IH.
Qed.

Lemma getSubstitution_app_plain (n : nat) (m : jsmatch) (a b : string) :
  Num.allChars notDollar a = true ->
  getSubstitution n m (a ++ b) = a ++ getSubstitution n m b.
Proof.
  induction a as [|c a IH]; intros H; [reflexivity|].
  cbn [Num.allChars] in H. apply andb_true_iff in H as [Hc Ha].
  cbn [append getSubstitution]. unfold notDollar in Hc. rewrite Hc.
  now rewrite IH.
Qed.

Lemma getSubstitution_first (n : nat) (m : jsmatch) (c : ascii) (t : string) :
  notDollar c = true -> getSubstitution n m (String c t) <> "".
Proof.
  intros Hc. cbn [getSubstitution]. unfold notDollar in Hc. rewrite Hc.
  discriminate.
Qed.

Lemma getSubstitution_metric (m : jsmatch) :
  getSubstitution 1 m "${metric:$1}" = "${metric:" ++ group 1 m ++ "}".
Proof. reflexivity. Qed.

(** ** The digits of a number contain no dollar sign *)

Lemma string_of_uint_digits (d : Decimal.uint) :
  Num.allChars Str.isDigit (NilEmpty.string_of_uint d) = true.
Proof. induction d; simpl; trivial. Qed.

Lemma digitsOfZ_digits (z : Z) : Num.allChars Str.isDigit (Num.digitsOfZ z) = true.
Proof.
  unfold Num.digitsOfZ, NilZero.string_of_uint.
  destruct (N.to_uint (Z.to_N z)); try reflexivity; apply string_of_uint_digits.
Qed.

Lemma digitsOfZ_nonempty (z : Z) : Num.digitsOfZ z <> "".
Proof.
  unfold Num.digitsOfZ, NilZero.string_of_uint.
  destruct (N.to_uint (Z.to_N z)); discriminate.
Qed.

Lemma zeros_digits (n : nat) : Num.allChars Str.isDigit (Num.zeros n) = true.
Proof. induction n; simpl; trivial. Qed.

Lemma digit_numberChar (c : ascii) : Str.isDigit c = true -> numberChar c = true.
Proof. intros H. unfold numberChar. now rewrite H. Qed.

Lemma toString_chars (x : Num.number) : Num.allChars numberChar (Num.toString x) = true.
Proof.
  assert (D : forall z, Num.allChars numberChar (Num.digitsOfZ z) = true)
    by (intros; eapply allChars_weaken; [apply digit_numberChar | apply digitsOfZ_digits]).
  assert (Zs : forall n, Num.allChars numberChar (Num.zeros n) = true)
    by (intros; eapply allChars_weaken; [apply digit_numberChar | apply zeros_digits]).
  destruct x as [|[|]|neg m e]; try reflexivity.
  unfold Num.toString.
  destruct (m =? 0)%Z; [reflexivity|].
  destruct (Num.toQ m e) as [xn xd].
  destruct (Num.shortest _ _ _ _ _ _ _ _) as [[s n] k].
  match goal with |- Num.allChars _ (if neg then String "-" ?b else ?b) = true =>
    assert (Hb : Num.allChars numberChar b = true) end.
  { repeat match goal with
           | |- context [if ?c then _ else _] => destruct c
           end;
    repeat (rewrite allChars_app || cbn [Num.allChars]);
    rewrite ?D, ?Zs, ?allChars_take, ?allChars_drop by apply D; reflexivity. }
  destruct neg; [cbn [Num.allChars]; rewrite Hb|]; trivial.
Qed.

Lemma numberChar_notDollar (c : ascii) : numberChar c = true -> notDollar c = true.
Proof.
  unfold notDollar. destruct (Ascii.eqb_spec c "$") as [->|]; [discriminate|reflexivity].
Qed.

Lemma toString_nonempty (x : Num.number) : Num.toString x <> "".
Proof.
  destruct x as [|[|]|neg m e]; try discriminate.
  unfold Num.toString.
  destruct (m =? 0)%Z; [discriminate|].
  destruct (Num.toQ m e) as [xn xd].
  destruct (Num.shortest _ _ _ _ _ _ _ _) as [[s n] k].
  destruct neg; [discriminate|].
  repeat match goal with
         | |- context [if ?c then _ else _] => destruct c
         end.
  all: try discriminate;
       try (apply str_app_nonempty_l, digitsOfZ_nonempty);
       try (apply str_app_nonempty_r; discriminate).
Qed.

(** ** The passes keep a formula non-empty *)

Lemma replaceAllStr_nonempty (s pat tmpl : string) :
  (forall m, getSubstitution 0 m tmpl <> "") ->
  s <> "" -> replaceAllStr s pat tmpl <> "".
Proof. intros. now apply replaceAll_nonempty. Qed.

Lemma paren_template (m : jsmatch) (n : nat) (t : string) :
  getSubstitution n m ("(" ++ t) <> "".
Proof. apply getSubstitution_first. reflexivity. Qed.

Lemma fold_left_nonempty {A} (step : string -> A -> string) (l : list A) :
  (forall s a, s <> "" -> step s a <> "") ->
  forall s, s <> "" -> fold_left step l s <> "".
Proof.
  intros Hstep. induction l as [|a l IH]; intros s Hs; simpl; auto.
Qed.

Lemma evalPercentage_nonempty (f : string) : f <> "" -> evalPercentage f <> "".
Proof.
  unfold evalPercentage. apply fold_left_nonempty.
  intros s m Hs. apply replaceAllStr_nonempty; [|exact Hs].
  intros m'. rewrite getSubstitution_plain.
  - apply toString_nonempty.
  - eapply allChars_weaken; [apply numberChar_notDollar | apply toString_chars].
Qed.

Lemma inlineSUMPRODUCT_nonempty (f out : string) :
  f <> "" -> inlineSUMPRODUCT f = Returns out -> out <> "".
Proof.
  unfold inlineSUMPRODUCT. generalize (matchAll true re_SUMPRODUCT f).
  intros ms. revert f. induction ms as [|m ms IH]; intros f Hf H;
    cbn [inlineSUMPRODUCT_loop] in H.
  - apply Returns_inj in H. now subst.
  - destruct (deRange (group 1 m) (group 2 m)) as [sums| |]; cbn [bind] in H;
      try discriminate.
    destruct (deRange (group 3 m) (group 4 m)) as [prods| |]; cbn [bind] in H;
      try discriminate.
    destruct (_ || _).
    + apply Returns_inj in H. now subst.
    + eapply IH; [|exact H]. apply replaceAllStr_nonempty; [|exact Hf].
      intros m'. apply paren_template.
Qed.

Lemma inlineAverage_nonempty (f out : string) :
  f <> "" -> inlineAverage f = Returns out -> out <> "".
Proof.
  unfold inlineAverage. generalize (matchAll true re_AVERAGE f).
  intros ms. revert f. induction ms as [|m ms IH]; intros f Hf H;
    cbn [inlineAverage_loop] in H.
  - apply Returns_inj in H. now subst.
  - destruct (averageArgs (group 1 m)) as [args| |]; cbn [bind] in H;
      try discriminate.
    eapply IH; [|exact H]. apply replaceAllStr_nonempty; [|exact Hf].
    intros m'. apply (paren_template m' 0).
Qed.

Lemma toUpperCase_nonempty (f : string) : f <> "" -> Str.toUpperCase f <> "".
Proof. destruct f; [congruence | discriminate]. Qed.

Lemma inlineSum_loop_nonempty (sums : list string) :
  forall f out, f <> "" -> inlineSum_loop sums f = Returns out -> out <> "".
Proof.
  induction sums as [|sum sums IH]; intros f out Hf H; cbn [inlineSum_loop] in H.
  - apply Returns_inj in H. now subst.
  - destruct (Str.split ":" (Str.sliceBetween 5 1 sum)) as [|start [|end_ l]];
      try discriminate.
    destruct (negb _).
    + apply Returns_inj in H. now subst.
    + destruct (NumberOfDigits (Str.sliceFrom 1 start)) as [a| |];
        cbn [bind] in H; try discriminate.
      destruct (NumberOfDigits (Str.sliceFrom 1 end_)) as [b| |];
        cbn [bind] in H; try discriminate.
      eapply IH; [|exact H].
      apply replaceAllStr_nonempty; [|exact Hf].
      intros m'. apply (paren_template m' 0).
Qed.

Lemma inlineSum_nonempty (f out : string) :
  f <> "" -> inlineSum f = Returns out -> out <> "".
Proof.
  intros Hf. unfold inlineSum.
  destruct (negb (Str.isAscii f)); [discriminate|].
  destruct (negb _).
  - intros H. apply Returns_inj in H. now subst.
  - assert (Hm : replaceAllStr (Str.toUpperCase f) "SUM" "_SUM" <> "").
    { apply replaceAllStr_nonempty; [|now apply toUpperCase_nonempty].
      intros m'. apply getSubstitution_first. reflexivity. }
    destruct (matchG re_SUM _); [|discriminate].
    destruct (_ =? _)%nat.
    + intros H. apply Returns_inj in H. subst.
      apply replaceAllStr_nonempty; [|exact Hm].
      intros m'. apply getSubstitution_first. reflexivity.
    + destruct (matchG re_rangeSum _).
      * destruct (negb _).
        -- intros H. apply Returns_inj in H. now subst.
        -- intros H. eapply inlineSum_loop_nonempty; [exact Hm | exact H].
      * intros H. apply Returns_inj in H. now subst.
Qed.

Lemma translate_nonempty (f out : string) :
  f <> "" -> translate f = Returns out -> out <> "".
Proof.
  intros Hf. unfold translate.
  destruct (inlineSUMPRODUCT _) as [g1| |] eqn:H1; cbn [bind]; try discriminate.
  destruct (inlineAverage g1) as [g2| |] eqn:H2; cbn [bind]; try discriminate.
  destruct (inlineSum g2) as [g| |] eqn:Hs; cbn [bind]; try discriminate.
  intros H. apply Returns_inj in H. subst out.
  apply replaceAll_nonempty; [intros m'; apply (paren_template m' 3)|].
  apply replaceAll_nonempty; [intros m'; apply (paren_template m' 1)|].
  eapply inlineSum_nonempty; [|exact Hs].
  eapply inlineAverage_nonempty; [|exact H2].
  eapply inlineSUMPRODUCT_nonempty; [|exact H1].
  apply evalPercentage_nonempty, Hf.
Qed.

(** ** Removing the characters of a class *)

Lemma allChars_keep (p : ascii -> bool) (s : string) :
  Num.allChars p (keep p s) = true.
Proof.
  induction s as [|c s IH]; simpl; trivial.
  destruct (p c) eqn:Hc; simpl; [now rewrite Hc|trivial].
Qed.

Lemma take_one (a : ascii) (rest : string) :
  Str.take (String.length (String a rest) - String.length rest) (String a rest)
  = String a "".
Proof.
  cbn [String.length]. replace (S (String.length rest) - String.length rest) with 1 by lia.
  reflexivity.
Qed.

Lemma render_scan_class (neg : bool) (rs : list (ascii * ascii)) (fuel : nat) :
  forall bef aft,
    String.length aft < fuel ->
    render 0 "" (scan fuel false (RClass neg rs) bef aft)
    = keep (fun c => negb (xorb neg (classHas false rs c))) aft.
Proof.
  induction fuel as [|fuel IH]; intros bef aft Hlen; [lia|].
  destruct aft as [|a rest]; [reflexivity|].
  cbn [String.length] in Hlen.
  cbn [scan keep].
  change (matchHere false (RClass neg rs) bef (String a rest))
    with (if xorb neg (classHas false rs a)
          then Some (MState (String a bef) rest []) else None).
  destruct (xorb neg (classHas false rs a)); cbn [negb].
  - cbn [after before caps]. rewrite take_one.
    cbn [render getSubstitution append]. apply IH. lia.
  - cbn [render]. f_equal. apply IH. lia.
Qed.

Lemma inRange_single (c d : ascii) : Str.inRange d d c = Ascii.eqb c d.
Proof.
  unfold Str.inRange, Str.code.
  destruct (Ascii.eqb_spec c d) as [->|Hne].
  - now rewrite Nat.leb_refl.
  - apply andb_false_iff.
    destruct (Nat.leb_spec (nat_of_ascii d) (nat_of_ascii c)); [|now left].
    right. apply Nat.leb_gt.
    assert (nat_of_ascii c <> nat_of_ascii d).
    { intros E. apply Hne. rewrite <- (ascii_nat_embedding c), E.
      apply ascii_nat_embedding. }
    lia.
Qed.

Lemma cls_W_word (c : ascii) :
  negb (xorb true (classHas false [("A", "Z"); ("a", "z"); ("0", "9"); ("_", "_")]%char c))
  = Str.isWordChar c.
Proof.
  unfold classHas, inRanges, Str.isWordChar, Str.isUpper, Str.isLower, Str.isDigit.
  cbn [existsb fst snd]. rewrite inRange_single.
  destruct (Str.inRange "A" "Z" c), (Str.inRange "a" "z" c),
    (Str.inRange "0" "9" c), (Ascii.eqb c "_"); reflexivity.
Qed.

Lemma keep_ext (p q : ascii -> bool) (s : string) :
  (forall c, p c = q c) -> keep p s = keep q s.
Proof.
  intros E. induction s as [|c s IH]; [reflexivity|].
  cbn [keep]. now rewrite E, IH.
Qed.

Lemma makePrefix_word (nm : string) :
  makePrefix nm = keep Str.isWordChar nm ++ "!".
Proof.
  unfold makePrefix, replaceAll, scanAll, cls_W. rewrite render_scan_class by lia.
  f_equal. apply keep_ext, cls_W_word.
Qed.

Lemma wordChar_notDollar (c : ascii) : Str.isWordChar c = true -> notDollar c = true.
Proof.
  unfold notDollar. destruct (Ascii.eqb_spec c "$") as [->|]; [discriminate|reflexivity].
Qed.

Lemma makePrefix_plain (nm : string) : Num.allChars notDollar (makePrefix nm) = true.
Proof.
  rewrite makePrefix_word, allChars_app.
  rewrite (allChars_weaken _ _ _ wordChar_notDollar (allChars_keep _ _)).
  reflexivity.
Qed.

Lemma makePrefix_nonempty (nm : string) : makePrefix nm <> "".
Proof. rewrite makePrefix_word. apply str_app_nonempty_r. discriminate. Qed.

(** * GraphBuilder: the name policy *)

(** C5, as stated, fails: a label cell without a value keeps its whole
    description as name, here 26 characters. *)
Lemma makeGraph_long_name :
  exists g,
    makeGrid wb_longLabel = Returns g /\
    map name (metrics (makeGraph g)) = ["Total revenue for the year"] /\
    ~ (forall m, In m (metrics (makeGraph g)) -> String.length (name m) <= 20).
Proof.
  eexists. split; [vm_compute; reflexivity|]. split; [reflexivity|].
  intros H. specialize (H _ (or_introl eq_refl)). vm_compute in H. lia.
Qed.

Lemma String_neq_empty (c : ascii) (s : string) : String c s <> "".
Proof. discriminate. Qed.

Lemma length_truncated (d : string) : String.length (Str.take 17 d ++ "...") <= 20.
Proof. rewrite str_length_app, take_length. simpl String.length. lia. Qed.

(** C5 (amended): the Metric of every cell has a name of at most 20
    characters when the description has at most 20 characters or the value
    is non-empty.  A description of more than 20 characters on a cell with a
    non-empty value gives its first 17 characters and an ellipsis, the whole
    description going to the Guesstimate; in every other case the name is the
    description verbatim and the Guesstimate's description is empty. *)
Theorem makeGraph_name_policy (grid : Grid) (i : nat) (k : string) (cell : CellData) :
  nth_error (cells grid) i = Some (k, cell) ->
  exists m g,
    nth_error (metrics (makeGraph grid)) i = Some m /\
    nth_error (guesstimates (makeGraph grid)) i = Some g /\
    (20 < String.length (description cell) /\ value cell <> "" ->
       name m = Str.take 17 (description cell) ++ "..." /\
       guesstimate_description g = description cell) /\
    (~ (20 < String.length (description cell) /\ value cell <> "") ->
       name m = description cell /\ guesstimate_description g = "") /\
    (String.length (description cell) <= 20 \/ value cell <> "" ->
       String.length (name m) <= 20).
Proof.
  intros Hn. exists (cellMetric cell), (cellGuesstimate cell).
  split; [simpl; now rewrite nth_error_map, Hn|].
  split; [simpl; now rewrite nth_error_map, Hn|].
  unfold cellMetric, cellGuesstimate, cellName, cellDescription; simpl.
  destruct (Nat.ltb_spec 20 (String.length (description cell))) as [Hl|Hl];
    destruct (String.eqb_spec (value cell) "") as [Hv|Hv]; simpl.
  - split; [intros [_ C]; congruence|]. split; [auto|]. intros [C|C]; [lia|congruence].
  - split; [auto|]. split; [intros C; exfalso; apply C; auto|].
    intros _. apply length_truncated.
  - split; [intros [C _]; lia|]. split; [auto|]. intros _; lia.
  - split; [intros [C _]; lia|]. split; [auto|]. intros _; lia.
Qed.

Lemma makeGraph_name_policy_witness :
  exists g, makeGrid
    [ {| ExcelJS.name := "Sheet1";
         ExcelJS.rows :=
           [(1%Z, [(1%Z, textCell "Sheet1" "A1" "Total revenue for the year");
                   (2%Z, numberCell "Sheet1" "B1" 100)])] |} ] = Returns g /\
  exists m, nth_error (metrics (makeGraph g)) 0 = Some m /\
            name m = "Total revenue for..." /\ String.length (name m) <= 20.
Proof.
  eexists. split; [vm_compute; reflexivity|].
  match goal with |- context [makeGraph ?g] =>
    destruct (makeGraph_name_policy g 0 "B1"
                {| address := "B1"; value := "100";
                   description := "Total revenue for the year"; formula := "";
                   rowNum := 1; colNum := 3 |} eq_refl)
      as (m & gs & Hm & _ & Hlong & _ & Hle)
  end.
  exists m. split; [exact Hm|]. split.
  - destruct Hlong as [Hn _]; [|exact Hn].
    split; [simpl; lia | discriminate].
  - apply Hle. right. discriminate.
Defined.

(** * Evaluations of the grid builder *)

(** C4: the cell in row 1, column A of the only sheet gets row number 1 but
    column number 2: [startColumn] is 1 for the first sheet and is added to
    the 1-based column number. *)
Theorem makeGrid_first_column_number :
  makeGrid wb_A1 =
  Returns {| cells := [("A1", {| address := "A1"; value := "100";
                                 description := ""; formula := "";
                                 rowNum := 1; colNum := 2 |})];
             sheetNames := ["Sheet1"] |}.
Proof. vm_compute. reflexivity. Qed.

(** C2: the reference [MyData!B2] is wrapped by the round for [MyData] and
    wrapped again, inside, by the later round for [Data]. *)
Theorem getCellData_rewraps_suffix_sheet :
  exists g,
    makeGrid wb_suffix = Returns g /\
    option_map formula (cells_get "Data!A1" (cells g)) =
      Some "=${metric:My${metric:Data!B2}}+1".
Proof. eexists. split; [vm_compute; reflexivity | vm_compute; reflexivity]. Qed.

(** C9: the sheet name goes into a pattern unescaped; [C++!] is not a
    pattern (nothing to repeat), the constructor throws and the exception
    leaves [makeGrid]. *)
Theorem makeGrid_throws_on_sheet_name :
  Pattern.compile "C++!" = Throws /\ makeGrid wb_cpp = Throws.
Proof. split; vm_compute; reflexivity. Qed.

(** C8: for a formula that refers to its own cell both tests of [seen] are
    made before either address is added, and the node is declared twice. *)
Theorem gridToMermaidGraph_declares_twice :
  exists g,
    makeGrid wb_selfref = Returns g /\
    mermaidLines g = ["B1[Total]"; "B1[Total]"; "B1 --> B1"].
Proof. eexists. split; [vm_compute; reflexivity | vm_compute; reflexivity]. Qed.

(** * HYPERLINK formulas *)

(** C7, as stated, fails: a HYPERLINK call inside a formula is kept, and
    so is the formula. *)
Lemma getCellData_keeps_inner_HYPERLINK :
  Str.includes "IF(A1>0,HYPERLINK(B1,C1),0)" "HYPERLINK(" = true /\
  getCellData (formulaCell "Sheet1" "D1" "" "IF(A1>0,HYPERLINK(B1,C1),0)")
    ["Sheet1"] 1 5 =
  Returns {| address := "D1"; value := ""; description := "";
             formula :=
               "=IF(${metric:A1}>0,HYPERLINK(${metric:B1},${metric:C1}),0)";
             rowNum := 1; colNum := 5 |}.
Proof. split; vm_compute; reflexivity. Qed.

Lemma rawFormula_HYPERLINK (cell : ExcelJS.Cell) :
  Str.startsWith "HYPERLINK" (ExcelJS.formula cell) = true ->
  rawFormula cell = "".
Proof.
  intros H. apply startsWith_app in H as [t Ht].
  unfold rawFormula. rewrite Ht.
  cbn [Str.isEmpty append Str.startsWith Ascii.eqb Bool.eqb andb].
  reflexivity.
Qed.

Lemma replaceAll_empty_input (ic : bool) (r : regex) (n : nat) (tmpl : string) :
  matchHere ic r "" "" = None -> replaceAll ic r n tmpl "" = "".
Proof.
  intros H. unfold replaceAll, scanAll. cbn [String.length scan].
  rewrite H. reflexivity.
Qed.

Lemma re_prefixed_empty (p : string) : matchHere false (re_prefixed p) "" "" = None.
Proof. destruct p; reflexivity. Qed.

Lemma normalizeSheets_empty (names : list string) (out : string) :
  noEmptyMatch names ->
  normalizeSheets names "" = Returns out -> out = "".
Proof.
  induction names as [|nm names IH]; intros Hn H; cbn [normalizeSheets] in H.
  - congruence.
  - unfold normalizeSheet in H.
    destruct (Pattern.compile (quoteSheetName nm ++ "!")) as [[r n]| |] eqn:Hc;
      cbn [bind fst snd] in H; try discriminate.
    assert (Hr : matchHere true r "" "" = None)
      by (eapply Hn; [left; reflexivity | exact Hc]).
    rewrite (replaceAll_empty_input _ _ _ _ Hr) in H.
    rewrite (replaceAll_empty_input _ _ _ _ (re_prefixed_empty _)) in H.
    apply IH; [|exact H].
    intros nm' r' n' Hin. apply Hn. now right.
Qed.

Lemma translate_empty : translate "" = Returns "".
Proof. vm_compute. reflexivity. Qed.

(** C7 (amended): a cell whose formula text begins with HYPERLINK is
    treated as having no formula.  With one sheet [getCellData] returns a
    CellData with an empty formula; with several sheets, whenever it returns
    and no sheet name read as a pattern matches the empty text, the formula
    is empty as well. *)
Theorem getCellData_drops_leading_HYPERLINK
    (cell : ExcelJS.Cell) (names : list string) (rowNum colNum : Z) :
  Str.startsWith "HYPERLINK" (ExcelJS.formula cell) = true ->
  rawFormula cell = "" /\
  (List.length names <= 1 ->
     exists cd, getCellData cell names rowNum colNum = Returns cd /\
                formula cd = "") /\
  (forall cd, noEmptyMatch names ->
     getCellData cell names rowNum colNum = Returns cd -> formula cd = "").
Proof.
  intros H. pose proof (rawFormula_HYPERLINK cell H) as Hraw.
  split; [exact Hraw|]. unfold getCellData. rewrite Hraw.
  rewrite translate_empty. cbn [bind].
  assert (Hone : forall tmpl, replaceAll false (RGroup 1 re_address) 1 tmpl "" = "")
    by (intros; apply replaceAll_empty_input; reflexivity).
  assert (Hun : forall tmpl, replaceAll false re_unprefixed 1 tmpl "" = "")
    by (intros; apply replaceAll_empty_input; reflexivity).
  split.
  - intros Hl. apply Nat.ltb_ge in Hl. rewrite Hl, Hone.
    eexists. split; [reflexivity|]. reflexivity.
  - intros cd Hn. destruct (1 <? List.length names)%nat.
    + rewrite Hun.
      destruct (normalizeSheets names "") as [out| |] eqn:Hs; cbn [bind];
        try discriminate.
      apply normalizeSheets_empty in Hs; [|exact Hn]. subst out.
      intros E. apply Returns_inj in E. subst cd. reflexivity.
    + rewrite Hone. intros E. apply Returns_inj in E. subst cd. reflexivity.
Qed.

Lemma getCellData_drops_leading_HYPERLINK_witness :
  Str.startsWith "HYPERLINK" "HYPERLINK(B1,C1)" = true /\
  exists cd,
    getCellData (formulaCell "Sheet1" "D1" "5" "HYPERLINK(B1,C1)")
      ["Sheet1"] 1 5 = Returns cd /\ formula cd = "".
Proof.
  split; [reflexivity|].
  apply (getCellData_drops_leading_HYPERLINK
           (formulaCell "Sheet1" "D1" "5" "HYPERLINK(B1,C1)") ["Sheet1"] 1 5
           eq_refl).
  apply Nat.le_refl.
Defined.

(** * Formula cells *)

Lemma rawFormula_keeps (cell : ExcelJS.Cell) :
  ExcelJS.formula cell <> "" ->
  Str.startsWith "HYPERLINK" (ExcelJS.formula cell) = false ->
  rawFormula cell <> "".
Proof.
  intros Hf Hh. unfold rawFormula.
  apply isEmpty_false in Hf. rewrite Hf.
  change (Str.startsWith "=HYPERLINK" ("=" ++ ExcelJS.formula cell))
    with (Str.startsWith "HYPERLINK" (ExcelJS.formula cell)).
  rewrite Hh. cbn [append].
  unfold replaceAllStr, replaceAll, scanAll. cbn [String.length scan].
  unfold matchHere. rewrite rmatch_RLit. cbn [after Str.startsWith Ascii.eqb Bool.eqb andb].
  cbn [render]. discriminate.
Qed.

Lemma metric_template (m : jsmatch) : getSubstitution 1 m "${metric:$1}" <> "".
Proof. rewrite getSubstitution_metric. discriminate. Qed.

Lemma normalizeSheet_nonempty (formula nm out : string) :
  formula <> "" -> normalizeSheet formula nm = Returns out -> out <> "".
Proof.
  intros Hf. unfold normalizeSheet.
  destruct (Pattern.compile _) as [[r n]| |]; cbn [bind fst snd]; try discriminate.
  intros H. apply Returns_inj in H. subst out.
  apply replaceAll_nonempty; [apply metric_template|].
  apply replaceAll_nonempty; [|exact Hf].
  intros m. rewrite getSubstitution_plain by apply makePrefix_plain.
  apply makePrefix_nonempty.
Qed.

Lemma normalizeSheets_nonempty (names : list string) :
  forall formula out,
    formula <> "" -> normalizeSheets names formula = Returns out -> out <> "".
Proof.
  induction names as [|nm names IH]; intros formula out Hf H; cbn [normalizeSheets] in H.
  - apply Returns_inj in H. now subst.
  - destruct (normalizeSheet formula nm) as [g| |] eqn:Hg; cbn [bind] in H;
      try discriminate.
    eapply IH; [|exact H]. eapply normalizeSheet_nonempty; [exact Hf | exact Hg].
Qed.

Lemma normalizeSheets_returns (names : list string) :
  patternsCompile names ->
  forall formula, exists out, normalizeSheets names formula = Returns out.
Proof.
  induction names as [|nm names IH]; intros Hc formula; cbn [normalizeSheets].
  - eauto.
  - unfold normalizeSheet at 1.
    destruct (Hc nm (or_introl eq_refl)) as (r & n & ->). cbn [bind].
    apply IH. intros nm' Hin. apply Hc. now right.
Qed.

Lemma returned_Returns {A} (o : outcome A) :
  returned o = true -> exists a, o = Returns a.
Proof. destruct o as [a| |]; [eauto | discriminate..]. Qed.

(** [getCellData] returns when the translator passes do and there is one
    sheet or every sheet name gives a pattern. *)
Lemma getCellData_returns (cell : ExcelJS.Cell) (names : list string)
    (rowNum colNum : Z) :
  translates cell = true ->
  List.length names <= 1 \/ patternsCompile names ->
  exists cd, getCellData cell names rowNum colNum = Returns cd.
Proof.
  intros Ht Hn. unfold getCellData. unfold translates in Ht.
  destruct (returned_Returns _ Ht) as [f ->]. cbn [bind].
  destruct (1 <? List.length names)%nat eqn:Hl; [|eauto].
  destruct Hn as [Hn|Hn]; [apply Nat.ltb_lt in Hl; lia|].
  destruct (normalizeSheets_returns names Hn
              (replaceAll false re_unprefixed 1
                 (makePrefix (ExcelJS.fullAddress_sheetName cell) ++ "$1") f))
    as [g ->].
  cbn [bind]. eauto.
Qed.

Lemma getCellData_formula_nonempty (cell : ExcelJS.Cell) (names : list string)
    (rowNum colNum : Z) (cd : CellData) :
  rawFormula cell <> "" ->
  getCellData cell names rowNum colNum = Returns cd -> formula cd <> "".
Proof.
  intros Hraw. unfold getCellData.
  destruct (translate (rawFormula cell)) as [f| |] eqn:Ht; cbn [bind];
    try discriminate.
  pose proof (translate_nonempty _ _ Hraw Ht) as Hf.
  destruct (1 <? List.length names)%nat.
  - destruct (normalizeSheets names _) as [g| |] eqn:Hg; cbn [bind];
      try discriminate.
    intros H. apply Returns_inj in H. subst cd. cbn [formula].
    eapply normalizeSheets_nonempty; [|exact Hg].
    apply replaceAll_nonempty; [|exact Hf].
    intros m. rewrite getSubstitution_app_plain by apply makePrefix_plain.
    apply str_app_nonempty_l, makePrefix_nonempty.
  - intros H. apply Returns_inj in H. subst cd. cbn [formula].
    apply replaceAll_nonempty; [apply metric_template | exact Hf].
Qed.

Lemma getCellData_value (cell : ExcelJS.Cell) (names : list string)
    (rn cn : Z) (cd : CellData) :
  getCellData cell names rn cn = Returns cd ->
  value cd = (if Num.isNaN (cellText cell) then "" else cellText cell) /\
  description cd = (if Num.isNaN (cellText cell) then cellText cell else "") /\
  rowNum cd = rn /\ colNum cd = cn.
Proof.
  unfold getCellData.
  destruct (translate (rawFormula cell)) as [f| |]; cbn [bind]; try discriminate.
  destruct (1 <? List.length names)%nat.
  - destruct (normalizeSheets names _) as [g| |]; cbn [bind]; try discriminate.
    intros H. apply Returns_inj in H. subst cd. repeat split.
  - intros H. apply Returns_inj in H. subst cd. repeat split.
Qed.

(** C10, as stated, fails: a HYPERLINK formula with a numeric display value
    gives a CellData without formula, and graph building takes the cached
    value as the expression of a POINT. *)
Lemma getCellData_HYPERLINK_is_point :
  exists cd,
    getCellData (formulaCell "Sheet1" "D1" "5" "HYPERLINK(B1,5)") ["Sheet1"] 1 5
      = Returns cd /\
    value cd = "5" /\ formula cd = "" /\
    guesstimateType (cellGuesstimate cd) = POINT /\
    expression (cellGuesstimate cd) = "5".
Proof. eexists. split; [vm_compute; reflexivity|]. repeat split. Qed.

(** C10 (amended): for a cell holding a formula that does not begin with
    HYPERLINK, whose display text is numeric and not empty, every CellData
    that [getCellData] yields has both value and formula non-empty, and
    graph building makes it a FUNCTION whose expression is the formula, not
    the cached value.  [getCellData] yields a CellData when the translator
    passes return on the formula and the workbook has one sheet or sheets
    whose names give patterns. *)
Theorem getCellData_formula_cell (cell : ExcelJS.Cell) (names : list string)
    (rowNum colNum : Z) :
  ExcelJS.formula cell <> "" ->
  Str.startsWith "HYPERLINK" (ExcelJS.formula cell) = false ->
  cellText cell <> "" ->
  Num.isNaN (cellText cell) = false ->
  (forall cd,
     getCellData cell names rowNum colNum = Returns cd ->
     value cd <> "" /\ formula cd <> "" /\
     guesstimateType (cellGuesstimate cd) = FUNCTION /\
     expression (cellGuesstimate cd) = formula cd) /\
  (translates cell = true ->
   List.length names <= 1 \/ patternsCompile names ->
   exists cd, getCellData cell names rowNum colNum = Returns cd).
Proof.
  intros Hf Hh Ht Hnum. split.
  - intros cd Hcd.
    pose proof (getCellData_formula_nonempty _ _ _ _ _ (rawFormula_keeps _ Hf Hh) Hcd)
      as Hfo.
    destruct (getCellData_value _ _ _ _ _ Hcd) as (Hv & _).
    rewrite Hnum in Hv. split; [now rewrite Hv|]. split; [exact Hfo|].
    apply isEmpty_false in Hfo. unfold cellGuesstimate.
    cbn [guesstimateType expression]. now rewrite Hfo.
  - intros Htr Hn. now apply getCellData_returns.
Qed.

Lemma getCellData_formula_cell_witness :
  exists cd,
    getCellData (formulaCell "Sheet1" "C1" "42" "A1+B1") ["Sheet1"] 1 4 = Returns cd /\
    value cd <> "" /\ formula cd <> "" /\
    guesstimateType (cellGuesstimate cd) = FUNCTION /\
    expression (cellGuesstimate cd) = formula cd.
Proof.
  destruct (getCellData_formula_cell (formulaCell "Sheet1" "C1" "42" "A1+B1")
              ["Sheet1"] 1 4) as [Hall Hyields].
  - discriminate.
  - reflexivity.
  - vm_compute. discriminate.
  - vm_compute. reflexivity.
  - destruct Hyields as [cd Hcd].
    + vm_compute. reflexivity.
    + left. apply Nat.le_refl.
    + exists cd. split; [exact Hcd | now apply Hall].
Defined.

(** * The SUM pass on calls it cannot resolve *)

(** C1, as stated, fails: with a comma list and a range in one formula no
    call is expanded, but the formula comes back upper-cased and with an
    underscore before every SUM. *)
Lemma inlineSum_marks_unresolved :
  inlineSum "=SUM(A1,B2)+SUM(C1:D4)+x" = Returns "=_SUM(A1,B2)+_SUM(C1:D4)+X" /\
  inlineSum "=SUM(A1,B2)+SUM(C1:D4)+x" <> Returns "=SUM(A1,B2)+SUM(C1:D4)+x".
Proof. split; [vm_compute; reflexivity | vm_compute; discriminate]. Qed.

Lemma matchG_length (r : regex) (s : string) :
  List.length (match matchG r s with Some l => l | None => [] end)
  = List.length (matchAll false r s).
Proof.
  unfold matchG. destruct (matchAll false r s); [reflexivity|].
  now rewrite length_map.
Qed.

Lemma length_mark (fuel : nat) :
  forall bef s,
    String.length s < fuel ->
    String.length (render 0 "_SUM" (scan fuel false (RLit "SUM") bef s))
    = String.length s + List.length (hits (scan fuel false (RLit "SUM") bef s)).
Proof.
  induction fuel as [|fuel IH]; intros bef s Hlen; [lia|].
  cbn [scan]. unfold matchHere. rewrite rmatch_RLit. cbn [after before caps].
  destruct (Str.startsWith "SUM" s) eqn:Hp.
  - apply startsWith_app in Hp as [t ->].
    change (Str.drop (String.length "SUM") ("SUM" ++ t)) with t.
    cbn [after before caps]. rewrite take_app_exact.
    cbn [hits render List.length].
    change (getSubstitution 0 _ "_SUM") with "_SUM".
    rewrite str_length_app, IH.
    + rewrite str_length_app. cbn [String.length]. lia.
    + rewrite str_length_app in Hlen. cbn [String.length] in Hlen. lia.
  - destruct s as [|c rest]; [reflexivity|].
    cbn [hits render String.length] in *. rewrite IH by lia. lia.
Qed.

Lemma inlineSum_ascii (formula : string) :
  Str.isAscii formula = true ->
  inlineSum formula =
  if negb (Str.includes (Str.toUpperCase formula) "SUM") then Returns formula
  else
    let formula := replaceAllStr (Str.toUpperCase formula) "SUM" "_SUM" in
    match matchG re_SUM formula with
    | None => Throws
    | Some allSums =>
        let sumsNumber := List.length allSums in
        let commaSums :=
          match matchG re_commaSum formula with Some l => l | None => [] end in
        if (List.length commaSums =? sumsNumber)%nat
        then Returns (replaceAllStr formula "_SUM" "sum")
        else
          match matchG re_rangeSum formula with
          | None => Returns formula
          | Some sums =>
              if negb (List.length sums =? sumsNumber)%nat then Returns formula
              else inlineSum_loop sums formula
          end
    end.
Proof. intros H. unfold inlineSum. now rewrite H. Qed.

Lemma markSums_longer (formula : string) :
  Str.includes (Str.toUpperCase formula) "SUM" = true ->
  String.length formula < String.length (markSums formula).
Proof.
  intros Hi. unfold markSums, replaceAllStr, replaceAll, scanAll.
  rewrite length_mark by lia.
  pose proof (includes_hits "SUM" _ "" _ (Nat.lt_succ_diag_r _) Hi) as Hh.
  destruct (hits _); [congruence|].
  rewrite length_toUpperCase. cbn [List.length]. lia.
Qed.

(** C1 (amended): when the SUM calls of an ASCII formula are neither all
    comma lists nor all single ranges, or its first range call spans two
    column letters, the SUM pass expands no call and returns the formula as
    it has marked it: upper-cased, with SUM renamed to _SUM.  This text is
    longer than the input, so the formula is never returned unchanged. *)
Theorem inlineSum_unresolved (formula : string) :
  Str.isAscii formula = true ->
  Str.includes (Str.toUpperCase formula) "SUM" = true ->
  unresolvedSums (markSums formula) = true ->
  inlineSum formula = Returns (markSums formula) /\
  markSums formula <> formula.
Proof.
  intros Ha Hi Hu. split.
  - rewrite (inlineSum_ascii _ Ha). rewrite Hi. cbn [negb]. fold (markSums formula).
    pose proof (marked_has_SUM formula Hi) as Hs. fold (markSums formula) in Hs.
    unfold unresolvedSums, sumsNumber in Hu.
    apply andb_true_iff in Hu as [Hc Hr].
    unfold matchG at 1.
    destruct (matchAll false re_SUM (markSums formula)) as [|m0 ms0] eqn:E0;
      [congruence|].
    rewrite matchG_length, length_map.
    apply negb_true_iff in Hc. rewrite Hc.
    unfold matchG.
    destruct (matchAll false re_rangeSum (markSums formula)) as [|m ms]; [reflexivity|].
    cbn [map List.length] in *. rewrite length_map.
    destruct (S (List.length ms) =? S (List.length ms0))%nat; cbn [negb orb] in *;
      [|reflexivity].
    cbn [inlineSum_loop]. unfold crossesColumns in Hr.
    destruct (Str.split ":" (Str.sliceBetween 5 1 (m_text m))) as [|start [|end_ l]];
      try discriminate.
    now rewrite Hr.
  - intros E. pose proof (markSums_longer formula Hi) as Hl. rewrite E in Hl. lia.
Qed.

Lemma inlineSum_unresolved_witness :
  inlineSum "=sum(a1:b2)+x" = Returns "=_SUM(A1:B2)+X" /\
  "=_SUM(A1:B2)+X" <> "=sum(a1:b2)+x".
Proof.
  apply (inlineSum_unresolved "=sum(a1:b2)+x"); vm_compute; reflexivity.
Defined.

(** * What a matcher hands on *)

Lemma isSuffix_refl (s : string) : isSuffix s s.
Proof. now exists "". Qed.

Lemma isSuffix_trans (a b c : string) : isSuffix a b -> isSuffix b c -> isSuffix a c.
Proof.
  intros [w1 ->] [w2 ->]. exists (w2 ++ w1)%string. now rewrite str_app_assoc.
Qed.

Lemma isSuffix_tail (c : ascii) (s : string) : isSuffix s (String c s).
Proof. now exists (String c ""). Qed.

Section Continuations.

Variable ic : bool.

Lemma RepeatMatcher_passesOn (m : (mstate -> option mstate) -> mstate -> option mstate) :
  passesOn m ->
  forall fuel min max, passesOn (fun k => RepeatMatcher m k fuel min max).
Proof.
  intros Hm. induction fuel as [|fuel IH]; intros min max k x z H; [discriminate|].
  cbn [RepeatMatcher] in H.
  assert (Step : forall z',
    m (fun y =>
         if (min =? 0)%nat && (String.length (after y) =? String.length (after x))%nat
         then None
         else RepeatMatcher m k fuel (Nat.pred min) (option_map Nat.pred max) y) x
      = Some z' ->
    exists y, k y = Some z' /\ isSuffix (after y) (after x)).
  { intros z' Hz. apply Hm in Hz as (y1 & Hd & Hs).
    destruct (_ && _); [discriminate|].
    apply IH in Hd as (y & Hk & Hs'). exists y. split; [exact Hk|].
    eapply isSuffix_trans; eassumption. }
  destruct max as [[|mx]|].
  - exists x. split; [exact H | apply isSuffix_refl].
  - destruct (min =? 0)%nat; [|now apply Step].
    destruct (m _ x) as [z'|] eqn:Hz.
    + injection H as ->. now apply Step.
    + exists x. split; [exact H | apply isSuffix_refl].
  - destruct (min =? 0)%nat; [|now apply Step].
    destruct (m _ x) as [z'|] eqn:Hz.
    + injection H as ->. now apply Step.
    + exists x. split; [exact H | apply isSuffix_refl].
Qed.

Lemma rmatch_passesOn (r : regex) : passesOn (rmatch ic r).
Proof.
  induction r; intros k x z H; cbn [rmatch] in H.
  - exists x. split; [exact H | apply isSuffix_refl].
  - destruct (after x) as [|a rest] eqn:E; [discriminate|].
    destruct (charEq ic a c); [|discriminate].
    eexists. split; [exact H|]. cbn [advance after]. apply isSuffix_tail.
  - destruct (after x) as [|a rest] eqn:E; [discriminate|].
    destruct (isLineTerminator a); [discriminate|].
    eexists. split; [exact H|]. cbn [advance after]. apply isSuffix_tail.
  - destruct (after x) as [|a rest] eqn:E; [discriminate|].
    destruct (xorb neg (classHas ic ranges a)); [|discriminate].
    eexists. split; [exact H|]. cbn [advance after]. apply isSuffix_tail.
  - apply IHr1 in H as (y1 & H & Hs1). apply IHr2 in H as (y & H & Hs2).
    exists y. split; [exact H|]. eapply isSuffix_trans; eassumption.
  - destruct (rmatch ic r1 k x) as [z'|] eqn:E1.
    + injection H as ->. now apply IHr1.
    + now apply IHr2.
  - now apply (RepeatMatcher_passesOn _ IHr) in H.
  - apply IHr in H as (y & H & Hs). eexists. split; [exact H|]. exact Hs.
  - destruct (before x) as [|a b]; [|destruct (Ascii.eqb a c); [discriminate|]];
      (exists x; split; [exact H | apply isSuffix_refl]).
  - destruct (before x); [|discriminate].
    exists x. split; [exact H | apply isSuffix_refl].
  - destruct (after x) eqn:E; [|discriminate].
    exists x. split; [exact H | rewrite E; apply isSuffix_refl].
Qed.

End Continuations.

(** ** Replacing keeps a class of characters *)

Lemma render_chars (p : ascii -> bool) (ic : bool) (r : regex) (n : nat) (tmpl : string) :
  (forall m, Num.allChars p (getSubstitution n m tmpl) = true) ->
  forall fuel bef aft,
    Num.allChars p aft = true ->
    Num.allChars p (render n tmpl (scan fuel ic r bef aft)) = true.
Proof.
  intros Ht. induction fuel as [|fuel IH]; intros bef aft Ha; [reflexivity|].
  cbn [scan]. destruct (matchHere ic r bef aft) as [y|] eqn:Hy.
  - assert (Hafter : Num.allChars p (after y) = true).
    { unfold matchHere in Hy. apply rmatch_passesOn in Hy as (y' & [= ->] & [w Hw]).
      cbn [after] in Hw. rewrite Hw, allChars_app in Ha.
      now apply andb_true_iff in Ha as [_ Ha]. }
    destruct (Str.take _ aft) eqn:Et.
    + destruct aft as [|c rest]; cbn [render]; rewrite allChars_app, Ht; [reflexivity|].
      cbn [Num.allChars andb] in *. apply andb_true_iff in Ha as [Hc Hr].
      now rewrite Hc, IH.
    + cbn [render]. now rewrite allChars_app, Ht, IH.
  - destruct aft as [|c rest]; [reflexivity|]. cbn [render Num.allChars].
    cbn [Num.allChars] in Ha. apply andb_true_iff in Ha as [Hc Hr].
    now rewrite Hc, IH.
Qed.

Lemma replaceAllStr_chars (p : ascii -> bool) (s pat tmpl : string) :
  Num.allChars notDollar tmpl = true -> Num.allChars p tmpl = true ->
  Num.allChars p s = true -> Num.allChars p (replaceAllStr s pat tmpl) = true.
Proof.
  intros Hd Ht Hs. unfold replaceAllStr, replaceAll, scanAll.
  apply render_chars; [|exact Hs].
  intros m. now rewrite getSubstitution_plain.
Qed.

Lemma isAscii_chars (s : string) : Str.isAscii s = Num.allChars Str.asciiChar s.
Proof. induction s as [|c s IH]; cbn [Str.isAscii Num.allChars]; [reflexivity | now rewrite IH]. Qed.

Lemma numberChar_ascii (c : ascii) : numberChar c = true -> Str.asciiChar c = true.
Proof.
  unfold numberChar. intros H. apply orb_true_iff in H as [H|H].
  - unfold Str.isDigit, Str.inRange in H. apply andb_true_iff in H as [_ H].
    apply Nat.leb_le in H. unfold Str.asciiChar. apply Nat.ltb_lt.
    change (Str.code "9") with 57 in H. lia.
  - cbn [existsb] in H.
    repeat (apply orb_true_iff in H as [H|H];
            [apply Ascii.eqb_eq in H; subst c; reflexivity|]).
    discriminate.
Qed.

(** The percentage pass keeps an ASCII formula ASCII. *)
Lemma evalPercentage_ascii (formula : string) :
  Str.isAscii formula = true -> Str.isAscii (evalPercentage formula) = true.
Proof.
  rewrite !isAscii_chars. unfold evalPercentage.
  generalize (matchAll false re_percentage formula). intros ms. revert formula.
  induction ms as [|m ms IH]; intros formula H; cbn [fold_left]; [exact H|].
  apply IH. apply replaceAllStr_chars; [| |exact H].
  - eapply allChars_weaken; [apply numberChar_notDollar | apply toString_chars].
  - eapply allChars_weaken; [apply numberChar_ascii | apply toString_chars].
Qed.

(** * Translating twice *)

(** C3, as stated, fails: a percent sign after a percentage literal makes
    the output of the percentage pass a percentage literal again. *)
Lemma translate_twice_differs :
  noFunctionName "=5%%" = true /\
  translate "=5%%" = Returns "=0.05%" /\
  translate "=0.05%" = Returns "=0.0005" /\
  (x <- translate "=5%%" ;; translate x) <> translate "=5%%".
Proof.
  split; [vm_compute; reflexivity|].
  split; [vm_compute; reflexivity|].
  split; [vm_compute; reflexivity|].
  vm_compute. discriminate.
Qed.

Lemma noMatch_nil (ic : bool) (r : regex) (s : string) :
  noMatch ic r s = true -> matchAll ic r s = [].
Proof. unfold noMatch. destruct (matchAll ic r s); [trivial | discriminate]. Qed.

Lemma evalPercentage_no_match (formula : string) :
  matchAll false re_percentage formula = [] -> evalPercentage formula = formula.
Proof. intros H. unfold evalPercentage. now rewrite H. Qed.

(** Without a function name only the percentage pass acts. *)
Lemma translate_no_function (formula : string) :
  Str.isAscii formula = true ->
  noFunctionName (evalPercentage formula) = true ->
  translate formula = Returns (evalPercentage formula).
Proof.
  intros Ha H. unfold noFunctionName in H.
  repeat (apply andb_true_iff in H as [H ?]).
  unfold translate.
  assert (E1 : inlineSUMPRODUCT (evalPercentage formula)
               = Returns (evalPercentage formula)).
  { unfold inlineSUMPRODUCT. now rewrite (noMatch_nil _ _ _ H). }
  rewrite E1. cbn [bind].
  assert (E2 : inlineAverage (evalPercentage formula)
               = Returns (evalPercentage formula)).
  { unfold inlineAverage. now rewrite (noMatch_nil true re_AVERAGE _) by assumption. }
  rewrite E2. cbn [bind].
  assert (E3 : inlineSum (evalPercentage formula) = Returns (evalPercentage formula)).
  { rewrite inlineSum_ascii by now apply evalPercentage_ascii.
    destruct (negb (Str.includes (Str.toUpperCase (evalPercentage formula)) "SUM"));
      [reflexivity | discriminate]. }
  rewrite E3. cbn [bind]. unfold replaceLN, replacePV.
  rewrite (replaceAll_no_match true re_LN) by (now apply noMatch_nil).
  rewrite (replaceAll_no_match true re_PV) by (now apply noMatch_nil).
  reflexivity.
Qed.

(** C3 (amended): when an ASCII formula, as the percentage pass leaves it,
    holds no function name and no percentage literal any more, translating
    is the percentage pass alone and its output is a fixed point of
    [translate]. *)
Theorem translate_fixed_point (formula : string) :
  Str.isAscii formula = true ->
  noFunctionName (evalPercentage formula) = true ->
  matchAll false re_percentage (evalPercentage formula) = [] ->
  translate formula = Returns (evalPercentage formula) /\
  translate (evalPercentage formula) = Returns (evalPercentage formula) /\
  (x <- translate formula ;; translate x) = translate formula.
Proof.
  intros Ha Hn Hp.
  pose proof (translate_no_function formula Ha Hn) as H1.
  assert (H2 : translate (evalPercentage formula) = Returns (evalPercentage formula)).
  { rewrite translate_no_function; rewrite ?(evalPercentage_no_match _ Hp); trivial.
    now apply evalPercentage_ascii. }
  split; [exact H1|]. split; [exact H2|].
  rewrite H1. cbn [bind]. exact H2.
Qed.

Lemma translate_fixed_point_witness :
  translate "=A1*5%" = Returns "=A1*0.05" /\
  translate "=A1*0.05" = Returns "=A1*0.05" /\
  (x <- translate "=A1*5%" ;; translate x) = translate "=A1*5%".
Proof.
  apply (translate_fixed_point "=A1*5%"); vm_compute; reflexivity.
Defined.

(** ** A formula without a percent sign *)

Lemma count_app (c : ascii) (a b : string) :
  Str.count c (a ++ b) = Str.count c a + Str.count c b.
Proof. induction a as [|x a IH]; cbn [append Str.count]; [reflexivity | rewrite IH; lia]. Qed.

Lemma rmatch_RGroup (ic : bool) (n : nat) (r : regex)
    (k : mstate -> option mstate) (x : mstate) :
  rmatch ic (RGroup n r) k x = rmatch ic r (fun y => k (setCap n (consumed x y) y)) x.
Proof. reflexivity. Qed.

Lemma matchHere_percentage (bef aft : string) (y : mstate) :
  matchHere false re_percentage bef aft = Some y -> Str.count "%" aft <> 0.
Proof.
  unfold matchHere, re_percentage.
  rewrite rmatch_RSeq, rmatch_RGroup, rmatch_RPlus. intros H.
  apply RepeatMatcher_class_inv in H as (w & rest & E & _ & _ & H).
  apply rmatch_RChar_inv in H as (a & rest' & E' & Ha & _).
  cbn [after before caps setCap] in *. subst aft rest.
  unfold charEq, canon in Ha. apply Ascii.eqb_eq in Ha. subst a.
  rewrite count_app. cbn [Str.count]. rewrite Ascii.eqb_refl. lia.
Qed.

Lemma scan_percentage_none (fuel : nat) :
  forall bef aft,
    Str.count "%" aft = 0 -> hits (scan fuel false re_percentage bef aft) = [].
Proof.
  induction fuel as [|fuel IH]; intros bef aft Hc; [reflexivity|].
  cbn [scan]. destruct (matchHere false re_percentage bef aft) as [y|] eqn:Hm.
  - apply matchHere_percentage in Hm. contradiction.
  - destruct aft as [|c rest]; [reflexivity|].
    cbn [hits]. apply IH. cbn [Str.count] in Hc. lia.
Qed.

(** A formula with no function name and no percent sign is translated to
    itself. *)
Lemma translate_plain (formula : string) :
  Str.isAscii formula = true ->
  Str.count "%" formula = 0 ->
  noFunctionName formula = true ->
  translate formula = Returns formula.
Proof.
  intros Ha Hc Hn.
  assert (E : evalPercentage formula = formula)
    by (apply evalPercentage_no_match, scan_percentage_none, Hc).
  rewrite <- E at 2. apply translate_no_function; [exact Ha | now rewrite E].
Qed.

(** * GridBuilder: the label-merge heuristic *)

Local Open Scope list_scope.

(** ** The object used as a map *)

Lemma cells_set_in (k : string) (v : CellData) (l : list (string * CellData))
    (k' : string) (v' : CellData) :
  In (k', v') (cells_set k v l) -> (k', v') = (k, v) \/ In (k', v') l.
Proof.
  induction l as [|[k0 v0] l IH]; cbn [cells_set].
  - intros [E|[]]. left. now symmetry.
  - destruct (String.eqb k0 k).
    + intros [E|H]; [left; now symmetry | right; now right].
    + intros [E|H]; [right; now left|].
      destruct (IH H) as [E|H']; [now left | right; now right].
Qed.

Lemma cells_delete_in (k : string) (l : list (string * CellData))
    (k' : string) (v' : CellData) :
  In (k', v') (cells_delete k l) -> In (k', v') l /\ k' <> k.
Proof.
  induction l as [|[k0 v0] l IH]; cbn [cells_delete]; [intros []|].
  destruct (String.eqb_spec k0 k) as [->|Hne].
  - intros H. destruct (IH H). split; [now right | assumption].
  - intros [E|H].
    + injection E as -> ->. split; [now left | assumption].
    + destruct (IH H). split; [now right | assumption].
Qed.

Lemma cells_set_keeps (k : string) (v : CellData) (l : list (string * CellData))
    (k' : string) (v' : CellData) :
  k' <> k -> In (k', v') l -> In (k', v') (cells_set k v l).
Proof.
  intros Hne. induction l as [|[k0 v0] l IH]; cbn [cells_set]; [intros []|].
  destruct (String.eqb_spec k0 k) as [->|Hk].
  - intros [E|H]; [injection E as -> ->; congruence | now right].
  - intros [E|H]; [now left | right; now apply IH].
Qed.

Lemma cells_set_has (k : string) (v : CellData) (l : list (string * CellData)) :
  In (k, v) (cells_set k v l).
Proof.
  induction l as [|[k0 v0] l IH]; cbn [cells_set]; [now left|].
  destruct (String.eqb k0 k); [now left | now right].
Qed.

Lemma cells_delete_keeps (k : string) (l : list (string * CellData))
    (k' : string) (v' : CellData) :
  k' <> k -> In (k', v') l -> In (k', v') (cells_delete k l).
Proof.
  intros Hne. induction l as [|[k0 v0] l IH]; cbn [cells_delete]; [intros []|].
  destruct (String.eqb_spec k0 k) as [->|Hk].
  - intros [E|H]; [injection E as -> ->; congruence | now apply IH].
  - intros [E|H]; [now left | right; now apply IH].
Qed.

(** ** What one visit does *)

Lemma withDescription_fields (d : string) (c : CellData) :
  address (withDescription d c) = address c /\
  value (withDescription d c) = value c /\
  formula (withDescription d c) = formula c /\
  rowNum (withDescription d c) = rowNum c /\
  colNum (withDescription d c) = colNum c /\
  description (withDescription d c) = d.
Proof. repeat split. Qed.

Lemma visitCell_spec (names : list string) (rn sc : Z) (st st' : BuildState)
    (e : Z * ExcelJS.Cell) :
  visitCell names rn sc st e = Returns st' ->
  exists cd,
    getCellData (snd e) names rn (fst e + sc) = Returns cd /\
    maxColumn st' = Z.max (maxColumn st) (fst e + sc) /\
    previousCell st' = Some (storedCell (previousCell st) cd) /\
    gridCells st' = cellsAfterVisit (previousCell st) cd (gridCells st).
Proof.
  unfold visitCell.
  destruct (getCellData (snd e) names rn (fst e + sc)) as [cd| |]; cbn [bind];
    try discriminate.
  intros H. exists cd. split; [reflexivity|].
  unfold cellsAfterVisit, storedCell.
  destruct (previousCell st) as [p|].
  - destruct (isLabelFor (Some p) cd); apply Returns_inj in H; subst st';
      repeat split.
  - apply Returns_inj in H; subst st'; repeat split.
Qed.

Lemma storedCell_coords (previous : option CellData) (cd : CellData) :
  address (storedCell previous cd) = address cd /\
  rowNum (storedCell previous cd) = rowNum cd /\
  colNum (storedCell previous cd) = colNum cd /\
  value (storedCell previous cd) = value cd /\
  formula (storedCell previous cd) = formula cd.
Proof.
  unfold storedCell. destruct previous as [p|]; [|repeat split].
  destruct (isLabelFor (Some p) cd); repeat split.
Qed.

Lemma isLabelFor_label (p cd : CellData) :
  isLabelFor (Some p) cd = true ->
  value p = "" /\ formula p = "" /\ description p <> "" /\
  colNum p = (colNum cd - 1)%Z /\ (value cd <> "" \/ formula cd <> "").
Proof.
  unfold isLabelFor. intros H.
  apply andb_true_iff in H as [Hc H].
  apply andb_true_iff in H as [H Hv].
  apply andb_true_iff in H as [H Hd].
  apply andb_true_iff in H as [Hcol Hf].
  apply isEmpty_true in Hv, Hf. apply negb_true_iff, isEmpty_false in Hd.
  apply Z.eqb_eq in Hcol.
  repeat split; trivial.
  apply orb_true_iff in Hc as [Hc|Hc]; apply negb_true_iff, isEmpty_false in Hc; auto.
Qed.

(** ** The column offsets *)

Lemma rowMax_bounds (sc : Z) (row : ExcelJS.Row) :
  forall m,
    (m <= rowMax sc m row)%Z /\
    forall e, In e row -> (fst e + sc <= rowMax sc m row)%Z.
Proof.
  induction row as [|e row IH]; intros m; cbn [rowMax fold_left].
  - split; [lia | intros e []].
  - destruct (IH (Z.max m (fst e + sc))) as [H1 H2]. unfold rowMax in *.
    split; [lia|]. intros e' [<-|He']; [lia | now apply H2].
Qed.

Lemma rowsMax_bounds (sc : Z) (rows : list (Z * ExcelJS.Row)) :
  forall m,
    (m <= rowsMax sc m rows)%Z /\
    forall r e, In r rows -> In e (snd r) -> (fst e + sc <= rowsMax sc m rows)%Z.
Proof.
  induction rows as [|r rows IH]; intros m; cbn [rowsMax fold_left].
  - split; [lia | intros r e []].
  - destruct (IH (rowMax sc m (snd r))) as [H1 H2]. unfold rowsMax in *.
    destruct (rowMax_bounds sc (snd r) m) as [H3 H4].
    split; [lia|]. intros r' e' [<-|Hr'] He'.
    + specialize (H4 _ He'). lia.
    + now apply (H2 r').
Qed.

Lemma maxColumnAfter_le (sheets : list ExcelJS.Worksheet) :
  forall m, (m <= maxColumnAfter sheets m)%Z.
Proof.
  induction sheets as [|sh sheets IH]; intros m; cbn [maxColumnAfter fold_left]; [lia|].
  specialize (IH (sheetMax m sh)). unfold maxColumnAfter in IH.
  destruct (rowsMax_bounds (m + 1) (ExcelJS.rows sh) m) as [H _].
  unfold sheetMax in *. lia.
Qed.

Lemma maxColumnAfter_app (a b : list ExcelJS.Worksheet) (m : Z) :
  maxColumnAfter (a ++ b) m = maxColumnAfter b (maxColumnAfter a m).
Proof. unfold maxColumnAfter. apply fold_left_app. Qed.

(** Every column number given out in a run of sheets is at most the
    [maxColumn] after it. *)
Lemma maxColumnAfter_bounds (pre post : list ExcelJS.Worksheet)
    (sh : ExcelJS.Worksheet) (m : Z) (r : Z * ExcelJS.Row) (e : Z * ExcelJS.Cell) :
  In r (ExcelJS.rows sh) -> In e (snd r) ->
  (fst e + (maxColumnAfter pre m + 1) <= maxColumnAfter (pre ++ sh :: post) m)%Z.
Proof.
  intros Hr He. rewrite maxColumnAfter_app.
  change (maxColumnAfter (sh :: post) (maxColumnAfter pre m))
    with (maxColumnAfter post (sheetMax (maxColumnAfter pre m) sh)).
  pose proof (maxColumnAfter_le post (sheetMax (maxColumnAfter pre m) sh)).
  destruct (rowsMax_bounds (maxColumnAfter pre m + 1) (ExcelJS.rows sh)
              (maxColumnAfter pre m)) as [_ H2].
  specialize (H2 r e Hr He). unfold sheetMax in *. lia.
Qed.

Lemma bind_Returns {A B} (o : outcome A) (f : A -> outcome B) (b : B) :
  bind o f = Returns b -> exists a, o = Returns a /\ f a = Returns b.
Proof. destruct o as [a| |]; cbn [bind]; [eauto | discriminate..]. Qed.

Lemma eachCell_cons (names : list string) (rn sc : Z) (e : Z * ExcelJS.Cell)
    (row : ExcelJS.Row) (st : BuildState) :
  eachCell names rn sc (e :: row) st =
  (st1 <- visitCell names rn sc st e ;; eachCell names rn sc row st1).
Proof. reflexivity. Qed.

Lemma eachRow_cons (names : list string) (sc : Z) (r : Z * ExcelJS.Row)
    (rows : list (Z * ExcelJS.Row)) (st : BuildState) :
  eachRow names sc (r :: rows) st =
  (st1 <- visitRow names sc st r ;; eachRow names sc rows st1).
Proof. reflexivity. Qed.

Lemma eachSheet_cons (names : list string) (sh : ExcelJS.Worksheet)
    (sheets : list ExcelJS.Worksheet) (st : BuildState) :
  eachSheet names (sh :: sheets) st =
  (st1 <- visitSheet names st sh ;; eachSheet names sheets st1).
Proof. reflexivity. Qed.

Lemma visitRow_eq (names : list string) (sc : Z) (st : BuildState) (r : Z * ExcelJS.Row) :
  visitRow names sc st r = eachCell names (fst r) sc (snd r) (resetRow st).
Proof. reflexivity. Qed.

Lemma visitSheet_eq (names : list string) (st : BuildState) (sh : ExcelJS.Worksheet) :
  visitSheet names st sh = eachRow names (maxColumn st + 1) (ExcelJS.rows sh) st.
Proof. reflexivity. Qed.

(** ** Invariants of the traversal *)

Section RowInvariants.

Variable names : list string.

(** [I] is kept by storing a CellData that is [Good] for its row and by
    deleting the entry of a label that is.  A stored CellData is [Good]
    when the CellData read from the cell is, and the label before it, if
    there is one. *)
Variable I : list (string * CellData) -> Prop.
Variable Good : Z -> CellData -> Prop.

Hypothesis Good_stored :
  forall rn previous cd,
    (forall p, previous = Some p -> value p = "" -> formula p = "" -> Good rn p) ->
    Good rn cd -> Good rn (storedCell previous cd).
Hypothesis I_set :
  forall l rn cd, I l -> Good rn cd -> I (cells_set (address cd) cd l).
Hypothesis I_delete :
  forall l rn p, I l -> Good rn p -> I (cells_delete (address p) l).

Lemma visitCell_keeps (rn sc : Z) (st st' : BuildState) (e : Z * ExcelJS.Cell) :
  Inv I (Good rn) st -> goodEntry names (Good rn) rn (fst e + sc) (snd e) ->
  visitCell names rn sc st e = Returns st' -> Inv I (Good rn) st'.
Proof.
  intros [HI Hp] Hg H.
  apply visitCell_spec in H as (cd & Hcd & _ & Hprev & Hcells).
  pose proof (Hg cd Hcd) as Gcd.
  assert (Gs : Good rn (storedCell (previousCell st) cd))
    by (apply Good_stored; [exact Hp | exact Gcd]).
  split.
  - rewrite Hcells. unfold cellsAfterVisit.
    destruct (previousCell st) as [p|] eqn:Ep; [|now apply (I_set _ rn)].
    destruct (isLabelFor (Some p) cd) eqn:Hl; [|now apply (I_set _ rn)].
    apply isLabelFor_label in Hl as (Hv & Hf & _).
    destruct (storedCell_coords (Some p) cd) as (Ea & _).
    rewrite <- Ea. apply (I_set _ rn); [|exact Gs].
    apply (I_delete _ rn); [exact HI | now apply Hp].
  - intros q Hq _ _. rewrite Hprev in Hq. injection Hq as <-. exact Gs.
Qed.

Lemma eachCell_keeps (rn sc : Z) (row : ExcelJS.Row) :
  forall st st',
    Inv I (Good rn) st ->
    (forall e, In e row -> goodEntry names (Good rn) rn (fst e + sc) (snd e)) ->
    eachCell names rn sc row st = Returns st' -> Inv I (Good rn) st'.
Proof.
  induction row as [|e row IH]; intros st st' Hi Hg H.
  - apply Returns_inj in H. now subst.
  - rewrite eachCell_cons in H. apply bind_Returns in H as (st1 & Hv & H).
    apply (IH st1 st'); [|intros e' He'; apply Hg; now right | exact H].
    eapply visitCell_keeps; [exact Hi | apply Hg; now left | exact Hv].
Qed.

Lemma visitRow_keeps (sc : Z) (st st' : BuildState) (r : Z * ExcelJS.Row) :
  I (gridCells st) -> goodRow names (Good (fst r)) sc r ->
  visitRow names sc st r = Returns st' -> I (gridCells st').
Proof.
  intros Hi Hg H. rewrite visitRow_eq in H.
  eapply (eachCell_keeps (fst r)) in H as [H _]; [exact H| |exact Hg].
  split; [exact Hi | discriminate].
Qed.

Lemma eachRow_keeps (sc : Z) (rows : list (Z * ExcelJS.Row)) :
  forall st st',
    I (gridCells st) ->
    (forall r, In r rows -> goodRow names (Good (fst r)) sc r) ->
    eachRow names sc rows st = Returns st' -> I (gridCells st').
Proof.
  induction rows as [|r rows IH]; intros st st' Hi Hg H.
  - apply Returns_inj in H. now subst.
  - rewrite eachRow_cons in H. apply bind_Returns in H as (st1 & Hv & H).
    apply (IH st1 st'); [|intros r' Hr'; apply Hg; now right | exact H].
    eapply visitRow_keeps; [exact Hi | apply Hg; now left | exact Hv].
Qed.

Lemma eachCell_maxColumn (rn sc : Z) (row : ExcelJS.Row) :
  forall st st',
    eachCell names rn sc row st = Returns st' ->
    maxColumn st' = rowMax sc (maxColumn st) row.
Proof.
  induction row as [|e row IH]; intros st st' H.
  - apply Returns_inj in H. now subst.
  - rewrite eachCell_cons in H. apply bind_Returns in H as (st1 & Hv & H).
    apply visitCell_spec in Hv as (cd & _ & Hm & _).
    rewrite (IH _ _ H), Hm. reflexivity.
Qed.

Lemma eachRow_maxColumn (sc : Z) (rows : list (Z * ExcelJS.Row)) :
  forall st st',
    eachRow names sc rows st = Returns st' ->
    maxColumn st' = rowsMax sc (maxColumn st) rows.
Proof.
  induction rows as [|r rows IH]; intros st st' H.
  - apply Returns_inj in H. now subst.
  - rewrite eachRow_cons in H. apply bind_Returns in H as (st1 & Hv & H).
    rewrite visitRow_eq in Hv.
    apply eachCell_maxColumn in Hv. cbn [maxColumn resetRow] in Hv.
    rewrite (IH _ _ H), Hv. reflexivity.
Qed.

Lemma eachSheet_maxColumn (sheets : list ExcelJS.Worksheet) :
  forall st st',
    eachSheet names sheets st = Returns st' ->
    maxColumn st' = maxColumnAfter sheets (maxColumn st).
Proof.
  induction sheets as [|sh sheets IH]; intros st st' H.
  - apply Returns_inj in H. now subst.
  - rewrite eachSheet_cons in H. apply bind_Returns in H as (st1 & Hv & H).
    rewrite visitSheet_eq in Hv.
    apply eachRow_maxColumn in Hv.
    rewrite (IH _ _ H), Hv. reflexivity.
Qed.

Lemma eachSheet_keeps (sheets : list ExcelJS.Worksheet) :
  forall st st',
    I (gridCells st) ->
    (forall pre sh post r,
       sheets = pre ++ sh :: post -> In r (ExcelJS.rows sh) ->
       goodRow names (Good (fst r)) (maxColumnAfter pre (maxColumn st) + 1) r) ->
    eachSheet names sheets st = Returns st' -> I (gridCells st').
Proof.
  induction sheets as [|sh sheets IH]; intros st st' Hi Hg H.
  - apply Returns_inj in H. now subst.
  - rewrite eachSheet_cons in H. apply bind_Returns in H as (st1 & Hv & H).
    rewrite visitSheet_eq in Hv.
    apply (IH st1 st'); [| |exact H].
    + eapply eachRow_keeps; [exact Hi| |exact Hv].
      intros r Hr. apply (Hg [] sh sheets r eq_refl Hr).
    + intros pre sh' post r E Hr.
      apply eachRow_maxColumn in Hv. rewrite Hv.
      apply (Hg (sh :: pre) sh' post r); [now rewrite E | exact Hr].
Qed.

End RowInvariants.

(** The same for a property of a CellData that does not depend on its
    row. *)
Section Traversal.

Variable names : list string.
Variable I : list (string * CellData) -> Prop.
Variable Good : CellData -> Prop.

Hypothesis Good_stored :
  forall previous cd, Good cd -> Good (storedCell previous cd).
Hypothesis I_set :
  forall l cd, I l -> Good cd -> I (cells_set (address cd) cd l).
Hypothesis I_delete :
  forall l p, I l -> Good p -> I (cells_delete (address p) l).

Lemma eachCell_Inv (rn sc : Z) (row : ExcelJS.Row) :
  forall st st',
    Inv I Good st ->
    (forall e, In e row -> goodEntry names Good rn (fst e + sc) (snd e)) ->
    eachCell names rn sc row st = Returns st' -> Inv I Good st'.
Proof.
  apply (eachCell_keeps names I (fun _ => Good)).
  - intros _ previous cd _. apply Good_stored.
  - intros l _. apply I_set.
  - intros l _. apply I_delete.
Qed.

Lemma eachRow_Inv (sc : Z) (rows : list (Z * ExcelJS.Row)) :
  forall st st',
    I (gridCells st) ->
    (forall r, In r rows -> goodRow names Good sc r) ->
    eachRow names sc rows st = Returns st' -> I (gridCells st').
Proof.
  apply (eachRow_keeps names I (fun _ => Good)).
  - intros _ previous cd _. apply Good_stored.
  - intros l _. apply I_set.
  - intros l _. apply I_delete.
Qed.

Lemma eachSheet_Inv (sheets : list ExcelJS.Worksheet) :
  forall st st',
    I (gridCells st) ->
    (forall pre sh post r,
       sheets = pre ++ sh :: post -> In r (ExcelJS.rows sh) ->
       goodRow names Good (maxColumnAfter pre (maxColumn st) + 1) r) ->
    eachSheet names sheets st = Returns st' -> I (gridCells st').
Proof.
  apply (eachSheet_keeps names I (fun _ => Good)).
  - intros _ previous cd _. apply Good_stored.
  - intros l _. apply I_set.
  - intros l _. apply I_delete.
Qed.

End Traversal.

(** ** Splitting a traversal *)

Lemma eachCell_app (names : list string) (rn sc : Z) (a b : ExcelJS.Row) :
  forall st,
    eachCell names rn sc (a ++ b) st =
    (st1 <- eachCell names rn sc a st ;; eachCell names rn sc b st1).
Proof.
  induction a as [|e a IH]; intros st; [reflexivity|].
  cbn [app]. rewrite !eachCell_cons.
  destruct (visitCell names rn sc st e); cbn [bind]; [apply IH | reflexivity..].
Qed.

Lemma eachRow_app (names : list string) (sc : Z) (a b : list (Z * ExcelJS.Row)) :
  forall st,
    eachRow names sc (a ++ b) st =
    (st1 <- eachRow names sc a st ;; eachRow names sc b st1).
Proof.
  induction a as [|r a IH]; intros st; [reflexivity|].
  cbn [app]. rewrite !eachRow_cons.
  destruct (visitRow names sc st r); cbn [bind]; [apply IH | reflexivity..].
Qed.

Lemma eachSheet_app (names : list string) (a b : list ExcelJS.Worksheet) :
  forall st,
    eachSheet names (a ++ b) st =
    (st1 <- eachSheet names a st ;; eachSheet names b st1).
Proof.
  induction a as [|sh a IH]; intros st; [reflexivity|].
  cbn [app]. rewrite !eachSheet_cons.
  destruct (visitSheet names st sh); cbn [bind]; [apply IH | reflexivity..].
Qed.

(** ** Cells at a position *)

Lemma elsewhere_stored (R X : Z) (previous : option CellData) (cd : CellData) :
  elsewhere R X cd -> elsewhere R X (storedCell previous cd).
Proof.
  unfold elsewhere. destruct (storedCell_coords previous cd) as (_ & -> & -> & _).
  trivial.
Qed.

Lemma at_position_set (R X : Z) (Q : string -> CellData -> Prop)
    (l : list (string * CellData)) (cd : CellData) :
  at_position R X Q l -> elsewhere R X cd ->
  at_position R X Q (cells_set (address cd) cd l).
Proof.
  intros Hl Hcd k v Hin Hr Hc.
  apply cells_set_in in Hin as [E|Hin]; [|now apply Hl].
  injection E as -> ->. exfalso. apply Hcd. now split.
Qed.

Lemma at_position_delete (R X : Z) (Q : string -> CellData -> Prop)
    (l : list (string * CellData)) (p : CellData) :
  at_position R X Q l -> elsewhere R X p ->
  at_position R X Q (cells_delete (address p) l).
Proof.
  intros Hl _ k v Hin. apply cells_delete_in in Hin as [Hin _]. now apply Hl.
Qed.

Lemma elsewhere_entry (names : list string) (R X rn col : Z) (cell : ExcelJS.Cell) :
  rn <> R \/ col <> X -> goodEntry names (elsewhere R X) rn col cell.
Proof.
  intros Hd cd Hcd. apply getCellData_value in Hcd as (_ & _ & Hr & Hc).
  unfold elsewhere. rewrite Hr, Hc. intros [E1 E2]. destruct Hd; contradiction.
Qed.

(** ** The addresses of a document *)

Lemma getCellData_address (cell : ExcelJS.Cell) (names : list string)
    (rn cn : Z) (cd : CellData) :
  getCellData cell names rn cn = Returns cd -> address cd = cellAddress names cell.
Proof.
  unfold getCellData, cellAddress.
  destruct (translate (rawFormula cell)) as [f| |]; cbn [bind]; try discriminate.
  destruct (1 <? List.length names)%nat.
  - destruct (normalizeSheets names _) as [g| |]; cbn [bind]; try discriminate.
    intros H. apply Returns_inj in H. now subst cd.
  - intros H. apply Returns_inj in H. now subst cd.
Qed.

Lemma otherAddress_entry (names : list string) (a : string) (rn col : Z)
    (cell : ExcelJS.Cell) :
  cellAddress names cell <> a -> goodEntry names (otherAddress a) rn col cell.
Proof.
  intros Hd cd Hcd. apply getCellData_address in Hcd. unfold otherAddress. congruence.
Qed.

Lemma NoDup_app_disjoint {A} (l1 l2 : list A) (x : A) :
  NoDup (l1 ++ l2) -> In x l1 -> ~ In x l2.
Proof.
  induction l1 as [|a l1 IH]; cbn [app]; [intros _ []|].
  intros H [->|Hin] Hx.
  - apply NoDup_cons_iff in H as [H _]. apply H, in_or_app. now right.
  - apply NoDup_cons_iff in H as [_ H]. now apply (IH H Hin).
Qed.

(** ** Documents as the reader presents them *)

Lemma sorted_split {A} (f : A -> Z) (l1 l2 : list A) (a : A) :
  StronglySorted Z.lt (map f (l1 ++ a :: l2)) ->
  (forall x, In x l1 -> (f x < f a)%Z) /\ (forall x, In x l2 -> (f a < f x)%Z).
Proof.
  induction l1 as [|b l1 IH]; cbn [app map]; intros H.
  - apply StronglySorted_inv in H as [_ H]. split; [intros x []|].
    intros x Hx. rewrite Forall_forall in H. apply H. now apply in_map.
  - apply StronglySorted_inv in H as [Hs Hb]. destruct (IH Hs) as [H1 H2].
    split; [|exact H2]. intros x [<-|Hx]; [|now apply H1].
    rewrite Forall_forall in Hb. apply Hb. rewrite map_app. apply in_or_app.
    right. now left.
Qed.

(** ** The run of [makeGrid] around two adjacent cells *)

Lemma run_split (names : list string) (before after : list ExcelJS.Worksheet)
    (sh : ExcelJS.Worksheet) (rowsBefore rowsAfter : list (Z * ExcelJS.Row)) (rn : Z)
    (cellsBefore cellsAfter : ExcelJS.Row) (ep ec : Z * ExcelJS.Cell)
    (stF : BuildState) :
  ExcelJS.rows sh = rowsBefore ++ (rn, cellsBefore ++ ep :: ec :: cellsAfter) :: rowsAfter ->
  eachSheet names (before ++ sh :: after) initialState = Returns stF ->
  exists st1 st2 st3 st4 st5 st6 st7,
    eachSheet names before initialState = Returns st1 /\
    eachRow names (maxColumn st1 + 1) rowsBefore st1 = Returns st2 /\
    eachCell names rn (maxColumn st1 + 1) cellsBefore (resetRow st2) = Returns st3 /\
    visitCell names rn (maxColumn st1 + 1) st3 ep = Returns st4 /\
    visitCell names rn (maxColumn st1 + 1) st4 ec = Returns st5 /\
    eachCell names rn (maxColumn st1 + 1) cellsAfter st5 = Returns st6 /\
    eachRow names (maxColumn st1 + 1) rowsAfter st6 = Returns st7 /\
    eachSheet names after st7 = Returns stF.
Proof.
  intros Hrows H.
  rewrite eachSheet_app in H. apply bind_Returns in H as (s1 & H1 & H).
  rewrite eachSheet_cons in H. apply bind_Returns in H as (s7 & H7 & HF).
  rewrite visitSheet_eq, Hrows, eachRow_app in H7.
  apply bind_Returns in H7 as (s2 & H2 & H7).
  rewrite eachRow_cons in H7. apply bind_Returns in H7 as (s6 & H6 & H7).
  rewrite visitRow_eq in H6. cbn [fst snd] in H6. rewrite eachCell_app in H6.
  apply bind_Returns in H6 as (s3 & H3 & H6).
  rewrite eachCell_cons in H6. apply bind_Returns in H6 as (s4 & H4 & H6).
  rewrite eachCell_cons in H6. apply bind_Returns in H6 as (s5 & H5 & H6).
  exists s1, s2, s3, s4, s5, s6, s7. repeat split; assumption.
Qed.

Section AroundTheLabel.

Variables (names : list string) (before after : list ExcelJS.Worksheet).
Variables (rowsBefore rowsAfter : list (Z * ExcelJS.Row)) (rn : Z).
Variables (cellsBefore cellsAfter : ExcelJS.Row) (ep ec : Z * ExcelJS.Cell).
Variables st1 st2 st3 st4 st5 st6 st7 stF : BuildState.

Let sc : Z := (maxColumn st1 + 1)%Z.

Hypothesis run_before : eachSheet names before initialState = Returns st1.
Hypothesis run_rowsBefore : eachRow names sc rowsBefore st1 = Returns st2.
Hypothesis run_cellsBefore :
  eachCell names rn sc cellsBefore (resetRow st2) = Returns st3.
Hypothesis run_p : visitCell names rn sc st3 ep = Returns st4.
Hypothesis run_c : visitCell names rn sc st4 ec = Returns st5.
Hypothesis run_cellsAfter : eachCell names rn sc cellsAfter st5 = Returns st6.
Hypothesis run_rowsAfter : eachRow names sc rowsAfter st6 = Returns st7.
Hypothesis run_after : eachSheet names after st7 = Returns stF.

Hypothesis rows_above : forall r, In r rowsBefore -> fst r <> rn.
Hypothesis rows_below : forall r, In r rowsAfter -> fst r <> rn.
Hypothesis cells_left : forall e, In e cellsBefore -> (fst e < fst ep)%Z.
Hypothesis cells_right : forall e, In e cellsAfter -> (fst ec < fst e)%Z.
Hypothesis adjacent : (fst ep < fst ec)%Z.
Hypothesis first_column : (0 <= fst ep)%Z.
Hypothesis columns_after :
  forall sh r e, In sh after -> In r (ExcelJS.rows sh) -> In e (snd r) -> (0 <= fst e)%Z.

Lemma sc_after_before : sc = (maxColumnAfter before 0 + 1)%Z.
Proof.
  unfold sc. now rewrite (eachSheet_maxColumn _ _ _ _ run_before).
Qed.

(** Before the row is reached no cell sits at a column of the row from
    [fst ep] on. *)
Lemma fresh_at (x : Z) :
  (fst ep <= x)%Z ->
  at_position rn (x + sc) (fun _ _ => False)
    (gridCells st3).
Proof.
  intros Hx.
  pose proof run_before as H1.
  pose proof run_rowsBefore as H2.
  pose proof run_cellsBefore as H3.
  set (I := at_position rn (x + sc) (fun _ _ => False)).
  set (Good := elsewhere rn (x + sc)).
  assert (Gs : forall previous cd, Good cd -> Good (storedCell previous cd))
    by apply elsewhere_stored.
  assert (Is : forall l cd, I l -> Good cd -> I (cells_set (address cd) cd l))
    by apply at_position_set.
  assert (Id : forall l q, I l -> Good q -> I (cells_delete (address q) l))
    by apply at_position_delete.
  assert (I1 : I (gridCells st1)).
  { eapply (eachSheet_Inv names I Good Gs Is Id); [| |exact H1].
    - intros k v [].
    - intros pre sh post r E Hr e He. apply elsewhere_entry. right.
      pose proof (maxColumnAfter_bounds pre post sh 0 r e Hr He) as Hb.
      rewrite <- E in Hb. rewrite sc_after_before. cbn [maxColumn initialState]. lia. }
  assert (I2 : I (gridCells st2)).
  { eapply (eachRow_Inv names I Good Gs Is Id); [exact I1| |exact H2].
    intros r Hr e He. apply elsewhere_entry. left. now apply rows_above. }
  eapply (eachCell_Inv names I Good Gs Is Id); [| |exact H3].
  - split; [exact I2 | discriminate].
  - intros e He. apply elsewhere_entry. right. specialize (cells_left e He). lia.
Qed.

(** What is established after the visit of [ec] stays to the end, as long
    as the cells that follow are [Good]. *)
Lemma to_the_end (I : list (string * CellData) -> Prop) (Good : CellData -> Prop) :
  (forall previous cd, Good cd -> Good (storedCell previous cd)) ->
  (forall l cd, I l -> Good cd -> I (cells_set (address cd) cd l)) ->
  (forall l q, I l -> Good q -> I (cells_delete (address q) l)) ->
  Inv I Good st5 ->
  (forall e, In e cellsAfter -> goodEntry names Good rn (fst e + sc) (snd e)) ->
  (forall r, In r rowsAfter -> goodRow names Good sc r) ->
  (forall sh r e col, In sh after -> In r (ExcelJS.rows sh) -> In e (snd r) ->
     (maxColumn st7 < col)%Z ->
     goodEntry names Good (fst r) col (snd e)) ->
  I (gridCells stF).
Proof.
  intros Gs Is Id H5 Hcells Hrows Hsheets.
  pose proof run_cellsAfter as H6.
  pose proof run_rowsAfter as H7.
  pose proof run_after as HF.
  assert (I6 : I (gridCells st6)).
  { eapply (eachCell_Inv names I Good Gs Is Id) in H6 as [H _]; eassumption. }
  assert (I7 : I (gridCells st7))
    by (eapply (eachRow_Inv names I Good Gs Is Id); eassumption).
  eapply (eachSheet_Inv names I Good Gs Is Id); [exact I7| |exact HF].
  intros pre sh post r E Hr e He.
  apply (Hsheets sh r e); trivial.
  - rewrite E. apply in_or_app. right. now left.
  - pose proof (maxColumnAfter_le pre (maxColumn st7)).
    assert (0 <= fst e)%Z.
    { apply (columns_after sh r e); trivial. rewrite E. apply in_or_app. right. now left. }
    lia.
Qed.

(** The columns of the two cells are at most [maxColumn] when the sheet is
    done. *)
Lemma columns_bounded :
  (fst ec + sc <= maxColumn st7)%Z.
Proof.
  pose proof run_c as H5.
  pose proof run_cellsAfter as H6.
  pose proof run_rowsAfter as H7.
  apply visitCell_spec in H5 as (_ & _ & Hm & _).
  apply eachCell_maxColumn in H6. apply eachRow_maxColumn in H7.
  pose proof (rowMax_bounds sc cellsAfter (maxColumn st5)) as [B6 _].
  pose proof (rowsMax_bounds sc rowsAfter (maxColumn st6)) as [B7 _].
  lia.
Qed.

(** *** The two visits *)

Variables P0 C0 : CellData.
Hypothesis cell_p : getCellData (snd ep) names rn (fst ep + sc) = Returns P0.
Hypothesis cell_c : getCellData (snd ec) names rn (fst ec + sc) = Returns C0.
Hypothesis next_column : fst ec = (fst ep + 1)%Z.
Hypothesis label_formula : formula P0 = "".
Hypothesis label_description : description P0 <> "".
Hypothesis label_value : value P0 = "".
Hypothesis data_cell : value C0 <> "" \/ formula C0 <> "".

Let C : CellData := withDescription (description P0) C0.

Lemma coords_p : rowNum P0 = rn /\ colNum P0 = (fst ep + sc)%Z.
Proof. now destruct (getCellData_value _ _ _ _ _ cell_p) as (_ & _ & ? & ?). Qed.

Lemma coords_c : rowNum C0 = rn /\ colNum C0 = (fst ec + sc)%Z.
Proof. now destruct (getCellData_value _ _ _ _ _ cell_c) as (_ & _ & ? & ?). Qed.

Lemma label_is_stored (previous : option CellData) : storedCell previous P0 = P0.
Proof.
  unfold storedCell. destruct previous as [q|]; [|reflexivity].
  unfold isLabelFor. rewrite label_formula, label_value. reflexivity.
Qed.

Lemma after_p :
  previousCell st4 = Some P0 /\
  gridCells st4 = cells_set (address P0) P0 (gridCells st3).
Proof.
  destruct (visitCell_spec _ _ _ _ _ _ run_p) as (cd & Hcd & _ & Hprev & Hcells).
  rewrite cell_p in Hcd. apply Returns_inj in Hcd. subst cd.
  rewrite label_is_stored in Hprev. split; [exact Hprev|].
  rewrite Hcells. unfold cellsAfterVisit.
  destruct (previousCell st3) as [q|]; [|reflexivity].
  unfold isLabelFor. rewrite label_formula, label_value. reflexivity.
Qed.

Lemma label_applies : isLabelFor (Some P0) C0 = true.
Proof.
  unfold isLabelFor.
  destruct coords_p as [_ Hp]. destruct coords_c as [_ Hc].
  rewrite label_formula, label_value, Hp, Hc.
  replace (fst ep + sc =? fst ec + sc - 1)%Z with true
    by (symmetry; apply Z.eqb_eq; lia).
  apply isEmpty_false in label_description. rewrite label_description.
  destruct data_cell as [H|H]; apply isEmpty_false in H; rewrite H;
    cbn [negb orb andb Str.isEmpty]; try reflexivity.
  now rewrite orb_true_r.
Qed.

Lemma after_c :
  previousCell st5 = Some C /\
  gridCells st5 =
    cells_set (address C0) C (cells_delete (address P0) (gridCells st4)).
Proof.
  destruct (visitCell_spec _ _ _ _ _ _ run_c) as (cd & Hcd & _ & Hprev & Hcells).
  rewrite cell_c in Hcd. apply Returns_inj in Hcd. subst cd.
  destruct after_p as [Hp _]. rewrite Hp in Hprev, Hcells.
  unfold storedCell in Hprev. unfold cellsAfterVisit, storedCell in Hcells.
  rewrite label_applies in Hprev, Hcells. now split.
Qed.

Lemma C_fields :
  address C = address C0 /\ rowNum C = rn /\ colNum C = (fst ec + sc)%Z /\
  description C = description P0 /\ (value C <> "" \/ formula C <> "").
Proof. destruct coords_c. repeat split; trivial. Qed.

(** The label is gone right after the visit of the cell it labels, and
    the cell it labels is then the only one at its position. *)
Lemma label_gone_at_c :
  at_position rn (fst ep + sc) (fun _ _ => False) (gridCells st5).
Proof.
  destruct after_c as [_ ->]. destruct after_p as [_ E4].
  intros k v Hin Hr Hc.
  apply cells_set_in in Hin as [E|Hin].
  - injection E as -> ->. destruct C_fields as (_ & _ & Hcol & _). lia.
  - apply cells_delete_in in Hin as [Hin Hk]. rewrite E4 in Hin.
    apply cells_set_in in Hin as [E|Hin].
    + injection E as -> ->. now apply Hk.
    + apply (fresh_at (fst ep) (Z.le_refl _) k v Hin Hr Hc).
Qed.

Lemma data_alone_at_c :
  at_position rn (fst ec + sc) (fun k v => k = address C0 /\ v = C) (gridCells st5).
Proof.
  destruct after_c as [_ ->]. destruct after_p as [_ E4].
  intros k v Hin Hr Hc.
  apply cells_set_in in Hin as [E|Hin].
  - injection E as -> ->. now split.
  - exfalso. apply cells_delete_in in Hin as [Hin _]. rewrite E4 in Hin.
    apply cells_set_in in Hin as [E|Hin].
    + injection E as -> ->. destruct coords_p as [_ Hp]. lia.
    + assert (Hx : (fst ep <= fst ec)%Z) by lia.
      apply (fresh_at (fst ec) Hx k v Hin Hr Hc).
Qed.

(** Nothing visited later sits at the position [x] of the row. *)
Lemma position_kept (x : Z) (Q : string -> CellData -> Prop) :
  (fst ep <= x <= fst ec)%Z ->
  at_position rn (x + sc) Q (gridCells st5) ->
  at_position rn (x + sc) Q (gridCells stF).
Proof.
  intros Hx H5.
  apply (to_the_end (at_position rn (x + sc) Q) (elsewhere rn (x + sc))).
  - apply elsewhere_stored.
  - apply at_position_set.
  - apply at_position_delete.
  - split; [exact H5|]. intros q Hq Hv Hf. destruct after_c as [Hprev _].
    rewrite Hprev in Hq. injection Hq as <-.
    destruct C_fields as (_ & _ & _ & _ & [H|H]); contradiction.
  - intros e He. apply elsewhere_entry. right. specialize (cells_right e He). lia.
  - intros r Hr e He. apply elsewhere_entry. left. now apply rows_below.
  - intros sh r e col Hsh Hr He Hcol. apply elsewhere_entry. right.
    pose proof columns_bounded. lia.
Qed.

Lemma data_labelled :
  at_position rn (fst ec + sc) (fun k v => k = address C0 /\ v = C) (gridCells stF).
Proof. apply position_kept; [lia | apply data_alone_at_c]. Qed.

(** When no later cell has its address, the labelled cell is in the grid. *)
Lemma data_present :
  (forall e, In e cellsAfter -> cellAddress names (snd e) <> address C0) ->
  (forall r e, In r rowsAfter -> In e (snd r) ->
     cellAddress names (snd e) <> address C0) ->
  (forall sh r e, In sh after -> In r (ExcelJS.rows sh) -> In e (snd r) ->
     cellAddress names (snd e) <> address C0) ->
  In (address C0, C) (gridCells stF).
Proof.
  intros Hcells Hrows Hsheets.
  apply (to_the_end (In (address C0, C)) (otherAddress (address C0))).
  - intros previous cd. unfold otherAddress.
    now destruct (storedCell_coords previous cd) as (-> & _).
  - intros l cd Hin Hcd. apply cells_set_keeps; [|exact Hin].
    intros E. apply Hcd. now symmetry.
  - intros l q Hin Hq. apply cells_delete_keeps; [|exact Hin].
    intros E. apply Hq. now symmetry.
  - destruct after_c as [Hprev E5]. split; [rewrite E5; apply cells_set_has|].
    intros q Hq Hv Hf. rewrite Hprev in Hq. injection Hq as <-.
    destruct C_fields as (_ & _ & _ & _ & [H|H]); contradiction.
  - intros e He. apply otherAddress_entry. now apply Hcells.
  - intros r Hr e He. apply otherAddress_entry. now apply (Hrows r).
  - intros sh r e col Hsh Hr He _. apply otherAddress_entry. now apply (Hsheets sh r).
Qed.

(** When no later cell has the address of the label either, and the two
    cells have different addresses, no entry is left under it. *)
Lemma label_key_gone :
  address C0 <> address P0 ->
  (forall e, In e cellsAfter -> cellAddress names (snd e) <> address P0) ->
  (forall r e, In r rowsAfter -> In e (snd r) ->
     cellAddress names (snd e) <> address P0) ->
  (forall sh r e, In sh after -> In r (ExcelJS.rows sh) -> In e (snd r) ->
     cellAddress names (snd e) <> address P0) ->
  forall k v, In (k, v) (gridCells stF) -> k <> address P0.
Proof.
  intros Hne Hcells Hrows Hsheets.
  apply (to_the_end (fun l => forall k v, In (k, v) l -> k <> address P0)
                    (otherAddress (address P0))).
  - intros previous cd. unfold otherAddress.
    now destruct (storedCell_coords previous cd) as (-> & _).
  - intros l cd Hl Hcd k v Hin. apply cells_set_in in Hin as [E|Hin].
    + injection E as -> ->. exact Hcd.
    + now apply (Hl k v).
  - intros l q Hl _ k v Hin. apply cells_delete_in in Hin as [Hin _].
    now apply (Hl k v).
  - destruct after_c as [Hprev E5]. split.
    + rewrite E5. intros k v Hin. apply cells_set_in in Hin as [E|Hin].
      * injection E as -> ->. exact Hne.
      * now apply cells_delete_in in Hin as [_ Hk].
    + intros q Hq Hv Hf. rewrite Hprev in Hq. injection Hq as <-.
      destruct C_fields as (_ & _ & _ & _ & [H|H]); contradiction.
  - intros e He. apply otherAddress_entry. now apply Hcells.
  - intros r Hr e He. apply otherAddress_entry. now apply (Hrows r).
  - intros sh r e col Hsh Hr He _. apply otherAddress_entry. now apply (Hsheets sh r).
Qed.

(** The CellData stored for the data cell: the one read from it, with the
    description of the label. *)
Lemma C_labelled : description C = description P0 /\ sameButDescription C C0.
Proof. repeat split. Qed.

Lemma nothing_at_label :
  forall k v, In (k, v) (gridCells stF) ->
              ~ (rowNum v = rn /\ colNum v = (fst ep + sc)%Z).
Proof.
  intros k v Hin [Hr Hc].
  assert (H : at_position rn (fst ep + sc) (fun _ _ => False) (gridCells stF))
    by (apply position_kept; [lia | apply label_gone_at_c]).
  exact (H k v Hin Hr Hc).
Qed.

End AroundTheLabel.

(** ** The keys of the map *)

Lemma cells_set_keys (k : string) (v : CellData) (l : list (string * CellData)) :
  map fst (cells_set k v l) = map fst l \/
  (~ In k (map fst l) /\ map fst (cells_set k v l) = map fst l ++ [k]).
Proof.
  induction l as [|[k0 v0] l IH]; cbn [cells_set map fst].
  - right. split; [intros [] | reflexivity].
  - destruct (String.eqb_spec k0 k) as [->|Hne]; [now left|].
    cbn [map fst]. destruct IH as [E|[Hn E]].
    + left. now rewrite E.
    + right. split; [|now rewrite E]. intros [E'|Hin]; contradiction.
Qed.

Lemma NoDup_snoc {A} (l : list A) (a : A) : NoDup l -> ~ In a l -> NoDup (l ++ [a]).
Proof.
  intros Hl Ha. apply NoDup_app; [exact Hl | repeat constructor; intros [] |].
  intros x Hx [<-|[]]. contradiction.
Qed.

Lemma cells_set_NoDup (k : string) (v : CellData) (l : list (string * CellData)) :
  NoDup (map fst l) -> NoDup (map fst (cells_set k v l)).
Proof.
  intros H. destruct (cells_set_keys k v l) as [->|[Hn ->]]; [exact H|].
  now apply NoDup_snoc.
Qed.

Lemma cells_delete_NoDup (k : string) (l : list (string * CellData)) :
  NoDup (map fst l) -> NoDup (map fst (cells_delete k l)).
Proof.
  induction l as [|[k0 v0] l IH]; cbn [cells_delete map fst]; [trivial|].
  intros H. apply NoDup_cons_iff in H as [Hn H].
  destruct (String.eqb k0 k); [now apply IH|].
  cbn [map fst]. apply NoDup_cons; [|now apply IH].
  intros Hin. apply Hn. apply in_map_iff in Hin as ([k1 v1] & E & Hin).
  cbn [fst] in E. subst k1. apply cells_delete_in in Hin as [Hin _].
  apply in_map_iff. now exists (k0, v1).
Qed.

Lemma keyedByAddress_set (l : list (string * CellData)) (cd : CellData) :
  keyedByAddress l -> keyedByAddress (cells_set (address cd) cd l).
Proof.
  intros [Hk Ha]. split; [now apply cells_set_NoDup|].
  intros k v Hin. apply cells_set_in in Hin as [E|Hin]; [|now apply Ha].
  injection E as -> ->. reflexivity.
Qed.

Lemma keyedByAddress_delete (l : list (string * CellData)) (k : string) :
  keyedByAddress l -> keyedByAddress (cells_delete k l).
Proof.
  intros [Hk Ha]. split; [now apply cells_delete_NoDup|].
  intros k' v Hin. apply cells_delete_in in Hin as [Hin _]. now apply Ha.
Qed.

Lemma NoDup_map_fst_unique {A B} (l : list (A * B)) (k : A) (v v' : B) :
  NoDup (map fst l) -> In (k, v) l -> In (k, v') l -> v = v'.
Proof.
  induction l as [|[k0 v0] l IH]; cbn [map fst]; [intros _ []|].
  intros H. apply NoDup_cons_iff in H as [Hn H].
  intros [E|Hin] [E'|Hin'].
  - congruence.
  - injection E as -> ->. exfalso. apply Hn. apply in_map_iff. now exists (k, v').
  - injection E' as -> ->. exfalso. apply Hn. apply in_map_iff. now exists (k, v).
  - now apply IH.
Qed.

Lemma makeGrid_run (wb : ExcelJS.Workbook) (g : Grid) :
  makeGrid wb = Returns g ->
  exists st,
    eachSheet (map ExcelJS.name wb) wb initialState = Returns st /\
    g = {| cells := gridCells st; sheetNames := map ExcelJS.name wb |}.
Proof.
  unfold makeGrid. intros H. apply bind_Returns in H as (st & Hrun & H).
  apply Returns_inj in H. exists st. split; [exact Hrun | now symmetry].
Qed.

Lemma eachSheet_keyed (names : list string) (sheets : list ExcelJS.Worksheet)
    (st : BuildState) :
  eachSheet names sheets initialState = Returns st -> keyedByAddress (gridCells st).
Proof.
  apply (eachSheet_Inv names keyedByAddress (fun _ => True)).
  - trivial.
  - intros l cd Hl _. now apply keyedByAddress_set.
  - intros l p Hl _. now apply keyedByAddress_delete.
  - split; [constructor | intros k v []].
  - intros pre sh post r _ _ e _ cd _. exact I.
Qed.

Lemma cells_get_none (k : string) (l : list (string * CellData)) :
  (forall k' v, In (k', v) l -> k' <> k) -> cells_get k l = None.
Proof.
  induction l as [|[k0 v0] l IH]; intros H; cbn [cells_get]; [reflexivity|].
  destruct (String.eqb_spec k0 k) as [E|_].
  - exfalso. apply (H k0 v0); [now left | exact E].
  - apply IH. intros k' v Hin. apply (H k' v). now right.
Qed.

Lemma cells_get_entry (k : string) (v : CellData) (l : list (string * CellData)) :
  NoDup (map fst l) -> In (k, v) l -> cells_get k l = Some v.
Proof.
  induction l as [|[k0 v0] l IH]; cbn [map fst cells_get]; [intros _ []|].
  intros Hnd Hin. apply NoDup_cons_iff in Hnd as [Hk Hnd].
  destruct Hin as [E|Hin].
  - injection E as -> ->. now rewrite String.eqb_refl.
  - destruct (String.eqb_spec k0 k) as [->|_]; [|now apply IH].
    exfalso. apply Hk. apply in_map_iff. now exists (k, v).
Qed.

(** ** The theorem *)

Lemma Forall_app_elt {A} (P : A -> Prop) (l1 l2 : list A) (a : A) :
  Forall P (l1 ++ a :: l2) -> Forall P l1 /\ P a /\ Forall P l2.
Proof.
  intros H. apply Forall_app in H as [H1 H2].
  apply Forall_cons_iff in H2 as [Ha H2]. auto.
Qed.

Lemma addresses_split (names : list string) (before after : list ExcelJS.Worksheet)
    (sh : ExcelJS.Worksheet) (rowsBefore rowsAfter : list (Z * ExcelJS.Row)) (rn : Z)
    (cellsBefore cellsAfter : ExcelJS.Row) (ep ec : Z * ExcelJS.Cell) :
  ExcelJS.rows sh = rowsBefore ++ (rn, cellsBefore ++ ep :: ec :: cellsAfter) :: rowsAfter ->
  NoDup (addresses names (before ++ sh :: after)) ->
  ~ In (cellAddress names (snd ec)) (rowAddresses names cellsAfter) /\
  ~ In (cellAddress names (snd ec)) (rowsAddresses names rowsAfter) /\
  ~ In (cellAddress names (snd ec)) (addresses names after).
Proof.
  intros Hrows Hnd. unfold addresses in Hnd.
  rewrite flat_map_app in Hnd. cbn [flat_map] in Hnd.
  apply NoDup_app_remove_l in Hnd. rewrite Hrows in Hnd.
  assert (Hsh : In (cellAddress names (snd ec))
                  (rowsAddresses names
                     (rowsBefore ++ (rn, cellsBefore ++ ep :: ec :: cellsAfter) :: rowsAfter))).
  { unfold rowsAddresses. rewrite flat_map_app. apply in_or_app. right.
    cbn [flat_map snd]. apply in_or_app. left.
    unfold rowAddresses. rewrite map_app. apply in_or_app. right.
    cbn [map]. right. now left. }
  split; [|split].
  - apply NoDup_app_remove_r in Hnd. unfold rowsAddresses in Hnd.
    rewrite flat_map_app in Hnd. apply NoDup_app_remove_l in Hnd.
    cbn [flat_map snd] in Hnd. apply NoDup_app_remove_r in Hnd.
    unfold rowAddresses in Hnd. rewrite map_app in Hnd.
    apply NoDup_app_remove_l in Hnd. cbn [map] in Hnd.
    apply NoDup_cons_iff in Hnd as [_ Hnd]. apply NoDup_cons_iff in Hnd as [Hnd _].
    exact Hnd.
  - apply NoDup_app_remove_r in Hnd. unfold rowsAddresses in Hnd.
    rewrite flat_map_app in Hnd. apply NoDup_app_remove_l in Hnd.
    cbn [flat_map snd] in Hnd.
    apply (NoDup_app_disjoint _ _ _ Hnd).
    unfold rowAddresses. rewrite map_app. apply in_or_app. right.
    cbn [map]. right. now left.
  - exact (NoDup_app_disjoint _ _ _ Hnd Hsh).
Qed.

Lemma addresses_split_label (names : list string) (before after : list ExcelJS.Worksheet)
    (sh : ExcelJS.Worksheet) (rowsBefore rowsAfter : list (Z * ExcelJS.Row)) (rn : Z)
    (cellsBefore cellsAfter : ExcelJS.Row) (ep ec : Z * ExcelJS.Cell) :
  ExcelJS.rows sh = rowsBefore ++ (rn, cellsBefore ++ ep :: ec :: cellsAfter) :: rowsAfter ->
  NoDup (addresses names (before ++ sh :: after)) ->
  ~ In (cellAddress names (snd ep)) (rowAddresses names (ec :: cellsAfter)) /\
  ~ In (cellAddress names (snd ep)) (rowsAddresses names rowsAfter) /\
  ~ In (cellAddress names (snd ep)) (addresses names after).
Proof.
  intros Hrows Hnd. unfold addresses in Hnd.
  rewrite flat_map_app in Hnd. cbn [flat_map] in Hnd.
  apply NoDup_app_remove_l in Hnd. rewrite Hrows in Hnd.
  assert (Hsh : In (cellAddress names (snd ep))
                  (rowsAddresses names
                     (rowsBefore ++ (rn, cellsBefore ++ ep :: ec :: cellsAfter) :: rowsAfter))).
  { unfold rowsAddresses. rewrite flat_map_app. apply in_or_app. right.
    cbn [flat_map snd]. apply in_or_app. left.
    unfold rowAddresses. rewrite map_app. apply in_or_app. right.
    cbn [map]. now left. }
  split; [|split].
  - apply NoDup_app_remove_r in Hnd. unfold rowsAddresses in Hnd.
    rewrite flat_map_app in Hnd. apply NoDup_app_remove_l in Hnd.
    cbn [flat_map snd] in Hnd. apply NoDup_app_remove_r in Hnd.
    unfold rowAddresses in Hnd. rewrite map_app in Hnd.
    apply NoDup_app_remove_l in Hnd. cbn [map] in Hnd.
    apply NoDup_cons_iff in Hnd as [Hnd _]. exact Hnd.
  - apply NoDup_app_remove_r in Hnd. unfold rowsAddresses in Hnd.
    rewrite flat_map_app in Hnd. apply NoDup_app_remove_l in Hnd.
    cbn [flat_map snd] in Hnd.
    apply (NoDup_app_disjoint _ _ _ Hnd).
    unfold rowAddresses. rewrite map_app. apply in_or_app. right.
    cbn [map]. now left.
  - exact (NoDup_app_disjoint _ _ _ Hnd Hsh).
Qed.

(** C6: in a document whose rows and cells come in increasing order, let
    [p] and [c] be adjacent cells of a row, [c] in the column after [p], let
    [c] have a non-empty value or formula and [p] no formula, a non-empty
    description and an empty value.  Then the final Grid holds no CellData
    at the position of [p], and every CellData it holds at the position of
    [c] sits under the address of [c], carries the description of [p] and
    is otherwise the CellData of [c].  When the addresses of the document
    are distinct, the Grid has no entry under the address of [p], and its
    entry under the address of [c] is that CellData. *)
Theorem makeGrid_label_merge
    (wb before after : ExcelJS.Workbook) (sh : ExcelJS.Worksheet)
    (rowsBefore rowsAfter : list (Z * ExcelJS.Row)) (rn : Z)
    (cellsBefore cellsAfter : ExcelJS.Row) (cp cc : Z) (p c : ExcelJS.Cell)
    (g : Grid) (P0 C0 : CellData) :
  wellFormed wb ->
  wb = before ++ sh :: after ->
  ExcelJS.rows sh =
    rowsBefore ++ (rn, cellsBefore ++ (cp, p) :: (cc, c) :: cellsAfter) :: rowsAfter ->
  makeGrid wb = Returns g ->
  getCellData p (map ExcelJS.name wb) rn (cp + startColumnAfter before) = Returns P0 ->
  getCellData c (map ExcelJS.name wb) rn (cc + startColumnAfter before) = Returns C0 ->
  cc = (cp + 1)%Z ->
  value C0 <> "" \/ formula C0 <> "" ->
  formula P0 = "" -> description P0 <> "" -> value P0 = "" ->
  (forall k X,
     In (k, X) (cells g) ->
     ~ (rowNum X = rn /\ colNum X = (cp + startColumnAfter before)%Z)) /\
  (forall k X,
     In (k, X) (cells g) ->
     rowNum X = rn -> colNum X = (cc + startColumnAfter before)%Z ->
     k = address C0 /\ description X = description P0 /\ sameButDescription X C0) /\
  (NoDup (addresses (map ExcelJS.name wb) wb) ->
   cells_get (address P0) (cells g) = None /\
   exists X,
     cells_get (address C0) (cells g) = Some X /\
     description X = description P0 /\ sameButDescription X C0).
Proof.
  intros Hwf -> Hrows Hg HP HC Hadj Hdata Hf Hd Hv.
  set (names := map ExcelJS.name (before ++ sh :: after)) in *.
  unfold makeGrid in Hg. fold names in Hg.
  apply bind_Returns in Hg as (stF & Hrun & Hg). apply Returns_inj in Hg. subst g.
  cbn [cells].
  destruct (run_split names before after sh rowsBefore rowsAfter rn cellsBefore
              cellsAfter (cp, p) (cc, c) stF Hrows Hrun)
    as (s1 & s2 & s3 & s4 & s5 & s6 & s7 & H1 & H2 & H3 & H4 & H5 & H6 & H7 & HF).
  assert (Esc : startColumnAfter before = (maxColumn s1 + 1)%Z).
  { unfold startColumnAfter. now rewrite (eachSheet_maxColumn _ _ _ _ H1). }
  rewrite Esc in *.
  apply Forall_app_elt in Hwf as (_ & [Hsorted Hrowswf] & Hafter).
  rewrite Hrows in Hsorted, Hrowswf.
  destruct (sorted_split fst _ _ _ Hsorted) as [Habove Hbelow]. cbn [fst] in *.
  apply Forall_app_elt in Hrowswf as (_ & [Hcols Hone] & _). cbn [snd] in *.
  destruct (sorted_split fst _ _ _ Hcols) as [Hleft _]. cbn [fst] in Hleft.
  assert (Hright : forall e, In e cellsAfter -> (cc < fst e)%Z).
  { replace (cellsBefore ++ (cp, p) :: (cc, c) :: cellsAfter)
      with ((cellsBefore ++ [(cp, p)]) ++ (cc, c) :: cellsAfter) in Hcols
      by (now rewrite <- app_assoc).
    now destruct (sorted_split fst _ _ _ Hcols) as [_ Hr]. }
  apply Forall_app_elt in Hone as (_ & Hcp & _). cbn [fst] in Hcp.
  assert (rows_above : forall r, In r rowsBefore -> fst r <> rn)
    by (intros r Hr; specialize (Habove r Hr); lia).
  assert (rows_below : forall r, In r rowsAfter -> fst r <> rn)
    by (intros r Hr; specialize (Hbelow r Hr); lia).
  assert (cells_left : forall e, In e cellsBefore -> (fst e < fst (cp, p))%Z)
    by exact Hleft.
  assert (cells_right : forall e, In e cellsAfter -> (fst (cc, c) < fst e)%Z)
    by exact Hright.
  assert (adjacent : (fst (cp, p) < fst (cc, c))%Z) by (cbn [fst]; lia).
  assert (first_column : (0 <= fst (cp, p))%Z) by (cbn [fst]; lia).
  assert (next_column : fst (cc, c) = (fst (cp, p) + 1)%Z) by exact Hadj.
  assert (columns_after :
    forall sh' r e, In sh' after -> In r (ExcelJS.rows sh') -> In e (snd r) ->
                    (0 <= fst e)%Z).
  { intros sh' r e Hsh Hr He. rewrite Forall_forall in Hafter.
    destruct (Hafter sh' Hsh) as [_ Hw]. rewrite Forall_forall in Hw.
    destruct (Hw r Hr) as [_ Ho]. rewrite Forall_forall in Ho.
    specialize (Ho e He). lia. }
  assert (Hkeys : NoDup (map fst (gridCells stF)))
    by (exact (proj1 (eachSheet_keyed _ _ _ Hrun))).
  split; [|split].
  - eapply (nothing_at_label names before after rowsBefore rowsAfter rn cellsBefore
              cellsAfter (cp, p) (cc, c)); eassumption.
  - intros k X Hin Hr Hc.
    assert (E : at_position rn (cc + (maxColumn s1 + 1))
                  (fun k v => k = address C0 /\ v = withDescription (description P0) C0)
                  (gridCells stF)).
    { eapply (data_labelled names before after rowsBefore rowsAfter rn cellsBefore
                cellsAfter (cp, p) (cc, c)); eassumption. }
    destruct (E k X Hin Hr Hc) as [-> ->].
    split; [reflexivity|]. apply C_labelled.
  - intros Hnd.
    destruct (addresses_split names before after sh rowsBefore rowsAfter rn
                cellsBefore cellsAfter (cp, p) (cc, c) Hrows Hnd)
      as (A1 & A2 & A3).
    destruct (addresses_split_label names before after sh rowsBefore rowsAfter rn
                cellsBefore cellsAfter (cp, p) (cc, c) Hrows Hnd)
      as (B1 & B2 & B3).
    cbn [snd] in A1, A2, A3, B1, B2, B3.
    rewrite <- (getCellData_address _ _ _ _ _ HC) in A1, A2, A3.
    rewrite <- (getCellData_address _ _ _ _ _ HP) in B1, B2, B3.
    assert (Hin :
      forall a,
        ~ In a (rowAddresses names cellsAfter) ->
        ~ In a (rowsAddresses names rowsAfter) ->
        ~ In a (addresses names after) ->
        (forall e, In e cellsAfter -> cellAddress names (snd e) <> a) /\
        (forall r e, In r rowsAfter -> In e (snd r) -> cellAddress names (snd e) <> a) /\
        (forall sh' r e, In sh' after -> In r (ExcelJS.rows sh') -> In e (snd r) ->
           cellAddress names (snd e) <> a)).
    { intros a N1 N2 N3. split; [|split].
      - intros e He E. apply N1. rewrite <- E. unfold rowAddresses.
        now apply (in_map (fun e => cellAddress names (snd e))).
      - intros r e Hr He E. apply N2. rewrite <- E. unfold rowsAddresses.
        apply in_flat_map. exists r. split; [exact Hr|].
        now apply (in_map (fun e => cellAddress names (snd e))).
      - intros sh' r e Hsh Hr He E. apply N3. rewrite <- E. unfold addresses.
        apply in_flat_map. exists sh'. split; [exact Hsh|].
        apply in_flat_map. exists r. split; [exact Hr|].
        now apply (in_map (fun e => cellAddress names (snd e))). }
    destruct (Hin (address C0) A1 A2 A3) as (C1 & C2 & C3).
    assert (B1' : ~ In (address P0) (rowAddresses names cellsAfter))
      by (intros E; apply B1; now right).
    destruct (Hin (address P0) B1' B2 B3) as (D1 & D2 & D3).
    assert (Hne : address C0 <> address P0).
    { intros E. apply B1. left. cbn [snd].
      rewrite <- (getCellData_address _ _ _ _ _ HC). exact E. }
    split.
    + apply cells_get_none.
      eapply (label_key_gone names after rowsAfter rn cellsAfter (cp, p) (cc, c));
        eassumption.
    + exists (withDescription (description P0) C0). split; [|repeat split].
      apply cells_get_entry; [exact Hkeys|].
      eapply (data_present names after rowsAfter rn cellsAfter (cp, p) (cc, c));
        eassumption.
Qed.

Example makeGrid_revenue : makeGrid wb_revenue = Returns grid_revenue.
Proof. vm_compute. reflexivity. Qed.

Lemma wb_revenue_wellFormed : wellFormed wb_revenue.
Proof.
  repeat constructor; cbn [fst snd map ExcelJS.rows]; try lia.
Qed.

Lemma makeGrid_label_merge_witness :
  exists g,
    makeGrid wb_revenue = Returns g /\
    cells g =
      [("B1", {| address := "B1"; value := "100"; description := "Revenue";
                 formula := ""; rowNum := 1; colNum := 3 |})] /\
    cells_get "A1" (cells g) = None /\
    exists X,
      cells_get "B1" (cells g) = Some X /\
      description X = "Revenue" /\ sameButDescription X revenue_data.
Proof.
  exists grid_revenue. split; [exact makeGrid_revenue|]. split; [reflexivity|].
  destruct (makeGrid_label_merge wb_revenue [] []
              {| ExcelJS.name := "Sheet1";
                 ExcelJS.rows :=
                   [(1%Z, [(1%Z, textCell "Sheet1" "A1" "Revenue");
                           (2%Z, numberCell "Sheet1" "B1" 100)])] |}
              [] [] 1 [] [] 1 2
              (textCell "Sheet1" "A1" "Revenue") (numberCell "Sheet1" "B1" 100)
              grid_revenue revenue_label revenue_data
              wb_revenue_wellFormed eq_refl eq_refl makeGrid_revenue)
    as (_ & _ & Hthere).
  - vm_compute. reflexivity.
  - vm_compute. reflexivity.
  - reflexivity.
  - left. discriminate.
  - reflexivity.
  - discriminate.
  - reflexivity.
  - apply Hthere.
    vm_compute. repeat constructor; cbn [In]; intuition discriminate.
Defined.

(** * Decimal digits *)

Lemma readDigits_string_of_uint (d : Decimal.uint) (rest : string) :
  noLeadingDigit rest = true ->
  forall acc cnt,
    Num.readDigits (NilEmpty.string_of_uint d ++ rest)%string acc cnt =
    (valueOfDigits d acc, cnt + String.length (NilEmpty.string_of_uint d), rest).
Proof.
  intros Hrest. induction d; intros acc cnt;
    cbn [NilEmpty.string_of_uint append Num.readDigits valueOfDigits String.length].
  1:{ rewrite Nat.add_0_r. destruct rest as [|c rest]; [reflexivity|].
      cbn [Num.readDigits]. cbn [noLeadingDigit] in Hrest.
      apply negb_true_iff in Hrest. now rewrite Hrest. }
  all: change (Str.isDigit _) with true; cbv iota; rewrite IHd;
    match goal with
    | |- context [Z.of_nat ?t] =>
        let v := eval vm_compute in (Z.of_nat t) in change (Z.of_nat t) with v
    end;
    rewrite ?Z.add_0_r, Nat.add_succ_r; reflexivity.
Qed.

Lemma valueOfDigits_acc (d : Decimal.uint) (acc : positive) :
  valueOfDigits d (Z.pos acc) = Z.pos (Pos.of_uint_acc d acc).
Proof.
  revert acc. induction d; intros acc; cbn [valueOfDigits Pos.of_uint_acc];
    [reflexivity|..];
    match goal with
    | |- valueOfDigits _ ?z = Z.pos (Pos.of_uint_acc _ ?p) =>
        replace z with (Z.pos p) by lia; apply IHd
    end.
Qed.

Lemma valueOfDigits_of_uint (d : Decimal.uint) :
  valueOfDigits d 0 = Z.of_N (N.of_uint d).
Proof.
  unfold N.of_uint.
  induction d; cbn [valueOfDigits Pos.of_uint]; [reflexivity | exact IHd |..];
    cbn [Z.mul Z.add]; apply valueOfDigits_acc.
Qed.

Lemma digitsOfZ_uint (z : Z) :
  Num.digitsOfZ z = NilEmpty.string_of_uint (N.to_uint (Z.to_N z)).
Proof.
  unfold Num.digitsOfZ, NilZero.string_of_uint.
  destruct (N.to_uint (Z.to_N z)) eqn:E; try reflexivity.
  exfalso. destruct (Z.to_N z); cbn [N.to_uint] in E; [discriminate|].
  pose proof (DecimalPos.Unsigned.to_uint_nonnil p) as H. now apply H.
Qed.

(** Reading the decimal digits of a number gives the number back. *)
Lemma readDigits_digitsOfZ (z : Z) (rest : string) :
  (0 <= z)%Z -> noLeadingDigit rest = true ->
  Num.readDigits (Num.digitsOfZ z ++ rest)%string 0 0 =
  (z, String.length (Num.digitsOfZ z), rest).
Proof.
  intros Hz Hrest. rewrite digitsOfZ_uint, readDigits_string_of_uint by exact Hrest.
  rewrite valueOfDigits_of_uint, DecimalN.Unsigned.of_to, Z2N.id by exact Hz.
  reflexivity.
Qed.

Lemma digitsOfZ_first (z : Z) :
  exists c s, Num.digitsOfZ z = String c s /\ Str.isDigit c = true.
Proof.
  pose proof (digitsOfZ_digits z) as Hd. pose proof (digitsOfZ_nonempty z) as Hn.
  destruct (Num.digitsOfZ z) as [|c s]; [congruence|].
  cbn [Num.allChars] in Hd. apply andb_true_iff in Hd as [Hc _]. now exists c, s.
Qed.

Lemma digit_not_space (c : ascii) : Str.isDigit c = true -> Str.isSpace c = false.
Proof.
  unfold Str.isDigit, Str.isSpace, Str.inRange, Str.code.
  change (nat_of_ascii "0") with 48. change (nat_of_ascii "9") with 57.
  intros H. apply andb_true_iff in H as [H1 H2].
  apply Nat.leb_le in H1, H2.
  repeat match goal with
         | |- context [(?a <=? ?b)%nat] => destruct (Nat.leb_spec a b)
         | |- context [(?a =? ?b)%nat] => destruct (Nat.eqb_spec a b)
         end; cbn; try reflexivity; lia.
Qed.

Lemma digit_not_sign (c : ascii) :
  Str.isDigit c = true -> c <> "-"%char /\ c <> "+"%char.
Proof. intros H. split; intros ->; discriminate H. Qed.



(** ** Ranges of cells *)















Example deRange_ex : deRange "A2" "B3" = Returns ["A2"; "A3"; "B2"; "B3"].
Proof. vm_compute. reflexivity. Qed.

(** * Matches and the text they need *)

Lemma isSuffix_count (c : ascii) (t s : string) :
  isSuffix t s -> Str.count c t <= Str.count c s.
Proof. intros [w ->]. rewrite count_app. lia. Qed.

(** ** Where a pattern cannot match *)

Lemma scan_no_match (ic : bool) (r : regex) (P : string -> Prop) :
  (forall c s, P (String c s) -> P s) ->
  (forall bef aft, P aft -> matchHere ic r bef aft = None) ->
  forall fuel bef aft, P aft -> hits (scan fuel ic r bef aft) = [].
Proof.
  intros Htail Hnone. induction fuel as [|fuel IH]; intros bef aft HP; [reflexivity|].
  cbn [scan]. rewrite (Hnone bef aft HP).
  destruct aft as [|c rest]; [reflexivity|].
  cbn [hits]. apply IH. now apply (Htail c).
Qed.

Lemma count_tail (c a : ascii) (s : string) :
  Str.count c (String a s) = 0 -> Str.count c s = 0.
Proof. cbn [Str.count]. lia. Qed.

(** A character that the [i] flag leaves alone. *)
Lemma charEq_caseless (ic : bool) (a c : ascii) :
  Str.isLower c = false -> Str.isUpper c = false ->
  charEq ic a c = true -> a = c.
Proof.
  intros Hl Hup Hc. unfold charEq, canon in Hc.
  destruct ic; [|now apply Ascii.eqb_eq].
  apply Ascii.eqb_eq in Hc. unfold Str.upperChar in Hc. rewrite Hl in Hc.
  destruct (Str.isLower a) eqn:Ea; [|exact Hc].
  exfalso. subst c. clear - Ea Hup.
  unfold Str.isLower, Str.isUpper, Str.inRange, Str.code in *.
  change (nat_of_ascii "a") with 97 in Ea. change (nat_of_ascii "z") with 122 in Ea.
  change (nat_of_ascii "A") with 65 in Hup. change (nat_of_ascii "Z") with 90 in Hup.
  apply andb_true_iff in Ea as [H1 H2]. apply Nat.leb_le in H1, H2.
  rewrite nat_ascii_embedding in Hup by lia.
  apply andb_false_iff in Hup as [H|H]; apply Nat.leb_gt in H; lia.
Qed.

(** A literal with a caseless character [c] only matches a text with [c]. *)
Lemma rmatch_RLit_needs (ic : bool) (c : ascii) (p : string) :
  Str.isLower c = false -> Str.isUpper c = false -> Str.count c p <> 0 ->
  forall k x z, rmatch ic (RLit p) k x = Some z -> Str.count c (after x) <> 0.
Proof.
  intros Hl Hup. induction p as [|a p IH]; intros Hp k x z H; [now contradiction Hp|].
  cbn [RLit] in H. rewrite rmatch_RSeq in H.
  apply rmatch_RChar_inv in H as (a' & rest & Ea & Hc & H).
  rewrite Ea. cbn [Str.count] in *.
  destruct (Ascii.eqb_spec a c) as [->|Hne].
  - apply charEq_caseless in Hc; trivial. subst a'. rewrite Ascii.eqb_refl. lia.
  - apply IH in H; [|lia]. cbn [advance after] in H. lia.
Qed.

Lemma no_paren_no_match (ic : bool) (p : string) (r : regex) (s : string) :
  Str.count "(" p <> 0 -> Str.count "(" s = 0 ->
  matchAll ic (RSeq (RLit p) r) s = [].
Proof.
  intros Hp Hs. unfold matchAll, scanAll.
  apply (scan_no_match ic _ (fun s => Str.count "(" s = 0)); [apply count_tail| |exact Hs].
  intros bef aft Ha. unfold matchHere. rewrite rmatch_RSeq.
  destruct (rmatch ic (RLit p) _ _) as [z|] eqn:E; [|reflexivity].
  apply (rmatch_RLit_needs ic "(" p eq_refl eq_refl Hp) in E. cbn [after] in E.
  contradiction.
Qed.

(** Arithmetic on cell references is left as it is: an ASCII formula
    without an opening parenthesis and a percent sign, and without SUM in
    any case, is translated to itself. *)
Theorem translate_arithmetic (formula : string) :
  Str.isAscii formula = true ->
  Str.count "(" formula = 0 -> Str.count "%" formula = 0 ->
  Str.includes (Str.toUpperCase formula) "SUM" = false ->
  translate formula = Returns formula.
Proof.
  intros Ha Hp Hc Hs. apply translate_plain; [exact Ha | exact Hc|].
  unfold noFunctionName, noMatch, re_SUMPRODUCT, re_AVERAGE, re_LN, re_PV.
  cbn [RSeqs].
  rewrite !no_paren_no_match by (trivial; discriminate).
  now rewrite Hs.
Qed.

Lemma translate_arithmetic_witness : translate "=A1*B2-3" = Returns "=A1*B2-3".
Proof. apply translate_arithmetic; reflexivity. Defined.

(** * Numbers as cell texts *)

Lemma allChars_rev_app (p : ascii -> bool) (s acc : string) :
  Num.allChars p (Str.rev_app s acc) = Num.allChars p s && Num.allChars p acc.
Proof.
  revert acc. induction s as [|c s IH]; intros acc; cbn [Str.rev_app Num.allChars];
    [reflexivity|].
  rewrite IH. cbn [Num.allChars]. now destruct (p c), (Num.allChars p s).
Qed.

Lemma trimStart_id (s : string) : Num.allChars notSpace s = true -> Str.trimStart s = s.
Proof.
  destruct s as [|c s]; [reflexivity|]. cbn [Num.allChars Str.trimStart].
  intros H. apply andb_true_iff in H as [Hc _]. unfold notSpace in Hc.
  apply negb_true_iff in Hc. now rewrite Hc.
Qed.

Lemma trim_id (s : string) : Num.allChars notSpace s = true -> Str.trim s = s.
Proof.
  intros H. unfold Str.trim. rewrite (trimStart_id s H).
  rewrite trimStart_id.
  - unfold Str.rev at 2. apply rev_rev_app.
  - unfold Str.rev. rewrite allChars_rev_app, H. reflexivity.
Qed.

Lemma readDigits_run (w rest : string) :
  Num.allChars Str.isDigit w = true -> noLeadingDigit rest = true ->
  forall acc cnt,
    exists v, Num.readDigits (w ++ rest)%string acc cnt = (v, cnt + String.length w, rest).
Proof.
  intros Hw Hrest. induction w as [|c w IH]; intros acc cnt; cbn [append String.length].
  - exists acc. rewrite Nat.add_0_r. destruct rest as [|c rest]; [reflexivity|].
    cbn [Num.readDigits]. cbn [noLeadingDigit] in Hrest.
    apply negb_true_iff in Hrest. now rewrite Hrest.
  - cbn [Num.allChars] in Hw. apply andb_true_iff in Hw as [Hc Hw].
    cbn [Num.readDigits]. rewrite Hc.
    destruct (IH Hw (10 * acc + Z.of_nat (Str.code c - 48))%Z (S cnt)) as [v ->].
    exists v. now rewrite Nat.add_succ_r.
Qed.

Lemma readDigits_all (w : string) :
  Num.allChars Str.isDigit w = true ->
  exists v, Num.readDigits w 0 0 = (v, String.length w, "").
Proof.
  intros Hw. destruct (readDigits_run w "" Hw eq_refl 0%Z 0) as [v H].
  rewrite str_app_empty_r in H. now exists v.
Qed.

(** The shapes of a decimal literal. *)
Lemma isDecimalLiteral_int (w tail : string) :
  Num.allChars Str.isDigit w = true -> w <> "" -> noLeadingDigit tail = true ->
  (forall t, tail <> String "." t) ->
  Num.isExponentOrEnd tail = true ->
  Num.isDecimalLiteral (w ++ tail) = true.
Proof.
  intros Hw Hne Ht Hdot He. unfold Num.isDecimalLiteral.
  destruct (readDigits_run w tail Hw Ht 0%Z 0) as [v ->]. cbn [Nat.add].
  assert (Hl : (String.length w =? 0)%nat = false).
  { destruct w; [congruence | reflexivity]. }
  destruct tail as [|c t]; [now rewrite Hl|].
  destruct (Ascii.eqb_spec c ".") as [->|Hc]; [now specialize (Hdot t)|].
  rewrite Hl. cbn [negb andb].
  destruct c as [[] [] [] [] [] [] [] []]; try exact He; congruence.
Qed.

Lemma isDecimalLiteral_frac (w f tail : string) :
  Num.allChars Str.isDigit w = true -> Num.allChars Str.isDigit f = true ->
  (w ++ f)%string <> "" -> noLeadingDigit tail = true ->
  Num.isExponentOrEnd tail = true ->
  Num.isDecimalLiteral (w ++ "." ++ f ++ tail) = true.
Proof.
  intros Hw Hf Hne Ht He. unfold Num.isDecimalLiteral.
  destruct (readDigits_run w ("." ++ f ++ tail) Hw eq_refl 0%Z 0) as [v ->].
  cbn [append].
  destruct (readDigits_run f tail Hf Ht 0%Z 0) as [v' ->]. cbn [Nat.add].
  rewrite He, andb_true_r. apply negb_true_iff, andb_false_iff.
  destruct w; [right; destruct f; [now contradiction Hne | reflexivity] | now left].
Qed.

Lemma isExponentOrEnd_exp (neg : bool) (z : Z) :
  Num.isExponentOrEnd ("e" ++ (if neg then "-" else "+") ++ Num.digitsOfZ z) = true.
Proof.
  cbn [append Num.isExponentOrEnd Ascii.eqb Bool.eqb orb andb].
  destruct neg; cbn [append];
    rewrite digitsOfZ_digits, andb_true_r; apply negb_true_iff, isEmpty_false,
      digitsOfZ_nonempty.
Qed.

Lemma take_drop (n : nat) (s : string) : (Str.take n s ++ Str.drop n s)%string = s.
Proof.
  revert s. induction n as [|n IH]; intros [|c s]; cbn [Str.take Str.drop append];
    try reflexivity.
  now rewrite IH.
Qed.

Lemma numberChar_notSpace (c : ascii) : numberChar c = true -> notSpace c = true.
Proof.
  unfold numberChar, notSpace. intros H. apply orb_true_iff in H as [H|H].
  - now rewrite (digit_not_space c H).
  - cbn [existsb] in H.
    repeat (apply orb_true_iff in H as [H|H];
            [apply Ascii.eqb_eq in H; subst c; reflexivity|]).
    discriminate.
Qed.

Lemma numberChar_percent (s : string) :
  Num.allChars numberChar s = true -> Str.count "%" s = 0.
Proof.
  induction s as [|c s IH]; cbn [Num.allChars Str.count]; [reflexivity|].
  intros H. apply andb_true_iff in H as [Hc Hs]. rewrite (IH Hs).
  destruct (Ascii.eqb_spec c "%") as [->|]; [discriminate | reflexivity].
Qed.

(** A text that starts with a digit and is a decimal literal, without or
    with a minus sign in front, is a number for [isNaN]. *)
Lemma isNaN_literal (neg : bool) (c : ascii) (r : string) :
  Str.isDigit c = true -> Num.isDecimalLiteral (String c r) = true ->
  Num.allChars notSpace (String c r) = true ->
  Num.isNaN (if neg then String "-" (String c r) else String c r) = false.
Proof.
  intros Hc Hd Hs. unfold Num.isNaN.
  destruct neg.
  - rewrite trim_id by (cbn [Num.allChars] in *; now rewrite Hs).
    rewrite Hd. cbn [Str.isEmpty orb]. now rewrite orb_true_r.
  - rewrite trim_id by exact Hs.
    destruct (digit_not_sign c Hc) as [H1 H2].
    assert (E : match String c r with
                | String "+" t => t
                | String "-" t => t
                | _ => String c r
                end = String c r).
    { destruct c as [[] [] [] [] [] [] [] []]; try reflexivity; congruence. }
    rewrite E, Hd. cbn [Str.isEmpty orb]. now rewrite orb_true_r.
Qed.

Lemma digits_first (w : string) :
  Num.allChars Str.isDigit w = true -> w <> "" ->
  exists c r, w = String c r /\ Str.isDigit c = true.
Proof.
  destruct w as [|c r]; [congruence|]. cbn [Num.allChars].
  intros H _. apply andb_true_iff in H as [Hc _]. now exists c, r.
Qed.

(** The body of [toString] for a finite number other than zero. *)
Lemma toString_body (s n k : Z) :
  let ds := Num.digitsOfZ s in
  let body :=
    if (k <=? n)%Z && (n <=? 21)%Z then (ds ++ Num.zeros (Z.to_nat (n - k)))%string
    else if (0 <? n)%Z && (n <=? 21)%Z then
      (Str.take (Z.to_nat n) ds ++ "." ++ Str.drop (Z.to_nat n) ds)%string
    else if (-6 <? n)%Z && (n <=? 0)%Z then
      ("0." ++ Num.zeros (Z.to_nat (- n)) ++ ds)%string
    else
      let ex := (n - 1)%Z in
      let sg := if (ex <? 0)%Z then "-" else "+" in
      let mant := if (k =? 1)%Z then ds
                  else (Str.take 1 ds ++ "." ++ Str.drop 1 ds)%string in
      (mant ++ "e" ++ sg ++ Num.digitsOfZ (Z.abs ex))%string in
  exists c r, body = String c r /\ Str.isDigit c = true /\
              Num.isDecimalLiteral body = true.
Proof.
  intros ds body.
  pose proof (digitsOfZ_digits s) as Hd. pose proof (digitsOfZ_nonempty s) as Hne.
  fold ds in Hd, Hne.
  destruct (digits_first ds Hd Hne) as (c & r & Eds & Hc).
  assert (First : forall t, exists r', (ds ++ t)%string = String c r').
  { intros t. rewrite Eds. cbn [append]. eauto. }
  subst body.
  destruct ((k <=? n)%Z && (n <=? 21)%Z).
  { destruct (First (Num.zeros (Z.to_nat (n - k)))) as [r' E].
    exists c, r'. split; [exact E|]. split; [exact Hc|].
    rewrite <- (str_app_empty_r (ds ++ _)).
    apply isDecimalLiteral_int; try reflexivity; try discriminate.
    - now rewrite allChars_app, Hd, zeros_digits.
    - now apply str_app_nonempty_l. }
  destruct ((0 <? n)%Z && (n <=? 21)%Z) eqn:E2.
  { apply andb_true_iff in E2 as [Hn _]. apply Z.ltb_lt in Hn.
    destruct (Z.to_nat n) as [|n'] eqn:En; [lia|].
    rewrite Eds. cbn [Str.take Str.drop append].
    eexists _, _. split; [reflexivity|]. split; [exact Hc|].
    change (String c (Str.take n' r ++ String "." (Str.drop n' r)))
      with (Str.take (S n') (String c r) ++ "." ++ Str.drop (S n') (String c r))%string.
    rewrite <- Eds.
    rewrite <- (str_app_empty_r (Str.drop _ ds)).
    apply isDecimalLiteral_frac; try reflexivity.
    - now apply allChars_take.
    - now apply allChars_drop.
    - now rewrite take_drop. }
  destruct ((-6 <? n)%Z && (n <=? 0)%Z).
  { exists "0"%char, ("." ++ Num.zeros (Z.to_nat (- n)) ++ ds)%string.
    split; [reflexivity|]. split; [reflexivity|].
    change ("0." ++ Num.zeros (Z.to_nat (- n)) ++ ds)%string
      with ("0" ++ "." ++ (Num.zeros (Z.to_nat (- n)) ++ ds))%string.
    rewrite <- (str_app_empty_r (Num.zeros _ ++ ds)).
    apply isDecimalLiteral_frac; try reflexivity; try discriminate.
    now rewrite allChars_app, Hd, zeros_digits. }
  cbv zeta.
  destruct (k =? 1)%Z.
  - destruct (First ("e" ++ (if (n - 1 <? 0)%Z then "-" else "+")
                       ++ Num.digitsOfZ (Z.abs (n - 1)))%string) as [r' E].
    exists c, r'. split; [exact E|]. split; [exact Hc|].
    apply isDecimalLiteral_int; trivial; try discriminate.
    apply isExponentOrEnd_exp.
  - rewrite Eds. cbn [Str.take Str.drop append].
    eexists _, _. split; [reflexivity|]. split; [exact Hc|].
    change (String c (String "." ?t)) with (Str.ch c ++ "." ++ t)%string.
    replace (String c (String "." (r ++ String "e"
               ((if (n - 1 <? 0)%Z then "-" else "+") ++ Num.digitsOfZ (Z.abs (n - 1))))))%string
      with (Str.ch c ++ "." ++ r ++
            ("e" ++ (if (n - 1 <? 0)%Z then "-" else "+")
               ++ Num.digitsOfZ (Z.abs (n - 1))))%string by reflexivity.
    apply isDecimalLiteral_frac; try reflexivity; try discriminate.
    + unfold Str.ch. cbn [Num.allChars]. now rewrite Hc.
    + rewrite Eds in Hd. cbn [Num.allChars] in Hd.
      now apply andb_true_iff in Hd as [_ Hd].
    + apply isExponentOrEnd_exp.
Qed.

(** The text of a number is a number: [isNaN] is false on everything
    [toString] prints, [NaN] apart. *)
Lemma isNaN_toString (x : Num.number) :
  x <> Num.NaN -> Num.isNaN (Num.toString x) = false.
Proof.
  intros Hx. destruct x as [|[|]|neg m e]; [congruence | reflexivity | reflexivity|].
  pose proof (toString_chars (Num.Fin neg m e)) as Hch.
  unfold Num.toString in *.
  destruct (m =? 0)%Z; [reflexivity|].
  destruct (Num.toQ m e) as [xn xd].
  destruct (Num.shortest _ _ _ _ _ _ _ _) as [[s n] k].
  destruct (toString_body s n k) as (c & r & E & Hc & Hd).
  cbv zeta in E, Hd. rewrite E in *.
  apply isNaN_literal; trivial.
  eapply allChars_weaken; [apply numberChar_notSpace|].
  destruct neg; [|exact Hch]. cbn [Num.allChars] in Hch.
  now apply andb_true_iff in Hch as [_ Hch].
Qed.

(** ** The text of a number cell *)

Lemma testFrom_no_match (ic : bool) (r : regex) (P : string -> Prop) :
  (forall c s, P (String c s) -> P s) ->
  (forall bef aft, P aft -> matchHere ic r bef aft = None) ->
  forall fuel bef aft, P aft -> testFrom fuel ic r bef aft = false.
Proof.
  intros Htail Hnone. induction fuel as [|fuel IH]; intros bef aft HP; [reflexivity|].
  cbn [testFrom]. rewrite (Hnone bef aft HP).
  destruct aft as [|c rest]; [reflexivity|]. apply IH. now apply (Htail c).
Qed.

Lemma rmatch_RSeq_passes (ic : bool) (r1 r2 : regex) (k : mstate -> option mstate)
    (x z : mstate) :
  rmatch ic (RSeq r1 r2) k x = Some z ->
  exists y, rmatch ic r2 k y = Some z /\ isSuffix (after y) (after x).
Proof. rewrite rmatch_RSeq. apply rmatch_passesOn. Qed.

Lemma percentText_needs_percent (bef aft : string) (z : mstate) :
  matchHere false re_percentText bef aft = Some z -> Str.count "%" aft <> 0.
Proof.
  unfold matchHere, re_percentText. cbn [RSeqs]. intros H.
  do 6 (apply rmatch_RSeq_passes in H as (? & H & ?)).
  rewrite rmatch_RSeq in H. apply rmatch_RChar_inv in H as (a & rest & Ea & Hc & _).
  apply charEq_caseless in Hc; [|reflexivity..]. subst a.
  assert (Hs : isSuffix (String "%" rest) aft).
  { rewrite <- Ea. cbn [after] in *.
    repeat (eapply isSuffix_trans; [eassumption|]). apply isSuffix_refl. }
  apply (isSuffix_count "%") in Hs. cbn [Str.count Ascii.eqb Bool.eqb] in Hs. lia.
Qed.

Lemma test_percentText_none (s : string) :
  Str.count "%" s = 0 -> test false re_percentText s = false.
Proof.
  intros H. unfold test.
  apply (testFrom_no_match false _ (fun s => Str.count "%" s = 0));
    [apply count_tail | | exact H].
  intros bef aft Ha. destruct (matchHere false re_percentText bef aft) eqn:E; [|reflexivity].
  apply percentText_needs_percent in E. contradiction.
Qed.

Lemma replaceAllStr_absent (c : ascii) (s tmpl : string) :
  Str.isLower c = false -> Str.isUpper c = false ->
  Str.count c s = 0 -> replaceAllStr s (Str.ch c) tmpl = s.
Proof.
  intros Hl Hu H. unfold replaceAllStr. apply replaceAll_no_match.
  unfold matchAll, scanAll.
  apply (scan_no_match false _ (fun s => Str.count c s = 0)); [apply count_tail| |exact H].
  intros bef aft Ha. unfold matchHere.
  destruct (rmatch false (RLit (Str.ch c)) _ _) eqn:E; [|reflexivity].
  apply (rmatch_RLit_needs false c) in E; trivial.
  - cbn [after] in E. contradiction.
  - unfold Str.ch. cbn [Str.count]. rewrite Ascii.eqb_refl. lia.
Qed.

Lemma numberChar_comma (s : string) :
  Num.allChars numberChar s = true -> Str.count "," s = 0.
Proof.
  induction s as [|c s IH]; cbn [Num.allChars Str.count]; [reflexivity|].
  intros H. apply andb_true_iff in H as [Hc Hs]. rewrite (IH Hs).
  destruct (Ascii.eqb_spec c ",") as [->|]; [discriminate | reflexivity].
Qed.

Lemma cellText_number (cell : ExcelJS.Cell) (x : Num.number) :
  ExcelJS.value cell = ExcelJS.ValueNumber x -> cellText cell = Num.toString x.
Proof.
  intros Hv. unfold cellText. rewrite Hv.
  pose proof (toString_chars x) as Hch.
  rewrite trim_id by (eapply allChars_weaken; [apply numberChar_notSpace | exact Hch]).
  rewrite test_percentText_none by now apply numberChar_percent.
  change "," with (Str.ch ",").
  rewrite replaceAllStr_absent by (try reflexivity; now apply numberChar_comma).
  now destruct (negb _).
Qed.

(** A cell whose value is a number gets the text of the number as value
    and no description, whatever its display text; only the number NaN
    becomes a description. *)
Theorem getCellData_number (cell : ExcelJS.Cell) (names : list string) (rn cn : Z)
    (cd : CellData) (x : Num.number) :
  ExcelJS.value cell = ExcelJS.ValueNumber x ->
  getCellData cell names rn cn = Returns cd ->
  (x <> Num.NaN -> value cd = Num.toString x /\ description cd = "") /\
  (x = Num.NaN -> value cd = "" /\ description cd = "NaN").
Proof.
  intros Hv Hcd. apply getCellData_value in Hcd as (Ev & Ed & _).
  rewrite (cellText_number cell x Hv) in Ev, Ed. split.
  - intros Hx. rewrite (isNaN_toString x Hx) in Ev, Ed. now split.
  - intros ->. now split.
Qed.

Lemma getCellData_number_witness :
  (Num.ofInt 100 <> Num.NaN -> "100" = Num.toString (Num.ofInt 100) /\ "" = "") /\
  (Num.ofInt 100 = Num.NaN -> "100" = "" /\ "" = "NaN").
Proof.
  refine (getCellData_number (numberCell "Sheet1" "B1" 100) ["Sheet1"] 1 3
            revenue_data (Num.ofInt 100) _ _).
  - reflexivity.
  - vm_compute. reflexivity.
Defined.

(** * The Grid as a map from addresses *)

(** [makeGrid] keeps [grid.cells] keyed by address: every CellData of a
    built Grid is stored under its own address, so the Grid holds at most
    one CellData for an address. *)
Theorem makeGrid_keyed_by_address (wb : ExcelJS.Workbook) (g : Grid) :
  makeGrid wb = Returns g ->
  keyedByAddress (cells g) /\
  forall k1 k2 c1 c2,
    In (k1, c1) (cells g) -> In (k2, c2) (cells g) ->
    address c1 = address c2 -> c1 = c2.
Proof.
  intros H. apply makeGrid_run in H as (st & Hrun & ->). cbn [cells].
  pose proof (eachSheet_keyed _ _ _ Hrun) as Hk.
  split; [exact Hk|]. destruct Hk as [Hnd Ha].
  intros k1 k2 c1 c2 H1 H2 E.
  rewrite <- (Ha k1 c1 H1), <- (Ha k2 c2 H2) in E. subst k2.
  eapply NoDup_map_fst_unique; eassumption.
Qed.

Lemma makeGrid_keyed_by_address_witness :
  keyedByAddress (cells grid_budget) /\
  forall k1 k2 c1 c2,
    In (k1, c1) (cells grid_budget) -> In (k2, c2) (cells grid_budget) ->
    address c1 = address c2 -> c1 = c2.
Proof.
  apply (makeGrid_keyed_by_address wb_budget). vm_compute. reflexivity.
Defined.

(** ** GraphBuilder on a built Grid *)

Lemma makeGraph_ids (g : Grid) :
  map id (metrics (makeGraph g)) = map (fun kv => address (snd kv)) (cells g).
Proof. unfold makeGraph. cbn [metrics]. rewrite map_map. reflexivity. Qed.

Lemma keyedByAddress_addresses (l : list (string * CellData)) :
  keyedByAddress l -> map (fun kv => address (snd kv)) l = map fst l.
Proof.
  intros [_ Ha]. apply map_ext_in. intros [k v] Hin. cbn [fst snd].
  symmetry. now apply Ha.
Qed.

(** [makeGraph] on a built Grid: no two metrics share an id, the ids are
    the keys of the Grid in their order, and the guesstimates name the
    metrics in the same order. *)
Theorem makeGraph_metric_ids (wb : ExcelJS.Workbook) (g : Grid) :
  makeGrid wb = Returns g ->
  NoDup (map id (metrics (makeGraph g))) /\
  map id (metrics (makeGraph g)) = map fst (cells g) /\
  map readableId (metrics (makeGraph g)) = map id (metrics (makeGraph g)) /\
  map metric (guesstimates (makeGraph g)) = map id (metrics (makeGraph g)).
Proof.
  intros H. apply makeGrid_run in H as (st & Hrun & E).
  assert (H : keyedByAddress (cells g))
    by (subst g; exact (eachSheet_keyed _ _ _ Hrun)).
  rewrite makeGraph_ids, (keyedByAddress_addresses _ H).
  split; [apply H|]. split; [reflexivity|].
  rewrite <- (keyedByAddress_addresses _ H).
  unfold makeGraph. cbn [metrics guesstimates]. rewrite !map_map.
  split; reflexivity.
Qed.

Lemma makeGraph_metric_ids_witness :
  NoDup (map id (metrics (makeGraph grid_budget))) /\
  map id (metrics (makeGraph grid_budget)) = map fst (cells grid_budget) /\
  map readableId (metrics (makeGraph grid_budget))
    = map id (metrics (makeGraph grid_budget)) /\
  map metric (guesstimates (makeGraph grid_budget))
    = map id (metrics (makeGraph grid_budget)).
Proof.
  apply (makeGraph_metric_ids wb_budget). vm_compute. reflexivity.
Defined.

(** ** Where the CellData of a Grid come from *)

Lemma sameButDescription_refl (cd : CellData) : sameButDescription cd cd.
Proof. repeat split. Qed.

Lemma fromSheet_stored (names : list string) (wb : ExcelJS.Workbook)
    (previous : option CellData) (cd : CellData) :
  (exists i, fromSheet names wb i cd) ->
  exists i, fromSheet names wb i (storedCell previous cd).
Proof.
  intros [i H]. exists i. unfold storedCell.
  destruct previous as [p|]; [|exact H].
  destruct (isLabelFor (Some p) cd) eqn:Hl; [|exact H].
  apply isLabelFor_label in Hl as (_ & _ & Hd & _ & Hdata).
  destruct H as (pre & sh & post & r & e & cd0 & E & Hi & Hr & He & Hcd & Hs & _).
  exists pre, sh, post, r, e, cd0. repeat split; trivial; try apply Hs.
  right. split; [exact Hd | exact Hdata].
Qed.

Lemma eachSheet_fromSheet (names : list string) (wb : ExcelJS.Workbook)
    (st : BuildState) :
  eachSheet names wb initialState = Returns st ->
  forall k cd, In (k, cd) (gridCells st) -> exists i, fromSheet names wb i cd.
Proof.
  set (Good := fun cd => exists i, fromSheet names wb i cd).
  apply (eachSheet_Inv names (fun l => forall k v, In (k, v) l -> Good v) Good).
  - intros previous c Hc. now apply fromSheet_stored.
  - intros l c Hl Hc k' v' Hin'. apply cells_set_in in Hin' as [E|Hin'].
    + injection E as -> ->. exact Hc.
    + now apply (Hl k').
  - intros l p Hl _ k' v' Hin'. apply cells_delete_in in Hin' as [Hin' _].
    now apply (Hl k').
  - intros k' v' [].
  - intros pre sh post r E Hr e He c Hc.
    exists (List.length pre), pre, sh, post, r, e, c.
    split; [exact E|]. split; [reflexivity|]. split; [exact Hr|].
    split; [exact He|]. split; [exact Hc|].
    split; [apply sameButDescription_refl | now left].
Qed.

(** A CellData without value and formula that comes from the document is
    the CellData of one of its cells. *)
Lemma fromDocument_label (names : list string) (wb : ExcelJS.Workbook) (p : CellData) :
  fromDocument names wb p -> value p = "" -> formula p = "" -> fromCell names wb p.
Proof.
  intros (p0 & Hp0 & Hs & Hd) Hv Hf.
  destruct Hd as [Hd|[[H|H] _]]; try contradiction.
  destruct p as [a v d f r c], p0 as [a0 v0 d0 f0 r0 c0].
  destruct Hs as (E1 & E2 & E3 & E4 & E5). cbn in *. now subst.
Qed.

Lemma fromDocument_stored (names : list string) (wb : ExcelJS.Workbook) (rn : Z)
    (previous : option CellData) (cd : CellData) :
  (forall p, previous = Some p -> value p = "" -> formula p = "" ->
             fromDocument names wb p /\ rowNum p = rn) ->
  fromDocument names wb cd /\ rowNum cd = rn ->
  fromDocument names wb (storedCell previous cd) /\ rowNum (storedCell previous cd) = rn.
Proof.
  intros Hp [Hcd Hrow]. unfold storedCell.
  destruct previous as [p|]; [|now split].
  destruct (isLabelFor (Some p) cd) eqn:Hl; [|now split].
  apply isLabelFor_label in Hl as (Hv & Hf & Hd & Hcol & Hdata).
  destruct (Hp p eq_refl Hv Hf) as [Hdoc Hprow].
  split; [|exact Hrow].
  destruct Hcd as (cd0 & Hcd0 & Hs & _).
  exists cd0. split; [exact Hcd0|]. split; [exact Hs|].
  right. split; [exact Hdata|].
  exists p. split; [|reflexivity].
  split; [now apply fromDocument_label|].
  repeat split; trivial. cbn [rowNum withDescription]. congruence.
Qed.

Lemma eachSheet_fromDocument (names : list string) (wb : ExcelJS.Workbook)
    (st : BuildState) :
  eachSheet names wb initialState = Returns st ->
  forall k cd, In (k, cd) (gridCells st) -> fromDocument names wb cd.
Proof.
  set (Good := fun (rn : Z) cd => fromDocument names wb cd /\ rowNum cd = rn).
  apply (eachSheet_keeps names (fun l => forall k v, In (k, v) l -> fromDocument names wb v)
           Good).
  - intros rn previous c. apply fromDocument_stored.
  - intros l rn c Hl [Hc _] k' v' Hin'. apply cells_set_in in Hin' as [E|Hin'].
    + injection E as -> ->. exact Hc.
    + now apply (Hl k').
  - intros l rn p Hl _ k' v' Hin'. apply cells_delete_in in Hin' as [Hin' _].
    now apply (Hl k').
  - intros k' v' [].
  - intros pre sh post r E Hr e He c Hc. split.
    + exists c. split; [|split; [apply sameButDescription_refl | now left]].
      exists pre, sh, post, r, e. repeat split; trivial.
    + now apply getCellData_value in Hc as (_ & _ & ? & _).
Qed.

(** [makeGrid] invents nothing: the sheet names of a built Grid are those
    of the document, and every CellData comes from a cell of the document,
    with the address, the value and the formula [getCellData] gives that
    cell, the number of its row, and the number of its column plus the
    start column of its sheet.  The description is the cell's own, or, for
    a cell with a value or a formula, the description of its label: of a
    cell of the document that has no value and no formula and sits in the
    same row, one column before. *)
Theorem makeGrid_cells_from_document (wb : ExcelJS.Workbook) (g : Grid) :
  makeGrid wb = Returns g ->
  sheetNames g = map ExcelJS.name wb /\
  forall k cd, In (k, cd) (cells g) -> fromDocument (sheetNames g) wb cd.
Proof.
  intros H. apply makeGrid_run in H as (st & Hrun & ->). cbn [cells sheetNames].
  split; [reflexivity|]. now apply eachSheet_fromDocument.
Qed.

Lemma makeGrid_cells_from_document_witness :
  sheetNames grid_budget = map ExcelJS.name wb_budget /\
  forall k cd, In (k, cd) (cells grid_budget) ->
               fromDocument (sheetNames grid_budget) wb_budget cd.
Proof.
  apply (makeGrid_cells_from_document wb_budget grid_budget).
  vm_compute. reflexivity.
Defined.

(** ** Column numbers *)

Lemma split_earlier {A} (a : list A) :
  forall a' (x x' : A) b b',
    a ++ x :: b = a' ++ x' :: b' -> List.length a < List.length a' ->
    exists mid, a' = a ++ x :: mid.
Proof.
  induction a as [|y a IH]; intros [|y' a'] x x' b b' E Hlen; cbn [List.length] in Hlen;
    try lia.
  - cbn [app] in E. injection E as -> _. now exists a'.
  - cbn [app] in E. injection E as -> E.
    destruct (IH a' x x' b b' E ltac:(lia)) as [mid ->]. now exists mid.
Qed.

Lemma wellFormed_column (wb pre post : list ExcelJS.Worksheet) (sh : ExcelJS.Worksheet)
    (r : Z * ExcelJS.Row) (e : Z * ExcelJS.Cell) :
  wellFormed wb -> wb = pre ++ sh :: post -> In r (ExcelJS.rows sh) -> In e (snd r) ->
  (1 <= fst e)%Z.
Proof.
  intros Hwf -> Hr He. unfold wellFormed in Hwf. rewrite Forall_forall in Hwf.
  destruct (Hwf sh) as [_ Hrows]; [apply in_or_app; right; now left|].
  rewrite Forall_forall in Hrows. destruct (Hrows r Hr) as [_ Hcols].
  rewrite Forall_forall in Hcols. now apply Hcols.
Qed.

Lemma fromSheet_colNum (names : list string) (wb : ExcelJS.Workbook) (i : nat)
    (cd : CellData) :
  fromSheet names wb i cd ->
  exists pre sh post r e,
    wb = pre ++ sh :: post /\ List.length pre = i /\
    In r (ExcelJS.rows sh) /\ In e (snd r) /\
    rowNum cd = fst r /\ colNum cd = (fst e + startColumnAfter pre)%Z.
Proof.
  intros (pre & sh & post & r & e & cd0 & E & Hi & Hr & He & Hcd & Hs & _).
  apply getCellData_value in Hcd as (_ & _ & Hrow & Hcol).
  destruct Hs as (_ & _ & _ & Er & Ec).
  exists pre, sh, post, r, e.
  split; [exact E|]. split; [exact Hi|]. split; [exact Hr|]. split; [exact He|].
  split; congruence.
Qed.

Lemma startColumnAfter_pos (pre : list ExcelJS.Worksheet) : (1 <= startColumnAfter pre)%Z.
Proof. unfold startColumnAfter. pose proof (maxColumnAfter_le pre 0). lia. Qed.

Lemma fromSheet_column_min (names : list string) (wb : ExcelJS.Workbook) (i : nat)
    (cd : CellData) :
  wellFormed wb -> fromSheet names wb i cd -> (2 <= colNum cd)%Z.
Proof.
  intros Hwf H.
  apply fromSheet_colNum in H as (pre & sh & post & r & e & E & _ & Hr & He & _ & ->).
  pose proof (wellFormed_column wb pre post sh r e Hwf E Hr He).
  pose proof (startColumnAfter_pos pre). lia.
Qed.

Lemma fromSheet_columns_apart (names : list string) (wb : ExcelJS.Workbook)
    (i j : nat) (c1 c2 : CellData) :
  wellFormed wb -> fromSheet names wb i c1 -> fromSheet names wb j c2 -> i < j ->
  (colNum c1 < colNum c2)%Z.
Proof.
  intros Hwf H1 H2 Hij.
  apply fromSheet_colNum in H1 as (pre1 & sh1 & post1 & r1 & e1 & E1 & L1 & Hr1 & He1 & _ & ->).
  apply fromSheet_colNum in H2 as (pre2 & sh2 & post2 & r2 & e2 & E2 & L2 & Hr2 & He2 & _ & ->).
  pose proof (wellFormed_column wb pre2 post2 sh2 r2 e2 Hwf E2 Hr2 He2) as Hcol.
  destruct (split_earlier pre1 pre2 sh1 sh2 post1 post2) as [mid ->];
    [congruence | lia |].
  pose proof (maxColumnAfter_bounds pre1 mid sh1 0 r1 e1 Hr1 He1) as Hb.
  unfold startColumnAfter. lia.
Qed.

(** Sheets are laid out side by side: every CellData of a built Grid comes
    from a sheet of the document, and of two that come from different
    sheets, the one from the earlier sheet has the smaller column number. *)
Theorem makeGrid_sheets_side_by_side (wb : ExcelJS.Workbook) (g : Grid)
    (k1 k2 : string) (c1 c2 : CellData) :
  wellFormed wb -> makeGrid wb = Returns g ->
  In (k1, c1) (cells g) -> In (k2, c2) (cells g) ->
  (exists i, fromSheet (sheetNames g) wb i c1) /\
  (exists j, fromSheet (sheetNames g) wb j c2) /\
  forall i j,
    fromSheet (sheetNames g) wb i c1 -> fromSheet (sheetNames g) wb j c2 ->
    i < j -> (colNum c1 < colNum c2)%Z.
Proof.
  intros Hwf Hg Hin1 Hin2.
  apply makeGrid_run in Hg as (st & Hrun & ->). cbn [cells sheetNames] in *.
  split; [exact (eachSheet_fromSheet _ wb st Hrun k1 c1 Hin1)|].
  split; [exact (eachSheet_fromSheet _ wb st Hrun k2 c2 Hin2)|].
  intros i j H1 H2 Hij. exact (fromSheet_columns_apart _ wb i j c1 c2 Hwf H1 H2 Hij).
Qed.

Lemma makeGrid_sheets_side_by_side_witness :
  (exists i, fromSheet ["Costs"; "Totals"] wb_budget i budget_rent) /\
  (exists j, fromSheet ["Costs"; "Totals"] wb_budget j budget_total) /\
  forall i j,
    fromSheet ["Costs"; "Totals"] wb_budget i budget_rent ->
    fromSheet ["Costs"; "Totals"] wb_budget j budget_total ->
    i < j -> (3 < 5)%Z.
Proof.
  refine (makeGrid_sheets_side_by_side wb_budget grid_budget
            "Costs!B1" "Totals!A2" budget_rent budget_total _ _ _ _).
  - repeat constructor; cbn [fst snd map ExcelJS.rows]; lia.
  - vm_compute. reflexivity.
  - left. reflexivity.
  - right. left. reflexivity.
Defined.

(** ** Where the metrics are placed *)

Lemma rowsFromOne_row (wb pre post : list ExcelJS.Worksheet) (sh : ExcelJS.Worksheet)
    (r : Z * ExcelJS.Row) :
  rowsFromOne wb -> wb = pre ++ sh :: post -> In r (ExcelJS.rows sh) -> (1 <= fst r)%Z.
Proof.
  intros H -> Hr. unfold rowsFromOne in H. rewrite Forall_forall in H.
  assert (Hsh : In sh (pre ++ sh :: post)) by (apply in_or_app; right; now left).
  specialize (H sh Hsh). rewrite Forall_forall in H. now apply H.
Qed.

(** The metrics of a built Grid sit at row [rowNum - 1] and column
    [colNum - 1]: rows start at 0, and no metric is in column 0. *)
Theorem makeGraph_locations (wb : ExcelJS.Workbook) (g : Grid) (m : Metric) :
  wellFormed wb -> rowsFromOne wb -> makeGrid wb = Returns g ->
  In m (metrics (makeGraph g)) ->
  (0 <= location_row m)%Z /\ (1 <= location_column m)%Z.
Proof.
  intros Hwf Hrows Hg Hm. unfold makeGraph in Hm. cbn [metrics] in Hm.
  apply in_map_iff in Hm as ([k cd] & <- & Hin).
  cbn [snd cellMetric location_row location_column].
  apply makeGrid_run in Hg as (st & Hrun & ->). cbn [cells sheetNames] in *.
  destruct (eachSheet_fromSheet _ wb st Hrun k cd Hin) as [i Hi].
  pose proof (fromSheet_column_min _ wb i cd Hwf Hi) as Hc.
  apply fromSheet_colNum in Hi as (pre & sh & post & r & e & E & _ & Hr & _ & -> & _).
  pose proof (rowsFromOne_row wb pre post sh r Hrows E Hr). lia.
Qed.

Lemma makeGraph_locations_witness :
  (0 <= 1)%Z /\ (1 <= 4)%Z.
Proof.
  refine (makeGraph_locations wb_budget grid_budget
            {| id := "Totals!A2"; readableId := "Totals!A2"; name := "";
               location_row := 1; location_column := 4 |} _ _ _ _).
  - repeat constructor; cbn [fst snd map ExcelJS.rows]; lia.
  - repeat constructor; cbn [fst]; lia.
  - vm_compute. reflexivity.
  - right. left. reflexivity.
Defined.

(** * DependencyGraphExtractor: nodes and edges *)

Lemma render_scan_mask (neg : bool) (rs : list (ascii * ascii)) (c : ascii) (fuel : nat) :
  notDollar c = true ->
  forall bef aft,
    String.length aft < fuel ->
    render 0 (Str.ch c) (scan fuel false (RClass neg rs) bef aft)
    = mask (fun a => xorb neg (classHas false rs a)) c aft.
Proof.
  intros Hc. induction fuel as [|fuel IH]; intros bef aft Hlen; [lia|].
  destruct aft as [|a rest]; [reflexivity|].
  cbn [String.length] in Hlen.
  cbn [scan mask].
  change (matchHere false (RClass neg rs) bef (String a rest))
    with (if xorb neg (classHas false rs a)
          then Some (MState (String a bef) rest []) else None).
  destruct (xorb neg (classHas false rs a)).
  - cbn [after before caps]. rewrite take_one.
    cbn [render]. rewrite getSubstitution_plain
      by (unfold Str.ch; cbn [Num.allChars]; now rewrite Hc).
    unfold Str.ch at 1. cbn [append]. f_equal. apply IH. lia.
  - cbn [render]. f_equal. apply IH. lia.
Qed.

Lemma length_mask (p : ascii -> bool) (c : ascii) (s : string) :
  String.length (mask p c s) = String.length s.
Proof. induction s as [|a s IH]; cbn [mask String.length]; [reflexivity | now rewrite IH]. Qed.

Lemma mask_nonempty (p : ascii -> bool) (c : ascii) (s : string) :
  s <> "" -> mask p c s <> "".
Proof. destruct s; [congruence | discriminate]. Qed.

Lemma unsafe_labelChar (a : ascii) :
  labelChar
    (if xorb true (classHas false
          [(" ", " "); ("a", "z"); ("A", "Z"); ("0", "9"); (",", ",");
           (".", "."); ("-", "-"); ("$", "$"); ("%", "%")]%char a)
     then "_"%char else a) = true.
Proof.
  destruct (xorb true _) eqn:E; [reflexivity|].
  apply negb_false_iff in E.
  unfold classHas, inRanges in E. cbn [existsb fst snd andb orb] in E.
  rewrite !inRange_single, !orb_false_r in E.
  unfold labelChar, Str.isLower, Str.isUpper, Str.isDigit. cbn [existsb].
  destruct (Ascii.eqb a " "), (Str.inRange "a" "z" a), (Str.inRange "A" "Z" a),
    (Str.inRange "0" "9" a), (Ascii.eqb a ","), (Ascii.eqb a "."), (Ascii.eqb a "-"),
    (Ascii.eqb a "$"), (Ascii.eqb a "%"); try reflexivity; discriminate E.
Qed.

Lemma mask_unsafe_label (s : string) :
  Num.allChars labelChar
    (mask (fun a => xorb true (classHas false
             [(" ", " "); ("a", "z"); ("A", "Z"); ("0", "9"); (",", ",");
              (".", "."); ("-", "-"); ("$", "$"); ("%", "%")]%char a)) "_" s) = true.
Proof.
  induction s as [|a s IH]; cbn [mask Num.allChars]; [reflexivity|].
  now rewrite unsafe_labelChar, IH.
Qed.

(** [nodeText]: nothing for a cell without description; otherwise the
    address and, in brackets, a label as long as the description but of
    at most 40 characters, all of them letters, digits, blanks or one of
    [,.-$%_]. *)
Theorem nodeText_label (cell : CellData) :
  (description cell = "" -> nodeText cell = "") /\
  (description cell <> "" ->
   exists label,
     nodeText cell = (address cell ++ "[" ++ label ++ "]")%string /\
     label <> "" /\
     String.length label = Nat.min 40 (String.length (description cell)) /\
     Num.allChars labelChar label = true).
Proof.
  unfold nodeText. split.
  - intros ->. reflexivity.
  - intros Hd.
    set (d := if (40 <? String.length (description cell))%nat
              then (Str.take 37 (description cell) ++ "...")%string
              else description cell).
    assert (Hne : d <> "").
    { unfold d. destruct (40 <? _)%nat; [|exact Hd].
      apply str_app_nonempty_r. discriminate. }
    assert (Hlen : String.length d = Nat.min 40 (String.length (description cell))).
    { unfold d. destruct (Nat.ltb_spec 40 (String.length (description cell))).
      - rewrite str_length_app, take_length. cbn [String.length]. lia.
      - lia. }
    apply isEmpty_false in Hne as He. rewrite He.
    exists (mask (fun a => xorb true (classHas false
             [(" ", " "); ("a", "z"); ("A", "Z"); ("0", "9"); (",", ",");
              (".", "."); ("-", "-"); ("$", "$"); ("%", "%")]%char a)) "_" d).
    split; [|split; [|split]].
    + unfold replaceAll, scanAll, re_unsafe.
      rewrite (render_scan_mask true _ "_" _ eq_refl) by lia. reflexivity.
    + now apply mask_nonempty.
    + now rewrite length_mask.
    + apply mask_unsafe_label.
Qed.

(** ** The lines of the diagram *)

Lemma testFrom_RLit (p : string) (fuel : nat) :
  forall bef s,
    String.length s < fuel ->
    testFrom fuel false (RLit p) bef s = Str.includes s p.
Proof.
  induction fuel as [|fuel IH]; intros bef s Hlen; [lia|].
  cbn [testFrom]. unfold matchHere. rewrite rmatch_RLit. cbn [after].
  destruct s as [|c rest]; cbn [Str.includes].
  - destruct (Str.startsWith p ""); reflexivity.
  - destruct (Str.startsWith p (String c rest)); [reflexivity|].
    cbn [orb]. apply IH. cbn [String.length] in Hlen. lia.
Qed.

Lemma test_reference (a f : string) :
  test false (re_reference a) f = Str.includes f (a ++ "}")%string.
Proof. unfold test, re_reference. apply testFrom_RLit. lia. Qed.

Lemma cells_get_in (a : string) (l : list (string * CellData)) :
  In a (map fst l) -> exists c, cells_get a l = Some c /\ In (a, c) l.
Proof.
  induction l as [|[k v] l IH]; cbn [map fst cells_get]; [intros []|].
  destruct (String.eqb_spec k a) as [->|Hne].
  - intros _. exists v. split; [reflexivity | now left].
  - intros [E|Hin]; [contradiction|].
    destruct (IH Hin) as (c & -> & Hc). exists c. split; [reflexivity | now right].
Qed.

Section Lines.

Variable g : Grid.

(** What the loops keep: every line so far is a declaration or an edge. *)
Let sound (line : string) : Prop :=
  isNodeLine g line \/
  exists a cell, isReference g a cell /\ line = edgeLine a (address cell).

Lemma visitReference_lines (cell : CellData) (st : list string * list string)
    (a : string) :
  (forall line, In line (snd st) ->
                In line (snd (visitReference (cells g) cell st a))) /\
  In (edgeLine a (address cell)) (snd (visitReference (cells g) cell st a)) /\
  (isReference g a cell ->
   (forall line, In line (snd st) -> sound line) ->
   forall line, In line (snd (visitReference (cells g) cell st a)) -> sound line).
Proof.
  destruct st as [seen lines]. unfold visitReference. cbn [snd].
  split; [|split].
  - intros line Hin. apply in_or_app. left.
    destruct (negb (seenHas seen (address cell)));
      destruct (negb (seenHas seen a));
      repeat (apply in_or_app; left); exact Hin.
  - apply in_or_app. right. now left.
  - intros Href Hs line Hin.
    assert (Hnode_a : sound (match cells_get a (cells g) with
                             | Some c => nodeText c
                             | None => ""
                             end)).
    { destruct Href as (_ & _ & Ha & _).
      destruct (cells_get_in a (cells g) Ha) as (c & -> & Hc).
      left. now exists a, c. }
    assert (Hnode_c : sound (nodeText cell)).
    { destruct Href as ([k Hk] & _). left. now exists k, cell. }
    apply in_app_or in Hin as [Hin|[<-|[]]].
    2:{ right. now exists a, cell. }
    destruct (negb (seenHas seen (address cell)));
      destruct (negb (seenHas seen a));
      repeat match goal with
             | H : In _ (_ ++ _) |- _ => apply in_app_or in H as [H|[<-|[]]]
             end; auto.
Qed.

Lemma fold_visitReference (cell : CellData) (matched : list string) :
  forall st,
    (forall line, In line (snd st) ->
                  In line (snd (fold_left (visitReference (cells g) cell) matched st))) /\
    (forall a, In a matched ->
               In (edgeLine a (address cell))
                  (snd (fold_left (visitReference (cells g) cell) matched st))) /\
    ((forall a, In a matched -> isReference g a cell) ->
     (forall line, In line (snd st) -> sound line) ->
     forall line,
       In line (snd (fold_left (visitReference (cells g) cell) matched st)) ->
       sound line).
Proof.
  induction matched as [|a matched IH]; intros st; cbn [fold_left].
  - split; [trivial|]. split; [intros a []|]. intros _ Hs. exact Hs.
  - destruct (visitReference_lines cell st a) as (Hmono & Hedge & Hsound).
    destruct (IH (visitReference (cells g) cell st a)) as (IHmono & IHedge & IHsound).
    split; [|split].
    + intros line Hin. now apply IHmono, Hmono.
    + intros a' [<-|Hin]; [now apply IHmono | now apply IHedge].
    + intros Href Hs. apply IHsound.
      * intros a' Ha'. apply Href. now right.
      * apply Hsound; [apply Href; now left | exact Hs].
Qed.

Lemma matched_reference (k : string) (cell : CellData) (a : string) :
  In (k, cell) (cells g) -> Str.isEmpty (formula cell) = false ->
  In a (filter (fun a => test false (re_reference a) (formula cell))
               (map fst (cells g))) <->
  isReference g a cell.
Proof.
  intros Hk Hf. rewrite filter_In, test_reference. unfold isReference.
  apply isEmpty_false in Hf. split.
  - intros [Ha Hi]. split; [now exists k|]. now repeat split.
  - intros (_ & _ & Ha & Hi). now split.
Qed.

Lemma visitFormulaCell_lines (k : string) (cell : CellData)
    (st : list string * list string) :
  In (k, cell) (cells g) ->
  (forall line, In line (snd st) ->
                In line (snd (visitFormulaCell (cells g) st cell))) /\
  (forall a, isReference g a cell ->
             In (edgeLine a (address cell)) (snd (visitFormulaCell (cells g) st cell))) /\
  ((forall line, In line (snd st) -> sound line) ->
   forall line, In line (snd (visitFormulaCell (cells g) st cell)) -> sound line).
Proof.
  intros Hk. unfold visitFormulaCell.
  destruct (Str.isEmpty (formula cell)) eqn:Hf.
  - split; [trivial|]. split; [|trivial].
    intros a (_ & Hne & _). apply isEmpty_true in Hf. contradiction.
  - destruct (fold_visitReference cell
                (filter (fun a => test false (re_reference a) (formula cell))
                        (map fst (cells g))) st) as (Hmono & Hedge & Hsound).
    split; [exact Hmono|]. split.
    + intros a Ha. apply Hedge. now apply (matched_reference k).
    + apply Hsound. intros a Ha. now apply (matched_reference k) in Ha.
Qed.

Lemma fold_visitFormulaCell (entries : list (string * CellData)) :
  (forall e, In e entries -> In e (cells g)) ->
  forall st,
    (forall line, In line (snd st) ->
       In line (snd (fold_left (visitFormulaCell (cells g)) (map snd entries) st))) /\
    (forall k cell a, In (k, cell) entries -> isReference g a cell ->
       In (edgeLine a (address cell))
          (snd (fold_left (visitFormulaCell (cells g)) (map snd entries) st))) /\
    ((forall line, In line (snd st) -> sound line) ->
     forall line,
       In line (snd (fold_left (visitFormulaCell (cells g)) (map snd entries) st)) ->
       sound line).
Proof.
  induction entries as [|[k cell] entries IH]; intros Hsub st; cbn [map snd fold_left].
  - split; [trivial|]. split; [intros k cell a []|trivial].
  - destruct (visitFormulaCell_lines k cell st) as (Hmono & Hedge & Hsound);
      [apply Hsub; now left|].
    destruct (IH (fun e He => Hsub e (or_intror He))
                (visitFormulaCell (cells g) st cell)) as (IHmono & IHedge & IHsound).
    split; [|split].
    + intros line Hin. now apply IHmono, Hmono.
    + intros k' cell' a [E|Hin] Href.
      * injection E as <- <-. now apply IHmono, Hedge.
      * now apply (IHedge k').
    + intros Hs. apply IHsound, Hsound, Hs.
Qed.

End Lines.


(** Nothing else is drawn: every line of the diagram declares the node of
    a cell of the Grid (an empty line for a cell without description) or
    is the edge of a reference. *)
Theorem gridToMermaidGraph_lines (g : Grid) (line : string) :
  In line (mermaidLines g) ->
  isNodeLine g line \/
  exists a cell, isReference g a cell /\ line = edgeLine a (address cell).
Proof.
  unfold mermaidLines.
  destruct (fold_visitFormulaCell g (cells g) (fun e He => He) ([], []))
    as (_ & _ & Hsound).
  apply Hsound. intros l [].
Qed.

(** Without a formula there is nothing to draw: the diagram of a Grid in
    which no cell has a formula is the header alone. *)
Theorem gridToMermaidGraph_no_formula (g : Grid) :
  (forall k cell, In (k, cell) (cells g) -> formula cell = "") ->
  mermaidLines g = [] /\
  gridToMermaidGraph g = ("graph LR" ++ newline ++ "  ")%string.
Proof.
  intros H.
  assert (Hall : forall c, In c (map snd (cells g)) -> formula c = "").
  { intros c Hc. apply in_map_iff in Hc as ([k c'] & <- & Hin). now apply (H k). }
  assert (F : forall l st,
             (forall c, In c l -> formula c = "") ->
             fold_left (visitFormulaCell (cells g)) l st = st).
  { induction l as [|c l IH]; intros st Hl; cbn [fold_left]; [reflexivity|].
    unfold visitFormulaCell at 2. rewrite (Hl c) by now left.
    cbn [Str.isEmpty]. apply IH. intros c' Hc'. apply Hl. now right. }
  assert (E : mermaidLines g = []).
  { unfold mermaidLines. now rewrite F. }
  split; [exact E|]. unfold gridToMermaidGraph. now rewrite E.
Qed.

Lemma gridToMermaidGraph_no_formula_witness :
  mermaidLines grid_revenue = [] /\
  gridToMermaidGraph grid_revenue = ("graph LR" ++ newline ++ "  ")%string.
Proof.
  apply (gridToMermaidGraph_no_formula grid_revenue).
  intros k cell [E|[]]. injection E as _ <-. reflexivity.
Defined.


Lemma gridToMermaidGraph_lines_witness :
  isNodeLine grid_budget "Costs!B1[Rent]" \/
  exists a cell, isReference grid_budget a cell /\
                 "Costs!B1[Rent]" = edgeLine a (address cell).
Proof.
  apply (gridToMermaidGraph_lines grid_budget "Costs!B1[Rent]").
  vm_compute. left. reflexivity.
Defined.

(** * The matcher on a given text *)

(** ** What a matcher does on a given text *)

Lemma rmatch_RLit_text (ic : bool) (p : string) (k : mstate -> option mstate) :
  forall w b rest cs,
    sameText ic p w = true ->
    rmatch ic (RLit p) k (MState b (w ++ rest)%string cs) = k (stateAfter w b rest cs).
Proof.
  induction p as [|c p IH]; intros [|a w] b rest cs H; cbn [sameText] in H;
    try discriminate.
  - reflexivity.
  - apply andb_true_iff in H as [Hc Hw].
    cbn [RLit]. rewrite rmatch_RSeq. cbn [rmatch after append]. rewrite Hc.
    unfold advance. cbn [before caps]. now rewrite IH.
Qed.

Lemma rmatch_RChar_here (ic : bool) (c : ascii) (k : mstate -> option mstate)
    (b rest : string) (cs : list (nat * string)) :
  rmatch ic (RChar c) k (MState b (String c rest) cs) = k (MState (String c b) rest cs).
Proof.
  cbn [rmatch after]. unfold charEq. now rewrite Ascii.eqb_refl.
Qed.

Lemma RepeatMatcher_unfold (m : (mstate -> option mstate) -> mstate -> option mstate)
    (k : mstate -> option mstate) (fuel min : nat) (x : mstate) :
  RepeatMatcher m k (S fuel) min None x =
  let d := fun y =>
    if (min =? 0)%nat && (String.length (after y) =? String.length (after x))%nat
    then None
    else RepeatMatcher m k fuel (Nat.pred min) None y in
  if (min =? 0)%nat
  then match m d x with Some z => Some z | None => k x end
  else m d x.
Proof. reflexivity. Qed.

Section ClassRuns.

Variables (ic neg : bool) (rs : list (ascii * ascii)).

Let inClass (a : ascii) : bool := xorb neg (classHas ic rs a).

Lemma rmatch_RClass_here (d : mstate -> option mstate) (b : string) (a : ascii)
    (rest : string) (cs : list (nat * string)) :
  rmatch ic (RClass neg rs) d (MState b (String a rest) cs) =
  if inClass a then d (MState (String a b) rest cs) else None.
Proof. reflexivity. Qed.

Lemma rmatch_RClass_stop (d : mstate -> option mstate) (b rest : string)
    (cs : list (nat * string)) :
  stopsAt inClass rest = true ->
  rmatch ic (RClass neg rs) d (MState b rest cs) = None.
Proof.
  destruct rest as [|c rest]; [reflexivity|]. cbn [stopsAt]. intros H.
  apply negb_true_iff in H. rewrite rmatch_RClass_here. now rewrite H.
Qed.

(** One more character of the class: the matcher goes on with the rest. *)
Lemma RepeatMatcher_class_step (k : mstate -> option mstate) (fuel min : nat)
    (b : string) (a : ascii) (rest : string) (cs : list (nat * string)) :
  inClass a = true ->
  RepeatMatcher (rmatch ic (RClass neg rs)) k (S fuel) min None
    (MState b (String a rest) cs) =
  match RepeatMatcher (rmatch ic (RClass neg rs)) k fuel (Nat.pred min) None
          (MState (String a b) rest cs) with
  | Some z => Some z
  | None => if (min =? 0)%nat then k (MState b (String a rest) cs) else None
  end.
Proof.
  intros Ha. rewrite RepeatMatcher_unfold. cbv zeta.
  rewrite rmatch_RClass_here, Ha. cbn [after String.length].
  assert (Hlen : (String.length rest =? S (String.length rest))%nat = false)
    by (apply Nat.eqb_neq; lia).
  rewrite Hlen, andb_false_r.
  destruct (RepeatMatcher _ k fuel _ None _); now destruct (min =? 0)%nat.
Qed.

Lemma RepeatMatcher_class_stop (k : mstate -> option mstate) (fuel min : nat)
    (b rest : string) (cs : list (nat * string)) :
  stopsAt inClass rest = true ->
  RepeatMatcher (rmatch ic (RClass neg rs)) k (S fuel) min None (MState b rest cs) =
  if (min =? 0)%nat then k (MState b rest cs) else None.
Proof.
  intros Hs. rewrite RepeatMatcher_unfold. cbv zeta.
  now rewrite rmatch_RClass_stop.
Qed.

(** A quantified class takes the whole run of characters of the class when
    the rest of the pattern matches after it. *)
Lemma RepeatMatcher_class_run (k : mstate -> option mstate) (rest : string)
    (cs : list (nat * string)) (z : mstate) :
  stopsAt inClass rest = true ->
  forall w fuel min b,
    Num.allChars inClass w = true -> min <= String.length w ->
    String.length w < fuel ->
    k (stateAfter w b rest cs) = Some z ->
    RepeatMatcher (rmatch ic (RClass neg rs)) k fuel min None
      (MState b (w ++ rest)%string cs) = Some z.
Proof.
  intros Hstop. induction w as [|a w IH]; intros fuel min b Hw Hmin Hfuel Hk;
    (destruct fuel as [|fuel]; [cbn [String.length] in Hfuel; lia|]).
  - cbn [String.length] in Hmin. assert (min = 0) by lia. subst min.
    cbn [append]. rewrite RepeatMatcher_class_stop by exact Hstop. exact Hk.
  - cbn [String.length Num.allChars] in *. apply andb_true_iff in Hw as [Ha Hw].
    cbn [append]. rewrite RepeatMatcher_class_step by exact Ha.
    rewrite (IH fuel (Nat.pred min) (String a b)); trivial; lia.
Qed.

(** When the rest of the pattern fails after every run, so does the
    quantified class. *)
Lemma RepeatMatcher_class_fails (k : mstate -> option mstate) (rest : string)
    (cs : list (nat * string)) :
  stopsAt inClass rest = true ->
  forall w fuel min b,
    Num.allChars inClass w = true ->
    (forall u v, w = (u ++ v)%string -> min <= String.length u ->
                 k (stateAfter u b (v ++ rest)%string cs) = None) ->
    RepeatMatcher (rmatch ic (RClass neg rs)) k fuel min None
      (MState b (w ++ rest)%string cs) = None.
Proof.
  intros Hstop. induction w as [|a w IH]; intros fuel min b Hw Hk;
    (destruct fuel as [|fuel]; [reflexivity|]).
  - cbn [append]. rewrite RepeatMatcher_class_stop by exact Hstop.
    destruct (Nat.eqb_spec min 0) as [->|]; [|reflexivity].
    apply (Hk "" ""); [reflexivity | cbn; lia].
  - cbn [Num.allChars] in Hw. apply andb_true_iff in Hw as [Ha Hw].
    cbn [append]. rewrite RepeatMatcher_class_step by exact Ha.
    rewrite (IH fuel (Nat.pred min) (String a b) Hw).
    + destruct (Nat.eqb_spec min 0) as [->|]; [|reflexivity].
      apply (Hk "" (String a w)); [reflexivity | cbn; lia].
    + intros u v -> Hu. apply (Hk (String a u) v); [reflexivity | cbn [String.length]; lia].
Qed.

(** The matcher backs off to the longest run after which the rest of the
    pattern matches. *)
Lemma RepeatMatcher_class_backs_off (k : mstate -> option mstate) (rest : string)
    (cs : list (nat * string)) (z : mstate) :
  stopsAt inClass rest = true ->
  forall w1 w2 fuel min b,
    Num.allChars inClass w1 = true -> Num.allChars inClass w2 = true ->
    min <= String.length w1 -> String.length w1 < fuel ->
    (forall u v, w2 = (u ++ v)%string -> u <> "" ->
                 k (stateAfter (w1 ++ u) b (v ++ rest)%string cs) = None) ->
    k (stateAfter w1 b (w2 ++ rest)%string cs) = Some z ->
    RepeatMatcher (rmatch ic (RClass neg rs)) k fuel min None
      (MState b (w1 ++ w2 ++ rest)%string cs) = Some z.
Proof.
  intros Hstop. induction w1 as [|a w1 IH]; intros w2 fuel min b H1 H2 Hmin Hfuel Hno Hk;
    (destruct fuel as [|fuel]; [cbn [String.length] in Hfuel; lia|]).
  - cbn [String.length] in Hmin. assert (min = 0) by lia. subst min. cbn [append] in *.
    destruct w2 as [|c w2].
    + cbn [append]. rewrite RepeatMatcher_class_stop by exact Hstop. exact Hk.
    + cbn [Num.allChars] in H2. apply andb_true_iff in H2 as [Hc H2].
      cbn [append]. rewrite RepeatMatcher_class_step by exact Hc.
      rewrite (RepeatMatcher_class_fails k rest cs Hstop w2 fuel _ (String c b) H2).
      * exact Hk.
      * intros u v -> _. apply (Hno (String c u) v); [reflexivity | discriminate].
  - cbn [String.length Num.allChars] in *. apply andb_true_iff in H1 as [Ha H1].
    cbn [append]. rewrite RepeatMatcher_class_step by exact Ha.
    rewrite (IH w2 fuel (Nat.pred min) (String a b)); trivial; lia.
Qed.

End ClassRuns.

(** ** The text before the index *)

Section Context.

Variable ic : bool.

Let related (k k' : mstate -> option mstate) : Prop :=
  forall y y', sameAhead y y' -> sameResult (k y) (k' y').

Lemma sameResult_first (o o' p p' : option mstate) :
  sameResult o o' -> sameResult p p' ->
  sameResult (match o with Some z => Some z | None => p end)
             (match o' with Some z => Some z | None => p' end).
Proof. destruct o, o'; cbn [sameResult]; tauto. Qed.

Lemma RepeatMatcher_sameAhead
    (m : (mstate -> option mstate) -> mstate -> option mstate) :
  (forall k k', related k k' -> related (m k) (m k')) ->
  forall fuel min max k k',
    related k k' ->
    related (fun x => RepeatMatcher m k fuel min max x)
            (fun x => RepeatMatcher m k' fuel min max x).
Proof.
  intros Hm. induction fuel as [|fuel IH]; intros min max k k' Hk x x' Hx;
    [exact I|].
  cbn [RepeatMatcher].
  assert (Hd : related
    (fun y => if (min =? 0)%nat && (String.length (after y) =? String.length (after x))%nat
              then None
              else RepeatMatcher m k fuel (Nat.pred min) (option_map Nat.pred max) y)
    (fun y => if (min =? 0)%nat && (String.length (after y) =? String.length (after x'))%nat
              then None
              else RepeatMatcher m k' fuel (Nat.pred min) (option_map Nat.pred max) y)).
  { intros y y' Hy. destruct Hx as [Ex _]. destruct (Hy) as [Ey _].
    rewrite Ex, Ey. destruct (_ && _); [exact I|]. now apply IH. }
  pose proof (Hm _ _ Hd x x' Hx) as Hstep.
  destruct max as [[|mx]|]; [now apply Hk | |];
    (destruct (min =? 0)%nat; [|exact Hstep]);
    (apply sameResult_first; [exact Hstep | now apply Hk]).
Qed.

Lemma rmatch_sameAhead (r : regex) :
  contextFree r = true ->
  forall k k', related k k' -> related (rmatch ic r k) (rmatch ic r k').
Proof.
  induction r; intros Hcf k k' Hk x x' Hx; cbn [contextFree] in Hcf;
    try discriminate; cbn [rmatch].
  - now apply Hk.
  - destruct Hx as [Ea Ec]. rewrite <- Ea.
    destruct (after x) as [|a rest]; [exact I|].
    destruct (charEq ic a c); [|exact I].
    apply Hk. split; [reflexivity | exact Ec].
  - destruct Hx as [Ea Ec]. rewrite <- Ea.
    destruct (after x) as [|a rest]; [exact I|].
    destruct (isLineTerminator a); [exact I|].
    apply Hk. split; [reflexivity | exact Ec].
  - destruct Hx as [Ea Ec]. rewrite <- Ea.
    destruct (after x) as [|a rest]; [exact I|].
    destruct (xorb neg (classHas ic ranges a)); [|exact I].
    apply Hk. split; [reflexivity | exact Ec].
  - apply andb_true_iff in Hcf as [H1 H2].
    apply IHr1; [exact H1 | | exact Hx]. now apply IHr2.
  - apply andb_true_iff in Hcf as [H1 H2].
    apply sameResult_first; [now apply IHr1 | now apply IHr2].
  - destruct (Hx) as [Ea _]. rewrite <- Ea.
    apply (RepeatMatcher_sameAhead (rmatch ic r)); trivial. now apply IHr.
  - apply IHr; [exact Hcf | | exact Hx].
    intros y y' Hy. apply Hk. destruct Hx as [Ea _]. destruct Hy as [Ey Ec].
    unfold sameAhead, setCap, consumed. cbn [after caps].
    rewrite Ea, Ey, Ec. now split.
  - destruct Hx as [Ea Ec]. rewrite <- Ea.
    destruct (after x) eqn:E; [|exact I]. apply Hk. split; [congruence | exact Ec].
Qed.

Lemma matchHere_sameAhead (r : regex) (b b' s : string) :
  contextFree r = true ->
  sameResult (matchHere ic r b s) (matchHere ic r b' s).
Proof.
  intros Hcf. unfold matchHere. apply rmatch_sameAhead; trivial.
  - intros y y' Hy. exact Hy.
  - now split.
Qed.

Lemma scan_sameAhead (r : regex) :
  contextFree r = true ->
  forall fuel b b' s, Forall2 samePiece (scan fuel ic r b s) (scan fuel ic r b' s).
Proof.
  intros Hcf. induction fuel as [|fuel IH]; intros b b' s; [constructor|].
  cbn [scan]. pose proof (matchHere_sameAhead r b b' s Hcf) as Hm.
  destruct (matchHere ic r b s) as [y|], (matchHere ic r b' s) as [y'|];
    cbn [sameResult] in Hm; try contradiction.
  - destruct Hm as [Ea Ec]. rewrite <- Ea, <- Ec.
    assert (Hhit : samePiece
              (Hit (JSMatch b (Str.take (String.length s - String.length (after y)) s)
                            (after y) (caps y)))
              (Hit (JSMatch b' (Str.take (String.length s - String.length (after y)) s)
                            (after y) (caps y)))) by (repeat split).
    destruct (Str.take _ s).
    + destruct s as [|c rest];
        [constructor; [exact Hhit | constructor]
        |constructor; [exact Hhit | constructor; [reflexivity | apply IH]]].
    + constructor; [exact Hhit|]. rewrite Ea. apply IH.
  - destruct s as [|c rest]; constructor; [reflexivity | apply IH].
Qed.

End Context.

(** ** Scans *)

Section Scans.

Variables (ic : bool) (r : regex).

Lemma render_app (n : nat) (tmpl : string) (l1 l2 : list piece) :
  render n tmpl (l1 ++ l2) = (render n tmpl l1 ++ render n tmpl l2)%string.
Proof.
  induction l1 as [|[c|m] l1 IH]; cbn [app render append]; [reflexivity|..];
    rewrite IH; [reflexivity | now rewrite str_app_assoc].
Qed.

Lemma render_lits (n : nat) (tmpl s : string) : render n tmpl (lits s) = s.
Proof. induction s as [|c s IH]; cbn [lits render]; [reflexivity | now rewrite IH]. Qed.

Lemma hits_app (l1 l2 : list piece) : hits (l1 ++ l2) = hits l1 ++ hits l2.
Proof.
  induction l1 as [|[c|m] l1 IH]; cbn [app hits]; [reflexivity | exact IH|].
  now rewrite IH.
Qed.

Lemma hits_lits (s : string) : hits (lits s) = [].
Proof. induction s as [|c s IH]; cbn [lits hits]; trivial. Qed.

(** More fuel than the text is long is fuel enough. *)
Lemma scan_fuel (f1 : nat) :
  forall f2 bef aft,
    String.length aft < f1 -> String.length aft < f2 ->
    scan f1 ic r bef aft = scan f2 ic r bef aft.
Proof.
  induction f1 as [|f1 IH]; intros [|f2] bef aft H1 H2; try lia.
  cbn [scan]. destruct (matchHere ic r bef aft) as [y|].
  - destruct (Str.take (String.length aft - String.length (after y)) aft) eqn:Et.
    + destruct aft as [|c rest]; [reflexivity|]. cbn [String.length] in *.
      do 2 f_equal. apply IH; lia.
    + assert (String.length aft - String.length (after y) <> 0)
        by (intros E; rewrite E in Et; destruct aft; discriminate).
      f_equal. apply IH; lia.
  - destruct aft as [|c rest]; [reflexivity|]. cbn [String.length] in *.
    f_equal. apply IH; lia.
Qed.

(** No match starts in [pre]: the scan passes over it. *)
Lemma scan_skip (rest : string) :
  forall pre fuel bef,
    (forall bef' p1 c p2,
       pre = (p1 ++ String c p2)%string ->
       matchHere ic r bef' (String c p2 ++ rest)%string = None) ->
    String.length (pre ++ rest)%string < fuel ->
    scan fuel ic r bef (pre ++ rest)%string =
    lits pre ++ scan (fuel - String.length pre) ic r (Str.rev_app pre bef) rest.
Proof.
  induction pre as [|c pre IH]; intros fuel bef Hno Hfuel.
  - cbn [append lits app String.length Str.rev_app]. now rewrite Nat.sub_0_r.
  - destruct fuel as [|fuel]; [lia|]. cbn [append String.length] in *.
    cbn [scan]. rewrite (Hno bef "" c pre eq_refl).
    cbn [lits app Str.rev_app Nat.sub]. f_equal. apply IH; [|lia].
    intros bef' p1 c' p2 E. apply (Hno bef' (String c p1) c' p2). now rewrite E.
Qed.

(** A match of the non-empty text [w]: the scan reports it and goes on
    after it. *)
Lemma scan_hit (w rest bef : string) (y : mstate) (fuel : nat) :
  matchHere ic r bef (w ++ rest)%string = Some y -> after y = rest -> w <> "" ->
  scan (S fuel) ic r bef (w ++ rest)%string =
  Hit (JSMatch bef w rest (caps y)) :: scan fuel ic r (before y) rest.
Proof.
  intros Hm Ha Hw. cbn [scan]. rewrite Hm, Ha, take_app_exact.
  destruct w; [congruence | reflexivity].
Qed.

End Scans.

(** * Replacing calls of a function *)

Section Replacing.

Variables (ic : bool) (r : regex) (n : nat) (tmpl : string).

Hypothesis r_contextFree : contextFree r = true.
Hypothesis tmpl_forgets : forgetsBefore n tmpl.

Lemma render_samePiece (l l' : list piece) :
  Forall2 samePiece l l' -> render n tmpl l = render n tmpl l'.
Proof.
  induction 1 as [|p p' l l' Hp _ IH]; [reflexivity|].
  destruct p as [c|m], p' as [c'|m']; cbn [samePiece] in Hp; try contradiction.
  - subst c'. cbn [render]. now rewrite IH.
  - cbn [render]. now rewrite IH, (tmpl_forgets m m' Hp).
Qed.

(** Replacing from some index on is replacing in the rest of the text. *)
Lemma render_scan_rest (fuel : nat) (bef s : string) :
  String.length s < fuel ->
  render n tmpl (scan fuel ic r bef s) = replaceAll ic r n tmpl s.
Proof.
  intros Hf. unfold replaceAll, scanAll.
  rewrite (scan_fuel ic r fuel (S (String.length s)) bef s Hf) by lia.
  apply render_samePiece, scan_sameAhead, r_contextFree.
Qed.

(** The first match: the text before it stays, the match is replaced, and
    the rest is replaced in its turn. *)
Lemma replaceAll_first (pre w post : string) (cs : list (nat * string)) :
  (forall bef p1 c p2,
     pre = (p1 ++ String c p2)%string ->
     matchHere ic r bef (String c p2 ++ w ++ post)%string = None) ->
  w <> "" ->
  (forall bef, exists y,
     matchHere ic r bef (w ++ post)%string = Some y /\ after y = post /\ caps y = cs) ->
  replaceAll ic r n tmpl (pre ++ w ++ post)%string =
  (pre ++ getSubstitution n (JSMatch "" w post cs) tmpl
       ++ replaceAll ic r n tmpl post)%string.
Proof.
  intros Hpre Hw Hm. unfold replaceAll at 1. unfold scanAll.
  rewrite scan_skip by (trivial; lia).
  rewrite render_app, render_lits. f_equal.
  rewrite str_length_app.
  replace (S (String.length pre + String.length (w ++ post)) - String.length pre)
    with (S (String.length (w ++ post))) by lia.
  destruct (Hm (Str.rev_app pre "")) as (y & Hy & Ha & Hc).
  rewrite (scan_hit ic r w post _ y _ Hy Ha Hw). cbn [render]. rewrite Hc.
  rewrite (tmpl_forgets _ (JSMatch "" w post cs)) by (repeat split).
  f_equal. apply render_scan_rest.
  rewrite str_length_app. destruct w; [congruence | cbn [String.length]; lia].
Qed.

End Replacing.

(** ** Literals *)

Lemma rmatch_RLit_inv (ic : bool) (p : string) :
  forall k x z,
    rmatch ic (RLit p) k x = Some z ->
    exists w rest, after x = (w ++ rest)%string /\ sameText ic p w = true.
Proof.
  induction p as [|c p IH]; intros k x z H.
  - exists "", (after x). now split.
  - cbn [RLit] in H. rewrite rmatch_RSeq in H.
    apply rmatch_RChar_inv in H as (a & rest & Ea & Hc & H).
    apply IH in H as (w & rest' & Ew & Hw). cbn [advance after] in Ew.
    exists (String a w), rest'. rewrite Ea, Ew. split; [reflexivity|].
    cbn [sameText]. now rewrite Hc, Hw.
Qed.

Lemma sameText_app (ic : bool) (p q w v : string) :
  sameText ic p w = true -> sameText ic q v = true ->
  sameText ic (p ++ q) (w ++ v) = true.
Proof.
  revert w. induction p as [|c p IH]; intros [|a w] Hp Hq; cbn [sameText append] in *;
    try discriminate; [exact Hq|].
  apply andb_true_iff in Hp as [Hc Hp]. now rewrite Hc, IH.
Qed.

Lemma sameText_refl (ic : bool) (p : string) : sameText ic p p = true.
Proof.
  induction p as [|c p IH]; cbn [sameText]; [reflexivity|].
  unfold charEq. now rewrite Ascii.eqb_refl, IH.
Qed.

Lemma rev_app_app (u v b : string) :
  Str.rev_app (u ++ v) b = Str.rev_app v (Str.rev_app u b).
Proof.
  revert b. induction u as [|c u IH]; intros b; cbn [append Str.rev_app];
    [reflexivity | apply IH].
Qed.

Lemma sameText_length (ic : bool) (p w : string) :
  sameText ic p w = true -> String.length w = String.length p.
Proof.
  revert w. induction p as [|c p IH]; intros [|a w] H; cbn [sameText] in H;
    try discriminate; [reflexivity|].
  apply andb_true_iff in H as [_ H]. cbn [String.length]. now rewrite (IH w H).
Qed.

(** The character at an index, and what a literal pins down there. *)
Lemma sameText_get (ic : bool) (p w : string) (i : nat) (c : ascii) :
  sameText ic p w = true -> String.get i p = Some c ->
  exists a, String.get i w = Some a /\ charEq ic a c = true.
Proof.
  revert w i. induction p as [|c0 p IH]; intros [|a w] i H Hg; cbn [sameText] in H;
    try discriminate.
  apply andb_true_iff in H as [Hc H].
  destruct i as [|i]; cbn [String.get] in *.
  - injection Hg as <-. now exists a.
  - now apply (IH w i).
Qed.

Lemma get_app_l (s t : string) (i : nat) :
  i < String.length s -> String.get i (s ++ t)%string = String.get i s.
Proof.
  revert i. induction s as [|c s IH]; intros i Hi; cbn [String.length] in Hi; [lia|].
  destruct i as [|i]; cbn [append String.get]; [reflexivity|]. apply IH. lia.
Qed.

Lemma get_app_r (s t : string) (i : nat) :
  String.length s <= i ->
  String.get i (s ++ t)%string = String.get (i - String.length s) t.
Proof.
  revert i. induction s as [|c s IH]; intros i Hi; cbn [String.length append] in *.
  - now rewrite Nat.sub_0_r.
  - destruct i as [|i]; [lia|]. cbn [String.get Nat.sub]. apply IH. lia.
Qed.

Lemma count_get (c : ascii) (s : string) (i : nat) :
  Str.count c s = 0 -> String.get i s <> Some c.
Proof.
  revert i. induction s as [|a s IH]; intros i H; [destruct i; discriminate|].
  cbn [Str.count] in H. destruct (Ascii.eqb_spec a c) as [->|Hne]; [lia|].
  destruct i as [|i]; cbn [String.get]; [congruence|]. apply IH. lia.
Qed.

Lemma charEq_sym (ic : bool) (a c : ascii) : charEq ic a c = charEq ic c a.
Proof. unfold charEq. apply Ascii.eqb_sym. Qed.

Lemma sameText_count (ic : bool) (c : ascii) (p w : string) :
  Str.isLower c = false -> Str.isUpper c = false ->
  sameText ic p w = true -> Str.count c p = 0 -> Str.count c w = 0.
Proof.
  intros Hl Hu. revert w. induction p as [|c0 p IH]; intros [|a w] H Hp;
    cbn [sameText] in H; try discriminate; [reflexivity|].
  apply andb_true_iff in H as [Hc H]. cbn [Str.count] in *.
  rewrite (IH w H) by lia.
  destruct (Ascii.eqb_spec a c) as [->|]; [|reflexivity].
  rewrite charEq_sym in Hc. apply charEq_caseless in Hc; trivial. subst c0.
  rewrite Ascii.eqb_refl in Hp. lia.
Qed.

(** ** Calls of a function *)

(** A pattern that starts with [NAME(] matches nowhere in a text without
    opening parenthesis, nor where one only comes later than after a
    name. *)
Lemma call_not_before (ic : bool) (NAME : string) (r : regex) (bef q t : string) :
  Str.count "(" q = 0 -> String.length NAME < String.length q ->
  matchHere ic (RSeq (RLit (NAME ++ "(")) r) bef (q ++ t)%string = None.
Proof.
  intros Hq Hlen. unfold matchHere. rewrite rmatch_RSeq.
  destruct (rmatch ic (RLit (NAME ++ "(")) _ _) as [z|] eqn:E; [|reflexivity].
  exfalso. apply rmatch_RLit_inv in E as (w & rest & Ew & Hw). cbn [after] in Ew.
  destruct (sameText_get ic _ w (String.length NAME) "(" Hw) as (a & Ha & Hc).
  { rewrite get_app_r by lia. now rewrite Nat.sub_diag. }
  apply charEq_caseless in Hc; [|reflexivity..]. subst a.
  apply sameText_length in Hw. rewrite str_length_app in Hw. cbn [String.length] in Hw.
  assert (Hg : String.get (String.length NAME) (q ++ t) = Some "("%char).
  { rewrite Ew, get_app_l by lia. exact Ha. }
  rewrite get_app_l in Hg by exact Hlen.
  now apply (count_get "(" q) in Hg.
Qed.

Lemma class_noParen (ic : bool) (c : ascii) :
  xorb true (classHas ic [("(", "("); (")", ")")]%char c) = noParen c.
Proof. destruct ic; destruct c as [[] [] [] [] [] [] [] []]; reflexivity. Qed.

Lemma allChars_ext (p q : ascii -> bool) (s : string) :
  (forall c, p c = q c) -> Num.allChars p s = Num.allChars q s.
Proof.
  intros E. induction s as [|c s IH]; cbn [Num.allChars]; [reflexivity|].
  now rewrite E, IH.
Qed.

(** A call with one argument without parentheses. *)
Lemma matchHere_call1 (ic : bool) (NAME fn x post bef : string) :
  sameText ic NAME fn = true -> x <> "" -> Num.allChars noParen x = true ->
  matchHere ic
    (RSeqs [RLit (NAME ++ "(");
            RGroup 1 (RPlus (RClass true [("(", "("); (")", ")")]%char));
            RChar ")"])
    bef (fn ++ "(" ++ x ++ ")" ++ post)%string
  = Some (MState (Str.rev_app (fn ++ "(" ++ x ++ ")") bef) post [(1, x)]).
Proof.
  intros Hfn Hx Hall. unfold matchHere. cbn [RSeqs]. rewrite rmatch_RSeq.
  replace (fn ++ "(" ++ x ++ ")" ++ post)%string
    with ((fn ++ "(") ++ (x ++ ")" ++ post))%string by (now rewrite str_app_assoc).
  rewrite rmatch_RLit_text by (apply sameText_app; [exact Hfn | apply sameText_refl]).
  unfold stateAfter. rewrite rmatch_RSeq, rmatch_RGroup, rmatch_RPlus.
  cbn [after].
  erewrite (RepeatMatcher_class_run ic true _ _ (")" ++ post)%string []).
  - reflexivity.
  - cbn [append stopsAt]. rewrite class_noParen. reflexivity.
  - rewrite (allChars_ext _ noParen) by apply class_noParen. exact Hall.
  - destruct x; [congruence | cbn [String.length]; lia].
  - rewrite str_length_app. lia.
  - unfold stateAfter, setCap, consumed. cbn [after before caps].
    rewrite take_app_exact. cbn [append]. rewrite rmatch_RChar_here.
    f_equal. f_equal.
    replace (fn ++ String "(" (x ++ String ")" ""))%string
      with ((fn ++ "(") ++ x ++ ")")%string by (now rewrite str_app_assoc).
    now rewrite !rev_app_app.
Qed.

Lemma count_app_zero (c : ascii) (a b : string) :
  Str.count c (a ++ b)%string = 0 <-> Str.count c a = 0 /\ Str.count c b = 0.
Proof. rewrite count_app. lia. Qed.

(** A call is not found before its name: no match of [NAME(...] starts in
    a text without opening parenthesis that a name follows. *)
Lemma call_skipped (ic : bool) (NAME fn : string) (r : regex)
    (pre p1 p2 t bef : string) (c : ascii) :
  sameText ic NAME fn = true -> Str.count "(" NAME = 0 ->
  Str.count "(" pre = 0 -> pre = (p1 ++ String c p2)%string ->
  matchHere ic (RSeq (RLit (NAME ++ "(")) r) bef
    (String c p2 ++ (fn ++ "(" ++ t))%string = None.
Proof.
  intros Hfn Hname Hpre ->. apply count_app_zero in Hpre as [_ Hpre].
  replace (String c p2 ++ fn ++ "(" ++ t)%string
    with ((String c p2 ++ fn) ++ "(" ++ t)%string by (now rewrite str_app_assoc).
  apply call_not_before.
  - apply count_app_zero. split; [exact Hpre|].
    now apply (sameText_count ic "(" NAME fn).
  - rewrite str_length_app, (sameText_length ic NAME fn Hfn).
    cbn [String.length]. lia.
Qed.

Lemma getSubstitution_LN (m : jsmatch) :
  getSubstitution 1 m "(1 / log10(2.71828) * log10($1))" =
  ("(1 / log10(2.71828) * log10(" ++ group 1 m ++ "))")%string.
Proof. reflexivity. Qed.

Lemma forgetsBefore_group (n : nat) (tmpl : string) (f : string -> string) :
  (forall m, getSubstitution n m tmpl = f (group 1 m)) -> forgetsBefore n tmpl.
Proof.
  intros H m m' (_ & _ & Ec). rewrite !H. unfold group. now rewrite Ec.
Qed.

(** [replaceLN]: the first call of LN (in any case) whose argument has no
    parentheses becomes a quotient of decimal logarithms; the text before
    it, which has no opening parenthesis, stays, and the text after it is
    treated in the same way. *)
Theorem replaceLN_call (fn pre x post : string) :
  sameText true "LN" fn = true -> Str.count "(" pre = 0 ->
  x <> "" -> Num.allChars noParen x = true ->
  replaceLN (pre ++ fn ++ "(" ++ x ++ ")" ++ post)%string =
  (pre ++ "(1 / log10(2.71828) * log10(" ++ x ++ "))" ++ replaceLN post)%string.
Proof.
  intros Hfn Hpre Hx Hall. unfold replaceLN.
  replace (pre ++ fn ++ "(" ++ x ++ ")" ++ post)%string
    with (pre ++ (fn ++ "(" ++ x ++ ")") ++ post)%string
    by (now rewrite !str_app_assoc).
  rewrite (replaceAll_first true re_LN 1 _ eq_refl) with (cs := [(1, x)]).
  - rewrite getSubstitution_LN. unfold group. cbn [m_caps lookupCap Nat.eqb].
    now rewrite !str_app_assoc.
  - apply (forgetsBefore_group 1 _
             (fun g => "(1 / log10(2.71828) * log10(" ++ g ++ "))")%string).
    apply getSubstitution_LN.
  - intros bef p1 c p2 E. rewrite !str_app_assoc.
    now apply (call_skipped true "LN" fn _ pre p1 p2).
  - destruct fn; [discriminate Hfn | discriminate].
  - intros bef. eexists. split; [|split].
    + rewrite !str_app_assoc. apply (matchHere_call1 true "LN"); assumption.
    + reflexivity.
    + reflexivity.
Qed.

Lemma replaceLN_call_witness :
  replaceLN ("=2*" ++ "ln" ++ "(" ++ "A1+1" ++ ")" ++ "-LN(B2)")%string =
  ("=2*" ++ "(1 / log10(2.71828) * log10(" ++ "A1+1" ++ "))" ++ replaceLN "-LN(B2)")%string.
Proof.
  refine (replaceLN_call "ln" "=2*" "A1+1" "-LN(B2)" _ _ _ _).
  - reflexivity.
  - reflexivity.
  - discriminate.
  - reflexivity.
Defined.

Example replaceLN_ex :
  replaceLN "=2*ln(A1+1)-LN(B2)" =
  "=2*(1 / log10(2.71828) * log10(A1+1))-(1 / log10(2.71828) * log10(B2))".
Proof. vm_compute. reflexivity. Qed.

(** * Occurrences of a text and AVERAGE *)

(** ** One occurrence of a text *)

Lemma lit_needs_at (ic : bool) (p : string) (i : nat) (c : ascii) (bef text : string) :
  String.get i p = Some c -> Str.isLower c = false -> Str.isUpper c = false ->
  String.get i text <> Some c ->
  matchHere ic (RLit p) bef text = None.
Proof.
  intros Hp Hl Hu Ht. unfold matchHere.
  destruct (rmatch ic (RLit p) _ _) as [z|] eqn:E; [|reflexivity].
  exfalso. apply rmatch_RLit_inv in E as (w & rest & Ew & Hw). cbn [after] in Ew.
  destruct (sameText_get ic p w i c Hw Hp) as (a & Ha & Hc).
  apply charEq_caseless in Hc; trivial. subst a.
  apply Ht. rewrite Ew, get_app_l; [exact Ha|].
  apply sameText_length in Hw.
  assert (i < String.length p); [|lia].
  clear - Hp. revert i Hp. induction p as [|c0 p IH]; intros i Hp; [destruct i; discriminate|].
  destruct i as [|i]; cbn [String.get String.length] in *; [lia|].
  apply IH in Hp. lia.
Qed.

Lemma get_take (i j : nat) (s : string) :
  i < j -> String.get i (Str.take j s) = String.get i s.
Proof.
  revert i s. induction j as [|j IH]; intros i [|c s] Hi; try lia; try reflexivity.
  cbn [Str.take]. destruct i as [|i]; cbn [String.get]; [reflexivity|].
  apply IH. lia.
Qed.

(** Where the text [w] is not found: in front of an occurrence, in a text
    without the character that [w] has at index [i]. *)
Lemma lit_not_before (ic : bool) (w : string) (i : nat) (c : ascii)
    (q t bef : string) :
  String.get i w = Some c -> Str.isLower c = false -> Str.isUpper c = false ->
  Str.count c q = 0 -> Str.count c (Str.take i w) = 0 -> q <> "" ->
  matchHere ic (RLit w) bef (q ++ w ++ t)%string = None.
Proof.
  intros Hw Hl Hu Hq Hpre Hne. apply (lit_needs_at ic w i c); trivial.
  destruct (Nat.lt_ge_cases i (String.length q)) as [Hi|Hi].
  - rewrite get_app_l by exact Hi. now apply count_get.
  - rewrite get_app_r by exact Hi.
    assert (Hlt : i - String.length q < i)
      by (destruct q; [congruence | cbn [String.length] in *; lia]).
    destruct (Nat.lt_ge_cases (i - String.length q) (String.length w)) as [Hj|Hj].
    + rewrite get_app_l by exact Hj.
      rewrite <- (get_take _ i) by exact Hlt. now apply count_get.
    + rewrite get_app_r by exact Hj. intros E.
      assert (Hiw : i < String.length w).
      { clear - Hw. revert i Hw. induction w as [|c0 w IH]; intros i Hw;
          [destruct i; discriminate|].
        destruct i as [|i]; cbn [String.get String.length] in *; [lia|].
        apply IH in Hw. lia. }
      lia.
Qed.

Lemma lit_not_in (ic : bool) (w : string) (i : nat) (c : ascii) (s bef : string) :
  String.get i w = Some c -> Str.isLower c = false -> Str.isUpper c = false ->
  Str.count c s = 0 ->
  matchHere ic (RLit w) bef s = None.
Proof.
  intros Hw Hl Hu Hs. apply (lit_needs_at ic w i c); trivial. now apply count_get.
Qed.

Lemma count_suffix (c : ascii) (p1 s : string) :
  Str.count c (p1 ++ s)%string = 0 -> Str.count c s = 0.
Proof. intros H. now apply count_app_zero in H. Qed.

Lemma replaceAll_none (ic : bool) (r : regex) (c : ascii) (n : nat) (tmpl s : string) :
  (forall bef aft, Str.count c aft = 0 -> matchHere ic r bef aft = None) ->
  Str.count c s = 0 -> replaceAll ic r n tmpl s = s.
Proof.
  intros Hno Hs. apply replaceAll_no_match. unfold matchAll, scanAll.
  now apply (scan_no_match ic r (fun s => Str.count c s = 0)); [apply count_tail|..].
Qed.

Lemma forgetsBefore_plain (n : nat) (tmpl : string) :
  Num.allChars notDollar tmpl = true -> forgetsBefore n tmpl.
Proof. intros H m m' _. now rewrite !getSubstitution_plain. Qed.

(** Replacing the one occurrence of [w]. *)
Lemma replaceAllStr_once (pre w post tmpl : string) (i : nat) (c : ascii) :
  String.get i w = Some c -> Str.isLower c = false -> Str.isUpper c = false ->
  Str.count c pre = 0 -> Str.count c (Str.take i w) = 0 -> Str.count c post = 0 ->
  Num.allChars notDollar tmpl = true ->
  replaceAllStr (pre ++ w ++ post)%string w tmpl = (pre ++ tmpl ++ post)%string.
Proof.
  intros Hw Hl Hu Hpre Htake Hpost Ht. unfold replaceAllStr.
  assert (Hne : w <> "") by (destruct w; [destruct i; discriminate | discriminate]).
  rewrite (replaceAll_first false (RLit w) 0 tmpl) with (cs := []).
  - rewrite getSubstitution_plain by exact Ht.
    now rewrite (replaceAll_none false (RLit w) c)
      by (trivial; intros; now apply (lit_not_in false w i c)).
  - clear. induction w as [|a w IH]; [reflexivity | exact IH].
  - now apply forgetsBefore_plain.
  - intros bef p1 a p2 E. apply (lit_not_before false w i c); trivial; [|discriminate].
    rewrite E in Hpre. now apply count_suffix in Hpre.
  - exact Hne.
  - intros bef. eexists. split; [|split].
    + unfold matchHere. rewrite rmatch_RLit_text by apply sameText_refl. reflexivity.
    + reflexivity.
    + reflexivity.
Qed.

(** The matches of a pattern that matches once. *)
Lemma matchAll_once (ic : bool) (r : regex) (c : ascii) (pre w post : string)
    (cs : list (nat * string)) :
  (forall bef p1 a p2,
     pre = (p1 ++ String a p2)%string ->
     matchHere ic r bef (String a p2 ++ w ++ post)%string = None) ->
  w <> "" ->
  (forall bef, exists y,
     matchHere ic r bef (w ++ post)%string = Some y /\ after y = post /\ caps y = cs) ->
  (forall bef aft, Str.count c aft = 0 -> matchHere ic r bef aft = None) ->
  Str.count c post = 0 ->
  matchAll ic r (pre ++ w ++ post)%string = [JSMatch (Str.rev_app pre "") w post cs].
Proof.
  intros Hpre Hw Hm Hno Hpost. unfold matchAll, scanAll.
  rewrite scan_skip by (trivial; lia).
  rewrite hits_app, hits_lits. cbn [app].
  rewrite str_length_app.
  replace (S (String.length pre + String.length (w ++ post)) - String.length pre)
    with (S (String.length (w ++ post))) by lia.
  destruct (Hm (Str.rev_app pre "")) as (y & Hy & Ha & Hc).
  rewrite (scan_hit ic r w post _ y _ Hy Ha Hw). cbn [hits]. rewrite Hc. f_equal.
  now apply (scan_no_match ic r (fun s => Str.count c s = 0)); [apply count_tail|..].
Qed.

(** ** Joining and splitting *)

Lemma split_join (sep : ascii) (xs : list string) :
  xs <> [] -> Forall (fun x => Num.allChars (isNot sep) x = true) xs ->
  Str.split sep (Str.join (Str.ch sep) xs) = xs.
Proof.
  intros Hne H. induction H as [|x xs Hx Hxs IH]; [congruence|]. clear Hne.
  destruct xs as [|y xs].
  - cbn [Str.join]. unfold Str.split.
    rewrite <- (str_app_empty_r x) at 1. rewrite (splitOn_nosep sep x Hx).
    cbn [Str.splitOn]. now rewrite rev_rev_app.
  - change (Str.join (Str.ch sep) (x :: y :: xs))
      with (x ++ Str.ch sep ++ Str.join (Str.ch sep) (y :: xs))%string.
    unfold Str.split. rewrite (splitOn_nosep sep x Hx).
    unfold Str.ch. cbn [append Str.splitOn]. rewrite Ascii.eqb_refl, rev_rev_app.
    f_equal. apply IH. discriminate.
Qed.

Lemma includes_char (c : ascii) (s : string) :
  Str.count c s = 0 -> Str.includes s (Str.ch c) = false.
Proof.
  induction s as [|a s IH]; intros H; [reflexivity|].
  cbn [Str.count] in H. cbn [Str.includes Str.startsWith Str.ch].
  destruct (Ascii.eqb_spec a c) as [->|Hne]; [lia|].
  rewrite IH by lia. reflexivity.
Qed.

Lemma allChars_count (p : ascii -> bool) (c : ascii) (s : string) :
  p c = false -> Num.allChars p s = true -> Str.count c s = 0.
Proof.
  intros Hc. induction s as [|a s IH]; cbn [Num.allChars Str.count]; [reflexivity|].
  intros H. apply andb_true_iff in H as [Ha Hs]. rewrite (IH Hs).
  destruct (Ascii.eqb_spec a c) as [->|]; [congruence | reflexivity].
Qed.

Lemma allChars_join (p : ascii -> bool) (sep : string) (xs : list string) :
  Num.allChars p sep = true -> Forall (fun x => Num.allChars p x = true) xs ->
  Num.allChars p (Str.join sep xs) = true.
Proof.
  intros Hsep H. induction H as [|x xs Hx Hxs IH]; [reflexivity|].
  destruct xs as [|y xs]; [exact Hx|].
  change (Str.join sep (x :: y :: xs)) with (x ++ sep ++ Str.join sep (y :: xs))%string.
  now rewrite !allChars_app, Hx, Hsep, IH.
Qed.

(** ** AVERAGE *)

Lemma call_needs_paren (ic : bool) (p : string) (r : regex) (bef aft : string) :
  Str.count "(" p <> 0 -> Str.count "(" aft = 0 ->
  matchHere ic (RSeq (RLit p) r) bef aft = None.
Proof.
  intros Hp Ha. unfold matchHere. rewrite rmatch_RSeq.
  destruct (rmatch ic (RLit p) _ _) as [z|] eqn:E; [|reflexivity].
  apply (rmatch_RLit_needs ic "(" p eq_refl eq_refl Hp) in E. cbn [after] in E.
  contradiction.
Qed.

Lemma sameText_get_fn (ic : bool) (NAME fn t : string) :
  sameText ic NAME fn = true ->
  String.get (String.length NAME) (fn ++ "(" ++ t)%string = Some "("%char.
Proof.
  intros H. rewrite get_app_r by (rewrite (sameText_length ic NAME fn H); lia).
  now rewrite (sameText_length ic NAME fn H), Nat.sub_diag.
Qed.

Lemma take_fn (ic : bool) (NAME fn t : string) :
  sameText ic NAME fn = true ->
  Str.take (String.length NAME) (fn ++ t)%string = fn.
Proof.
  intros H. rewrite <- (sameText_length ic NAME fn H). apply take_app_length.
Qed.

(** One call of AVERAGE in a formula without other parentheses: the call
    is replaced by the sum of the arguments over their number. *)
Lemma inlineAverage_call (fn pre inner post : string) (args : list string) :
  sameText true "AVERAGE" fn = true ->
  Str.count "(" pre = 0 -> Str.count "(" post = 0 ->
  inner <> "" -> Num.allChars noParen inner = true ->
  averageArgs inner = Returns args ->
  Num.allChars notDollar (Str.join "+" args) = true ->
  inlineAverage (pre ++ fn ++ "(" ++ inner ++ ")" ++ post)%string =
  Returns (pre ++ ("((" ++ Str.join "+" args ++ ")/"
                     ++ Num.intToString (Z.of_nat (List.length args)) ++ ")")
               ++ post)%string.
Proof.
  intros Hfn Hpre Hpost Hne Hall Hargs Hd. unfold inlineAverage.
  replace (pre ++ fn ++ "(" ++ inner ++ ")" ++ post)%string
    with (pre ++ (fn ++ "(" ++ inner ++ ")") ++ post)%string
    by (now rewrite !str_app_assoc).
  rewrite (matchAll_once true re_AVERAGE "(" pre _ post [(1, inner)]).
  - cbn [inlineAverage_loop m_text]. unfold group. cbn [m_caps lookupCap Nat.eqb].
    rewrite Hargs. cbn [bind]. f_equal.
    apply (replaceAllStr_once pre _ post _ (String.length "AVERAGE") "(");
      trivial.
    + now apply (sameText_get_fn true "AVERAGE").
    + rewrite (take_fn true "AVERAGE" fn _ Hfn).
      now apply (sameText_count true "(" "AVERAGE" fn).
    + cbn [append Num.allChars notDollar Ascii.eqb Bool.eqb negb andb].
      rewrite !allChars_app, Hd. cbn [Num.allChars notDollar andb].
      rewrite allChars_app. cbn [Num.allChars].
      rewrite andb_true_r.
      eapply allChars_weaken; [apply numberChar_notDollar|].
      unfold Num.intToString.
      destruct (_ <? 0)%Z; [cbn [Num.allChars]|];
        (eapply allChars_weaken; [apply digit_numberChar | apply digitsOfZ_digits]).
  - intros bef p1 c p2 E. rewrite !str_app_assoc.
    now apply (call_skipped true "AVERAGE" fn _ pre p1 p2).
  - destruct fn; [discriminate Hfn | discriminate].
  - intros bef. eexists. split; [|split].
    + rewrite !str_app_assoc. apply (matchHere_call1 true "AVERAGE"); assumption.
    + reflexivity.
    + reflexivity.
  - intros bef aft Ha. now apply call_needs_paren.
  - exact Hpost.
Qed.

Lemma plainArg_chars (x : string) (c : ascii) :
  existsb (Ascii.eqb c) [","; ":"; "("; ")"; "$"]%char = true ->
  plainArg x = true -> Str.count c x = 0.
Proof.
  intros Hc. unfold plainArg. apply allChars_count. now rewrite Hc.
Qed.

Lemma plainArg_weaken (p : ascii -> bool) (x : string) :
  (forall c, existsb (Ascii.eqb c) [","; ":"; "("; ")"; "$"]%char = false -> p c = true) ->
  plainArg x = true -> Num.allChars p x = true.
Proof.
  intros Hp. unfold plainArg. apply allChars_weaken.
  intros c Hc. apply Hp. now apply negb_true_iff in Hc.
Qed.

Lemma averageArgs_plain (xs : list string) :
  xs <> [] -> forallb plainArg xs = true ->
  averageArgs (Str.join "," xs) = Returns xs.
Proof.
  intros Hne Hxs. rewrite forallb_forall in Hxs. unfold averageArgs.
  change (Str.join "," xs) with (Str.join (Str.ch ","%char) xs).
  rewrite split_join; trivial.
  - clear Hne. induction xs as [|x xs IH]; [reflexivity|].
    cbn [flatMap]. change (Str.includes x ":") with (Str.includes x (Str.ch ":"%char)).
    rewrite includes_char
      by (apply plainArg_chars; [reflexivity | apply Hxs; now left]).
    cbn [bind]. rewrite IH by (intros y Hy; apply Hxs; now right).
    reflexivity.
  - apply Forall_forall. intros x Hx. apply plainArg_weaken; [|now apply Hxs].
    intros c Hc. unfold isNot. cbn [existsb] in Hc.
    now apply orb_false_iff in Hc as [-> _].
Qed.

(** [inlineAverage] on a list: one call of AVERAGE (in any case) whose
    arguments are plain texts, in a formula without other parentheses, is
    replaced by the sum of the arguments over their number. *)
Theorem inlineAverage_list (fn pre post : string) (xs : list string) :
  sameText true "AVERAGE" fn = true ->
  Str.count "(" pre = 0 -> Str.count "(" post = 0 ->
  forallb plainArg xs = true -> Str.join "," xs <> "" ->
  inlineAverage (pre ++ fn ++ "(" ++ Str.join "," xs ++ ")" ++ post)%string =
  Returns (pre ++ ("((" ++ Str.join "+" xs ++ ")/"
                     ++ Num.intToString (Z.of_nat (List.length xs)) ++ ")")
               ++ post)%string.
Proof.
  intros Hfn Hpre Hpost Hxs Hne.
  assert (Hnil : xs <> []) by (intros ->; now apply Hne).
  pose proof (averageArgs_plain xs Hnil Hxs) as Ha.
  rewrite forallb_forall in Hxs.
  apply inlineAverage_call; trivial.
  - apply allChars_join; [reflexivity|]. apply Forall_forall. intros x Hx.
    apply plainArg_weaken; [|now apply Hxs].
    intros c Hc. unfold noParen. cbn [existsb] in Hc.
    repeat (apply orb_false_iff in Hc as [? Hc]).
    now replace (Ascii.eqb c "(") with false; replace (Ascii.eqb c ")") with false.
  - apply allChars_join; [reflexivity|]. apply Forall_forall. intros x Hx.
    apply plainArg_weaken; [|now apply Hxs].
    intros c Hc. unfold notDollar. cbn [existsb] in Hc.
    repeat (apply orb_false_iff in Hc as [? Hc]).
    now replace (Ascii.eqb c "$") with false.
Qed.

Lemma inlineAverage_list_witness :
  inlineAverage ("=2*" ++ "Average" ++ "(" ++ Str.join "," ["A1"; "7"; "B2"] ++ ")" ++ "+1")%string =
  Returns ("=2*" ++ ("((" ++ Str.join "+" ["A1"; "7"; "B2"] ++ ")/"
                       ++ Num.intToString (Z.of_nat (List.length ["A1"; "7"; "B2"])) ++ ")")
                 ++ "+1")%string.
Proof.
  refine (inlineAverage_list "Average" "=2*" "+1" ["A1"; "7"; "B2"] _ _ _ _ _).
  - reflexivity.
  - reflexivity.
  - reflexivity.
  - reflexivity.
  - discriminate.
Defined.

Example inlineAverage_ex :
  inlineAverage "=2*Average(A1,7,B2)+1" = Returns "=2*((A1+7+B2)/3)+1".
Proof. vm_compute. reflexivity. Qed.











Example inlineAverage_range_ex :
  inlineAverage "=AVERAGE(B2:B4)*2" = Returns "=((B2+B3+B4)/3)*2" /\
  inlineAverage "=AVERAGE(B4:B2)" = Returns "=(()/0)".
Proof. split; vm_compute; reflexivity. Qed.

(** * Percentages in a formula *)

(** ** Percentage literals *)

Lemma class_percentChar (c : ascii) :
  xorb false (classHas false [("0", "9"); (".", ".")]%char c) = percentChar c.
Proof. destruct c as [[] [] [] [] [] [] [] []]; reflexivity. Qed.

(** Two texts cut at their first separator. *)
Lemma first_sep (c : ascii) (u : string) :
  forall v r t,
    Str.count c u = 0 -> Str.count c v = 0 ->
    (u ++ String c r)%string = (v ++ String c t)%string -> u = v /\ r = t.
Proof.
  induction u as [|a u IH]; intros [|b v] r t Hu Hv E; cbn [append Str.count] in *.
  - injection E as ->. now split.
  - injection E as <- _. rewrite Ascii.eqb_refl in Hv. lia.
  - injection E as -> _. rewrite Ascii.eqb_refl in Hu. lia.
  - injection E as -> E.
    destruct (Ascii.eqb b c); [lia|].
    destruct (IH v r t Hu Hv E) as [-> ->]. now split.
Qed.

Lemma stopsAt_rev (p : ascii -> bool) (s : string) :
  forall acc, Num.allChars p s = true -> s <> "" ->
              stopsAt p (Str.rev_app s acc) = false.
Proof.
  induction s as [|c s IH]; intros acc H Hne; [congruence|].
  cbn [Num.allChars] in H. apply andb_true_iff in H as [Hc Hs].
  cbn [Str.rev_app]. destruct s as [|d s].
  - cbn [Str.rev_app stopsAt]. now rewrite Hc.
  - apply IH; [exact Hs | discriminate].
Qed.

Lemma percentChar_percent (s : string) :
  Num.allChars percentChar s = true -> Str.count "%" s = 0.
Proof. now apply allChars_count. Qed.

(** No literal starts in a text that does not end with a digit or a dot. *)
Lemma percentage_not_before (pre p1 p2 d post bef : string) (a : ascii) :
  stopsAt percentChar (Str.rev pre) = true -> Str.count "%" pre = 0 ->
  Num.allChars percentChar d = true -> pre = (p1 ++ String a p2)%string ->
  matchHere false re_percentage bef (String a p2 ++ (d ++ "%") ++ post)%string = None.
Proof.
  intros Hend Hpre Hd E.
  destruct (matchHere false re_percentage bef _) as [z|] eqn:Hz; [exfalso|reflexivity].
  unfold matchHere, re_percentage in Hz.
  rewrite rmatch_RSeq, rmatch_RGroup, rmatch_RPlus in Hz.
  apply RepeatMatcher_class_inv in Hz as (w & rest & Ew & Hw & _ & Hk).
  apply rmatch_RChar_inv in Hk as (a' & rest' & Ea & Hc & _).
  apply charEq_caseless in Hc; [|reflexivity..]. subst a'.
  cbn [after setCap] in Ew, Ea. subst rest.
  rewrite (allChars_ext _ percentChar) in Hw by apply class_percentChar.
  replace (String a p2 ++ (d ++ "%") ++ post)%string
    with ((String a p2 ++ d) ++ String "%" post)%string in Ew
    by (now rewrite !str_app_assoc).
  symmetry in Ew. apply first_sep in Ew as [-> _].
  - rewrite allChars_app in Hw. apply andb_true_iff in Hw as [Hw _].
    rewrite E in Hend. unfold Str.rev in Hend. rewrite rev_app_app in Hend.
    rewrite stopsAt_rev in Hend; [discriminate | exact Hw | discriminate].
  - now apply percentChar_percent.
  - apply count_app_zero. split; [|now apply percentChar_percent].
    rewrite E in Hpre. now apply count_suffix in Hpre.
Qed.

Lemma matchHere_percentage_literal (d post bef : string) :
  d <> "" -> Num.allChars percentChar d = true ->
  matchHere false re_percentage bef ((d ++ "%") ++ post)%string =
  Some (MState (Str.rev_app (d ++ "%") bef) post [(1, d)]).
Proof.
  intros Hne Hd. unfold matchHere, re_percentage.
  rewrite rmatch_RSeq, rmatch_RGroup, rmatch_RPlus. cbn [after].
  replace ((d ++ "%") ++ post)%string with (d ++ "%" ++ post)%string
    by (now rewrite str_app_assoc).
  erewrite (RepeatMatcher_class_run false false _ _ ("%" ++ post)%string []).
  - reflexivity.
  - reflexivity.
  - rewrite (allChars_ext _ percentChar) by apply class_percentChar. exact Hd.
  - destruct d; [congruence | cbn [String.length]; lia].
  - rewrite str_length_app. lia.
  - unfold stateAfter, setCap, consumed. cbn [after before caps].
    rewrite take_app_exact. cbn [append]. rewrite rmatch_RChar_here.
    f_equal. f_equal. now rewrite rev_app_app.
Qed.

(** [evalPercentage] on one literal: a run of digits and dots followed by
    a percent sign, in a formula with no other percent sign and not
    preceded by a digit or a dot, is replaced by the text of the number
    that [parseFloat] reads from the run, divided by 100. *)
Theorem evalPercentage_literal (pre d post : string) :
  d <> "" -> Num.allChars percentChar d = true ->
  stopsAt percentChar (Str.rev pre) = true ->
  Str.count "%" pre = 0 -> Str.count "%" post = 0 ->
  evalPercentage (pre ++ d ++ "%" ++ post)%string =
  (pre ++ Num.toString (Num.div100 (Num.parseFloat d)) ++ post)%string.
Proof.
  intros Hne Hd Hend Hpre Hpost.
  replace (pre ++ d ++ "%" ++ post)%string with (pre ++ (d ++ "%") ++ post)%string
    by (now rewrite !str_app_assoc).
  unfold evalPercentage.
  rewrite (matchAll_once false re_percentage "%" pre (d ++ "%") post [(1, d)]).
  - cbn [fold_left m_text]. change (group 1 _) with d.
    apply (replaceAllStr_once pre (d ++ "%") post _ (String.length d) "%");
      trivial.
    + rewrite get_app_r by lia. now rewrite Nat.sub_diag.
    + rewrite take_app_length. now apply percentChar_percent.
    + eapply allChars_weaken; [apply numberChar_notDollar | apply toString_chars].
  - intros bef p1 a p2 E. now apply (percentage_not_before pre p1).
  - destruct d; [congruence | discriminate].
  - intros bef. eexists. split; [now apply matchHere_percentage_literal|].
    now split.
  - intros bef aft Ha.
    destruct (matchHere false re_percentage bef aft) eqn:E; [|reflexivity].
    apply matchHere_percentage in E. contradiction.
  - exact Hpost.
Qed.

Lemma evalPercentage_literal_witness :
  evalPercentage ("=A1*" ++ "7.5" ++ "%" ++ "+1")%string =
  ("=A1*" ++ Num.toString (Num.div100 (Num.parseFloat "7.5")) ++ "+1")%string.
Proof.
  refine (evalPercentage_literal "=A1*" "7.5" "+1" _ _ _ _ _);
    (discriminate || reflexivity).
Defined.

Example evalPercentage_ex :
  evalPercentage "=A1*7.5%+1" = "=A1*0.075+1" /\ evalPercentage "=A1*.%" = "=A1*NaN".
Proof. split; vm_compute; reflexivity. Qed.

(** * Ranges of a SUMPRODUCT *)

(** ** Addresses in a pattern *)

Lemma class_digit (ic : bool) (c : ascii) :
  xorb false (classHas ic [("0", "9")]%char c) = Str.isDigit c.
Proof. destruct ic; destruct c as [[] [] [] [] [] [] [] []]; reflexivity. Qed.

Lemma class_upper (ic : bool) (c : ascii) :
  Str.isUpper c = true -> xorb false (classHas ic [("A", "Z")]%char c) = true.
Proof.
  intros H. unfold classHas, inRanges. cbn [existsb fst snd xorb].
  unfold Str.isUpper in H. now rewrite H.
Qed.

Lemma stopsAt_ext (p q : ascii -> bool) (s : string) :
  (forall c, p c = q c) -> stopsAt p s = stopsAt q s.
Proof. intros E. destruct s; cbn [stopsAt]; [reflexivity | now rewrite E]. Qed.

(** A capital letter and the digits after it are taken as a whole. *)
Lemma rmatch_address (ic : bool) (k : mstate -> option mstate) (L : ascii)
    (ds rest b : string) (cs : list (nat * string)) (z : mstate) :
  Str.isUpper L = true -> ds <> "" -> Num.allChars Str.isDigit ds = true ->
  stopsAt Str.isDigit rest = true ->
  k (MState (Str.rev_app (String L ds) b) rest cs) = Some z ->
  rmatch ic cls_AZ (fun y => rmatch ic (RPlus cls_09) k y)
    (MState b (String L ds ++ rest)%string cs) = Some z.
Proof.
  intros HL Hne Hds Hrest Hk. unfold cls_AZ, cls_09. cbn [append].
  rewrite rmatch_RClass_here, class_upper by exact HL.
  rewrite rmatch_RPlus. cbn [after].
  apply RepeatMatcher_class_run.
  - now rewrite (stopsAt_ext _ Str.isDigit) by apply class_digit.
  - now rewrite (allChars_ext _ Str.isDigit) by apply class_digit.
  - destruct ds; [congruence | cbn [String.length]; lia].
  - rewrite str_length_app. lia.
  - exact Hk.
Qed.

Lemma rmatch_address_group (ic : bool) (n : nat) (k : mstate -> option mstate)
    (L : ascii) (ds rest b : string) (cs : list (nat * string)) (z : mstate) :
  Str.isUpper L = true -> ds <> "" -> Num.allChars Str.isDigit ds = true ->
  stopsAt Str.isDigit rest = true ->
  k (MState (Str.rev_app (String L ds) b) rest ((n, String L ds) :: cs)) = Some z ->
  rmatch ic (RGroup n re_address) k (MState b (String L ds ++ rest)%string cs) = Some z.
Proof.
  intros HL Hne Hds Hrest Hk. rewrite rmatch_RGroup. unfold re_address.
  rewrite rmatch_RSeq. apply rmatch_address; trivial.
  unfold setCap, consumed. cbn [after before caps].
  now rewrite take_app_exact.
Qed.

Lemma cellRef_digits (L : ascii) (n : Z) :
  cellRef L n = String L (Num.digitsOfZ n) /\ Num.digitsOfZ n <> "" /\
  Num.allChars Str.isDigit (Num.digitsOfZ n) = true.
Proof.
  split; [reflexivity|]. split; [apply digitsOfZ_nonempty | apply digitsOfZ_digits].
Qed.

(** ** SUMPRODUCT *)





Example inlineSUMPRODUCT_ex :
  inlineSUMPRODUCT "=SumProduct(A1:A3,B1:B3)/2" = Returns "=(+A1*B1+A2*B2+A3*B3)/2" /\
  inlineSUMPRODUCT "=SUMPRODUCT(A1:A3,B1:B2)" = Returns "=SUMPRODUCT(A1:A3,B1:B2)".
Proof. split; vm_compute; reflexivity. Qed.

(** * Present values *)

(** ** Groups over a class *)

Section GroupRuns.

Variables (ic neg : bool) (rs : list (ascii * ascii)) (p : ascii -> bool).
Hypothesis class_p : forall c, xorb neg (classHas ic rs c) = p c.

Lemma rmatch_group_run (n : nat) (k : mstate -> option mstate)
    (w rest b : string) (cs : list (nat * string)) (z : mstate) :
  w <> "" -> Num.allChars p w = true -> stopsAt p rest = true ->
  k (MState (Str.rev_app w b) rest ((n, w) :: cs)) = Some z ->
  rmatch ic (RGroup n (RPlus (RClass neg rs))) k (MState b (w ++ rest)%string cs)
  = Some z.
Proof.
  intros Hne Hw Hrest Hk. rewrite rmatch_RGroup, rmatch_RPlus. cbn [after].
  apply RepeatMatcher_class_run.
  - now rewrite (stopsAt_ext _ p) by apply class_p.
  - now rewrite (allChars_ext _ p) by apply class_p.
  - destruct w; [congruence | cbn [String.length]; lia].
  - rewrite str_length_app. lia.
  - unfold stateAfter, setCap, consumed. cbn [after before caps].
    now rewrite take_app_exact.
Qed.

(** The quantifier is greedy, and gives back what the rest of the pattern
    cannot do without. *)
Lemma rmatch_group_backs_off (n : nat) (k : mstate -> option mstate)
    (w1 w2 rest b : string) (cs : list (nat * string)) (z : mstate) :
  w1 <> "" -> Num.allChars p w1 = true -> Num.allChars p w2 = true ->
  stopsAt p rest = true ->
  (forall u v b' cs', w2 = (u ++ v)%string -> u <> "" ->
                      k (MState b' (v ++ rest)%string cs') = None) ->
  k (MState (Str.rev_app w1 b) (w2 ++ rest)%string ((n, w1) :: cs)) = Some z ->
  rmatch ic (RGroup n (RPlus (RClass neg rs))) k
    (MState b (w1 ++ w2 ++ rest)%string cs) = Some z.
Proof.
  intros Hne H1 H2 Hrest Hfail Hk. rewrite rmatch_RGroup, rmatch_RPlus. cbn [after].
  apply RepeatMatcher_class_backs_off.
  - now rewrite (stopsAt_ext _ p) by apply class_p.
  - now rewrite (allChars_ext _ p) by apply class_p.
  - now rewrite (allChars_ext _ p) by apply class_p.
  - destruct w1; [congruence | cbn [String.length]; lia].
  - rewrite !str_length_app. lia.
  - intros u v E Hu. unfold stateAfter, setCap. cbn [after before caps].
    now apply (Hfail u v).
  - unfold stateAfter, setCap, consumed. cbn [after before caps].
    replace (w1 ++ w2 ++ rest)%string with (w1 ++ (w2 ++ rest))%string by reflexivity.
    now rewrite take_app_exact.
Qed.

End GroupRuns.

Lemma spanOf_spec (p : ascii -> bool) (s : string) :
  s = (fst (spanOf p s) ++ snd (spanOf p s))%string /\
  Num.allChars p (fst (spanOf p s)) = true /\ stopsAt p (snd (spanOf p s)) = true.
Proof.
  induction s as [|c s (IH1 & IH2 & IH3)]; [now repeat split|].
  cbn [spanOf]. destruct (p c) eqn:E; cbn [fst snd append Num.allChars stopsAt].
  - rewrite E, IH2. repeat split; trivial. now rewrite <- IH1.
  - rewrite E. now repeat split.
Qed.

(** ** An optional part *)

Lemma rmatch_ROpt_skip (ic : bool) (r : regex) (k : mstate -> option mstate)
    (x : mstate) :
  (forall d, rmatch ic r d x = None) -> rmatch ic (ROpt r) k x = k x.
Proof.
  intros H. unfold ROpt. cbn [rmatch RepeatMatcher Nat.add Nat.eqb].
  now rewrite H.
Qed.

Lemma rmatch_ROpt_text (ic : bool) (p w : string) (k : mstate -> option mstate)
    (b rest : string) (cs : list (nat * string)) (z : mstate) :
  sameText ic p w = true -> w <> "" ->
  k (stateAfter w b rest cs) = Some z ->
  rmatch ic (ROpt (RLit p)) k (MState b (w ++ rest)%string cs) = Some z.
Proof.
  intros Hw Hne Hk. unfold ROpt. cbn [rmatch after Nat.add].
  destruct w as [|c w]; [congruence|].
  cbn [append String.length RepeatMatcher Nat.eqb andb].
  rewrite (rmatch_RLit_text ic p _ (String c w) b rest cs Hw).
  unfold stateAfter at 1. cbn [after].
  cbn [RepeatMatcher option_map Nat.pred].
  replace (String.length rest =? String.length (String c (w ++ rest)))%nat with false
    by (symmetry; apply Nat.eqb_neq; cbn [String.length]; rewrite str_length_app; lia).
  now rewrite Hk.
Qed.

(** ** PV *)

Lemma class_noComma (ic : bool) (c : ascii) :
  xorb true (classHas ic [(",", ",")]%char c) = noComma c.
Proof. destruct ic; destruct c as [[] [] [] [] [] [] [] []]; reflexivity. Qed.

Lemma rmatch_needs_char (ic : bool) (c : ascii) (r : regex)
    (k : mstate -> option mstate) (x : mstate) :
  Str.isLower c = false -> Str.isUpper c = false ->
  Str.count c (after x) = 0 -> rmatch ic (RSeq r (RChar c)) k x = None.
Proof.
  intros Hl Hu Hx. destruct (rmatch ic (RSeq r (RChar c)) k x) as [z|] eqn:E; [|reflexivity].
  exfalso. apply rmatch_RSeq_passes in E as (y & Hy & Hs).
  apply rmatch_RChar_inv in Hy as (a & rest & Ea & Hc & _).
  apply charEq_caseless in Hc; trivial. subst a.
  apply (isSuffix_count c) in Hs. rewrite Ea in Hs. cbn [Str.count] in Hs.
  rewrite Ascii.eqb_refl in Hs. lia.
Qed.

Lemma PV_needs_paren (bef aft : string) :
  Str.count ")" aft = 0 -> matchHere true re_PV bef aft = None.
Proof.
  intros Ha. unfold matchHere, re_PV. cbn [RSeqs].
  destruct (rmatch true _ _ _) as [z|] eqn:E; [|reflexivity]. exfalso.
  do 6 (apply rmatch_RSeq_passes in E as (? & E & ?)).
  rewrite rmatch_needs_char in E; [discriminate | reflexivity | reflexivity |].
  cbn [after] in *.
  assert (Hs : isSuffix (after x4) aft)
    by (repeat (eapply isSuffix_trans; [eassumption|]); apply isSuffix_refl).
  apply (isSuffix_count ")") in Hs. lia.
Qed.

(** The third argument and the end of the call. *)
Lemma rmatch_PV_end (c post : string) (flag : bool) :
  c <> "" -> Num.allChars noComma c = true -> Str.count ")" post = 0 ->
  exists f, forall b0 cs0,
    rmatch true (RGroup 3 (RPlus (RClass true [(",", ",")]%char)))
      (fun y => rmatch true (RSeq (ROpt (RLit ",,1")) (RChar ")"))
                  (fun y => Some y) y)
      (MState b0 (c ++ (if flag then ",,1" else "") ++ ")" ++ post)%string cs0)
    = Some (MState (f b0) post ((3, c) :: cs0)).
Proof.
  intros Hne Hc Hpost. destruct flag; eexists; intros b0 cs0.
  - apply (rmatch_group_run true true _ noComma (class_noComma true)); trivial.
    rewrite rmatch_RSeq.
    apply (rmatch_ROpt_text true ",,1" ",,1"); [reflexivity | discriminate|].
    unfold stateAfter. cbn [append]. rewrite rmatch_RChar_here.
    instantiate (1 := fun b0 => String ")" (Str.rev_app ",,1" (Str.rev_app c b0))).
    reflexivity.
  - pose proof (spanOf_spec noComma post) as H.
    destruct (spanOf noComma post) as [post1 post2]. cbn [fst snd] in H.
    destruct H as (E & H1 & H2).
    rewrite E at 1. rewrite E in Hpost.
    change (c ++ "" ++ ")" ++ post1 ++ post2)%string
      with (c ++ String ")" post1 ++ post2)%string.
    apply (rmatch_group_backs_off true true _ noComma (class_noComma true)); trivial.
    + intros u v b' cs' Euv Hu. apply rmatch_needs_char; try reflexivity.
      cbn [after]. destruct u as [|a u]; [congruence|].
      cbn [append] in Euv. injection Euv as _ Euv.
      rewrite Euv, str_app_assoc in Hpost. now apply count_suffix in Hpost.
    + rewrite rmatch_RSeq. rewrite rmatch_ROpt_skip by (intros d; reflexivity).
      cbn [append]. rewrite rmatch_RChar_here. rewrite <- E.
      instantiate (1 := fun b0 => String ")" (Str.rev_app c b0)).
      reflexivity.
Qed.

Lemma matchHere_PV (fn a b c post bef : string) (flag : bool) :
  sameText true "PV" fn = true ->
  Forall (fun x => x <> "" /\ Num.allChars noComma x = true) [a; b; c] ->
  Str.count ")" post = 0 ->
  exists b',
    matchHere true re_PV bef
      (fn ++ "(" ++ a ++ "," ++ b ++ "," ++ c ++ (if flag then ",,1" else "")
          ++ ")" ++ post)%string
    = Some (MState b' post [(3, c); (2, b); (1, a)]).
Proof.
  intros Hfn H Hpost.
  inversion H as [|? ? (Ha1 & Ha2) H1]; subst.
  inversion H1 as [|? ? (Hb1 & Hb2) H2]; subst.
  inversion H2 as [|? ? (Hc1 & Hc2) _]; subst.
  destruct (rmatch_PV_end c post flag Hc1 Hc2 Hpost) as (f & Hf).
  eexists. unfold matchHere, re_PV, notComma. cbn [RSeqs]. rewrite rmatch_RSeq.
  replace (fn ++ "(" ++ a ++ "," ++ b ++ "," ++ c ++ (if flag then ",,1" else "")
              ++ ")" ++ post)%string
    with ((fn ++ "(") ++ a ++ "," ++ b ++ "," ++ c ++ (if flag then ",,1" else "")
              ++ ")" ++ post)%string
    by (now rewrite str_app_assoc).
  rewrite (rmatch_RLit_text true "PV(")
    by (apply (sameText_app true "PV" "("); [exact Hfn | reflexivity]).
  unfold stateAfter. rewrite rmatch_RSeq.
  apply (rmatch_group_run true true _ noComma (class_noComma true)); trivial.
  change ("," ++ ?t)%string with (String "," t). rewrite rmatch_RSeq, rmatch_RChar_here.
  rewrite rmatch_RSeq.
  apply (rmatch_group_run true true _ noComma (class_noComma true)); trivial.
  change ("," ++ ?t)%string with (String "," t). rewrite rmatch_RSeq, rmatch_RChar_here.
  rewrite rmatch_RSeq. apply Hf.
Qed.

Lemma getSubstitution_PV (m : jsmatch) :
  getSubstitution 3 m "(-($3)*(1-(1+($1))^(-($2)))/($1))" =
  ("(-(" ++ group 3 m ++ ")*(1-(1+(" ++ group 1 m ++ "))^(-(" ++ group 2 m
         ++ ")))/(" ++ group 1 m ++ "))")%string.
Proof. reflexivity. Qed.

Lemma forgetsBefore_caps (n : nat) (tmpl : string)
    (f : list (nat * string) -> string) :
  (forall m, getSubstitution n m tmpl = f (m_caps m)) -> forgetsBefore n tmpl.
Proof. intros H m m' (_ & _ & Ec). rewrite !H. now rewrite Ec. Qed.

(** [replacePV] on one call: a call PV(a,b,c) or PV(a,b,c,,1) (the name in
    any case, the arguments non-empty and without comma), after a text
    without opening parenthesis and before a text without closing
    parenthesis, is replaced by the closed formula of the present value;
    the text around the call is kept. *)
Theorem replacePV_call (fn pre a b c post : string) (flag : bool) :
  sameText true "PV" fn = true ->
  Str.count "(" pre = 0 -> Str.count ")" post = 0 ->
  Forall (fun x => x <> "" /\ Num.allChars noComma x = true) [a; b; c] ->
  replacePV
    (pre ++ fn ++ "(" ++ a ++ "," ++ b ++ "," ++ c ++ (if flag then ",,1" else "")
         ++ ")" ++ post)%string =
  (pre ++ ("(-(" ++ c ++ ")*(1-(1+(" ++ a ++ "))^(-(" ++ b ++ ")))/(" ++ a ++ "))")
       ++ post)%string.
Proof.
  intros Hfn Hpre Hpost Hargs. unfold replacePV.
  set (w := (fn ++ "(" ++ a ++ "," ++ b ++ "," ++ c ++ (if flag then ",,1" else "")
                ++ ")")%string).
  replace (pre ++ fn ++ "(" ++ a ++ "," ++ b ++ "," ++ c
               ++ (if flag then ",,1" else "") ++ ")" ++ post)%string
    with (pre ++ w ++ post)%string
    by (unfold w; now rewrite !str_app_assoc).
  rewrite (replaceAll_first true re_PV 3 _ eq_refl) with (cs := [(3, c); (2, b); (1, a)]).
  - rewrite getSubstitution_PV. unfold group. cbn [m_caps lookupCap Nat.eqb].
    rewrite (replaceAll_none true re_PV ")") by (trivial; apply PV_needs_paren).
    reflexivity.
  - apply (forgetsBefore_caps 3 _
             (fun cs => let m := JSMatch "" "" "" cs in
                        "(-(" ++ group 3 m ++ ")*(1-(1+(" ++ group 1 m ++ "))^(-("
                              ++ group 2 m ++ ")))/(" ++ group 1 m ++ "))")%string).
    intros m. rewrite getSubstitution_PV. reflexivity.
  - intros bef p1 x p2 E. unfold w. rewrite !str_app_assoc.
    now apply (call_skipped true "PV" fn _ pre p1 p2).
  - unfold w. destruct fn; [discriminate Hfn | discriminate].
  - intros bef. destruct (matchHere_PV fn a b c post bef flag Hfn Hargs Hpost) as (b' & Hb').
    eexists. split; [|split].
    + unfold w. rewrite !str_app_assoc. exact Hb'.
    + reflexivity.
    + reflexivity.
Qed.

Lemma replacePV_call_witness :
  replacePV
    ("=-" ++ "pv" ++ "(" ++ "B1/12" ++ "," ++ "B2*12" ++ "," ++ "B3"
          ++ (if true then ",,1" else "") ++ ")" ++ "+1")%string =
  ("=-" ++ ("(-(" ++ "B3" ++ ")*(1-(1+(" ++ "B1/12" ++ "))^(-(" ++ "B2*12"
                  ++ ")))/(" ++ "B1/12" ++ "))")
        ++ "+1")%string.
Proof.
  refine (replacePV_call "pv" "=-" "B1/12" "B2*12" "B3" "+1" true _ _ _ _);
    try reflexivity.
  repeat constructor; (discriminate || reflexivity).
Defined.

Example replacePV_ex :
  replacePV "=PV(B1,B2,B3)" = "=(-(B3)*(1-(1+(B1))^(-(B2)))/(B1))" /\
  replacePV "=PV(B1,B2,B3)*(1+B4)" = "=(-(B3)*(1+B4)*(1-(1+(B1))^(-(B2)))/(B1))".
Proof. split; vm_compute; reflexivity. Qed.

(** * Sums over a range *)

(** ** The texts of the matches of a scan *)

Section Texts.

Variables (ic : bool) (r : regex).

Lemma texts_skip (pre rest : string) (L : list string) :
  (forall bef p1 c p2, pre = (p1 ++ String c p2)%string ->
     matchHere ic r bef (String c p2 ++ rest)%string = None) ->
  (forall fuel bef, String.length rest < fuel ->
     map m_text (hits (scan fuel ic r bef rest)) = L) ->
  forall fuel bef, String.length (pre ++ rest)%string < fuel ->
    map m_text (hits (scan fuel ic r bef (pre ++ rest)%string)) = L.
Proof.
  intros Hpre Hrest fuel bef Hlen.
  rewrite scan_skip by assumption. rewrite hits_app, hits_lits. cbn [app].
  apply Hrest. rewrite str_length_app in Hlen. lia.
Qed.

Lemma texts_hit (w rest : string) (L : list string) :
  w <> "" ->
  (forall bef, exists y,
     matchHere ic r bef (w ++ rest)%string = Some y /\ after y = rest) ->
  (forall fuel bef, String.length rest < fuel ->
     map m_text (hits (scan fuel ic r bef rest)) = L) ->
  forall fuel bef, String.length (w ++ rest)%string < fuel ->
    map m_text (hits (scan fuel ic r bef (w ++ rest)%string)) = w :: L.
Proof.
  intros Hw Hm Hrest fuel bef Hlen.
  destruct fuel as [|fuel]; [lia|].
  destruct (Hm bef) as (y & Hy & Ha).
  rewrite (scan_hit ic r w rest bef y fuel Hy Ha Hw). cbn [hits map m_text].
  f_equal. apply Hrest. rewrite str_length_app in Hlen.
  destruct w; [congruence | cbn [String.length] in Hlen; lia].
Qed.

Lemma texts_none (P : string -> Prop) (s : string) :
  (forall c s, P (String c s) -> P s) ->
  (forall bef aft, P aft -> matchHere ic r bef aft = None) ->
  P s ->
  forall fuel bef, map m_text (hits (scan fuel ic r bef s)) = [].
Proof.
  intros Htail Hnone Hs fuel bef.
  now rewrite (scan_no_match ic r P Htail Hnone).
Qed.

Lemma matchAll_texts (s : string) (L : list string) :
  (forall fuel bef, String.length s < fuel ->
     map m_text (hits (scan fuel ic r bef s)) = L) ->
  map m_text (matchAll ic r s) = L.
Proof. intros H. unfold matchAll, scanAll. apply H. lia. Qed.

End Texts.

(** ** Occurrences of a text *)

Lemma startsWith_self (w t : string) : Str.startsWith w (w ++ t)%string = true.
Proof.
  induction w as [|c w IH]; [reflexivity|].
  cbn [append Str.startsWith]. now rewrite Ascii.eqb_refl, IH.
Qed.

Lemma includes_occurrence (a w t : string) : Str.includes (a ++ w ++ t)%string w = true.
Proof.
  induction a as [|c a IH].
  - cbn [append]. destruct (w ++ t)%string eqn:E; cbn [Str.includes];
      rewrite <- E, startsWith_self; reflexivity.
  - cbn [append Str.includes]. rewrite IH. apply orb_true_r.
Qed.

Lemma includes_startsWith (sub s : string) :
  Str.includes s sub = false -> Str.startsWith sub s = false.
Proof. destruct s; cbn [Str.includes]; intros H; now apply orb_false_iff in H. Qed.

Lemma includes_tail (sub : string) (c : ascii) (s : string) :
  Str.includes (String c s) sub = false -> Str.includes s sub = false.
Proof. cbn [Str.includes]. intros H. now apply orb_false_iff in H. Qed.

Lemma includes_suffix (sub p1 s : string) :
  Str.includes (p1 ++ s)%string sub = false -> Str.includes s sub = false.
Proof.
  induction p1 as [|c p1 IH]; [trivial|]. cbn [append]. intros H.
  apply IH. now apply includes_tail in H.
Qed.

Lemma includes_notStartedIn (sub s t : string) :
  Str.includes (s ++ t)%string sub = false -> notStartedIn sub s t.
Proof.
  intros H p1 c p2 ->. rewrite str_app_assoc in H.
  apply includes_suffix in H. now apply includes_startsWith.
Qed.

Lemma includes_skip (sub : string) (a : ascii) (p : ascii -> bool) (s t : string) :
  Str.startsWith (Str.ch a) sub = true -> p a = false ->
  Num.allChars p s = true ->
  Str.includes (s ++ t)%string sub = Str.includes t sub.
Proof.
  intros Hsub Ha. destruct sub as [|a' sub]; [discriminate|].
  cbn [Str.startsWith Str.ch] in Hsub. apply andb_true_iff in Hsub as [E _].
  apply Ascii.eqb_eq in E. subst a'.
  induction s as [|c s IH]; intros Hs; [reflexivity|].
  cbn [Num.allChars] in Hs. apply andb_true_iff in Hs as [Hc Hs].
  cbn [append Str.includes Str.startsWith].
  destruct (Ascii.eqb_spec c a) as [->|]; [congruence|].
  cbn [andb orb]. now apply IH.
Qed.

(** ** Upper case *)

Lemma toUpperCase_app (a b : string) :
  Str.toUpperCase (a ++ b) = (Str.toUpperCase a ++ Str.toUpperCase b)%string.
Proof. induction a as [|c a IH]; cbn [append Str.toUpperCase]; [reflexivity | now rewrite IH]. Qed.

Lemma toUpperCase_same (s : string) :
  Num.allChars (fun c => negb (Str.isLower c)) s = true -> Str.toUpperCase s = s.
Proof.
  induction s as [|c s IH]; cbn [Num.allChars Str.toUpperCase]; [reflexivity|].
  intros H. apply andb_true_iff in H as [Hc Hs]. rewrite IH by exact Hs.
  unfold Str.upperChar. apply negb_true_iff in Hc. now rewrite Hc.
Qed.

Lemma upperChar_idem (c : ascii) : Str.upperChar (Str.upperChar c) = Str.upperChar c.
Proof. destruct c as [[] [] [] [] [] [] [] []]; reflexivity. Qed.

Lemma sameText_toUpperCase (p w : string) :
  sameText true p w = true -> Str.toUpperCase w = Str.toUpperCase p.
Proof.
  revert w. induction p as [|c p IH]; intros [|a w] H; cbn [sameText] in H;
    try discriminate; [reflexivity|].
  apply andb_true_iff in H as [Hc Hw]. cbn [Str.toUpperCase].
  rewrite (IH w Hw). unfold charEq, canon in Hc. apply Ascii.eqb_eq in Hc.
  now rewrite Hc.
Qed.

Lemma digit_not_lower (c : ascii) : Str.isDigit c = true -> negb (Str.isLower c) = true.
Proof. destruct c as [[] [] [] [] [] [] [] []]; (discriminate || reflexivity). Qed.

Lemma upper_not_lower (c : ascii) : Str.isUpper c = true -> negb (Str.isLower c) = true.
Proof. destruct c as [[] [] [] [] [] [] [] []]; (discriminate || reflexivity). Qed.


(** ** ASCII texts *)

Lemma isAscii_app (a b : string) :
  Str.isAscii (a ++ b) = Str.isAscii a && Str.isAscii b.
Proof. rewrite !isAscii_chars. apply allChars_app. Qed.

Lemma upperChar_ascii (c : ascii) : Str.asciiChar (Str.upperChar c) = Str.asciiChar c.
Proof. destruct c as [[] [] [] [] [] [] [] []]; reflexivity. Qed.

(** A text that is an ASCII text up to case is ASCII. *)
Lemma sameText_ascii (p w : string) :
  Str.isAscii p = true -> sameText true p w = true -> Str.isAscii w = true.
Proof.
  revert w. induction p as [|c p IH]; intros [|a w] Hp H; cbn [sameText] in H;
    try discriminate; [reflexivity|].
  apply andb_true_iff in H as [Hc Hw]. cbn [Str.isAscii] in *.
  apply andb_true_iff in Hp as [Hpc Hpp]. rewrite (IH w Hpp Hw), andb_true_r.
  unfold charEq, canon in Hc. apply Ascii.eqb_eq in Hc.
  now rewrite <- upperChar_ascii, Hc, upperChar_ascii.
Qed.

Lemma digit_ascii (c : ascii) : Str.isDigit c = true -> Str.asciiChar c = true.
Proof. destruct c as [[] [] [] [] [] [] [] []]; (discriminate || reflexivity). Qed.

Lemma upper_ascii (c : ascii) : Str.isUpper c = true -> Str.asciiChar c = true.
Proof. destruct c as [[] [] [] [] [] [] [] []]; (discriminate || reflexivity). Qed.


(** ** Where SUM occurs *)

Lemma startsWith_prefix (u v t : string) :
  Str.startsWith (u ++ v)%string t = true -> Str.startsWith u t = true.
Proof.
  revert t. induction u as [|c u IH]; intros t H; [reflexivity|].
  destruct t as [|a t]; cbn [append Str.startsWith] in *; [discriminate|].
  apply andb_true_iff in H as [-> H]. now rewrite (IH t H).
Qed.

Lemma startsWith_not_prefix (u v t : string) :
  Str.startsWith u t = false -> Str.startsWith (u ++ v)%string t = false.
Proof.
  intros H. destruct (Str.startsWith (u ++ v) t) eqn:E; [|reflexivity].
  apply startsWith_prefix in E. congruence.
Qed.

(** What follows a text matters to the occurrences that start in it only
    by its first two characters. *)
Lemma notStartedIn_SUM (s t : string) :
  notStartedIn "SUM" s "SU" -> notStartedIn "SUM" s ("SU" ++ t).
Proof.
  intros H p1 c p2 E. specialize (H p1 c p2 E).
  destruct p2 as [|d [|e p2]]; cbn [append Str.startsWith] in *; exact H.
Qed.

Lemma notStartedIn_mark (s t : string) :
  notStartedIn "SUM" s "SU" -> notStartedIn "SUM" s ("_" ++ t).
Proof.
  intros H p1 c p2 E. specialize (H p1 c p2 E).
  destruct p2 as [|d [|e p2]]; cbn [append Str.startsWith] in *.
  - cbn. now rewrite andb_false_r.
  - cbn. now rewrite !andb_false_r.
  - exact H.
Qed.

Lemma notStartedIn_marked (s t : string) :
  notStartedIn "SUM" s "SU" -> notStartedIn "_SUM(" s ("_SUM(" ++ t).
Proof.
  intros H p1 c p2 E.
  change (Str.startsWith "_SUM(" (String c p2 ++ "_SUM(" ++ t))
    with (Ascii.eqb c "_" && Str.startsWith "SUM(" (p2 ++ "_SUM(" ++ t)).
  replace (Str.startsWith "SUM(" (p2 ++ "_SUM(" ++ t)) with false;
    [apply andb_false_r|].
  symmetry. destruct p2 as [|d p2]; [reflexivity|].
  apply (startsWith_not_prefix "SUM" "(").
  apply (notStartedIn_mark s ("SUM(" ++ t) H (p1 ++ String c "")%string d p2).
  rewrite E, str_app_assoc. reflexivity.
Qed.

Lemma split_one (x c : ascii) (p1 p2 : string) :
  Str.ch x = (p1 ++ String c p2)%string -> p1 = "" /\ c = x /\ p2 = "".
Proof.
  destruct p1 as [|y p1]; cbn [append Str.ch]; intros E.
  - now injection E as <- <-.
  - injection E as _ E. destruct p1; discriminate.
Qed.

Lemma digit_not_U (d : ascii) : Str.isDigit d = true -> Ascii.eqb d "U" = false.
Proof. destruct (Ascii.eqb_spec d "U") as [->|]; [discriminate | reflexivity]. Qed.


(** ** The patterns of the SUM pass *)

Lemma matchHere_lit_none (w bef t : string) :
  Str.startsWith w t = false -> matchHere false (RLit w) bef t = None.
Proof. intros H. unfold matchHere. rewrite rmatch_RLit. cbn [after]. now rewrite H. Qed.

Lemma matchHere_seq_lit_none (p : string) (r : regex) (bef t : string) :
  Str.startsWith p t = false -> matchHere false (RSeq (RLit p) r) bef t = None.
Proof.
  intros H. unfold matchHere. rewrite rmatch_RSeq, rmatch_RLit. cbn [after].
  now rewrite H.
Qed.

Lemma rmatch_address_seq (ic : bool) (r : regex) (k : mstate -> option mstate)
    (L : ascii) (ds rest b : string) (cs : list (nat * string)) (z : mstate) :
  Str.isUpper L = true -> ds <> "" -> Num.allChars Str.isDigit ds = true ->
  stopsAt Str.isDigit rest = true ->
  rmatch ic r k (MState (Str.rev_app (String L ds) b) rest cs) = Some z ->
  rmatch ic (RSeq cls_AZ (RSeq (RPlus cls_09) r)) k
    (MState b (String L ds ++ rest)%string cs) = Some z.
Proof.
  intros HL Hne Hds Hrest Hk. rewrite rmatch_RSeq.
  now apply (rmatch_address ic (fun y => rmatch ic r k y)).
Qed.







Lemma contextFree_RLit (w : string) : contextFree (RLit w) = true.
Proof. induction w as [|a w IH]; [reflexivity | exact IH]. Qed.

(** Replacing the only occurrence of a text. *)
Lemma replaceAllStr_only (P W Q tmpl : string) :
  W <> "" -> notStartedIn W P (W ++ Q) ->
  (forall fuel bef, hits (scan fuel false (RLit W) bef Q) = []) ->
  Num.allChars notDollar tmpl = true ->
  replaceAllStr (P ++ W ++ Q)%string W tmpl = (P ++ tmpl ++ Q)%string.
Proof.
  intros Hne HP HQ Ht. unfold replaceAllStr.
  rewrite (replaceAll_first false (RLit W) 0 tmpl (contextFree_RLit W)) with (cs := []).
  - rewrite getSubstitution_plain by exact Ht.
    rewrite (replaceAll_no_match false (RLit W)); [reflexivity|].
    unfold matchAll, scanAll. apply HQ.
  - now apply forgetsBefore_plain.
  - intros bef p1 c p2 E. apply matchHere_lit_none. now apply (HP p1).
  - exact Hne.
  - intros bef. eexists. split; [|split].
    + unfold matchHere. rewrite rmatch_RLit_text by apply sameText_refl. reflexivity.
    + reflexivity.
    + reflexivity.
Qed.

Lemma matchG_of_texts (r : regex) (s : string) (L : list string) :
  map m_text (matchAll false r s) = L ->
  matchG r s = match L with [] => None | _ => Some L end.
Proof.
  intros <-. unfold matchG. now destruct (matchAll false r s).
Qed.

Lemma marked_needs_SUM (s : string) :
  Str.includes s "SUM" = false -> Str.startsWith "_SUM(" s = false.
Proof.
  intros H. destruct s as [|c s]; [reflexivity|].
  change (Str.startsWith "_SUM(" (String c s))
    with (Ascii.eqb c "_" && Str.startsWith "SUM(" s).
  apply includes_tail, includes_startsWith in H.
  replace (Str.startsWith "SUM(" s) with false; [apply andb_false_r|].
  symmetry. now apply (startsWith_not_prefix "SUM" "(").
Qed.



(** ** A call of SUM that is the only one *)

Section MarkedCall.

(** The upper-case formula is [P ++ "SUM(" ++ X ++ Q]. *)
Variables (P X Q : string).

Hypothesis before_call : Str.includes (P ++ "SU") "SUM" = false.
Hypothesis inside_call : Str.includes (X ++ Q) "SUM" = false.

Let noSUM (s : string) : Prop := Str.includes s "SUM" = false.

Lemma noSUM_tail (c : ascii) (s : string) : noSUM (String c s) -> noSUM s.
Proof. apply includes_tail. Qed.

Lemma noSUM_call : noSUM ("(" ++ X ++ Q)%string.
Proof. exact inside_call. Qed.

Lemma before_call_SU : notStartedIn "SUM" P "SU".
Proof.
  intros p1 c p2 E. apply includes_startsWith.
  apply (includes_suffix "SUM" p1). rewrite <- str_app_assoc, <- E.
  exact before_call.
Qed.

Lemma mark_call :
  replaceAllStr (P ++ "SUM" ++ "(" ++ X ++ Q)%string "SUM" "_SUM" =
  (P ++ "_SUM(" ++ X ++ Q)%string.
Proof.
  rewrite (replaceAllStr_only P "SUM" ("(" ++ X ++ Q) "_SUM").
  - reflexivity.
  - discriminate.
  - apply (notStartedIn_SUM P ("M" ++ "(" ++ X ++ Q)), before_call_SU.
  - intros fuel bef. apply (scan_no_match false _ noSUM); [apply noSUM_tail| |apply noSUM_call].
    intros bef' aft Ha. apply matchHere_lit_none. now apply includes_startsWith.
  - reflexivity.
Qed.

Lemma texts_SUM :
  map m_text (matchAll false re_SUM (P ++ "_SUM(" ++ X ++ Q)%string) = ["SUM"].
Proof.
  apply matchAll_texts.
  change (P ++ "_SUM(" ++ X ++ Q)%string
    with (P ++ "_" ++ "SUM" ++ ("(" ++ X ++ Q))%string.
  apply texts_skip.
  { intros bef p1 c p2 E. apply matchHere_lit_none.
    now apply (notStartedIn_mark P _ before_call_SU p1). }
  apply (texts_skip false re_SUM "_").
  { intros bef p1 c p2 E. apply (split_one "_") in E as (-> & -> & ->).
    now apply matchHere_lit_none. }
  apply texts_hit; [discriminate| |].
  { intros bef. eexists. split.
    - unfold matchHere, re_SUM. rewrite rmatch_RLit_text by reflexivity. reflexivity.
    - reflexivity. }
  intros fuel bef _.
  apply (texts_none false _ noSUM); [apply noSUM_tail| |apply noSUM_call].
  intros bef' aft Ha. apply matchHere_lit_none. now apply includes_startsWith.
Qed.

Lemma marked_not_before (r : regex) (bef p1 p2 : string) (c : ascii) :
  P = (p1 ++ String c p2)%string ->
  matchHere false (RSeq (RLit "_SUM(") r) bef (String c p2 ++ "_SUM(" ++ X ++ Q)%string
  = None.
Proof.
  intros E. apply matchHere_seq_lit_none.
  now apply (notStartedIn_marked P _ before_call_SU p1).
Qed.

(** The text of the call, with its mark, occurs once. *)
Lemma marked_once (w tmpl : string) :
  Num.allChars notDollar tmpl = true ->
  replaceAllStr (P ++ ("_SUM" ++ w) ++ X ++ Q)%string ("_SUM" ++ w) tmpl =
  (P ++ tmpl ++ X ++ Q)%string.
Proof.
  intros Ht. apply replaceAllStr_only; trivial.
  - discriminate.
  - intros p1 c p2 E.
    apply (startsWith_not_prefix "_SUM" w).
    rewrite str_app_assoc.
    pose proof (notStartedIn_mark P ("SUM" ++ w ++ X ++ Q) before_call_SU
                  (p1 ++ String c "")%string) as H.
    change (Str.startsWith "_SUM" (String c p2 ++ "_SUM" ++ w ++ X ++ Q))
      with (Ascii.eqb c "_" && Str.startsWith "SUM" (p2 ++ "_SUM" ++ w ++ X ++ Q)).
    replace (Str.startsWith "SUM" (p2 ++ "_SUM" ++ w ++ X ++ Q)) with false;
      [apply andb_false_r|].
    symmetry. destruct p2 as [|d p2]; [reflexivity|].
    apply (H d p2). rewrite E, str_app_assoc. reflexivity.
  - intros fuel bef.
    apply (scan_no_match false _ noSUM); [apply noSUM_tail| |exact inside_call].
    intros bef' aft Ha. apply matchHere_lit_none.
    apply (startsWith_not_prefix "_SUM" w).
    destruct aft as [|c aft]; [reflexivity|].
    change (Str.startsWith "_SUM" (String c aft))
      with (Ascii.eqb c "_" && Str.startsWith "SUM" aft).
    apply noSUM_tail, includes_startsWith in Ha. rewrite Ha. apply andb_false_r.
Qed.

End MarkedCall.

(** ** A range in one column *)

Section RangeCall.

Variables (P Q : string) (L : ascii) (a b : Z).

Hypothesis L_upper : Str.isUpper L = true.
Hypothesis a_nonneg : (0 <= a)%Z.
Hypothesis b_nonneg : (0 <= b)%Z.
Hypothesis a_safe : (a < 2 ^ 53)%Z.
Hypothesis b_safe : (b < 2 ^ 53)%Z.
Hypothesis before_call : Str.includes (P ++ "SU") "SUM" = false.
Hypothesis after_call : Str.includes Q "SUM" = false.

Let core : string := (cellRef L a ++ ":" ++ cellRef L b)%string.
Let W : string := ("_SUM(" ++ core ++ ")")%string.

Let noSUM (s : string) : Prop := Str.includes s "SUM" = false.









End RangeCall.



Example inlineSum_range_ex :
  inlineSum "=2*Sum(S8:S11)-s1" = Returns "=2*(S8+S9+S10+S11)-S1" /\
  inlineSum "=SUM(A5:A1)" = Returns "=(A5)".
Proof. split; vm_compute; reflexivity. Qed.

(** * Percentages as cell text *)

(** ** Optional parts of a pattern *)

Lemma rmatch_ROpt_take (ic : bool) (r : regex) (k : mstate -> option mstate)
    (x y z : mstate) :
  (forall d, rmatch ic r d x = d y) ->
  String.length (after y) < String.length (after x) ->
  k y = Some z -> rmatch ic (ROpt r) k x = Some z.
Proof.
  intros Hr Hlen Hk. unfold ROpt. cbn [rmatch Nat.add].
  destruct (String.length (after x)) as [|n] eqn:E; [lia|].
  cbn [RepeatMatcher Nat.eqb andb option_map Nat.pred]. rewrite Hr, E.
  replace (String.length (after y) =? S n)%nat with false
    by (symmetry; apply Nat.eqb_neq; lia).
  now rewrite Hk.
Qed.

Lemma rmatch_RStar (ic : bool) (r : regex) (k : mstate -> option mstate) (x : mstate) :
  rmatch ic (RStar r) k x =
  RepeatMatcher (rmatch ic r) k (S (String.length (after x))) 0 None x.
Proof. reflexivity. Qed.

Lemma rmatch_RStar_stop (ic neg : bool) (rs : list (ascii * ascii))
    (k : mstate -> option mstate) (b rest : string) (cs : list (nat * string)) :
  stopsAt (fun a => xorb neg (classHas ic rs a)) rest = true ->
  rmatch ic (RStar (RClass neg rs)) k (MState b rest cs) = k (MState b rest cs).
Proof.
  intros H. rewrite rmatch_RStar. cbn [after].
  now rewrite RepeatMatcher_class_stop.
Qed.

(** ** The percentage pattern on a whole percentage *)

Lemma rmatch_RBol_start (ic : bool) (k : mstate -> option mstate) (s : string)
    (cs : list (nat * string)) :
  rmatch ic RBol k (MState "" s cs) = k (MState "" s cs).
Proof. reflexivity. Qed.

Lemma matchHere_percentText (neg gap : bool) (ds : string) :
  ds <> "" -> Num.allChars Str.isDigit ds = true ->
  matchHere false re_percentText ""
    ((if neg then "-" else "") ++ (if gap then " " else "") ++ ds ++ "%")%string
  = Some (MState (String "%"
                    (Str.rev_app ds
                       (if gap then String " " (if neg then "-" else "")
                        else if neg then "-" else "")))
            "" []).
Proof.
  intros Hne Hds.
  unfold matchHere, re_percentText. cbn [RSeqs].
  rewrite rmatch_RSeq, rmatch_RBol_start.
  assert (Hfirst : exists c t, ds = String c t /\ Str.isDigit c = true).
  { destruct ds as [|c t]; [congruence|]. cbn [Num.allChars] in Hds.
    apply andb_true_iff in Hds as [Hc _]. now exists c, t. }
  destruct Hfirst as (c & t & Eds & Hc).
  assert (Hrest : forall b cs,
            rmatch false
              (RSeq (RPlus cls_d)
                 (RSeq (ROpt (RChar ".")) (RSeq (RStar cls_d) (RSeq (RChar "%") REol))))
              (fun y => Some y) (MState b (ds ++ "%")%string cs)
            = Some (MState (String "%" (Str.rev_app ds b)) "" cs)).
  { intros b cs. rewrite rmatch_RSeq, rmatch_RPlus. cbn [after].
    unfold cls_d, cls_09.
    apply (RepeatMatcher_class_run false false _ _ "%" cs); trivial.
    - now rewrite (allChars_ext _ Str.isDigit) by apply class_digit.
    - destruct ds; [congruence | cbn [String.length]; lia].
    - rewrite str_length_app. lia. }
  assert (Hgap : forall b cs,
            rmatch false
              (RSeq (ROpt cls_s)
                 (RSeq (RPlus cls_d)
                    (RSeq (ROpt (RChar "."))
                       (RSeq (RStar cls_d) (RSeq (RChar "%") REol)))))
              (fun y => Some y)
              (MState b ((if gap then " " else "") ++ ds ++ "%")%string cs)
            = Some (MState (String "%"
                              (Str.rev_app ds (if gap then String " " b else b)))
                      "" cs)).
  { intros b cs. rewrite rmatch_RSeq. destruct gap; cbn [append].
    - apply (rmatch_ROpt_take false cls_s _ _ (MState (String " " b) (ds ++ "%") cs)).
      + intros d. reflexivity.
      + cbn [after String.length]. lia.
      + apply Hrest.
    - rewrite rmatch_ROpt_skip; [apply Hrest|].
      intros d. rewrite Eds. unfold cls_s. cbn [append]. rewrite rmatch_RClass_here.
      replace (xorb false (classHas false _ c)) with false; [reflexivity|].
      symmetry. clear - Hc. destruct c as [[] [] [] [] [] [] [] []]; (discriminate || reflexivity). }
  rewrite rmatch_RSeq. destruct neg; cbn [append].
  - apply (rmatch_ROpt_take false (RChar "-") _ _
             (MState "-" ((if gap then " " else "") ++ ds ++ "%") [])).
    + intros d. apply rmatch_RChar_here.
    + cbn [after String.length]. lia.
    + rewrite Hgap. now destruct gap.
  - rewrite rmatch_ROpt_skip; [rewrite Hgap; now destruct gap|].
    intros d. destruct gap; cbn [append]; [reflexivity|].
    rewrite Eds. cbn [append rmatch after]. unfold charEq, canon.
    destruct (Ascii.eqb_spec c "-") as [->|]; [discriminate Hc | reflexivity].
Qed.

(** ** The text of a cell that shows a percentage *)

Lemma trim_ends (c e : ascii) (mid : string) :
  Str.isSpace c = false -> Str.isSpace e = false ->
  Str.trim (String c (mid ++ String e "")) = String c (mid ++ String e "").
Proof.
  intros Hc He. unfold Str.trim. cbn [Str.trimStart]. rewrite Hc.
  unfold Str.rev. cbn [Str.rev_app]. rewrite rev_app_app. cbn [Str.rev_app Str.trimStart].
  rewrite He.
  change (String e (Str.rev_app mid (String c "")))
    with (Str.rev_app (String e "") (Str.rev_app mid (String c ""))).
  rewrite <- rev_app_app, rev_app_rev_app. cbn [Str.rev_app].
  now rewrite str_app_empty_r.
Qed.

Lemma trim_percentText (neg gap : bool) (n : Z) :
  implb gap neg = true -> Str.trim (percentText neg gap n) = percentText neg gap n.
Proof.
  intros H. unfold percentText.
  destruct (digitsOfZ_first n) as (c & t & E & Hc).
  destruct neg.
  - replace ("-" ++ (if gap then " " else "") ++ Num.digitsOfZ n ++ "%")%string
      with (String "-" (((if gap then " " else "") ++ Num.digitsOfZ n) ++ String "%" ""))
      by (cbn [append]; now rewrite str_app_assoc).
    now apply trim_ends.
  - destruct gap; [discriminate H|]. rewrite E. cbn [append].
    apply trim_ends; [|reflexivity]. now apply digit_not_space.
Qed.

Lemma parseFloat_percentText (neg : bool) (n : Z) :
  (0 <= n)%Z -> Num.parseFloat (percentText neg false n) = Num.ofQ neg n 1.
Proof.
  intros Hn. unfold percentText, Num.parseFloat.
  destruct (digitsOfZ_first n) as (c & t & E & Hc).
  pose proof (digitsOfZ_nonempty n) as Hne.
  assert (Hread : Num.readDigits (Num.digitsOfZ n ++ "%") 0 0 =
                  (n, String.length (Num.digitsOfZ n), "%"))
    by (now apply readDigits_digitsOfZ).
  assert (Hlen : (String.length (Num.digitsOfZ n) =? 0)%nat = false).
  { apply Nat.eqb_neq. destruct (Num.digitsOfZ n); [congruence | discriminate]. }
  destruct neg; cbn [append Str.trimStart Str.isSpace].
  - change (Str.isSpace "-") with false. cbn iota.
    rewrite Hread. now rewrite Hlen.
  - assert (Ht : Str.trimStart (Num.digitsOfZ n ++ "%") = (Num.digitsOfZ n ++ "%")%string).
    { rewrite E. cbn [append Str.trimStart]. now rewrite (digit_not_space c Hc). }
    rewrite Ht.
    assert (Hs : match (Num.digitsOfZ n ++ "%")%string with
                 | String "-" r => (true, r)
                 | String "+" r => (false, r)
                 | _ => (false, (Num.digitsOfZ n ++ "%")%string)
                 end = (false, (Num.digitsOfZ n ++ "%")%string)).
    { rewrite E. cbn [append]. destruct (digit_not_sign c Hc) as [H1 H2].
      destruct c as [[] [] [] [] [] [] [] []]; try reflexivity; congruence. }
    rewrite Hs, Hread. now rewrite Hlen.
Qed.

Lemma parseFloat_gap (n : Z) : Num.parseFloat (percentText true true n) = Num.NaN.
Proof. reflexivity. Qed.

Lemma ofQ_not_NaN (neg : bool) (n d : Z) : Num.ofQ neg n d <> Num.NaN.
Proof.
  unfold Num.ofQ. destruct (n =? 0)%Z; [discriminate|].
  destruct (Num.scale n d (Z.log2 n - Z.log2 d)) as [n1 d1].
  destruct (Num.scale n d _) as [n2 d2].
  destruct (Num.roundQ n2 d2 =? 2 ^ 53)%Z; destruct (971 <? _)%Z; discriminate.
Qed.

Lemma div100_not_NaN (x : Num.number) : x <> Num.NaN -> Num.div100 x <> Num.NaN.
Proof.
  destruct x as [| |neg m e]; intros H; [congruence | discriminate|].
  unfold Num.div100. destruct (Num.toQ m e). apply ofQ_not_NaN.
Qed.

Lemma cellText_percent (cell : ExcelJS.Cell) (neg gap : bool) (n : Z) :
  ExcelJS.value cell = ExcelJS.ValueOther ->
  ExcelJS.text cell = ExcelJS.TextString (percentText neg gap n) ->
  implb gap neg = true ->
  cellText cell = Num.toString (Num.div100 (Num.parseFloat (percentText neg gap n))).
Proof.
  intros Hv Ht Hg. unfold cellText. rewrite Hv, Ht.
  rewrite trim_percentText by exact Hg.
  assert (Htest : test false re_percentText (percentText neg gap n) = true).
  { unfold test. cbn [testFrom]. unfold percentText.
    now rewrite matchHere_percentText
      by (apply digitsOfZ_nonempty || apply digitsOfZ_digits). }
  rewrite Htest.
  pose proof (toString_chars (Num.div100 (Num.parseFloat (percentText neg gap n)))) as Hch.
  change "," with (Str.ch ",").
  rewrite replaceAllStr_absent by (try reflexivity; now apply numberChar_comma).
  now destruct (negb _).
Qed.

(** A cell that shows a whole percentage, with or without a minus sign,
    gets the hundredth of the number as value, and no description. *)
Theorem getCellData_percent (cell : ExcelJS.Cell) (names : list string) (rn cn : Z)
    (cd : CellData) (neg : bool) (n : Z) :
  ExcelJS.value cell = ExcelJS.ValueOther ->
  ExcelJS.text cell = ExcelJS.TextString (percentText neg false n) ->
  (0 <= n)%Z ->
  getCellData cell names rn cn = Returns cd ->
  value cd = Num.toString (Num.div100 (Num.ofQ neg n 1)) /\ description cd = "".
Proof.
  intros Hv Ht Hn Hcd. apply getCellData_value in Hcd as (Ev & Ed & _).
  rewrite (cellText_percent cell neg false n Hv Ht eq_refl) in Ev, Ed.
  rewrite parseFloat_percentText in Ev, Ed by exact Hn.
  rewrite isNaN_toString in Ev, Ed by apply div100_not_NaN, ofQ_not_NaN.
  now split.
Qed.

(** A blank between the minus sign and the digits passes the percentage
    pattern but not [parseFloat]: the cell gets the description NaN and no
    value. *)
Theorem getCellData_percent_gap (cell : ExcelJS.Cell) (names : list string)
    (rn cn : Z) (cd : CellData) (n : Z) :
  ExcelJS.value cell = ExcelJS.ValueOther ->
  ExcelJS.text cell = ExcelJS.TextString (percentText true true n) ->
  getCellData cell names rn cn = Returns cd ->
  value cd = "" /\ description cd = "NaN".
Proof.
  intros Hv Ht Hcd. apply getCellData_value in Hcd as (Ev & Ed & _).
  rewrite (cellText_percent cell true true n Hv Ht eq_refl) in Ev, Ed.
  rewrite parseFloat_gap in Ev, Ed. now split.
Qed.

Lemma getCellData_percent_witness :
  value (discount_data "-0.05" "") =
    Num.toString (Num.div100 (Num.ofQ true 5 1)) /\
  description (discount_data "-0.05" "") = "".
Proof.
  refine (getCellData_percent (textCell "Sheet1" "B2" "-5%") ["Sheet1"] 2 3
            (discount_data "-0.05" "") true 5 _ _ _ _).
  - reflexivity.
  - vm_compute. reflexivity.
  - lia.
  - vm_compute. reflexivity.
Defined.

Lemma getCellData_percent_gap_witness :
  value (discount_data "" "NaN") = "" /\
  description (discount_data "" "NaN") = "NaN".
Proof.
  refine (getCellData_percent_gap (textCell "Sheet1" "B2" "- 5%") ["Sheet1"] 2 3
            (discount_data "" "NaN") 5 _ _ _).
  - reflexivity.
  - vm_compute. reflexivity.
  - vm_compute. reflexivity.
Defined.

Example cellText_percent_ex :
  cellText (textCell "Sheet1" "B2" "12%") = "0.12" /\
  cellText (textCell "Sheet1" "B2" "-5%") = "-0.05" /\
  cellText (textCell "Sheet1" "B2" "- 5%") = "NaN".
Proof. repeat split; vm_compute; reflexivity. Qed.

(** * References to cells *)

(** ** Addresses in a formula *)

Lemma address_needs (bef s : string) (z : mstate) :
  matchHere false (RGroup 1 re_address) bef s = Some z ->
  exists c t, s = String c t /\ Str.isUpper c = true /\ stopsAt Str.isDigit t = false.
Proof.
  unfold matchHere, re_address. rewrite rmatch_RGroup, rmatch_RSeq. intros H.
  apply rmatch_RClass_inv in H as (c & t & Ec & Hc & H).
  cbn [after] in Ec. subst s. apply class_AZ_upper in Hc.
  rewrite rmatch_RPlus in H.
  apply RepeatMatcher_class_inv in H as (w & rest & Ew & Hw & Hlen & _).
  cbn [advance after] in Ew. exists c, t. repeat split; trivial.
  subst t. destruct w as [|d w]; [cbn [String.length] in Hlen; lia|].
  cbn [Num.allChars] in Hw. apply andb_true_iff in Hw as [Hd _].
  apply class_09_digit in Hd. cbn [append stopsAt]. now rewrite Hd.
Qed.

Lemma addressFree_suffix (p1 s : string) :
  addressFree (p1 ++ s) = true -> addressFree s = true.
Proof.
  induction p1 as [|c p1 IH]; [trivial|]. cbn [append addressFree]. intros H.
  apply andb_true_iff in H as [_ H]. now apply IH.
Qed.

Lemma addressFree_none (bef s : string) :
  addressFree s = true -> matchHere false (RGroup 1 re_address) bef s = None.
Proof.
  intros H. destruct (matchHere false _ bef s) as [z|] eqn:E; [exfalso|reflexivity].
  apply address_needs in E as (c & t & -> & Hc & Ht).
  cbn [addressFree] in H. rewrite Hc, Ht in H. discriminate.
Qed.

Lemma addressFree_tail (c : ascii) (s : string) :
  addressFree (String c s) = true -> addressFree s = true.
Proof. cbn [addressFree]. intros H. now apply andb_true_iff in H as [_ H]. Qed.

(** A formula in which no capital letter is followed by a digit has no
    placeholder put in. *)
Lemma metricReferences_none (s : string) :
  addressFree s = true -> metricReferences s = s.
Proof.
  intros H. unfold metricReferences. apply replaceAll_no_match.
  unfold matchAll, scanAll.
  apply (scan_no_match false _ (fun s => addressFree s = true));
    [apply addressFree_tail | intros; now apply addressFree_none | exact H].
Qed.

Lemma address_not_before (pre ref t p1 p2 bef : string) (c : ascii) :
  addressFree pre = true -> isAddress ref = true ->
  pre = (p1 ++ String c p2)%string ->
  matchHere false (RGroup 1 re_address) bef (String c p2 ++ ref ++ t)%string = None.
Proof.
  intros Hpre Href E.
  destruct (matchHere false _ bef _) as [z|] eqn:Hz; [exfalso|reflexivity].
  apply address_needs in Hz as (c' & t' & Et & Hc & Ht).
  cbn [append] in Et. injection Et as <- <-.
  rewrite E in Hpre. apply addressFree_suffix in Hpre.
  cbn [addressFree] in Hpre. rewrite Hc in Hpre.
  apply andb_true_iff in Hpre as [Hpre _].
  destruct p2 as [|d p2].
  - destruct ref as [|L ds]; [discriminate Href|].
    cbn [isAddress] in Href. apply andb_true_iff in Href as [Href _].
    apply andb_true_iff in Href as [HL _].
    cbn [append stopsAt] in Ht. apply negb_false_iff in Ht.
    clear - HL Ht. destruct L as [[] [] [] [] [] [] [] []]; discriminate.
  - cbn [append stopsAt] in Ht, Hpre. rewrite Ht in Hpre. discriminate.
Qed.

Lemma isAddress_shape (ref : string) :
  isAddress ref = true ->
  exists L ds, ref = String L ds /\ Str.isUpper L = true /\ ds <> "" /\
               Num.allChars Str.isDigit ds = true.
Proof.
  destruct ref as [|L ds]; [discriminate|]. cbn [isAddress]. intros H.
  apply andb_true_iff in H as [H Hds]. apply andb_true_iff in H as [HL Hne].
  exists L, ds. repeat split; trivial. intros ->. discriminate.
Qed.

(** The first address of a formula gets its placeholder, and the text
    after it is treated in the same way. *)
Lemma metricReferences_first (pre ref post : string) :
  addressFree pre = true -> isAddress ref = true -> stopsAt Str.isDigit post = true ->
  metricReferences (pre ++ ref ++ post) =
  (pre ++ "${metric:" ++ ref ++ "}" ++ metricReferences post)%string.
Proof.
  intros Hpre Href Hpost. unfold metricReferences.
  rewrite (replaceAll_first false (RGroup 1 re_address) 1 _ eq_refl)
    with (cs := [(1, ref)]).
  - rewrite getSubstitution_metric. unfold group. cbn [m_caps lookupCap Nat.eqb].
    now rewrite !str_app_assoc.
  - apply (forgetsBefore_group 1 _ (fun g => "${metric:" ++ g ++ "}")%string).
    apply getSubstitution_metric.
  - intros bef p1 c p2 E. now apply (address_not_before pre ref post p1).
  - destruct ref; [discriminate Href | discriminate].
  - intros bef. destruct (isAddress_shape ref Href) as (L & ds & -> & HL & Hne & Hds).
    eexists. split; [|split].
    + unfold matchHere. now apply rmatch_address_group.
    + reflexivity.
    + reflexivity.
Qed.

Lemma getCellData_single (cell : ExcelJS.Cell) (names : list string) (rn cn : Z)
    (f : string) :
  (List.length names <= 1)%nat -> translate (rawFormula cell) = Returns f ->
  exists cd, getCellData cell names rn cn = Returns cd /\
             formula cd = metricReferences f.
Proof.
  intros Hn Hf. unfold getCellData. rewrite Hf. cbn [bind].
  replace (1 <? List.length names)%nat with false
    by (symmetry; apply Nat.ltb_ge; exact Hn).
  eexists. split; reflexivity.
Qed.

(** In a workbook with one sheet the first address of the translated
    formula, a capital letter with the digits after it, is put in a
    placeholder; the text before it stays as it is, also a capital letter
    right in front of it, and the text after it is treated in the same
    way. *)
Theorem getCellData_wraps_reference (cell : ExcelJS.Cell) (names : list string)
    (rn cn : Z) (pre ref post : string) :
  (List.length names <= 1)%nat ->
  translate (rawFormula cell) = Returns (pre ++ ref ++ post)%string ->
  addressFree pre = true -> isAddress ref = true -> stopsAt Str.isDigit post = true ->
  exists cd,
    getCellData cell names rn cn = Returns cd /\
    formula cd = (pre ++ "${metric:" ++ ref ++ "}" ++ metricReferences post)%string.
Proof.
  intros Hn Hf Hpre Href Hpost.
  destruct (getCellData_single cell names rn cn _ Hn Hf) as (cd & Hcd & Ef).
  exists cd. split; [exact Hcd|].
  rewrite Ef. now apply metricReferences_first.
Qed.

(** In a workbook with one sheet a translated formula in which no capital
    letter is followed by a digit is stored as it is. *)
Theorem getCellData_no_reference (cell : ExcelJS.Cell) (names : list string)
    (rn cn : Z) (f : string) :
  (List.length names <= 1)%nat ->
  translate (rawFormula cell) = Returns f -> addressFree f = true ->
  exists cd, getCellData cell names rn cn = Returns cd /\ formula cd = f.
Proof.
  intros Hn Hf Hfree.
  destruct (getCellData_single cell names rn cn _ Hn Hf) as (cd & Hcd & Ef).
  exists cd. split; [exact Hcd|].
  rewrite Ef. now apply metricReferences_none.
Qed.

Lemma getCellData_wraps_reference_witness :
  exists cd,
    getCellData (formulaCell "Sheet1" "C1" "3" "AA1*2+B2") ["Sheet1"] 1 4 = Returns cd /\
    formula cd = ("=A" ++ "${metric:" ++ "A1" ++ "}" ++ metricReferences "*2+B2")%string.
Proof.
  refine (getCellData_wraps_reference (formulaCell "Sheet1" "C1" "3" "AA1*2+B2")
            ["Sheet1"] 1 4 "=A" "A1" "*2+B2" _ _ _ _ _).
  - cbn [List.length]. lia.
  - vm_compute. reflexivity.
  - reflexivity.
  - reflexivity.
  - reflexivity.
Defined.

Lemma getCellData_no_reference_witness :
  exists cd,
    getCellData (formulaCell "Sheet1" "C1" "3" "2*pi+rate1") ["Sheet1"] 1 4 = Returns cd /\
    formula cd = "=2*pi+rate1".
Proof.
  refine (getCellData_no_reference (formulaCell "Sheet1" "C1" "3" "2*pi+rate1")
            ["Sheet1"] 1 4 "=2*pi+rate1" _ _ _).
  - cbn [List.length]. lia.
  - vm_compute. reflexivity.
  - reflexivity.
Defined.

Example metricReferences_ex :
  metricReferences "=AA1*2+B2" = "=A${metric:A1}*2+${metric:B2}".
Proof. vm_compute. reflexivity. Qed.

(** * Sums over a list of cells *)

(** ** A list of cells *)

Lemma includes_address (ref T : string) :
  isAddress ref = true ->
  Str.includes (ref ++ T) "SUM" = Str.includes T "SUM".
Proof.
  intros H. destruct (isAddress_shape ref H) as (L & ds & -> & _ & Hne & Hds).
  cbn [append Str.includes Str.startsWith].
  rewrite (includes_skip "SUM" "S" Str.isDigit) by (trivial || reflexivity).
  destruct ds as [|d ds]; [congruence|]. cbn [Num.allChars] in Hds.
  apply andb_true_iff in Hds as [Hd _]. cbn [append].
  rewrite (digit_not_U d Hd). cbn [andb]. now rewrite andb_false_r.
Qed.

Lemma includes_list (refs : list string) (T : string) :
  forallb isAddress refs = true ->
  Str.includes (Str.join "," refs ++ T) "SUM" = Str.includes T "SUM".
Proof.
  induction refs as [|r refs IH]; intros H; [reflexivity|].
  cbn [forallb] in H. apply andb_true_iff in H as [Hr Hrs].
  destruct refs as [|r2 refs].
  - cbn [Str.join]. now apply includes_address.
  - change (Str.join "," (r :: r2 :: refs))
      with (r ++ "," ++ Str.join "," (r2 :: refs))%string.
    rewrite !str_app_assoc, includes_address by exact Hr.
    change ("," ++ ?t)%string with (String "," t).
    cbn [Str.includes]. change (Str.startsWith "SUM" (String "," ?t)) with false.
    cbn [orb]. now apply IH.
Qed.

Lemma isAddress_chars (p : ascii -> bool) (ref : string) :
  (forall c, Str.isUpper c = true -> p c = true) ->
  (forall c, Str.isDigit c = true -> p c = true) ->
  isAddress ref = true -> Num.allChars p ref = true.
Proof.
  intros Hu Hd H. destruct (isAddress_shape ref H) as (L & ds & -> & HL & _ & Hds).
  cbn [Num.allChars]. rewrite (Hu L HL). eapply allChars_weaken; [exact Hd | exact Hds].
Qed.

Lemma join_addresses_chars (p : ascii -> bool) (refs : list string) :
  (forall c, Str.isUpper c = true -> p c = true) ->
  (forall c, Str.isDigit c = true -> p c = true) -> p ","%char = true ->
  forallb isAddress refs = true -> Num.allChars p (Str.join "," refs) = true.
Proof.
  intros Hu Hd Hc H. apply allChars_join; [cbn; now rewrite Hc|].
  apply Forall_forall. intros r Hr. rewrite forallb_forall in H.
  apply isAddress_chars; auto.
Qed.

(** The list pattern runs through a list of cells. *)
Lemma commaSum_iterations (Q : string) (refs : list string) :
  refs <> [] -> forallb isAddress refs = true ->
  forall fuel min b cs,
    min <= 1 ->
    String.length (Str.join "," refs ++ ")" ++ Q) < fuel ->
    exists b' cs',
      RepeatMatcher
        (rmatch false (RGroup 1 (RSeqs [cls_AZ; RPlus cls_09; ROpt (RChar ",")])))
        (fun y => rmatch false (RChar ")") (fun y => Some y) y)
        fuel min None (MState b (Str.join "," refs ++ ")" ++ Q) cs)
      = Some (MState b' Q cs').
Proof.
  induction refs as [|r refs IH]; intros Hne H fuel min b cs Hmin Hlen; [congruence|].
  cbn [forallb] in H. apply andb_true_iff in H as [Hr Hrs].
  destruct (isAddress_shape r Hr) as (L & ds & -> & HL & Hds1 & Hds2).
  destruct fuel as [|fuel]; [lia|].
  assert (Hnext : exists b' cs',
            rmatch false (RGroup 1 (RSeqs [cls_AZ; RPlus cls_09; ROpt (RChar ",")]))
              (fun y =>
                 if (min =? 0)%nat &&
                    (String.length (after y) =?
                     String.length (Str.join "," (String L ds :: refs) ++ ")" ++ Q))%nat
                 then None
                 else RepeatMatcher
                        (rmatch false
                           (RGroup 1 (RSeqs [cls_AZ; RPlus cls_09; ROpt (RChar ",")])))
                        (fun y => rmatch false (RChar ")") (fun y => Some y) y)
                        fuel (Nat.pred min) None y)
              (MState b (Str.join "," (String L ds :: refs) ++ ")" ++ Q) cs)
            = Some (MState b' Q cs')).
  { destruct refs as [|r2 refs].
    - (* the last cell *)
      cbn [Str.join] in *.
      destruct fuel as [|fuel];
        [rewrite str_length_app in Hlen; cbn [String.length] in Hlen; lia|].
      eexists _, _. rewrite rmatch_RGroup. cbn [RSeqs].
      apply rmatch_address_seq; trivial.
      rewrite rmatch_ROpt_skip by (intros d; reflexivity).
      unfold setCap. cbn [after before caps].
      replace (String.length (")" ++ Q) =? String.length (String L ds ++ ")" ++ Q))%nat
        with false
        by (symmetry; apply Nat.eqb_neq; generalize (")" ++ Q)%string; intros t;
            rewrite !str_length_app; cbn [String.length]; lia).
      rewrite andb_false_r.
      replace (Nat.pred min) with 0 by lia.
      rewrite RepeatMatcher_unfold. cbn [Nat.eqb andb].
      rewrite rmatch_RGroup. cbn [RSeqs]. rewrite rmatch_RSeq.
      unfold cls_AZ at 1. rewrite rmatch_RClass_stop by reflexivity.
      cbn [append]. rewrite rmatch_RChar_here. reflexivity.
    - (* a cell and a comma *)
      change (Str.join "," (String L ds :: r2 :: refs))
        with (String L ds ++ "," ++ Str.join "," (r2 :: refs))%string in *.
      rewrite !str_app_assoc in *.
      destruct (IH ltac:(discriminate) Hrs fuel (Nat.pred min)
                  (String "," (Str.rev_app (String L ds) b))
                  ((1, (String L ds ++ ",")%string) :: cs) ltac:(lia))
        as (b' & cs' & Hb').
      { rewrite !str_length_app in Hlen. cbn [String.length] in Hlen.
        rewrite !str_length_app. cbn [String.length]. lia. }
      exists b', cs'. rewrite rmatch_RGroup. cbn [RSeqs].
      apply rmatch_address_seq; trivial.
      apply (rmatch_ROpt_take false (RChar ",") _ _
               (MState (String "," (Str.rev_app (String L ds) b))
                       (Str.join "," (r2 :: refs) ++ ")" ++ Q) cs)).
      + intros d. apply rmatch_RChar_here.
      + cbn [after append String.length]. lia.
      + unfold setCap, consumed. cbn [after before caps].
        replace (String.length (Str.join "," (r2 :: refs) ++ ")" ++ Q) =?
                 String.length (String L ds ++ "," ++ Str.join "," (r2 :: refs) ++ ")" ++ Q))%nat
          with false
          by (symmetry; apply Nat.eqb_neq;
              generalize (Str.join "," (r2 :: refs) ++ ")" ++ Q)%string; intros t;
              rewrite !str_length_app; cbn [String.length]; lia).
        rewrite andb_false_r.
        replace (Str.take _ _) with (String L ds ++ ",")%string; [exact Hb'|].
        symmetry.
        replace (String L ds ++ "," ++ Str.join "," (r2 :: refs) ++ ")" ++ Q)%string
          with ((String L ds ++ ",") ++ Str.join "," (r2 :: refs) ++ ")" ++ Q)%string
          by (now rewrite !str_app_assoc).
        apply take_app_exact. }
  destruct Hnext as (b' & cs' & Hb'). exists b', cs'.
  rewrite RepeatMatcher_unfold. cbv zeta.
  destruct (min =? 0)%nat eqn:Emin.
  - cbn [after andb] in *. now rewrite Hb'.
  - cbn [after andb] in *. exact Hb'.
Qed.

Lemma matchHere_commaSum_list (Q : string) (refs : list string) (bef : string) :
  refs <> [] -> forallb isAddress refs = true ->
  exists b' cs',
    matchHere false re_commaSum bef (("_SUM(" ++ Str.join "," refs ++ ")") ++ Q)%string
    = Some (MState b' Q cs').
Proof.
  intros Hne H. unfold matchHere, re_commaSum. cbn [RSeqs].
  rewrite rmatch_RSeq, !str_app_assoc.
  rewrite (rmatch_RLit_text false "_SUM(") by reflexivity.
  unfold stateAfter. rewrite rmatch_RSeq, rmatch_RPlus. cbn [after].
  apply commaSum_iterations; trivial. lia.
Qed.

Lemma toUpperCase_list (refs : list string) :
  forallb isAddress refs = true ->
  Str.toUpperCase (Str.join "," refs) = Str.join "," refs.
Proof.
  intros H. apply toUpperCase_same. apply join_addresses_chars; trivial.
  - apply upper_not_lower.
  - apply digit_not_lower.
Qed.

Lemma isAscii_list (refs : list string) :
  forallb isAddress refs = true -> Str.isAscii (Str.join "," refs) = true.
Proof.
  intros H. rewrite isAscii_chars. apply join_addresses_chars; trivial.
  - apply upper_ascii.
  - apply digit_ascii.
Qed.

(** [inlineSum] on a list of cells: a call SUM(c1,...,cn) (the name in any
    case) on cell addresses, in an ASCII formula that holds the letters SUM
    nowhere else, keeps its arguments and gets the name in lower case; the
    rest of the formula comes back in upper case. *)
Theorem inlineSum_list (fn pre post : string) (refs : list string) :
  sameText true "SUM" fn = true ->
  refs <> [] -> forallb isAddress refs = true ->
  Str.isAscii pre = true -> Str.isAscii post = true ->
  Str.includes (Str.toUpperCase pre ++ "SU") "SUM" = false ->
  Str.includes (Str.toUpperCase post) "SUM" = false ->
  inlineSum (pre ++ fn ++ "(" ++ Str.join "," refs ++ ")" ++ post)%string =
  Returns (Str.toUpperCase pre ++ "sum" ++ "(" ++ Str.join "," refs ++ ")"
             ++ Str.toUpperCase post)%string.
Proof.
  intros Hfn Hne Hrefs Apre Apost Hpre Hpost.
  set (P := Str.toUpperCase pre) in *. set (Q := Str.toUpperCase post) in *.
  set (core := Str.join "," refs).
  assert (Hup : Str.toUpperCase (pre ++ fn ++ "(" ++ core ++ ")" ++ post)
                = (P ++ "SUM" ++ "(" ++ (core ++ ")") ++ Q)%string).
  { rewrite !toUpperCase_app. unfold core. rewrite toUpperCase_list by exact Hrefs.
    rewrite (sameText_toUpperCase "SUM" fn Hfn).
    fold P Q. now rewrite !str_app_assoc. }
  assert (Hin : Str.includes ((core ++ ")") ++ Q) "SUM" = false).
  { unfold core. rewrite str_app_assoc, includes_list by exact Hrefs.
    exact Hpost. }
  rewrite inlineSum_ascii.
  2:{ rewrite !isAscii_app, Apre, Apost, (sameText_ascii "SUM" fn eq_refl Hfn).
      unfold core. now rewrite isAscii_list. }
  rewrite Hup.
  rewrite (includes_occurrence P "SUM"). cbn [negb].
  rewrite (mark_call P _ Q Hpre Hin).
  rewrite (matchG_of_texts re_SUM _ ["SUM"]) by (now apply texts_SUM).
  rewrite (matchG_of_texts re_commaSum _ ["_SUM(" ++ core ++ ")"]%string).
  - cbn [List.length Nat.eqb]. f_equal.
    replace (P ++ "_SUM(" ++ (core ++ ")") ++ Q)%string
      with (P ++ ("_SUM" ++ "") ++ ("(" ++ core ++ ")") ++ Q)%string
      by (cbn [append]; now rewrite !str_app_assoc).
    rewrite (marked_once P ("(" ++ core ++ ")") Q Hpre) by (trivial; now rewrite str_app_assoc).
    now rewrite !str_app_assoc.
  - apply matchAll_texts. apply texts_skip.
    { intros bef p1 c p2 E. now apply (marked_not_before P _ Q Hpre _ bef p1). }
    replace ("_SUM(" ++ (core ++ ")") ++ Q)%string
      with (("_SUM(" ++ core ++ ")") ++ Q)%string by (now rewrite !str_app_assoc).
    apply texts_hit; [discriminate| |].
    { intros bef.
      destruct (matchHere_commaSum_list Q refs bef Hne Hrefs) as (b' & cs' & Hb').
      eexists. split; [exact Hb' | reflexivity]. }
    intros fuel bef _.
    apply (texts_none false _ (fun s => Str.includes s "SUM" = false));
      [intros c s; apply includes_tail| |exact Hpost].
    intros bef' aft Ha. apply matchHere_seq_lit_none. now apply marked_needs_SUM.
Qed.

Lemma inlineSum_list_witness :
  inlineSum ("=(" ++ "Sum" ++ "(" ++ Str.join "," ["A1"; "S22"; "C3"] ++ ")" ++ ")/s1")%string =
  Returns (Str.toUpperCase "=(" ++ "sum" ++ "(" ++ Str.join "," ["A1"; "S22"; "C3"] ++ ")"
             ++ Str.toUpperCase ")/s1")%string.
Proof.
  refine (inlineSum_list "Sum" "=(" ")/s1" ["A1"; "S22"; "C3"] _ _ _ _ _ _ _);
    (discriminate || reflexivity).
Defined.

Example inlineSum_list_ex :
  inlineSum "=(Sum(A1,S22,C3))/s1" = Returns "=(sum(A1,S22,C3))/S1".
Proof. vm_compute. reflexivity. Qed.

(** * Numbers with commas *)

(** ** Decimal commas *)

Lemma digit_notSpace (c : ascii) : Str.isDigit c = true -> notSpace c = true.
Proof. intros H. unfold notSpace. now rewrite (digit_not_space c H). Qed.

Lemma digits_count (c : ascii) (s : string) :
  Str.isDigit c = false -> Num.allChars Str.isDigit s = true -> Str.count c s = 0.
Proof. intros Hc. now apply allChars_count. Qed.

Lemma signed_notSpace (neg : bool) (s : string) :
  Num.allChars notSpace s = true ->
  Num.allChars notSpace ((if neg then "-" else "") ++ s) = true.
Proof. intros H. destruct neg; cbn [append Num.allChars]; now rewrite ?H. Qed.

Lemma signed_count (c : ascii) (neg : bool) (s : string) :
  Ascii.eqb "-" c = false -> Str.count c s = 0 ->
  Str.count c ((if neg then "-" else "") ++ s) = 0.
Proof. intros Hc H. destruct neg; cbn [append Str.count]; now rewrite ?Hc, ?H. Qed.

Lemma isNaN_decimal (neg : bool) (i f : string) :
  i <> "" -> Num.allChars Str.isDigit i = true -> Num.allChars Str.isDigit f = true ->
  Num.isNaN ((if neg then "-" else "") ++ i ++ "." ++ f) = false.
Proof.
  intros Hne Hi Hf. destruct (digits_first i Hi Hne) as (c & r & -> & Hc).
  pose proof (isNaN_literal neg c (r ++ "." ++ f) Hc) as H.
  destruct neg; cbn [append] in *; apply H.
  all: try (rewrite <- (str_app_empty_r f);
            apply (isDecimalLiteral_frac (String c r) f ""); trivial; discriminate).
  all: cbn [Num.allChars] in *; apply andb_true_iff in Hi as [_ Hi];
    rewrite (digit_notSpace c Hc), allChars_app; cbn [Num.allChars];
    rewrite (allChars_weaken _ _ r digit_notSpace Hi),
      (allChars_weaken _ _ f digit_notSpace Hf); reflexivity.
Qed.

Lemma cellText_decimal_comma (cell : ExcelJS.Cell) (neg : bool) (i f : string) :
  ExcelJS.value cell = ExcelJS.ValueOther ->
  ExcelJS.text cell = ExcelJS.TextString ((if neg then "-" else "") ++ i ++ "," ++ f) ->
  i <> "" -> Num.allChars Str.isDigit i = true -> Num.allChars Str.isDigit f = true ->
  cellText cell = ((if neg then "-" else "") ++ i ++ "." ++ f)%string.
Proof.
  intros Hv Ht Hne Hi Hf. unfold cellText. rewrite Hv, Ht.
  rewrite trim_id.
  2:{ apply signed_notSpace. rewrite allChars_app. cbn [Num.allChars append].
      now rewrite (allChars_weaken _ _ i digit_notSpace Hi),
        (allChars_weaken _ _ f digit_notSpace Hf). }
  rewrite test_percentText_none.
  2:{ apply signed_count; [reflexivity|]. apply count_app_zero. split.
      - now apply digits_count.
      - cbn [append Str.count]. now apply digits_count. }
  assert (Hrep : replaceAllStr ((if neg then "-" else "") ++ i ++ "," ++ f) "," "."
                 = ((if neg then "-" else "") ++ i ++ "." ++ f)%string).
  { replace ((if neg then "-" else "") ++ i ++ "," ++ f)%string
      with (((if neg then "-" else "") ++ i) ++ "," ++ f)%string
      by (now rewrite str_app_assoc).
    rewrite (replaceAllStr_once _ "," f "." 0 ","); try reflexivity.
    - now rewrite str_app_assoc.
    - apply signed_count; [reflexivity | now apply digits_count].
    - now apply digits_count. }
  rewrite Hrep. now rewrite isNaN_decimal.
Qed.

(** A cell that shows a number with a decimal comma gets the number with a
    decimal point as value, and no description. *)
Theorem getCellData_decimal_comma (cell : ExcelJS.Cell) (names : list string)
    (rn cn : Z) (cd : CellData) (neg : bool) (i f : string) :
  ExcelJS.value cell = ExcelJS.ValueOther ->
  ExcelJS.text cell = ExcelJS.TextString ((if neg then "-" else "") ++ i ++ "," ++ f) ->
  i <> "" -> Num.allChars Str.isDigit i = true -> Num.allChars Str.isDigit f = true ->
  getCellData cell names rn cn = Returns cd ->
  value cd = ((if neg then "-" else "") ++ i ++ "." ++ f)%string /\ description cd = "".
Proof.
  intros Hv Ht Hne Hi Hf Hcd. apply getCellData_value in Hcd as (Ev & Ed & _).
  rewrite (cellText_decimal_comma cell neg i f Hv Ht Hne Hi Hf) in Ev, Ed.
  rewrite isNaN_decimal in Ev, Ed by assumption. now split.
Qed.

Lemma getCellData_decimal_comma_witness :
  value (discount_data "-12.50" "") = ((if true then "-" else "") ++ "12" ++ "." ++ "50")%string /\
  description (discount_data "-12.50" "") = "".
Proof.
  refine (getCellData_decimal_comma (shownAs "-12,50") ["Sheet1"] 2 3
            (discount_data "-12.50" "") true "12" "50" _ _ _ _ _ _).
  - reflexivity.
  - reflexivity.
  - discriminate.
  - reflexivity.
  - reflexivity.
  - vm_compute. reflexivity.
Defined.

(** ** Thousands separators *)

Lemma replaceAllStr_char_first (c : ascii) (pre post tmpl : string) :
  Str.isLower c = false -> Str.isUpper c = false -> Str.count c pre = 0 ->
  Num.allChars notDollar tmpl = true ->
  replaceAllStr (pre ++ String c post) (Str.ch c) tmpl =
  (pre ++ tmpl ++ replaceAllStr post (Str.ch c) tmpl)%string.
Proof.
  intros Hl Hu Hpre Ht. unfold replaceAllStr.
  change (pre ++ String c post)%string with (pre ++ Str.ch c ++ post)%string.
  rewrite (replaceAll_first false (RLit (Str.ch c)) 0 tmpl (contextFree_RLit _))
    with (cs := []).
  - now rewrite getSubstitution_plain by exact Ht.
  - now apply forgetsBefore_plain.
  - intros bef p1 a p2 E.
    apply (lit_not_before false (Str.ch c) 0 c); trivial; [|discriminate].
    rewrite E in Hpre. now apply count_suffix in Hpre.
  - discriminate.
  - intros bef. eexists. split; [|split].
    + unfold matchHere. rewrite rmatch_RLit_text by apply sameText_refl. reflexivity.
    + reflexivity.
    + reflexivity.
Qed.

Lemma isNonDecimalLiteral_digits (c x : ascii) (r : string) :
  Str.isDigit x = true \/ x = "."%char \/ x = ","%char ->
  Num.isNonDecimalLiteral (String c (String x r)) = false.
Proof.
  intros Hx. destruct c as [[] [] [] [] [] [] [] []]; try reflexivity.
  cbn [Num.isNonDecimalLiteral].
  destruct Hx as [Hx|[->| ->]].
  - destruct x as [[] [] [] [] [] [] [] []]; try discriminate Hx;
      cbn; apply andb_false_r.
  - cbn. apply andb_false_r.
  - cbn. apply andb_false_r.
Qed.

(** Digits in three groups are not a number, whether a comma or a dot
    separates them. *)
Lemma isNaN_groups (sep : ascii) (i j k : string) :
  sep = ","%char \/ sep = "."%char ->
  i <> "" -> Num.allChars Str.isDigit i = true ->
  Num.allChars Str.isDigit j = true -> Num.allChars Str.isDigit k = true ->
  Num.isNaN (i ++ String sep (j ++ String sep k)) = true.
Proof.
  intros Hsep Hne Hi Hj Hk.
  assert (Hs : notSpace sep = true) by (destruct Hsep as [-> | ->]; reflexivity).
  unfold Num.isNaN. rewrite trim_id.
  2:{ rewrite allChars_app. cbn [Num.allChars]. rewrite allChars_app. cbn [Num.allChars].
      now rewrite Hs, (allChars_weaken _ _ i digit_notSpace Hi),
        (allChars_weaken _ _ j digit_notSpace Hj),
        (allChars_weaken _ _ k digit_notSpace Hk). }
  destruct (digits_first i Hi Hne) as (c & r & -> & Hc).
  cbn [append].
  destruct (digit_not_sign c Hc) as [H1 H2].
  assert (E : match String c (r ++ String sep (j ++ String sep k)) with
              | String "+" t => t
              | String "-" t => t
              | _ => String c (r ++ String sep (j ++ String sep k))
              end = String c (r ++ String sep (j ++ String sep k))).
  { destruct c as [[] [] [] [] [] [] [] []]; try reflexivity; congruence. }
  rewrite E. clear E.
  assert (Hinf : String.eqb (String c (r ++ String sep (j ++ String sep k))) "Infinity"
                 = false).
  { cbn [String.eqb]. destruct (Ascii.eqb_spec c "I") as [->|]; [discriminate Hc|reflexivity]. }
  assert (Hdec : Num.isDecimalLiteral (String c (r ++ String sep (j ++ String sep k)))
                 = false).
  { unfold Num.isDecimalLiteral.
    change (String c (r ++ String sep (j ++ String sep k)))
      with (String c r ++ String sep (j ++ String sep k))%string.
    assert (Hlead : noLeadingDigit (String sep (j ++ String sep k)) = true)
      by (destruct Hsep as [-> | ->]; reflexivity).
    destruct (readDigits_run (String c r) (String sep (j ++ String sep k)) Hi Hlead 0%Z 0)
      as [v ->].
    destruct Hsep as [-> | ->].
    - cbn. reflexivity || apply andb_false_r.
    - destruct (readDigits_run j (String "." k) Hj eq_refl 0%Z 0) as [v' ->].
      cbn. reflexivity || apply andb_false_r. }
  assert (Hnon : Num.isNonDecimalLiteral (String c (r ++ String sep (j ++ String sep k)))
                 = false).
  { cbn [Num.allChars] in Hi. apply andb_true_iff in Hi as [_ Hr].
    destruct r as [|x r]; cbn [append].
    - apply isNonDecimalLiteral_digits. destruct Hsep as [-> | ->]; auto.
    - apply isNonDecimalLiteral_digits. left. cbn [Num.allChars] in Hr.
      now apply andb_true_iff in Hr as [Hx _]. }
  rewrite Hinf, Hdec, Hnon. reflexivity.
Qed.

Lemma cellText_thousands (cell : ExcelJS.Cell) (i j k : string) :
  ExcelJS.value cell = ExcelJS.ValueOther ->
  ExcelJS.text cell = ExcelJS.TextString (i ++ "," ++ j ++ "," ++ k) ->
  i <> "" -> Num.allChars Str.isDigit i = true ->
  Num.allChars Str.isDigit j = true -> Num.allChars Str.isDigit k = true ->
  cellText cell = (i ++ "," ++ j ++ "," ++ k)%string.
Proof.
  intros Hv Ht Hne Hi Hj Hk. unfold cellText. rewrite Hv, Ht.
  rewrite trim_id.
  2:{ rewrite allChars_app. cbn [Num.allChars append]. rewrite allChars_app.
      cbn [Num.allChars].
      now rewrite (allChars_weaken _ _ i digit_notSpace Hi),
        (allChars_weaken _ _ j digit_notSpace Hj),
        (allChars_weaken _ _ k digit_notSpace Hk). }
  rewrite test_percentText_none.
  2:{ apply count_app_zero. split; [now apply digits_count|].
      cbn [append Str.count]. apply count_app_zero. split; [now apply digits_count|].
      cbn [Str.count]. now apply digits_count. }
  assert (Hrep : replaceAllStr (i ++ "," ++ j ++ "," ++ k) "," "."
                 = (i ++ String "." (j ++ String "." k))%string).
  { change "," with (Str.ch ","%char) at 3.
    change (i ++ "," ++ j ++ "," ++ k)%string
      with (i ++ String "," (j ++ String "," k))%string.
    rewrite !replaceAllStr_char_first by (trivial; now apply digits_count).
    rewrite replaceAllStr_absent by (trivial; now apply digits_count).
    reflexivity. }
  rewrite Hrep. rewrite (isNaN_groups "." i j k) by auto. reflexivity.
Qed.

(** A number shown with two thousands separators is not taken as a
    number: the cell gets the text as description and no value. *)
Theorem getCellData_thousands (cell : ExcelJS.Cell) (names : list string)
    (rn cn : Z) (cd : CellData) (i j k : string) :
  ExcelJS.value cell = ExcelJS.ValueOther ->
  ExcelJS.text cell = ExcelJS.TextString (i ++ "," ++ j ++ "," ++ k) ->
  i <> "" -> Num.allChars Str.isDigit i = true ->
  Num.allChars Str.isDigit j = true -> Num.allChars Str.isDigit k = true ->
  getCellData cell names rn cn = Returns cd ->
  value cd = "" /\ description cd = (i ++ "," ++ j ++ "," ++ k)%string.
Proof.
  intros Hv Ht Hne Hi Hj Hk Hcd. apply getCellData_value in Hcd as (Ev & Ed & _).
  rewrite (cellText_thousands cell i j k Hv Ht Hne Hi Hj Hk) in Ev, Ed.
  change (i ++ "," ++ j ++ "," ++ k)%string
    with (i ++ String "," (j ++ String "," k))%string in Ev, Ed.
  rewrite (isNaN_groups "," i j k) in Ev, Ed by auto. now split.
Qed.

Lemma getCellData_thousands_witness :
  value (discount_data "" "1,234,567") = "" /\
  description (discount_data "" "1,234,567") = ("1" ++ "," ++ "234" ++ "," ++ "567")%string.
Proof.
  refine (getCellData_thousands (shownAs "1,234,567") ["Sheet1"] 2 3
            (discount_data "" "1,234,567") "1" "234" "567" _ _ _ _ _ _ _).
  - reflexivity.
  - reflexivity.
  - discriminate.
  - reflexivity.
  - reflexivity.
  - reflexivity.
  - vm_compute. reflexivity.
Defined.

Example cellText_comma_ex :
  cellText (shownAs "12,5") = "12.5" /\ cellText (shownAs "1,234,567") = "1,234,567".
Proof. split; vm_compute; reflexivity. Qed.

(** * Workbooks that are read without error *)

(** ** Patterns of plain sheet names *)

Lemma parse_plain (src : string) :
  Num.allChars plainChar src = true ->
  forall cur q n, exists r m, Pattern.parse src [] cur q n = Returns (r, m).
Proof.
  induction src as [|c src IH]; intros H cur q n; cbn [Pattern.parse]; [eauto|].
  cbn [Num.allChars] in H. apply andb_true_iff in H as [Hc Hs].
  unfold plainChar in Hc. apply andb_true_iff in Hc as [Hc Hascii].
  apply negb_true_iff in Hc. cbn [existsb] in Hc.
  repeat (apply orb_false_iff in Hc as [? Hc]).
  replace (Pattern.isUnsupported c) with false
    by (symmetry; unfold Pattern.isUnsupported; cbn [existsb]; rewrite Hascii;
        repeat (apply orb_false_iff; split; trivial)).
  replace (Ascii.eqb c "(") with false by congruence.
  replace (Ascii.eqb c ")") with false by congruence.
  replace (Ascii.eqb c "+") with false by congruence.
  repeat match goal with |- context [if ?b then _ else _] => destruct b end;
    now apply IH.
Qed.

Lemma renderFirst_chars (p : ascii -> bool) (ic : bool) (r : regex) (tmpl : string) :
  Num.allChars notDollar tmpl = true -> Num.allChars p tmpl = true ->
  forall fuel bef aft,
    Num.allChars p aft = true ->
    Num.allChars p (renderFirst tmpl (scan fuel ic r bef aft)) = true.
Proof.
  intros Hd Ht. induction fuel as [|fuel IH]; intros bef aft Ha; [reflexivity|].
  cbn [scan]. destruct (matchHere ic r bef aft) as [y|] eqn:Hy.
  - assert (Hafter : Num.allChars p (after y) = true).
    { unfold matchHere in Hy. apply rmatch_passesOn in Hy as (y' & [= ->] & [w Hw]).
      cbn [after] in Hw. rewrite Hw, allChars_app in Ha.
      now apply andb_true_iff in Ha as [_ Ha]. }
    destruct (Str.take _ aft); [destruct aft|]; cbn [renderFirst m_after];
      rewrite getSubstitution_plain by exact Hd;
      now rewrite allChars_app, Ht, Hafter.
  - destruct aft as [|c rest]; [reflexivity|]. cbn [renderFirst Num.allChars].
    cbn [Num.allChars] in Ha. apply andb_true_iff in Ha as [Hc Hr].
    now rewrite Hc, IH.
Qed.

Lemma quoteSheetName_plain (nm : string) :
  plainName nm = true -> Num.allChars plainChar (quoteSheetName nm ++ "!") = true.
Proof.
  intros H. unfold quoteSheetName. destruct (Str.includes nm " ").
  - rewrite !allChars_app. cbn [Num.allChars]. unfold replaceFirstStr, scanAll.
    rewrite (renderFirst_chars plainChar); trivial.
  - rewrite allChars_app. unfold plainName in H. now rewrite H.
Qed.

Lemma plain_patternsCompile (names : list string) :
  forallb plainName names = true -> patternsCompile names.
Proof.
  intros H nm Hin. rewrite forallb_forall in H.
  apply parse_plain. apply quoteSheetName_plain. now apply H.
Qed.

(** ** The traversal returns *)

Section Returning.

Variable names : list string.
Hypothesis names_fine : (List.length names <= 1)%nat \/ patternsCompile names.

Lemma visitCell_returns (rowNum startColumn : Z) (st : BuildState)
    (entry : Z * ExcelJS.Cell) :
  translates (snd entry) = true ->
  exists st', visitCell names rowNum startColumn st entry = Returns st'.
Proof.
  intros Ht. unfold visitCell.
  destruct (getCellData_returns (snd entry) names rowNum (fst entry + startColumn)
              Ht names_fine) as [cd ->].
  cbn [bind]. destruct (previousCell st); [destruct (isLabelFor _ _)|]; eauto.
Qed.

Lemma eachCell_returns (rowNum startColumn : Z) (row : ExcelJS.Row) :
  forallb translates (map snd row) = true ->
  forall st, exists st', eachCell names rowNum startColumn row st = Returns st'.
Proof.
  induction row as [|entry row IH]; intros H st; cbn [eachCell]; [eauto|].
  cbn [map forallb] in H. apply andb_true_iff in H as [He Hrow].
  destruct (visitCell_returns rowNum startColumn st entry He) as [st1 ->].
  cbn [bind]. now apply IH.
Qed.

Lemma eachRow_returns (startColumn : Z) (rows : list (Z * ExcelJS.Row)) :
  forallb translates (flat_map (fun r => map snd (snd r)) rows) = true ->
  forall st, exists st', eachRow names startColumn rows st = Returns st'.
Proof.
  induction rows as [|entry rows IH]; intros H st; cbn [eachRow]; [eauto|].
  cbn [flat_map] in H. rewrite forallb_app in H. apply andb_true_iff in H as [He Hrows].
  unfold visitRow.
  destruct (eachCell_returns (fst entry) startColumn (snd entry) He
              {| maxColumn := maxColumn st; gridCells := gridCells st;
                 previousCell := None |}) as [st1 ->].
  cbn [bind]. now apply IH.
Qed.

Lemma eachSheet_returns (sheets : list ExcelJS.Worksheet) :
  forallb translates (workbookCells sheets) = true ->
  forall st, exists st', eachSheet names sheets st = Returns st'.
Proof.
  induction sheets as [|sheet sheets IH]; intros H st; cbn [eachSheet]; [eauto|].
  unfold workbookCells in H. cbn [flat_map] in H. rewrite forallb_app in H.
  apply andb_true_iff in H as [Hsh Hsheets].
  unfold visitSheet.
  destruct (eachRow_returns (maxColumn st + 1) (ExcelJS.rows sheet) Hsh st) as [st1 ->].
  cbn [bind]. now apply IH.
Qed.

End Returning.

(** A cell that [makeGrid] gets past is one on whose formula the passes
    return. *)
Lemma getCellData_translates (cell : ExcelJS.Cell) (names : list string)
    (rowNum colNum : Z) (cd : CellData) :
  getCellData cell names rowNum colNum = Returns cd -> translates cell = true.
Proof.
  unfold getCellData, translates.
  destruct (translate (rawFormula cell)); cbn [bind returned];
    (reflexivity || discriminate).
Qed.

Lemma eachCell_translates (names : list string) (rowNum startColumn : Z)
    (row : ExcelJS.Row) :
  forall st st',
    eachCell names rowNum startColumn row st = Returns st' ->
    forallb translates (map snd row) = true.
Proof.
  induction row as [|entry row IH]; intros st st' H; [reflexivity|].
  rewrite eachCell_cons in H. apply bind_Returns in H as (st1 & Hv & H).
  apply visitCell_spec in Hv as (cd & Hcd & _).
  cbn [map forallb]. rewrite (getCellData_translates _ _ _ _ _ Hcd).
  exact (IH _ _ H).
Qed.

Lemma eachRow_translates (names : list string) (startColumn : Z)
    (rows : list (Z * ExcelJS.Row)) :
  forall st st',
    eachRow names startColumn rows st = Returns st' ->
    forallb translates (flat_map (fun r => map snd (snd r)) rows) = true.
Proof.
  induction rows as [|entry rows IH]; intros st st' H; [reflexivity|].
  rewrite eachRow_cons in H. apply bind_Returns in H as (st1 & Hv & H).
  rewrite visitRow_eq in Hv. apply eachCell_translates in Hv.
  cbn [flat_map]. rewrite forallb_app. apply andb_true_iff.
  split; [exact Hv | exact (IH _ _ H)].
Qed.

Lemma eachSheet_translates (names : list string) (sheets : list ExcelJS.Worksheet) :
  forall st st',
    eachSheet names sheets st = Returns st' ->
    forallb translates (workbookCells sheets) = true.
Proof.
  induction sheets as [|sheet sheets IH]; intros st st' H; [reflexivity|].
  rewrite eachSheet_cons in H. apply bind_Returns in H as (st1 & Hv & H).
  rewrite visitSheet_eq in Hv. apply eachRow_translates in Hv.
  unfold workbookCells. cbn [flat_map]. rewrite forallb_app. apply andb_true_iff.
  split; [exact Hv | exact (IH _ _ H)].
Qed.

(** ** Where an exception comes from *)






(** Apart from the translator passes and the patterns built from sheet
    names nothing in [makeGrid] throws: for a workbook that has one sheet
    at most, or sheet names made of ASCII characters other than
    parentheses, quantifiers, brackets, braces and the backslash,
    [makeGrid] returns a Grid, with the sheet names of the workbook, exactly
    when the passes return on the formula of every cell. *)
Theorem makeGrid_returns (wb : ExcelJS.Workbook) :
  (List.length wb <= 1)%nat \/ forallb plainName (map ExcelJS.name wb) = true ->
  (exists g, makeGrid wb = Returns g /\ sheetNames g = map ExcelJS.name wb) <->
  forallb translates (workbookCells wb) = true.
Proof.
  intros H. split.
  - intros (g & Hg & _). apply makeGrid_run in Hg as (st & Hrun & _).
    exact (eachSheet_translates _ _ _ _ Hrun).
  - intros Ht. unfold makeGrid.
    assert (Hn : (List.length (map ExcelJS.name wb) <= 1)%nat \/
                 patternsCompile (map ExcelJS.name wb)).
    { destruct H as [H|H]; [left; now rewrite length_map | right].
      now apply plain_patternsCompile. }
    destruct (eachSheet_returns (map ExcelJS.name wb) Hn wb Ht
                {| maxColumn := 0; gridCells := []; previousCell := None |}) as [st ->].
    cbn [bind]. eexists. split; reflexivity.
Qed.

Lemma makeGrid_returns_witness :
  exists g, makeGrid wb_budget = Returns g /\ sheetNames g = map ExcelJS.name wb_budget.
Proof.
  apply (makeGrid_returns wb_budget); [right; reflexivity|].
  vm_compute. reflexivity.
Defined.




(** * References in a workbook with several sheets *)

(** ** Patterns of word names *)

Lemma parse_ordinary (c : ascii) (rest : string) (stack : list Pattern.frame)
    (cur : Pattern.frame) (q : bool) (n : nat) :
  Str.isWordChar c = true \/ c = "!"%char ->
  Pattern.parse (String c rest) stack cur q n =
  Pattern.parse rest stack (Pattern.pushTerm (RChar c) cur) true n.
Proof.
  intros [H| ->]; [|reflexivity].
  destruct c as [[] [] [] [] [] [] [] []]; try discriminate H; reflexivity.
Qed.

Lemma parse_ordinary_text (src : string) :
  Num.allChars (fun c => Str.isWordChar c || Ascii.eqb c "!") src = true ->
  forall alts acc g q n,
    Pattern.parse src [] (Pattern.Frame alts acc g) q n =
    Returns (Pattern.closeFrame (Pattern.Frame alts (rev (charTerms src) ++ acc) g), n).
Proof.
  induction src as [|c src IH]; intros H alts acc g q n; [reflexivity|].
  cbn [Num.allChars] in H. apply andb_true_iff in H as [Hc Hs].
  rewrite parse_ordinary.
  2:{ apply orb_true_iff in Hc as [Hc|Hc]; [now left | right; now apply Ascii.eqb_eq]. }
  unfold Pattern.pushTerm. cbn [Pattern.f_alts Pattern.f_seq Pattern.f_group].
  rewrite IH by exact Hs. cbn [charTerms rev]. now rewrite <- app_assoc.
Qed.

Lemma compile_word (S : string) :
  Num.allChars Str.isWordChar S = true ->
  Pattern.compile (S ++ "!") = Returns (RSeqs (charTerms (S ++ "!")), 0).
Proof.
  intros H. unfold Pattern.compile. rewrite parse_ordinary_text.
  - unfold Pattern.closeFrame. cbn [Pattern.f_alts Pattern.f_seq fold_left].
    now rewrite app_nil_r, rev_involutive.
  - rewrite allChars_app. cbn [Num.allChars].
    rewrite (allChars_weaken Str.isWordChar _ S); [reflexivity| |exact H].
    intros c Hc. now rewrite Hc.
Qed.

(** One term for each character is the literal. *)
Lemma rmatch_charTerms (ic : bool) (s : string) :
  forall k x, rmatch ic (RSeqs (charTerms s)) k x = rmatch ic (RLit s) k x.
Proof.
  induction s as [|c s IH]; intros k x; [reflexivity|].
  cbn [charTerms RLit]. destruct s as [|d s].
  - reflexivity.
  - change (RSeqs (RChar c :: charTerms (String d s)))
      with (RSeq (RChar c) (RSeqs (charTerms (String d s)))).
    rewrite !rmatch_RSeq. cbn [rmatch].
    destruct (after x) as [|a rest]; [reflexivity|].
    destruct (charEq ic a c); [apply IH | reflexivity].
Qed.

Lemma scan_ext (ic : bool) (r r' : regex) :
  (forall bef aft, matchHere ic r bef aft = matchHere ic r' bef aft) ->
  forall fuel bef aft, scan fuel ic r bef aft = scan fuel ic r' bef aft.
Proof.
  intros H. induction fuel as [|fuel IH]; intros bef aft; [reflexivity|].
  cbn [scan]. rewrite H. destruct (matchHere ic r' bef aft) as [y|].
  - destruct (Str.take _ aft); [destruct aft|]; now rewrite ?IH.
  - destruct aft; now rewrite ?IH.
Qed.

Lemma replaceAll_charTerms (ic : bool) (s : string) (n : nat) (tmpl t : string) :
  replaceAll ic (RSeqs (charTerms s)) n tmpl t = replaceAll ic (RLit s) n tmpl t.
Proof.
  unfold replaceAll, scanAll. f_equal. apply scan_ext.
  intros bef aft. unfold matchHere. apply rmatch_charTerms.
Qed.

(** ** Word names *)

Lemma wordName_chars (S : string) :
  wordName S = true -> S <> "" /\ Num.allChars Str.isWordChar S = true.
Proof.
  unfold wordName. intros H. apply andb_true_iff in H as [Hne Hw].
  split; [intros ->; discriminate | exact Hw].
Qed.

Lemma keep_all (p : ascii -> bool) (s : string) :
  Num.allChars p s = true -> keep p s = s.
Proof.
  induction s as [|c s IH]; cbn [Num.allChars keep]; [reflexivity|].
  intros H. apply andb_true_iff in H as [Hc Hs]. now rewrite Hc, IH.
Qed.

Lemma makePrefix_wordName (S : string) :
  wordName S = true -> makePrefix S = (S ++ "!")%string.
Proof.
  intros H. apply wordName_chars in H as [_ H].
  now rewrite makePrefix_word, keep_all.
Qed.

Lemma quoteSheetName_wordName (S : string) :
  wordName S = true -> quoteSheetName S = S.
Proof.
  intros H. apply wordName_chars in H as [_ H]. unfold quoteSheetName.
  change " " with (Str.ch " "%char).
  rewrite includes_char; [reflexivity|]. now apply (allChars_count Str.isWordChar).
Qed.

Lemma word_count_bang (S : string) :
  Num.allChars Str.isWordChar S = true -> Str.count "!" S = 0.
Proof. now apply allChars_count. Qed.

Lemma word_notDollar (S : string) :
  Num.allChars Str.isWordChar S = true -> Num.allChars notDollar (S ++ "!") = true.
Proof.
  intros H. rewrite allChars_app. cbn [Num.allChars].
  now rewrite (allChars_weaken _ _ S wordChar_notDollar H).
Qed.

(** ** Texts that are the same up to case *)

Lemma sameText_any (ic : bool) (p w : string) :
  sameText ic p w = true -> sameText true p w = true.
Proof.
  destruct ic; [trivial|]. revert w.
  induction p as [|c p IH]; intros [|a w] H; cbn [sameText] in *; try discriminate;
    [reflexivity|].
  apply andb_true_iff in H as [Hc Hw]. rewrite (IH w Hw), andb_true_r.
  unfold charEq, canon in *. apply Ascii.eqb_eq in Hc. subst a. apply Ascii.eqb_refl.
Qed.

Lemma sameText_app_inv (ic : bool) (p q : string) :
  forall w, sameText ic (p ++ q) w = true ->
            exists w1 w2, w = (w1 ++ w2)%string /\ sameText ic p w1 = true /\
                          sameText ic q w2 = true.
Proof.
  induction p as [|c p IH]; intros w H.
  - exists "", w. now repeat split.
  - destruct w as [|a w]; cbn [append sameText] in H; [discriminate|].
    apply andb_true_iff in H as [Hc Hw].
    destruct (IH w Hw) as (w1 & w2 & -> & H1 & H2).
    exists (String a w1), w2. repeat split; trivial. cbn [sameText]. now rewrite Hc, H1.
Qed.

Lemma sameText_bang (ic : bool) (w : string) : sameText ic "!" w = true -> w = "!".
Proof.
  destruct w as [|a [|b w]]; cbn [sameText]; try discriminate.
  - intros H. apply andb_true_iff in H as [Hc _].
    apply charEq_caseless in Hc; [now subst | reflexivity..].
  - intros H. apply andb_true_iff in H as [_ H]. discriminate.
Qed.

Lemma upperChar_word (c : ascii) : Str.isWordChar (Str.upperChar c) = Str.isWordChar c.
Proof. destruct c as [[] [] [] [] [] [] [] []]; reflexivity. Qed.

Lemma sameText_word (p w : string) :
  sameText true p w = true -> Num.allChars Str.isWordChar p = true ->
  Num.allChars Str.isWordChar w = true.
Proof.
  revert w. induction p as [|c p IH]; intros [|a w] H Hp; cbn [sameText] in H;
    try discriminate; [reflexivity|].
  apply andb_true_iff in H as [Hc Hw]. cbn [Num.allChars] in *.
  apply andb_true_iff in Hp as [Hpc Hp]. rewrite (IH w Hw Hp), andb_true_r.
  unfold charEq, canon in Hc. apply Ascii.eqb_eq in Hc.
  now rewrite <- upperChar_word, Hc, upperChar_word.
Qed.

Lemma endsWithCI_false (S N u v : string) :
  endsWithCI S N = false -> N = (u ++ v)%string -> sameText true S v = false.
Proof.
  revert N. induction u as [|c u IH]; intros N H ->.
  - destruct v; cbn [append endsWithCI] in H; now apply orb_false_iff in H as [H _].
  - cbn [append endsWithCI] in H. apply orb_false_iff in H as [_ H].
    now apply (IH (u ++ v)%string).
Qed.

(** ** Cutting a text in two ways *)

Lemma app_eq_app (X N : string) :
  forall u v, (X ++ N)%string = (u ++ v)%string ->
    (exists u', N = (u' ++ v)%string) \/
    (exists x', x' <> "" /\ X = (u ++ x')%string /\ v = (x' ++ N)%string).
Proof.
  induction X as [|c X IH]; intros u v E.
  - left. now exists u.
  - destruct u as [|d u]; cbn [append] in E.
    + right. exists (String c X). repeat split; [discriminate | now subst].
    + injection E as <- E. destruct (IH u v E) as [H|(x' & Hne & -> & ->)].
      * now left.
      * right. now exists x'.
Qed.

Lemma count_rev_app (c : ascii) (s : string) :
  forall acc, Str.count c (Str.rev_app s acc) = Str.count c s + Str.count c acc.
Proof.
  induction s as [|a s IH]; intros acc; [reflexivity|].
  cbn [Str.rev_app Str.count]. rewrite IH. cbn [Str.count]. lia.
Qed.

(** A run of word characters at the end of a text does not reach beyond
    the character that is not one. *)
Lemma word_suffix (X N u v : string) :
  stopsAt Str.isWordChar (Str.rev X) = true ->
  (X ++ N)%string = (u ++ v)%string -> Num.allChars Str.isWordChar v = true ->
  exists u', N = (u' ++ v)%string.
Proof.
  intros HX E Hv. destruct (app_eq_app X N u v E) as [H|(x' & Hne & -> & ->)]; [exact H|].
  exfalso. rewrite allChars_app in Hv. apply andb_true_iff in Hv as [Hx _].
  unfold Str.rev in HX. rewrite rev_app_app in HX.
  now rewrite stopsAt_rev in HX.
Qed.

(** ** The round of another sheet *)

Section OtherSheet.

(** The formula is [X ++ N ++ "!" ++ B], with its one exclamation mark. *)
Variables (X N B S : string).

Hypothesis X_ends : stopsAt Str.isWordChar (Str.rev X) = true.
Hypothesis X_quiet : Str.count "!" X = 0.
Hypothesis B_quiet : Str.count "!" B = 0.
Hypothesis N_word : Num.allChars Str.isWordChar N = true.
Hypothesis S_word : Num.allChars Str.isWordChar S = true.
Hypothesis S_other : endsWithCI S N = false.

Lemma sheet_not_here (ic : bool) (k : mstate -> option mstate) (b t : string)
    (cs : list (nat * string)) :
  isSuffix t (X ++ N ++ "!" ++ B)%string ->
  rmatch ic (RLit (S ++ "!")) k (MState b t cs) = None.
Proof.
  intros [p0 Hp0].
  destruct (rmatch ic (RLit (S ++ "!")) k _) as [z|] eqn:Hz; [exfalso|reflexivity].
  apply rmatch_RLit_inv in Hz as (w & rest & Ew & Hw). cbn [after] in Ew. subst t.
  apply sameText_app_inv in Hw as (w1 & w2 & -> & H1 & H2).
  apply sameText_bang in H2. subst w2. apply sameText_any in H1.
  pose proof (sameText_word S w1 H1 S_word) as Hw1.
  assert (Hc : Str.count "!" (X ++ N ++ "!" ++ B) = 1).
  { rewrite !count_app, X_quiet, B_quiet, (word_count_bang N N_word). reflexivity. }
  rewrite Hp0 in Hc. rewrite !count_app in Hc.
  rewrite (word_count_bang w1 Hw1) in Hc. cbn [Str.count Ascii.eqb Bool.eqb] in Hc.
  assert (E : ((X ++ N) ++ String "!" B)%string = ((p0 ++ w1) ++ String "!" rest)%string).
  { rewrite !str_app_assoc. cbn [append] in *. rewrite Hp0.
    now rewrite !str_app_assoc. }
  apply first_sep in E as [E _].
  - apply word_suffix in E as [u' Hu']; trivial.
    now rewrite (endsWithCI_false S N u' w1 S_other Hu') in H1.
  - rewrite count_app, X_quiet. now apply word_count_bang.
  - rewrite count_app, (word_count_bang w1 Hw1). lia.
Qed.

Lemma normalizeSheet_other :
  normalizeSheet (X ++ N ++ "!" ++ B)%string S = Returns (X ++ N ++ "!" ++ B)%string.
Proof.
  unfold normalizeSheet.
  assert (Hq : quoteSheetName S = S).
  { unfold quoteSheetName. change " " with (Str.ch " "%char).
    rewrite includes_char; [reflexivity|].
    now apply (allChars_count Str.isWordChar). }
  assert (Hp : makePrefix S = (S ++ "!")%string)
    by (now rewrite makePrefix_word, keep_all).
  rewrite Hq, Hp, compile_word by exact S_word. cbn [bind fst snd].
  rewrite replaceAll_charTerms.
  rewrite (replaceAll_no_match true (RLit (S ++ "!"))).
  - rewrite (replaceAll_no_match false (re_prefixed (S ++ "!"))); [reflexivity|].
    unfold matchAll, scanAll.
    apply (scan_no_match false _ (fun t => isSuffix t (X ++ N ++ "!" ++ B)%string)).
    + intros c s H. eapply isSuffix_trans; [apply isSuffix_tail | exact H].
    + intros bef aft H. unfold matchHere, re_prefixed.
      rewrite rmatch_RGroup, rmatch_RSeq. now apply sheet_not_here.
    + apply isSuffix_refl.
  - unfold matchAll, scanAll.
    apply (scan_no_match true _ (fun t => isSuffix t (X ++ N ++ "!" ++ B)%string)).
    + intros c s H. eapply isSuffix_trans; [apply isSuffix_tail | exact H].
    + intros bef aft H. now apply sheet_not_here.
    + apply isSuffix_refl.
Qed.

End OtherSheet.

(** ** The round of the sheet of the cell *)

Section OwnSheet.

Variables (pre N ref post : string).

Hypothesis pre_quiet : Str.count "!" pre = 0.
Hypothesis post_quiet : Str.count "!" post = 0.
Hypothesis post_stops : stopsAt Str.isDigit post = true.
Hypothesis N_word : Num.allChars Str.isWordChar N = true.
Hypothesis ref_address : isAddress ref = true.

Lemma address_count_bang : Str.count "!" ref = 0.
Proof.
  apply (allChars_count (fun c => Str.isUpper c || Str.isDigit c)); [reflexivity|].
  apply isAddress_chars; trivial; intros c Hc; rewrite Hc; [reflexivity | apply orb_true_r].
Qed.

(** The prefix of the sheet is not found before its place. *)
Lemma prefix_not_before (ic : bool) (k : mstate -> option mstate)
    (b p1 p2 t : string) (c : ascii) (cs : list (nat * string)) :
  pre = (p1 ++ String c p2)%string -> Str.count "!" t = 0 ->
  rmatch ic (RLit (N ++ "!")) k (MState b (String c p2 ++ (N ++ "!") ++ t)%string cs)
  = None.
Proof.
  intros E Ht.
  destruct (rmatch ic (RLit (N ++ "!")) k _) as [z|] eqn:Hz; [exfalso|reflexivity].
  apply rmatch_RLit_inv in Hz as (w & rest & Ew & Hw). cbn [after] in Ew.
  apply sameText_app_inv in Hw as (w1 & w2 & -> & H1 & H2).
  apply sameText_bang in H2. subst w2. apply sameText_any in H1.
  pose proof (sameText_word N w1 H1 N_word) as Hw1.
  pose proof (sameText_length true N w1 H1) as Hlen.
  assert (E2 : ((String c p2 ++ N) ++ String "!" t)%string = (w1 ++ String "!" rest)%string).
  { rewrite !str_app_assoc in Ew. rewrite !str_app_assoc. exact Ew. }
  apply first_sep in E2 as [E2 _].
  - apply (f_equal String.length) in E2. rewrite str_length_app in E2.
    cbn [String.length] in E2. lia.
  - rewrite count_app, (word_count_bang N N_word).
    rewrite E in pre_quiet. apply count_suffix in pre_quiet. now rewrite pre_quiet.
  - now apply word_count_bang.
Qed.

Lemma bang_needed (ic : bool) (k : mstate -> option mstate) (b t : string)
    (cs : list (nat * string)) :
  Str.count "!" t = 0 -> rmatch ic (RLit (N ++ "!")) k (MState b t cs) = None.
Proof.
  intros Ht. destruct (rmatch ic (RLit (N ++ "!")) k _) as [z|] eqn:Hz; [exfalso|reflexivity].
  apply (rmatch_RLit_needs ic "!") in Hz; [|reflexivity|reflexivity|].
  - cbn [after] in Hz. contradiction.
  - rewrite count_app. cbn [Str.count Ascii.eqb Bool.eqb]. lia.
Qed.

Lemma own_prefix_kept :
  replaceAll true (RLit (N ++ "!")) 0 (N ++ "!") (pre ++ (N ++ "!") ++ ref ++ post)%string
  = (pre ++ (N ++ "!") ++ ref ++ post)%string.
Proof.
  assert (Hrest : Str.count "!" (ref ++ post) = 0)
    by (now rewrite count_app, address_count_bang, post_quiet).
  rewrite (replaceAll_first true (RLit (N ++ "!")) 0 _ (contextFree_RLit _))
    with (cs := []).
  - rewrite getSubstitution_plain by now apply word_notDollar.
    rewrite (replaceAll_none true (RLit (N ++ "!")) "!"); trivial.
    intros bef aft Ha. now apply bang_needed.
  - apply forgetsBefore_plain. now apply word_notDollar.
  - intros bef p1 c p2 E. now apply (prefix_not_before true _ bef p1).
  - destruct N; discriminate.
  - intros bef. eexists. split; [|split].
    + unfold matchHere. rewrite rmatch_RLit_text by apply sameText_refl. reflexivity.
    + reflexivity.
    + reflexivity.
Qed.

Lemma own_reference_wrapped :
  replaceAll false (re_prefixed (N ++ "!")) 1 "${metric:$1}"
    (pre ++ (N ++ "!") ++ ref ++ post)%string
  = (pre ++ "${metric:" ++ (N ++ "!") ++ ref ++ "}" ++ post)%string.
Proof.
  destruct (isAddress_shape ref ref_address) as (L & ds & Eref & HL & Hne & Hds).
  replace (pre ++ (N ++ "!") ++ ref ++ post)%string
    with (pre ++ ((N ++ "!") ++ ref) ++ post)%string by (now rewrite !str_app_assoc).
  rewrite (replaceAll_first false (re_prefixed (N ++ "!")) 1 "${metric:$1}")
    with (cs := [(1, ((N ++ "!") ++ ref)%string)]).
  - rewrite getSubstitution_metric. unfold group. cbn [m_caps lookupCap Nat.eqb].
    rewrite (replaceAll_none false (re_prefixed (N ++ "!")) "!"); trivial.
    + now rewrite !str_app_assoc.
    + intros bef aft Ha. unfold matchHere, re_prefixed.
      rewrite rmatch_RGroup, rmatch_RSeq. now apply bang_needed.
  - unfold re_prefixed. cbn [contextFree]. now rewrite contextFree_RLit.
  - apply (forgetsBefore_group 1 _ (fun g => "${metric:" ++ g ++ "}")%string).
    apply getSubstitution_metric.
  - intros bef p1 c p2 E. unfold matchHere, re_prefixed.
    rewrite rmatch_RGroup, rmatch_RSeq, !str_app_assoc.
    rewrite <- (str_app_assoc N "!").
    apply (prefix_not_before false _ bef p1); trivial.
    now rewrite count_app, address_count_bang, post_quiet.
  - destruct N; discriminate.
  - intros bef. eexists. split; [|split].
    + unfold matchHere, re_prefixed. rewrite rmatch_RGroup, rmatch_RSeq.
      rewrite str_app_assoc.
      rewrite rmatch_RLit_text by apply sameText_refl. unfold stateAfter.
      unfold re_address. rewrite rmatch_RSeq. subst ref.
      apply rmatch_address; trivial.
    + reflexivity.
    + unfold setCap, consumed. cbn [after before caps]. subst ref.
      rewrite <- (str_app_assoc (N ++ "!") (String L ds) post).
      now rewrite take_app_exact.
Qed.

Lemma normalizeSheet_own :
  N <> "" ->
  normalizeSheet (pre ++ N ++ "!" ++ ref ++ post)%string N =
  Returns (pre ++ "${metric:" ++ N ++ "!" ++ ref ++ "}" ++ post)%string.
Proof.
  intros Hne. unfold normalizeSheet.
  assert (Hw : wordName N = true)
    by (unfold wordName; rewrite N_word; destruct N; [congruence | reflexivity]).
  rewrite quoteSheetName_wordName, makePrefix_wordName, compile_word by assumption.
  cbn [bind fst snd]. rewrite replaceAll_charTerms.
  replace (pre ++ N ++ "!" ++ ref ++ post)%string
    with (pre ++ (N ++ "!") ++ ref ++ post)%string by (now rewrite !str_app_assoc).
  rewrite own_prefix_kept, own_reference_wrapped.
  now rewrite !str_app_assoc.
Qed.

End OwnSheet.

(** ** The prefix of the own sheet *)

Lemma unprefixed_none (bef t : string) :
  matchHere false (RGroup 1 re_address) bef t = None ->
  matchHere false re_unprefixed bef t = None.
Proof.
  unfold matchHere, re_unprefixed. rewrite rmatch_RSeq. intros H.
  cbn [rmatch before]. destruct bef as [|a bef]; [exact H|].
  destruct (Ascii.eqb a "!"); [reflexivity | exact H].
Qed.

Lemma unprefixed_here (pre ref post : string) :
  Str.count "!" pre = 0 -> isAddress ref = true -> stopsAt Str.isDigit post = true ->
  matchHere false re_unprefixed (Str.rev_app pre "") (ref ++ post)%string =
  Some (MState (Str.rev_app ref (Str.rev_app pre "")) post [(1, ref)]).
Proof.
  intros Hpre Href Hpost.
  destruct (isAddress_shape ref Href) as (L & ds & -> & HL & Hne & Hds).
  unfold matchHere, re_unprefixed. rewrite rmatch_RSeq.
  assert (Hlook : forall k x, before x = Str.rev_app pre "" ->
                    rmatch false (RNotAfter "!") k x = k x).
  { intros k x Ex. cbn [rmatch]. rewrite Ex.
    pose proof (count_rev_app "!" pre "") as Hc. rewrite Hpre in Hc.
    destruct (Str.rev_app pre "") as [|a r]; [reflexivity|].
    cbn [Str.count] in Hc. destruct (Ascii.eqb a "!"); [discriminate | reflexivity]. }
  rewrite Hlook by reflexivity.
  now apply rmatch_address_group.
Qed.

Lemma getSubstitution_group (m : jsmatch) : getSubstitution 1 m "$1" = group 1 m.
Proof. unfold group, getSubstitution, capOr. cbn. now rewrite str_app_empty_r. Qed.

Lemma prefix_own_sheet (N pre ref post : string) :
  Num.allChars Str.isWordChar N = true ->
  addressFree pre = true -> Str.count "!" pre = 0 -> isAddress ref = true ->
  stopsAt Str.isDigit post = true -> addressFree post = true ->
  replaceAll false re_unprefixed 1 ((N ++ "!") ++ "$1") (pre ++ ref ++ post)%string =
  (pre ++ (N ++ "!") ++ ref ++ post)%string.
Proof.
  intros HN Hfree Hpre Href Hstop Hpost. unfold replaceAll, scanAll.
  rewrite scan_skip.
  2:{ intros bef p1 c p2 E. apply unprefixed_none.
      now apply (address_not_before pre ref post p1). }
  2:{ lia. }
  rewrite str_length_app.
  replace (S (String.length pre + String.length (ref ++ post)) - String.length pre)
    with (S (String.length (ref ++ post))) by lia.
  assert (Hne : ref <> "") by (destruct ref; [discriminate Href | discriminate]).
  rewrite (scan_hit false re_unprefixed ref post _ _ _
             (unprefixed_here pre ref post Hpre Href Hstop) eq_refl Hne).
  rewrite render_app, render_lits. cbn [render caps before].
  rewrite getSubstitution_app_plain by now apply word_notDollar.
  rewrite getSubstitution_group. unfold group. cbn [m_caps lookupCap Nat.eqb].
  rewrite render_no_hits.
  - now rewrite !str_app_assoc.
  - rewrite str_length_app. destruct ref; [congruence | cbn [String.length]; lia].
  - apply (scan_no_match false _ (fun s => addressFree s = true));
      [apply addressFree_tail | | exact Hpost].
    intros bef aft Ha. apply unprefixed_none. now apply addressFree_none.
Qed.

(** ** The rounds of all sheets *)

Lemma normalizeSheets_app (l1 l2 : list string) :
  forall g, normalizeSheets (l1 ++ l2) g =
            (g' <- normalizeSheets l1 g ;; normalizeSheets l2 g').
Proof.
  induction l1 as [|S l1 IH]; intros g; cbn [app normalizeSheets bind]; [reflexivity|].
  destruct (normalizeSheet g S) as [g1| |]; cbn [bind]; [apply IH | reflexivity..].
Qed.

Lemma normalizeSheets_others (X N B : string) (others : list string) :
  stopsAt Str.isWordChar (Str.rev X) = true -> Str.count "!" X = 0 ->
  Str.count "!" B = 0 -> Num.allChars Str.isWordChar N = true ->
  forallb (fun S => wordName S && negb (endsWithCI S N)) others = true ->
  normalizeSheets others (X ++ N ++ "!" ++ B)%string = Returns (X ++ N ++ "!" ++ B)%string.
Proof.
  intros HX HXq HB HN. induction others as [|S others IH]; intros H; [reflexivity|].
  cbn [forallb] in H. apply andb_true_iff in H as [HS Hrest].
  apply andb_true_iff in HS as [HSw HSo]. apply negb_true_iff in HSo.
  apply wordName_chars in HSw as [_ HSw].
  cbn [normalizeSheets]. rewrite normalizeSheet_other by assumption.
  cbn [bind]. now apply IH.
Qed.

(** In a workbook with several sheets whose names are made of word
    characters, none of the other names being an ending of the name of the
    cell's sheet up to case, a formula with one reference to a cell of the
    own sheet gets the reference with the prefix of the sheet in a
    placeholder, and the cell gets its address with the same prefix. *)
Theorem getCellData_sheet_reference (cell : ExcelJS.Cell) (names : list string)
    (rn cn : Z) (before after : list string) (pre ref post : string) :
  names = before ++ ExcelJS.fullAddress_sheetName cell :: after ->
  before ++ after <> [] ->
  wordName (ExcelJS.fullAddress_sheetName cell) = true ->
  forallb (fun S => wordName S
                    && negb (endsWithCI S (ExcelJS.fullAddress_sheetName cell)))
          (before ++ after) = true ->
  translate (rawFormula cell) = Returns (pre ++ ref ++ post)%string ->
  quietBefore pre = true -> isAddress ref = true -> quietAfter post = true ->
  exists cd,
    getCellData cell names rn cn = Returns cd /\
    address cd = (ExcelJS.fullAddress_sheetName cell ++ "!"
                    ++ ExcelJS.fullAddress_address cell)%string /\
    formula cd = (pre ++ "${metric:" ++ ExcelJS.fullAddress_sheetName cell ++ "!"
                      ++ ref ++ "}" ++ post)%string.
Proof.
  intros Hnames Hmore HN Hothers Hf Hpre Href Hpost.
  set (N := ExcelJS.fullAddress_sheetName cell) in *.
  destruct (wordName_chars N HN) as [HNne HNw].
  unfold quietBefore in Hpre. apply andb_true_iff in Hpre as [Hpre Hends].
  apply andb_true_iff in Hpre as [Hfree Hq]. apply Nat.eqb_eq in Hq.
  unfold quietAfter in Hpost. apply andb_true_iff in Hpost as [Hpost Hstop].
  apply andb_true_iff in Hpost as [Hpfree Hpq]. apply Nat.eqb_eq in Hpq.
  rewrite forallb_app in Hothers. apply andb_true_iff in Hothers as [Hbef Haft].
  assert (Hlen : (1 <? List.length names)%nat = true).
  { apply Nat.ltb_lt. rewrite Hnames, length_app. cbn [List.length].
    destruct before, after; cbn [List.length app] in *; try lia. congruence. }
  assert (Href_q : Str.count "!" ref = 0) by (now apply address_count_bang).
  assert (Hloop : normalizeSheets names (pre ++ (N ++ "!") ++ ref ++ post)%string =
                  Returns (pre ++ "${metric:" ++ N ++ "!" ++ ref ++ "}" ++ post)%string).
  { rewrite Hnames, normalizeSheets_app.
    replace (pre ++ (N ++ "!") ++ ref ++ post)%string
      with (pre ++ N ++ "!" ++ ref ++ post)%string by (now rewrite !str_app_assoc).
    rewrite (normalizeSheets_others pre N (ref ++ post)); trivial.
    2:{ now rewrite count_app, Href_q, Hpq. }
    cbn [bind normalizeSheets].
    rewrite normalizeSheet_own by assumption. cbn [bind].
    replace (pre ++ "${metric:" ++ N ++ "!" ++ ref ++ "}" ++ post)%string
      with ((pre ++ "${metric:") ++ N ++ "!" ++ (ref ++ "}" ++ post))%string
      by (now rewrite !str_app_assoc).
    apply normalizeSheets_others; trivial.
    - unfold Str.rev. now rewrite rev_app_app.
    - rewrite count_app, Hq. reflexivity.
    - rewrite count_app, Href_q. cbn [append Str.count]. now rewrite Hpq. }
  unfold getCellData. rewrite Hf. cbn [bind]. rewrite Hlen.
  fold N. rewrite (makePrefix_wordName N HN).
  rewrite prefix_own_sheet by assumption.
  rewrite Hloop. cbn [bind]. eexists. split; [reflexivity|].
  cbn [address formula]. split; [now rewrite str_app_assoc | reflexivity].
Qed.

Lemma getCellData_sheet_reference_witness :
  exists cd,
    getCellData (formulaCell "Totals" "A3" "5" "B1*12") ["Costs"; "Totals"] 3 1
      = Returns cd /\
    address cd = (ExcelJS.fullAddress_sheetName (formulaCell "Totals" "A3" "5" "B1*12")
                    ++ "!" ++ ExcelJS.fullAddress_address
                                (formulaCell "Totals" "A3" "5" "B1*12"))%string /\
    formula cd = ("=" ++ "${metric:"
                      ++ ExcelJS.fullAddress_sheetName
                           (formulaCell "Totals" "A3" "5" "B1*12")
                      ++ "!" ++ "B1" ++ "}" ++ "*12")%string.
Proof.
  refine (getCellData_sheet_reference (formulaCell "Totals" "A3" "5" "B1*12")
            ["Costs"; "Totals"] 3 1 ["Costs"] [] "=" "B1" "*12" _ _ _ _ _ _ _ _).
  - reflexivity.
  - discriminate.
  - reflexivity.
  - reflexivity.
  - vm_compute. reflexivity.
  - reflexivity.
  - reflexivity.
  - reflexivity.
Defined.

Example getCellData_sheet_reference_ex :
  exists cd,
    getCellData (formulaCell "Totals" "A3" "5" "B1*12") ["Costs"; "Totals"] 3 1
      = Returns cd /\
    address cd = "Totals!A3" /\ formula cd = "=${metric:Totals!B1}*12".
Proof. eexists. split; [vm_compute; reflexivity | split; reflexivity]. Qed.
